(** * Sia: transaction validation, wallet transaction builder and
      contract-manager persistence

    A shallow embedding of
      - consensus/validtransaction.go,
      - modules/wallet/transactionbuilder.go,
      - modules/host/contractmanager/persist.go,
    followed by the properties established about them.

    Conventions.  A Go [uintN] is a [Z] with the wrap-around written out
    where the code can wrap; [Currency] (a non-negative big integer) is an
    [N]; a 32-byte hash is the [N] its bytes spell in big-endian order; a Go
    map is a [gmap]; a map or bucket that the code iterates over is a list in
    iteration order; a Go slice that is shared is an address into a store of
    backing arrays.  A function that returns [error] returns an [outcome]:
    [ok], [err e] or [panic] (a Go run-time panic). *)

From Stdlib Require Import ZArith NArith Lia List Bool.
From stdpp Require Import base option list gmap numbers sorting.

#[local] Open Scope Z_scope.

(** ** Outcomes of fallible Go code *)

Module Go.

Inductive outcome (E A : Type) : Type :=
| ok (a : A)
| err (e : E)
| panic.
Arguments ok {E A} a.
Arguments err {E A} e.
Arguments panic {E A}.

Definition bind {E A B} (m : outcome E A) (k : A -> outcome E B) : outcome E B :=
  match m with
  | ok a => k a
  | err e => err e
  | panic => panic
  end.

#[export] Instance outcome_bind {E} : MBind (outcome E) := fun A B k m => bind m k.
#[export] Instance outcome_ret {E} : MRet (outcome E) := fun A a => ok a.

(** Wrap-around of unsigned machine integers. *)
Definition wrap (bits : Z) (x : Z) : Z := x mod 2 ^ bits.
Definition uint64_max : Z := 2 ^ 64 - 1.
Definition uint64_sub (a b : Z) : Z := wrap 64 (a - b).
Definition uint64_add (a b : Z) : Z := wrap 64 (a + b).

(** [int64(x)] of a uint64 [x]: the two's-complement reading. *)
Definition int64_of_uint64 (x : Z) : Z :=
  if Z_lt_dec x (2 ^ 63) then x else x - 2 ^ 64.

(** The 32 bytes of a hash, most significant first ([h[:]]). *)
Fixpoint be_bytes (n : nat) (h : N) : list N :=
  match n with
  | O => []
  | S n' => be_bytes n' (N.div h 256) ++ [N.modulo h 256]
  end.

(** [new(big.Int).SetBytes(b)]: the big-endian value of a byte string. *)
Definition be_value (b : list N) : N :=
  fold_left (fun acc x => (acc * 256 + x)%N) b 0%N.

(** The sum of a list of currency values. *)
Fixpoint sumN (l : list N) : N :=
  match l with
  | [] => 0%N
  | x :: rest => (x + sumN rest)%N
  end.

End Go.

Export Go.

(** ** consensus/validtransaction.go *)

Module Consensus.

Abbreviation Hash := N (only parsing).
Abbreviation Currency := N (only parsing).
Abbreviation BlockHeight := Z (only parsing).

Record UnlockConditions := {
  Timelock : BlockHeight;
  PublicKeys : list N;
  SignaturesRequired : Z
}.

Record SiacoinOutput := {
  sco_Value : Currency;
  sco_UnlockHash : Hash
}.

Record SiafundOutput := {
  sfo_Value : Currency;
  sfo_UnlockHash : Hash;
  sfo_ClaimStart : Currency
}.

Record SiacoinInput := {
  sci_ParentID : Hash;
  sci_UnlockConditions : UnlockConditions
}.

Record SiafundInput := {
  sfi_ParentID : Hash;
  sfi_UnlockConditions : UnlockConditions
}.

Record FileContract := {
  FileMerkleRoot : Hash;
  FileSize : Z;
  Start : BlockHeight;
  Expiration : BlockHeight;
  Payout : Currency;
  ValidProofOutputs : list SiacoinOutput;
  MissedProofOutputs : list SiacoinOutput;
  TerminationHash : Hash
}.

Record FileContractTermination := {
  fct_ParentID : Hash;
  TerminationConditions : UnlockConditions;
  Payouts : list SiacoinOutput
}.

Record StorageProof := {
  sp_ParentID : Hash;
  Segment : list N;
  HashSet : list Hash
}.

Record Transaction := {
  SiacoinInputs : list SiacoinInput;
  MinerFees : list Currency;
  SiacoinOutputs : list SiacoinOutput;
  FileContracts : list FileContract;
  FileContractTerminations : list FileContractTermination;
  StorageProofs : list StorageProof;
  SiafundInputs : list SiafundInput;
  SiafundOutputs : list SiafundOutput;
  Signatures : list N
}.

(** The consensus state as far as validation reads it.  [currentPath] is
    indexed by block height; a height without an entry reads as the zero
    block ID, as a Go map does. *)
Record State := {
  siacoinOutputs : gmap N SiacoinOutput;
  siafundOutputs : gmap N SiafundOutput;
  fileContracts : gmap N FileContract;
  currentPath : gmap Z N;
  height : BlockHeight
}.

(** One constructor per error value or message of the file. *)
Inductive error : Set :=
| ErrMissingSiacoinOutput
| ErrMissingFileContract
| ErrMissingSiafundOutput
| ErrProofsAndSiacoinOutputs
| ErrProofsAndFileContracts
| ErrProofsAndTerminations
| ErrProofsAndSiafundOutputs
| ErrUnlockHashMismatch
| ErrTimelockNotMet
| ErrInputsNotOutputs
| ErrContractStart
| ErrContractDuration
| ErrValidProofSum
| ErrMissedProofSum
| ErrTerminationPayouts
| ErrUnrecognizedContractID
| ErrNoTriggerBlock
| ErrUnrecognizedProofContract
| ErrInvalidStorageProof
| ErrInvalidSiafundOutput
| ErrSiafundsNotEqual
| ErrSignatures (code : N).

Abbreviation result := (outcome error) (only parsing).

(** What validtransaction.go calls and the repository defines elsewhere:
    hashing and Merkle verification of package crypto, the unlock hash of
    unlock conditions, currency subtraction, the siafund tax and the
    signature check. *)
Class Primitives := {
  UnlockHash : UnlockConditions -> Hash;
  HashBytes : list N -> Hash;
  CalculateSegments : Z -> Z;
  VerifySegment : list N -> list Hash -> Z -> Z -> Hash -> bool;
  CurrencySub : Currency -> Currency -> Currency;
  TaxOf : Currency -> Currency;
  validSignatures : State -> Transaction -> result unit
}.

(** Modelled from the spec: [FileContract.Tax] is not in the sources; the
    spec has it as a fixed deterministic function of the payout. *)
Definition Tax `{Primitives} (fc : FileContract) : Currency := TaxOf (Payout fc).

Definition FollowsStorageProofRules (t : Transaction) : result unit :=
  if decide (length (StorageProofs t) = 0%nat) then ok tt
  else if decide (length (SiacoinOutputs t) <> 0%nat) then err ErrProofsAndSiacoinOutputs
  else if decide (length (FileContracts t) <> 0%nat) then err ErrProofsAndFileContracts
  else if decide (length (FileContractTerminations t) <> 0%nat) then err ErrProofsAndTerminations
  else if decide (length (SiafundOutputs t) <> 0%nat) then err ErrProofsAndSiafundOutputs
  else ok tt.

(** [for _, x := range xs { sum = sum.Add(f x) }] *)
Definition addAll {A} (f : A -> Currency) (xs : list A) (sum : Currency) : Currency :=
  fold_left (fun acc x => (acc + f x)%N) xs sum.

Definition SiacoinOutputSum (t : Transaction) : Currency :=
  let sum := 0%N in
  let sum := addAll (fun fee => fee) (MinerFees t) sum in
  let sum := addAll Payout (FileContracts t) sum in
  let sum := addAll sco_Value (SiacoinOutputs t) sum in
  sum.

Section Validation.
Context `{Primitives}.

Definition validUnlockConditions (s : State) (uc : UnlockConditions) (uh : Hash) : result unit :=
  if decide (UnlockHash uc <> uh) then err ErrUnlockHashMismatch
  else if decide (Timelock uc > height s) then err ErrTimelockNotMet
  else ok tt.

(** The loop of [validSiacoins], threading [inputSum]. *)
Fixpoint validSiacoins_inputs (s : State) (inputs : list SiacoinInput) (inputSum : Currency)
  : result Currency :=
  match inputs with
  | [] => ok inputSum
  | sci :: rest =>
      match siacoinOutputs s !! sci_ParentID sci with
      | None => err ErrMissingSiacoinOutput
      | Some sco =>
          validUnlockConditions s (sci_UnlockConditions sci) (sco_UnlockHash sco) ;;
          validSiacoins_inputs s rest (inputSum + sco_Value sco)%N
      end
  end.

Definition validSiacoins (s : State) (t : Transaction) : result unit :=
  inputSum ← validSiacoins_inputs s (SiacoinInputs t) 0%N;
  if decide ((inputSum ?= SiacoinOutputSum t)%N <> Eq) then err ErrInputsNotOutputs
  else ok tt.

(** The body of the loop of [validFileContracts]. *)
Definition validFileContract (s : State) (fc : FileContract) : result unit :=
  if decide (Start fc <= height s) then err ErrContractStart
  else if decide (Expiration fc <= Start fc) then err ErrContractDuration
  else
    let validProofOutputSum := addAll sco_Value (ValidProofOutputs fc) 0%N in
    let missedProofOutputSum := addAll sco_Value (MissedProofOutputs fc) 0%N in
    let outputPortion := CurrencySub (Payout fc) (Tax fc) in
    if decide ((validProofOutputSum ?= outputPortion)%N <> Eq) then err ErrValidProofSum
    else if decide ((missedProofOutputSum ?= Payout fc)%N <> Eq) then err ErrMissedProofSum
    else ok tt.

Fixpoint validFileContracts_loop (s : State) (fcs : list FileContract) : result unit :=
  match fcs with
  | [] => ok tt
  | fc :: rest => validFileContract s fc ;; validFileContracts_loop s rest
  end.

Definition validFileContracts (s : State) (t : Transaction) : result unit :=
  validFileContracts_loop s (FileContracts t).

Definition validFileContractTermination (s : State) (fct : FileContractTermination)
  : result unit :=
  match fileContracts s !! fct_ParentID fct with
  | None => err ErrMissingFileContract
  | Some fc =>
      validUnlockConditions s (TerminationConditions fct) (TerminationHash fc) ;;
      let payoutSum := addAll sco_Value (Payouts fct) 0%N in
      if decide ((payoutSum ?= Payout fc)%N <> Eq) then err ErrTerminationPayouts
      else ok tt
  end.

Fixpoint validFileContractTerminations_loop (s : State) (fcts : list FileContractTermination)
  : result unit :=
  match fcts with
  | [] => ok tt
  | fct :: rest =>
      validFileContractTermination s fct ;; validFileContractTerminations_loop s rest
  end.

Definition validFileContractTerminations (s : State) (t : Transaction) : result unit :=
  validFileContractTerminations_loop s (FileContractTerminations t).

(** [s.currentPath[h]]: the zero block ID where the path has no entry. *)
Definition pathAt (s : State) (h : BlockHeight) : N := default 0%N (currentPath s !! h).

Definition storageProofSegment (s : State) (fcid : Hash) : result Z :=
  match fileContracts s !! fcid with
  | None => err ErrUnrecognizedContractID
  | Some fc =>
      let triggerHeight := uint64_sub (Start fc) 1 in
      if decide (triggerHeight > height s) then err ErrNoTriggerBlock
      else
        let triggerID := pathAt s triggerHeight in
        let seed := HashBytes (be_bytes 32 triggerID ++ be_bytes 32 fcid) in
        let numSegments := int64_of_uint64 (CalculateSegments (FileSize fc)) in
        let seedInt := Z.of_N (be_value (be_bytes 32 seed)) in
        (* big.Int.Mod panics on a zero modulus and is Euclidean otherwise *)
        if decide (numSegments = 0) then panic
        else ok (wrap 64 (seedInt mod Z.abs numSegments))
  end.

Definition validStorageProof (s : State) (sp : StorageProof) : result unit :=
  match fileContracts s !! sp_ParentID sp with
  | None => err ErrUnrecognizedProofContract
  | Some fc =>
      segmentIndex ← storageProofSegment s (sp_ParentID sp);
      let verified :=
        VerifySegment (Segment sp) (HashSet sp) (CalculateSegments (FileSize fc))
          segmentIndex (FileMerkleRoot fc) in
      if negb verified then err ErrInvalidStorageProof else ok tt
  end.

Fixpoint validStorageProofs_loop (s : State) (sps : list StorageProof) : result unit :=
  match sps with
  | [] => ok tt
  | sp :: rest => validStorageProof s sp ;; validStorageProofs_loop s rest
  end.

Definition validStorageProofs (s : State) (t : Transaction) : result unit :=
  validStorageProofs_loop s (StorageProofs t).

Fixpoint validSiafunds_inputs (s : State) (inputs : list SiafundInput) (siafundInputSum : Currency)
  : result Currency :=
  match inputs with
  | [] => ok siafundInputSum
  | sfi :: rest =>
      match siafundOutputs s !! sfi_ParentID sfi with
      | None => err ErrMissingSiafundOutput
      | Some sfo =>
          validUnlockConditions s (sfi_UnlockConditions sfi) (sfo_UnlockHash sfo) ;;
          validSiafunds_inputs s rest (siafundInputSum + sfo_Value sfo)%N
      end
  end.

Fixpoint validSiafunds_outputs (outputs : list SiafundOutput) (siafundOutputSum : Currency)
  : result Currency :=
  match outputs with
  | [] => ok siafundOutputSum
  | sfo :: rest =>
      if decide ((sfo_ClaimStart sfo ?= 0)%N <> Eq) then err ErrInvalidSiafundOutput
      else validSiafunds_outputs rest (siafundOutputSum + sfo_Value sfo)%N
  end.

Definition validSiafunds (s : State) (t : Transaction) : result unit :=
  siafundInputSum ← validSiafunds_inputs s (SiafundInputs t) 0%N;
  siafundOutputSum ← validSiafunds_outputs (SiafundOutputs t) 0%N;
  if decide ((siafundOutputSum ?= siafundInputSum)%N <> Eq) then err ErrSiafundsNotEqual
  else ok tt.

Definition validTransaction (s : State) (t : Transaction) : result unit :=
  FollowsStorageProofRules t ;;
  validSiacoins s t ;;
  validFileContracts s t ;;
  validFileContractTerminations s t ;;
  validStorageProofs s t ;;
  validSiafunds s t ;;
  validSignatures s t.

End Validation.

(** *** Vocabulary of the statements about validation *)

(** The values, looked up in the state, of the outputs that the siacoin
    inputs of a transaction reference; [None] when one does not exist. *)
Definition inputValues (s : State) (t : Transaction) : option (list Currency) :=
  mapM (fun sci => sco_Value <$> siacoinOutputs s !! sci_ParentID sci) (SiacoinInputs t).

(** What a transaction pays out in siacoins: fees, contract payouts and
    siacoin outputs. *)
Definition outputTotal (t : Transaction) : Currency :=
  (sumN (MinerFees t) + sumN (Payout <$> FileContracts t)
   + sumN (sco_Value <$> SiacoinOutputs t))%N.

(** The errors of the storage-proof exclusivity check. *)
Definition exclusivityError (e : error) : Prop :=
  e = ErrProofsAndSiacoinOutputs \/ e = ErrProofsAndFileContracts \/
  e = ErrProofsAndTerminations \/ e = ErrProofsAndSiafundOutputs.

Definition noForbiddenFields (t : Transaction) : Prop :=
  SiacoinOutputs t = [] /\ FileContracts t = [] /\
  FileContractTerminations t = [] /\ SiafundOutputs t = [].

(** The four conditions on a new file contract, in the order in which they
    are checked. *)
Inductive condition : Set :=
| StartsInFuture
| LastsOneBlock
| ValidProofsSum
| MissedProofsSum.

Definition rank (c : condition) : nat :=
  match c with
  | StartsInFuture => 0
  | LastsOneBlock => 1
  | ValidProofsSum => 2
  | MissedProofsSum => 3
  end.

Definition errorOf (c : condition) : error :=
  match c with
  | StartsInFuture => ErrContractStart
  | LastsOneBlock => ErrContractDuration
  | ValidProofsSum => ErrValidProofSum
  | MissedProofsSum => ErrMissedProofSum
  end.

Definition holds `{Primitives} (s : State) (fc : FileContract) (c : condition) : Prop :=
  match c with
  | StartsInFuture => Start fc > height s
  | LastsOneBlock => Expiration fc > Start fc
  | ValidProofsSum =>
      sumN (sco_Value <$> ValidProofOutputs fc) = CurrencySub (Payout fc) (TaxOf (Payout fc))
  | MissedProofsSum => sumN (sco_Value <$> MissedProofOutputs fc) = Payout fc
  end.

Definition lawful `{Primitives} (s : State) (fc : FileContract) : Prop :=
  forall c, holds s fc c.

(** Unlock conditions that open the unlock hash [uh] at the height of the
    state: they hash to it and their timelock has run out. *)
Definition unlocks `{Primitives} (s : State) (uc : UnlockConditions) (uh : Hash) : Prop :=
  UnlockHash uc = uh /\ Timelock uc <= height s.

(** An input that spends an output of the state under conditions that open it. *)
Definition spendsSiacoin `{Primitives} (s : State) (sci : SiacoinInput) : Prop :=
  exists sco, siacoinOutputs s !! sci_ParentID sci = Some sco
    /\ unlocks s (sci_UnlockConditions sci) (sco_UnlockHash sco).

Definition spendsSiafund `{Primitives} (s : State) (sfi : SiafundInput) : Prop :=
  exists sfo, siafundOutputs s !! sfi_ParentID sfi = Some sfo
    /\ unlocks s (sfi_UnlockConditions sfi) (sfo_UnlockHash sfo).

(** The values of the siafund outputs that the siafund inputs reference. *)
Definition siafundInputValues (s : State) (t : Transaction) : option (list Currency) :=
  mapM (fun sfi => sfo_Value <$> siafundOutputs s !! sfi_ParentID sfi) (SiafundInputs t).

(** A termination of a contract of the state, under conditions that open
    its termination hash, that pays out the payout of the contract. *)
Definition lawfulTermination `{Primitives} (s : State) (fct : FileContractTermination) : Prop :=
  exists fc, fileContracts s !! fct_ParentID fct = Some fc
    /\ unlocks s (TerminationConditions fct) (TerminationHash fc)
    /\ sumN (sco_Value <$> Payouts fct) = Payout fc.

(** A storage proof of a contract of the state that verifies against the
    segment that [storageProofSegment] picks. *)
Definition provenProof `{Primitives} (s : State) (sp : StorageProof) : Prop :=
  exists fc index, fileContracts s !! sp_ParentID sp = Some fc
    /\ storageProofSegment s (sp_ParentID sp) = ok index
    /\ VerifySegment (Segment sp) (HashSet sp) (CalculateSegments (FileSize fc)) index
         (FileMerkleRoot fc) = true.

(** The errors that the loop over the storage proofs produces itself. *)
Definition storageProofError (e : error) : Prop :=
  e = ErrUnrecognizedProofContract \/ e = ErrNoTriggerBlock \/ e = ErrInvalidStorageProof.

(** The same state at another height. *)
Definition atHeight (s : State) (h : BlockHeight) : State :=
  {| siacoinOutputs := siacoinOutputs s; siafundOutputs := siafundOutputs s;
     fileContracts := fileContracts s; currentPath := currentPath s; height := h |}.

(** *** A runnable instance of the primitives

    Stand-ins with the interfaces of the real primitives, used to run the
    validator on concrete transactions: the unlock hash folds the fields of
    the unlock conditions, a file is one Merkle segment per 64 bytes whose
    proof is accepted when the segment hashes to the root, the tax is 3.9 percent
    rounded down, and every signature list is accepted. *)
Definition runPrimitives : Primitives := {|
  UnlockHash uc := (Z.to_N (Timelock uc) + sumN (PublicKeys uc) + Z.to_N (SignaturesRequired uc))%N;
  HashBytes b := (be_value b mod 2 ^ 256)%N;
  CalculateSegments size := (size + 63) / 64;
  VerifySegment seg _ _ _ root := N.eqb (be_value seg mod 2 ^ 256) root;
  CurrencySub a b := (a - b)%N;
  TaxOf p := (p * 39 / 1000)%N;
  validSignatures _ _ := ok tt
|}.

(** *** Concrete states and transactions *)

Definition keyholder : UnlockConditions :=
  {| Timelock := 0; PublicKeys := [5%N]; SignaturesRequired := 1 |}.

Definition emptyTransaction : Transaction :=
  {| SiacoinInputs := []; MinerFees := []; SiacoinOutputs := []; FileContracts := [];
     FileContractTerminations := []; StorageProofs := []; SiafundInputs := [];
     SiafundOutputs := []; Signatures := [] |}.

(** Height 5; output 1 holds 100 and output 2 holds 1000, both of [keyholder]. *)
Definition smallState : State :=
  {| siacoinOutputs :=
       <[1%N := {| sco_Value := 100; sco_UnlockHash := 6 |}]>
         (<[2%N := {| sco_Value := 1000; sco_UnlockHash := 6 |}]> ∅);
     siafundOutputs := ∅;
     fileContracts := ∅;
     currentPath := ∅;
     height := 5 |}.

(** Spends output 1: 60 to address 9, 30 back, 10 to the miner. *)
Definition payment : Transaction :=
  {| SiacoinInputs := [ {| sci_ParentID := 1; sci_UnlockConditions := keyholder |} ];
     MinerFees := [10%N];
     SiacoinOutputs := [ {| sco_Value := 60; sco_UnlockHash := 9 |};
                         {| sco_Value := 30; sco_UnlockHash := 6 |} ];
     FileContracts := []; FileContractTerminations := []; StorageProofs := [];
     SiafundInputs := []; SiafundOutputs := []; Signatures := [] |}.

(** A contract over blocks 10 to 20 with payout 1000, of which 39 is tax. *)
Definition contract1000 : FileContract :=
  {| FileMerkleRoot := 1; FileSize := 64; Start := 10; Expiration := 20; Payout := 1000;
     ValidProofOutputs := [ {| sco_Value := 961; sco_UnlockHash := 9 |} ];
     MissedProofOutputs := [ {| sco_Value := 1000; sco_UnlockHash := 6 |} ];
     TerminationHash := 6 |}.

(** Spends output 2 on [contract1000]. *)
Definition contractCreation : Transaction :=
  {| SiacoinInputs := [ {| sci_ParentID := 2; sci_UnlockConditions := keyholder |} ];
     MinerFees := []; SiacoinOutputs := [];
     FileContracts := [contract1000];
     FileContractTerminations := []; StorageProofs := [];
     SiafundInputs := []; SiafundOutputs := []; Signatures := [] |}.

(** The same with valid-proof outputs that sum to 900 instead of 961. *)
Definition contractShort : Transaction :=
  {| SiacoinInputs := [ {| sci_ParentID := 2; sci_UnlockConditions := keyholder |} ];
     MinerFees := []; SiacoinOutputs := [];
     FileContracts :=
       [ {| FileMerkleRoot := 1; FileSize := 64; Start := 10; Expiration := 20; Payout := 1000;
            ValidProofOutputs := [ {| sco_Value := 900; sco_UnlockHash := 9 |} ];
            MissedProofOutputs := [ {| sco_Value := 1000; sco_UnlockHash := 6 |} ];
            TerminationHash := 6 |} ];
     FileContractTerminations := []; StorageProofs := [];
     SiafundInputs := []; SiafundOutputs := []; Signatures := [] |}.

(** A storage proof for contract 7. *)
Definition proof7 : StorageProof :=
  {| sp_ParentID := 7; Segment := [1%N]; HashSet := [] |}.

(** A storage proof together with a siacoin output. *)
Definition proofWithOutput : Transaction :=
  {| SiacoinInputs := []; MinerFees := [];
     SiacoinOutputs := [ {| sco_Value := 60; sco_UnlockHash := 9 |} ];
     FileContracts := []; FileContractTerminations := [];
     StorageProofs := [proof7];
     SiafundInputs := []; SiafundOutputs := []; Signatures := [] |}.

(** Nothing but the storage proof. *)
Definition proofOnly : Transaction :=
  {| SiacoinInputs := []; MinerFees := []; SiacoinOutputs := [];
     FileContracts := []; FileContractTerminations := [];
     StorageProofs := [proof7];
     SiafundInputs := []; SiafundOutputs := []; Signatures := [] |}.

(** A contract whose window starts at block 0. *)
Definition zeroStartContract : FileContract :=
  {| FileMerkleRoot := 1; FileSize := 64; Start := 0; Expiration := 20; Payout := 1000;
     ValidProofOutputs := []; MissedProofOutputs := []; TerminationHash := 6 |}.

(** Contract 7 is [zeroStartContract]; the chain is at the given height. *)
Definition zeroStartState (h : BlockHeight) : State :=
  {| siacoinOutputs := ∅; siafundOutputs := ∅;
     fileContracts := <[7%N := zeroStartContract]> ∅;
     currentPath := ∅;
     height := h |}.

(** A contract over a file of 640 bytes, ten segments, and one over an
    empty file, both from block 10 on. *)
Definition tenSegments : FileContract :=
  {| FileMerkleRoot := 1; FileSize := 640; Start := 10; Expiration := 20; Payout := 1000;
     ValidProofOutputs := []; MissedProofOutputs := []; TerminationHash := 6 |}.

Definition emptyFile : FileContract :=
  {| FileMerkleRoot := 1; FileSize := 0; Start := 10; Expiration := 20; Payout := 1000;
     ValidProofOutputs := []; MissedProofOutputs := []; TerminationHash := 6 |}.

(** Height 15; contract 7 is [tenSegments], contract 8 is [emptyFile];
    block 9 has the ID 12345. *)
Definition provingState : State :=
  {| siacoinOutputs := ∅; siafundOutputs := ∅;
     fileContracts := <[7%N := tenSegments]> (<[8%N := emptyFile]> ∅);
     currentPath := <[9 := 12345%N]> ∅;
     height := 15 |}.

(** A storage proof for contract 8, the contract of the empty file. *)
Definition proofOfEmptyFile : Transaction :=
  {| SiacoinInputs := []; MinerFees := []; SiacoinOutputs := [];
     FileContracts := []; FileContractTerminations := [];
     StorageProofs := [ {| sp_ParentID := 8; Segment := [1%N]; HashSet := [] |} ];
     SiafundInputs := []; SiafundOutputs := []; Signatures := [] |}.

End Consensus.

(** ** modules/host/contractmanager/persist.go *)

Module ContractManager.
#[local] Open Scope N_scope.

(** Bytes, slot indices, folder indices and 64-bit words are naturals here.
    The two counters of reads are [uint64] and wrap around, as
    [atomic.AddUint64] does.  The product
    [sectorMetadataDiskSize * sectorIndex] and the count [sf.sectors] are
    taken without wrap-around: the types of a slot index and of the fields
    of a storage folder are declared outside the sources. *)
Abbreviation sectorID := (list N) (only parsing).

(** Modelled from the spec: the constants are not in the sources; the
    spec gives [sectorMetadataDiskSize = 14] and 64 slots per usage word. *)
Definition sectorMetadataDiskSize : N := 14.
Definition storageFolderGranularity : N := 64.

Record sectorLocation := {
  sl_index : N;
  sl_storageFolder : N;
  sl_count : N
}.

(** [sf.usage] is a slice: the address of its backing array in the store of
    the contract manager.  [metadataFile] is the content of the open file,
    or [None] when reading it fails.  [queuedSectors] lists the map in the
    order in which a [range] goes through it. *)
Record storageFolder := {
  index : N;
  path : list N;
  usage : N;
  metadataFile : option (list N);
  queuedSectors : list (sectorID * N);
  sectors : N;
  atomicFailedReads : N;
  atomicSuccessfulReads : N
}.

Record savedStorageFolder := {
  Index : N;
  Path : list N;
  Usage : N
}.

Record savedSettings := {
  SectorSalt : N;
  StorageFolders : list savedStorageFolder
}.

(** [storageFolders] holds the entries of the map [cm.storageFolders];
    [store] holds the backing arrays of the usage slices.  Go leaves the
    order of a [range] over a map open, and it may differ from one [range]
    to the next: a function that ranges over the map takes the order of its
    range as [ranged], the positions of the entries in [storageFolders] in
    the order in which the range yields them. *)
Record ContractManager := {
  sectorSalt : N;
  storageFolders : list storageFolder;
  sectorLocations : gmap (list N) sectorLocation;
  store : gmap N (list N)
}.

(** The entries of the map as a range yields them. *)
Definition visited (ranged : list nat) (folders : list storageFolder) : list storageFolder :=
  omap (fun i => folders !! i) ranged.

(** The words of a usage slice; an address without an array is a nil slice. *)
Definition words (st : gmap N (list N)) (a : N) : list N := default [] (st !! a).

(** Bit [k mod 64] of word [k / 64]. *)
Definition usageBit (u : list N) (k : N) : bool :=
  N.testbit (default 0%N (u !! N.to_nat (k / storageFolderGranularity)))
            (k mod storageFolderGranularity).

(** Modelled from the spec: [usageSectors] is not in the sources; it returns
    the sorted list of the set bit positions of a usage bitmap. *)
Definition usageSectors (u : list N) : list N :=
  filter (fun k => usageBit u k = true)
         (N.of_nat <$> seq 0 (length u * N.to_nat storageFolderGranularity)%nat).

(** Modelled from the spec: [clearUsage] and [setUsage] are not in the
    sources; they are the bit operations on the word of the slot, written
    through the slice into its backing array.  [None] is the panic of an
    index out of range. *)
Definition updateUsage (f : N -> N -> N) (st : gmap N (list N)) (sf : storageFolder)
    (sectorIndex : N) : option (gmap N (list N)) :=
  let u := words st (usage sf) in
  let w := N.to_nat (sectorIndex / storageFolderGranularity) in
  word ← u !! w;
  Some (<[usage sf := <[w := f word (sectorIndex mod storageFolderGranularity)]> u]> st).

Definition clearUsage := updateUsage N.clearbit.
Definition setUsage := updateUsage N.setbit.

(** Modelled from the spec: [readFullMetadata] is not in the sources; it
    reads the records of [numSectors] slots from the start of the metadata
    file and fails when the file cannot be read or is shorter. *)
Definition readFullMetadata (f : option (list N)) (numSectors : N) : outcome unit (list N) :=
  match f with
  | None => err tt
  | Some content =>
      let n := N.to_nat (numSectors * sectorMetadataDiskSize) in
      if decide (length content < n)%nat then err tt else ok (take n content)
  end.

(** [b[lo:hi]]; [None] is the panic of a slice bound out of range. *)
Definition slice (b : list N) (lo hi : N) : option (list N) :=
  if decide (lo <= hi /\ (N.to_nat hi <= length b)%nat)
  then Some (take (N.to_nat (hi - lo)) (drop (N.to_nat lo) b))
  else None.

(** [binary.LittleEndian.Uint16]. *)
Definition Uint16 (b : list N) : N :=
  (default 0 (b !! 0%nat) + 256 * default 0 (b !! 1%nat))%N.

(** [savedStorageFolder]: the slice header is copied, the array is shared. *)
Definition savedStorageFolderOf (sf : storageFolder) : savedStorageFolder :=
  {| Index := index sf; Path := path sf; Usage := usage sf |}.

(** [sf.sectors += 1], and [atomic.AddUint64(&counter, 1)] for the two
    counters of reads. *)
Definition addSector (sf : storageFolder) : storageFolder :=
  {| index := index sf; path := path sf; usage := usage sf;
     metadataFile := metadataFile sf; queuedSectors := queuedSectors sf;
     sectors := sectors sf + 1;
     atomicFailedReads := atomicFailedReads sf;
     atomicSuccessfulReads := atomicSuccessfulReads sf |}.

Definition addFailedRead (sf : storageFolder) : storageFolder :=
  {| index := index sf; path := path sf; usage := usage sf;
     metadataFile := metadataFile sf; queuedSectors := queuedSectors sf;
     sectors := sectors sf;
     atomicFailedReads := (atomicFailedReads sf + 1) mod 2 ^ 64;
     atomicSuccessfulReads := atomicSuccessfulReads sf |}.

Definition addSuccessfulRead (sf : storageFolder) : storageFolder :=
  {| index := index sf; path := path sf; usage := usage sf;
     metadataFile := metadataFile sf; queuedSectors := queuedSectors sf;
     sectors := sectors sf;
     atomicFailedReads := atomicFailedReads sf;
     atomicSuccessfulReads := (atomicSuccessfulReads sf + 1) mod 2 ^ 64 |}.

(** The body of the inner loop of [loadSectorLocations]. *)
Definition loadSector (sectorLookupBytes : list N)
    (acc : gmap (list N) sectorLocation * storageFolder) (sectorIndex : N)
    : option (gmap (list N) sectorLocation * storageFolder) :=
  let '(locations, sf) := acc in
  let readHead := (sectorMetadataDiskSize * sectorIndex)%N in
  id ← slice sectorLookupBytes readHead (readHead + 12);
  countBytes ← slice sectorLookupBytes (readHead + 12) (readHead + 14);
  let count := Uint16 countBytes in
  let sl := {| sl_index := sectorIndex; sl_storageFolder := index sf; sl_count := count |} in
  Some (<[id := sl]> locations, addSector sf).

Fixpoint loadSectors (sectorLookupBytes : list N) (sectorIndices : list N)
    (acc : gmap (list N) sectorLocation * storageFolder)
    : option (gmap (list N) sectorLocation * storageFolder) :=
  match sectorIndices with
  | [] => Some acc
  | sectorIndex :: rest =>
      acc' ← loadSector sectorLookupBytes acc sectorIndex;
      loadSectors sectorLookupBytes rest acc'
  end.

(** The body of the outer loop of [loadSectorLocations]. *)
Definition loadFolder (st : gmap N (list N)) (locations : gmap (list N) sectorLocation)
    (sf : storageFolder) : option (gmap (list N) sectorLocation * storageFolder) :=
  let u := words st (usage sf) in
  match readFullMetadata (metadataFile sf) (N.of_nat (length u) * storageFolderGranularity) with
  | ok sectorLookupBytes =>
      loadSectors sectorLookupBytes (usageSectors u) (locations, addSuccessfulRead sf)
  | _ => Some (locations, addFailedRead sf)
  end.

(** The outer loop of [loadSectorLocations] over the entries in the order
    [ranged].  The map holds pointers: what the body does to a folder is
    done to the entry of the map. *)
Fixpoint loadFolders (st : gmap N (list N)) (ranged : list nat)
    (folders : list storageFolder) (locations : gmap (list N) sectorLocation)
    : option (gmap (list N) sectorLocation * list storageFolder) :=
  match ranged with
  | [] => Some (locations, folders)
  | i :: rest =>
      match folders !! i with
      | None => loadFolders st rest folders locations
      | Some sf =>
          '(locations1, sf') ← loadFolder st locations sf;
          loadFolders st rest (<[i := sf']> folders) locations1
      end
  end.

(** [ranged] is the order of the range over [cm.storageFolders].  [None]
    is a panic. *)
Definition loadSectorLocations (ranged : list nat) (cm : ContractManager)
  : option ContractManager :=
  '(locations, folders) ←
    loadFolders (store cm) ranged (storageFolders cm) (sectorLocations cm);
  Some {| sectorSalt := sectorSalt cm; storageFolders := folders;
          sectorLocations := locations; store := store cm |}.

(** [for _, sectorIndex := range sf.queuedSectors { op(sectorIndex) }] *)
Fixpoint forQueued (op : gmap N (list N) -> storageFolder -> N -> option (gmap N (list N)))
    (sf : storageFolder) (queued : list (sectorID * N)) (st : gmap N (list N))
    : option (gmap N (list N)) :=
  match queued with
  | [] => Some st
  | (_, sectorIndex) :: rest =>
      st' ← op st sf sectorIndex;
      forQueued op sf rest st'
  end.

(** The loop of [savedSettings], threading the store and the folders
    appended so far. *)
Fixpoint savedSettings_folders (folders : list storageFolder) (st : gmap N (list N))
    (saved : list savedStorageFolder) : option (list savedStorageFolder * gmap N (list N)) :=
  match folders with
  | [] => Some (saved, st)
  | sf :: rest =>
      st1 ← forQueued clearUsage sf (queuedSectors sf) st;
      let saved1 := saved ++ [savedStorageFolderOf sf] in
      st2 ← forQueued setUsage sf (queuedSectors sf) st1;
      savedSettings_folders rest st2 saved1
  end.

(** [savedSettings] returns the settings; the second component is the store
    of the contract manager when the call returns.  [ranged] is the order of
    the range over [cm.storageFolders].  [None] is a panic. *)
Definition savedSettingsOf (ranged : list nat) (cm : ContractManager)
  : option (savedSettings * gmap N (list N)) :=
  '(folders, st) ←
    savedSettings_folders (visited ranged (storageFolders cm)) (store cm) [];
  Some ({| SectorSalt := sectorSalt cm; StorageFolders := folders |}, st).

(** *** Loading and initialising the settings *)

(** The two files of a storage folder, [metadataFile] and [sectorFile]. *)
Inductive fileName : Set := metadataFileName | sectorFileName.

(** What [loadFile] does with the settings file: it is missing
    ([os.IsNotExist]), reading fails otherwise, or the settings are decoded
    (the usage slices of the decoded folders are addresses of the store). *)
Inductive loaded : Type :=
| notExist
| loadFailed (code : N)
| loadedSettings (ss : savedSettings).

(** [cm.dependencies], as far as persist.go calls it.  An open metadata
    file is its content, or [None] when reading it will fail. *)
Record dependencies := {
  loadFile : loaded;
  openFile : list N -> fileName -> outcome N (option (list N))
}.

(** What persist.go calls directly and the repository defines elsewhere:
    the random bytes of [crypto.Read] and [persist.SaveFileSync], which is
    given the settings and the store that holds their usage arrays. *)
Class Primitives := {
  cryptoRead : N;
  SaveFileSync : savedSettings -> gmap N (list N) -> outcome N unit
}.

(** One constructor per message that [build.ExtendErr] is given; the code
    is the error of the callee. *)
Inductive settingsError : Set :=
| errSavingAfterInit (code : N)
| errLoadingSettingsFile (code : N)
| errSectorFileHandle (code : N)
| errSectorMetadataFileHandle (code : N).

Definition setSectorSalt (cm : ContractManager) (salt : N) : ContractManager :=
  {| sectorSalt := salt; storageFolders := storageFolders cm;
     sectorLocations := sectorLocations cm; store := store cm |}.

Definition setStore (cm : ContractManager) (st : gmap N (list N)) : ContractManager :=
  {| sectorSalt := sectorSalt cm; storageFolders := storageFolders cm;
     sectorLocations := sectorLocations cm; store := st |}.

Definition setStorageFolders (cm : ContractManager) (folders : list storageFolder)
  : ContractManager :=
  {| sectorSalt := sectorSalt cm; storageFolders := folders;
     sectorLocations := sectorLocations cm; store := store cm |}.

(** [cm.storageFolders[sf.index] = sf]: the folder replaces the entry of
    its index, or is a new entry. *)
Fixpoint putFolder (sf : storageFolder) (folders : list storageFolder) : list storageFolder :=
  match folders with
  | [] => [sf]
  | sf0 :: rest =>
      if decide (index sf0 = index sf) then sf :: rest else sf0 :: putFolder sf rest
  end.

(** [cm.storageFolders[i]]. *)
Fixpoint folderAt (folders : list storageFolder) (i : N) : option storageFolder :=
  match folders with
  | [] => None
  | sf :: rest => if decide (index sf = i) then Some sf else folderAt rest i
  end.

(** [ranged] is the order of the range of [savedSettings]. *)
Definition initSettings `{Primitives} (ranged : list nat) (cm : ContractManager)
  : outcome settingsError unit * ContractManager :=
  let cm1 := setSectorSalt cm cryptoRead in
  match savedSettingsOf ranged cm1 with
  | None => (panic, cm1)
  | Some (ss, st) =>
      let cm2 := setStore cm1 st in
      match SaveFileSync ss st with
      | ok _ => (ok tt, cm2)
      | err code => (err (errSavingAfterInit code), cm2)
      | panic => (panic, cm2)
      end
  end.

(** [new(storageFolder)] with the fields that [loadSettings] sets. *)
Definition loadedFolder (ssf : savedStorageFolder) (handle : option (list N)) : storageFolder :=
  {| index := Index ssf; path := Path ssf; usage := Usage ssf; metadataFile := handle;
     queuedSectors := []; sectors := 0; atomicFailedReads := 0; atomicSuccessfulReads := 0 |}.

(** The loop of [loadSettings].  When the second file cannot be opened the
    first is closed and the folder is dropped with it. *)
Fixpoint loadSettings_folders (deps : dependencies) (saved : list savedStorageFolder)
    (cm : ContractManager) : outcome settingsError unit * ContractManager :=
  match saved with
  | [] => (ok tt, cm)
  | ssf :: rest =>
      match openFile deps (Path ssf) metadataFileName with
      | err code => (err (errSectorFileHandle code), cm)
      | panic => (panic, cm)
      | ok handle =>
          match openFile deps (Path ssf) sectorFileName with
          | err code => (err (errSectorMetadataFileHandle code), cm)
          | panic => (panic, cm)
          | ok _ =>
              loadSettings_folders deps rest
                (setStorageFolders cm (putFolder (loadedFolder ssf handle) (storageFolders cm)))
          end
      end
  end.

(** [ranged] is the order of the range that [initSettings] makes when there
    is no settings file. *)
Definition loadSettings `{Primitives} (ranged : list nat) (deps : dependencies)
    (cm : ContractManager) : outcome settingsError unit * ContractManager :=
  match loadFile deps with
  | notExist => initSettings ranged cm
  | loadFailed code => (err (errLoadingSettingsFile code), cm)
  | loadedSettings ss =>
      loadSettings_folders deps (StorageFolders ss) (setSectorSalt cm (SectorSalt ss))
  end.

(** *** Vocabulary of the statements about persistence *)

(** A range over the map yields every entry once. *)
Definition rangesOver (ranged : list nat) (folders : list storageFolder) : Prop :=
  ranged ≡ₚ seq 0 (length folders).

(** A saved folder both of whose files open. *)
Definition opens (deps : dependencies) (ssf : savedStorageFolder) : Prop :=
  exists handle h, openFile deps (Path ssf) metadataFileName = ok handle
    /\ openFile deps (Path ssf) sectorFileName = ok h.

(** The last folder of the index [i] among saved folders that open, as
    [loadSettings] enters it. *)
Fixpoint lastLoaded (deps : dependencies) (saved : list savedStorageFolder) (i : N)
  : option storageFolder :=
  match saved with
  | [] => None
  | ssf :: rest =>
      match lastLoaded deps rest i with
      | Some sf => Some sf
      | None =>
          if decide (Index ssf = i)
          then
            match openFile deps (Path ssf) metadataFileName with
            | ok handle => Some (loadedFolder ssf handle)
            | _ => None
            end
          else None
      end
  end.

(** A folder after [loadSectorLocations]: one more successful read and one
    more sector per used slot when its metadata is read, one more failed
    read otherwise; the counters of reads wrap around at 2^64. *)
Definition reloaded (st : gmap N (list N)) (sf : storageFolder) : storageFolder :=
  let u := words st (usage sf) in
  match readFullMetadata (metadataFile sf) (N.of_nat (length u) * storageFolderGranularity) with
  | ok _ =>
      {| index := index sf; path := path sf; usage := usage sf;
         metadataFile := metadataFile sf; queuedSectors := queuedSectors sf;
         sectors := sectors sf + N.of_nat (length (usageSectors u));
         atomicFailedReads := atomicFailedReads sf;
         atomicSuccessfulReads := (atomicSuccessfulReads sf + 1) mod 2 ^ 64 |}
  | _ => addFailedRead sf
  end.

(** The 14-byte record of slot [k]: 12 bytes of sector ID, then the count. *)
Definition recordAt (bytes : list N) (k : N) : list N :=
  take 14 (drop (N.to_nat (sectorMetadataDiskSize * k)) bytes).

Definition entryOf (sf : storageFolder) (bytes : list N) (k : N) : list N * sectorLocation :=
  let r := recordAt bytes k in
  (take 12 r,
   {| sl_index := k; sl_storageFolder := index sf; sl_count := Uint16 (drop 12 r) |}).

(** The entries of a folder whose metadata can be read: one per slot whose
    usage bit is set, in increasing slot order. *)
Definition folderEntries (st : gmap N (list N)) (sf : storageFolder)
    : list (list N * sectorLocation) :=
  let u := words st (usage sf) in
  match readFullMetadata (metadataFile sf) (N.of_nat (length u) * storageFolderGranularity) with
  | ok bytes => entryOf sf bytes <$> usageSectors u
  | _ => []
  end.

(** The entries of all folders, in the order of the range. *)
Definition allEntries (ranged : list nat) (cm : ContractManager)
  : list (list N * sectorLocation) :=
  mjoin (folderEntries (store cm) <$> visited ranged (storageFolders cm)).

(** Entering a list of entries into a map, first to last. *)
Definition insertAll (m : gmap (list N) sectorLocation) (es : list (list N * sectorLocation))
  : gmap (list N) sectorLocation :=
  fold_left (fun m e => <[e.1 := e.2]> m) es m.

(** The usage bitmap that a saved folder shows to whoever reads it. *)
Definition savedUsage (st : gmap N (list N)) (ssf : savedStorageFolder) : list N :=
  words st (Usage ssf).

(** The bitmaps that the returned settings show, folder by folder, once
    [savedSettings] has returned. *)
Definition savedUsages (r : savedSettings * gmap N (list N)) : list (list N) :=
  savedUsage r.2 <$> StorageFolders r.1.

(** *** Concrete contract managers *)

(** A metadata file of one usage word: 64 records, all zero except the one
    of slot 42, which holds sector 1..12 with count 3. *)
Definition metadata42 : list N :=
  replicate (42 * 14)%nat 0
  ++ [1; 2; 3; 4; 5; 6; 7; 8; 9; 10; 11; 12; 3; 0]
  ++ replicate (21 * 14)%nat 0.

Definition folder42 : storageFolder :=
  {| index := 5; path := []; usage := 1; metadataFile := Some metadata42;
     queuedSectors := []; sectors := 0; atomicFailedReads := 0; atomicSuccessfulReads := 0 |}.

(** One folder, whose only used slot is 42. *)
Definition restarted : ContractManager :=
  {| sectorSalt := 0; storageFolders := [folder42]; sectorLocations := ∅;
     store := <[1%N := [N.shiftl 1 42]]> ∅ |}.

(** A second folder, of index 6, with a copy of the same metadata file, and
    a contract manager that holds both: the same sector ID is in slot 42 of
    each. *)
Definition folder43 : storageFolder :=
  {| index := 6; path := []; usage := 1; metadataFile := Some metadata42;
     queuedSectors := []; sectors := 0; atomicFailedReads := 0; atomicSuccessfulReads := 0 |}.

Definition twoFolders : ContractManager :=
  {| sectorSalt := 0; storageFolders := [folder42; folder43]; sectorLocations := ∅;
     store := <[1%N := [N.shiftl 1 42]]> ∅ |}.

(** One folder with slots 0 and 1 in use, slot 0 being a queued sector. *)
Definition folderQueued : storageFolder :=
  {| index := 5; path := []; usage := 1; metadataFile := None;
     queuedSectors := [([9%N], 0%N)]; sectors := 2;
     atomicFailedReads := 0; atomicSuccessfulReads := 0 |}.

Definition writing : ContractManager :=
  {| sectorSalt := 0; storageFolders := [folderQueued]; sectorLocations := ∅;
     store := <[1%N := [3%N]]> ∅ |}.

(** Stand-ins for the primitives: the random salt is 77 and saving
    succeeds. *)
Definition runPrimitives : Primitives :=
  {| cryptoRead := 77; SaveFileSync _ _ := ok tt |}.

(** The saved form of [folder42] under the path 1, and a saved folder under
    the path 2. *)
Definition saved42 : savedStorageFolder := {| Index := 5; Path := [1]; Usage := 1 |}.
Definition saved43 : savedStorageFolder := {| Index := 6; Path := [2]; Usage := 1 |}.

Definition settings42 : savedSettings :=
  {| SectorSalt := 9; StorageFolders := [saved42; saved43] |}.

(** The settings file holds [settings42]; the files under the path 1 open,
    the metadata file with the content [metadata42]; nothing else opens. *)
Definition onlyPath1 : dependencies :=
  {| loadFile := loadedSettings settings42;
     openFile p _ := if decide (p = [1]) then ok (Some metadata42) else err 13 |}.

(** The same with every path. *)
Definition allPaths : dependencies :=
  {| loadFile := loadedSettings settings42;
     openFile _ _ := ok (Some metadata42) |}.

(** A contract manager that has just been created: no folder yet; the
    store holds the decoded usage array of the settings. *)
Definition created : ContractManager :=
  {| sectorSalt := 0; storageFolders := []; sectorLocations := ∅;
     store := <[1%N := [N.shiftl 1 42]]> ∅ |}.

End ContractManager.

(** ** modules/wallet/transactionbuilder.go *)

Module Wallet.

Abbreviation Hash := N (only parsing).
Abbreviation Currency := N (only parsing).
Abbreviation BlockHeight := Z (only parsing).
Abbreviation SecretKey := N (only parsing).

(** *** Package types, as far as the builder reads it *)

Record SiaPublicKey := {
  Algorithm : N;
  Key : list N
}.

Record UnlockConditions := {
  Timelock : BlockHeight;
  PublicKeys : list SiaPublicKey;
  SignaturesRequired : Z
}.

Record SiacoinOutput := {
  sco_Value : Currency;
  sco_UnlockHash : Hash
}.

Record SiafundOutput := {
  sfo_Value : Currency;
  sfo_UnlockHash : Hash;
  sfo_ClaimStart : Currency
}.

Record SiacoinInput := {
  sci_ParentID : Hash;
  sci_UnlockConditions : UnlockConditions
}.

Record SiafundInput := {
  sfi_ParentID : Hash;
  sfi_UnlockConditions : UnlockConditions;
  sfi_ClaimUnlockHash : Hash
}.

Record CoveredFields := {
  WholeTransaction : bool;
  cf_SiacoinInputs : list N;
  cf_SiacoinOutputs : list N;
  cf_FileContracts : list N;
  cf_FileContractRevisions : list N;
  cf_StorageProofs : list N;
  cf_SiafundInputs : list N;
  cf_SiafundOutputs : list N;
  cf_MinerFees : list N;
  cf_ArbitraryData : list N;
  cf_TransactionSignatures : list N
}.

Record TransactionSignature := {
  sig_ParentID : Hash;
  PublicKeyIndex : N;
  sig_CoveredFields : CoveredFields;
  Signature : list N
}.

(** File contracts, revisions and storage proofs are carried, never read. *)
Record Transaction := {
  SiacoinInputs : list SiacoinInput;
  SiacoinOutputs : list SiacoinOutput;
  FileContracts : list N;
  FileContractRevisions : list N;
  StorageProofs : list N;
  SiafundInputs : list SiafundInput;
  SiafundOutputs : list SiafundOutput;
  MinerFees : list Currency;
  ArbitraryData : list (list N);
  TransactionSignatures : list TransactionSignature
}.

(** [types.Transaction{}] and the zero values read from a map without the key. *)
Definition zeroTransaction : Transaction :=
  {| SiacoinInputs := []; SiacoinOutputs := []; FileContracts := [];
     FileContractRevisions := []; StorageProofs := []; SiafundInputs := [];
     SiafundOutputs := []; MinerFees := []; ArbitraryData := [];
     TransactionSignatures := [] |}.

Definition zeroUnlockConditions : UnlockConditions :=
  {| Timelock := 0; PublicKeys := []; SignaturesRequired := 0 |}.

Definition zeroCoveredFields : CoveredFields :=
  {| WholeTransaction := false; cf_SiacoinInputs := []; cf_SiacoinOutputs := [];
     cf_FileContracts := []; cf_FileContractRevisions := []; cf_StorageProofs := [];
     cf_SiafundInputs := []; cf_SiafundOutputs := []; cf_MinerFees := [];
     cf_ArbitraryData := []; cf_TransactionSignatures := [] |}.

(** Assignments to one field of a transaction. *)
Definition setSiacoinInputs (t : Transaction) (v : list SiacoinInput) : Transaction :=
  {| SiacoinInputs := v; SiacoinOutputs := SiacoinOutputs t; FileContracts := FileContracts t;
     FileContractRevisions := FileContractRevisions t; StorageProofs := StorageProofs t;
     SiafundInputs := SiafundInputs t; SiafundOutputs := SiafundOutputs t;
     MinerFees := MinerFees t; ArbitraryData := ArbitraryData t;
     TransactionSignatures := TransactionSignatures t |}.

Definition setSiacoinOutputs (t : Transaction) (v : list SiacoinOutput) : Transaction :=
  {| SiacoinInputs := SiacoinInputs t; SiacoinOutputs := v; FileContracts := FileContracts t;
     FileContractRevisions := FileContractRevisions t; StorageProofs := StorageProofs t;
     SiafundInputs := SiafundInputs t; SiafundOutputs := SiafundOutputs t;
     MinerFees := MinerFees t; ArbitraryData := ArbitraryData t;
     TransactionSignatures := TransactionSignatures t |}.

Definition setSiafundInputs (t : Transaction) (v : list SiafundInput) : Transaction :=
  {| SiacoinInputs := SiacoinInputs t; SiacoinOutputs := SiacoinOutputs t;
     FileContracts := FileContracts t;
     FileContractRevisions := FileContractRevisions t; StorageProofs := StorageProofs t;
     SiafundInputs := v; SiafundOutputs := SiafundOutputs t;
     MinerFees := MinerFees t; ArbitraryData := ArbitraryData t;
     TransactionSignatures := TransactionSignatures t |}.

Definition setSiafundOutputs (t : Transaction) (v : list SiafundOutput) : Transaction :=
  {| SiacoinInputs := SiacoinInputs t; SiacoinOutputs := SiacoinOutputs t;
     FileContracts := FileContracts t;
     FileContractRevisions := FileContractRevisions t; StorageProofs := StorageProofs t;
     SiafundInputs := SiafundInputs t; SiafundOutputs := v;
     MinerFees := MinerFees t; ArbitraryData := ArbitraryData t;
     TransactionSignatures := TransactionSignatures t |}.

Definition setMinerFees (t : Transaction) (v : list Currency) : Transaction :=
  {| SiacoinInputs := SiacoinInputs t; SiacoinOutputs := SiacoinOutputs t;
     FileContracts := FileContracts t;
     FileContractRevisions := FileContractRevisions t; StorageProofs := StorageProofs t;
     SiafundInputs := SiafundInputs t; SiafundOutputs := SiafundOutputs t;
     MinerFees := v; ArbitraryData := ArbitraryData t;
     TransactionSignatures := TransactionSignatures t |}.

Definition setTransactionSignatures (t : Transaction) (v : list TransactionSignature)
  : Transaction :=
  {| SiacoinInputs := SiacoinInputs t; SiacoinOutputs := SiacoinOutputs t;
     FileContracts := FileContracts t;
     FileContractRevisions := FileContractRevisions t; StorageProofs := StorageProofs t;
     SiafundInputs := SiafundInputs t; SiafundOutputs := SiafundOutputs t;
     MinerFees := MinerFees t; ArbitraryData := ArbitraryData t;
     TransactionSignatures := v |}.

Definition setSignature (sig : TransactionSignature) (v : list N) : TransactionSignature :=
  {| sig_ParentID := sig_ParentID sig; PublicKeyIndex := PublicKeyIndex sig;
     sig_CoveredFields := sig_CoveredFields sig; Signature := v |}.

(** *** The wallet and the builder *)

Record spendableKey := {
  sk_UnlockConditions : UnlockConditions;
  SecretKeys : list SecretKey
}.

Definition zeroSpendableKey : spendableKey :=
  {| sk_UnlockConditions := zeroUnlockConditions; SecretKeys := [] |}.

(** The wallet as far as the builder uses it.  [unconfirmedProcessedTransactions]
    holds the transaction of each entry; [dbSiafundOutputs] is the bucket of
    siafund outputs in cursor order, each entry the bytes of an ID and the
    bytes of an output as the cursor hands them out; [dbSpentOutputs] is the bucket
    of spent outputs; [primarySeedProgress] is the index of the next address
    of the primary seed. *)
Record Wallet := {
  keys : gmap N spendableKey;
  unconfirmedProcessedTransactions : list Transaction;
  dbSiafundOutputs : list (list N * list N);
  dbSpentOutputs : gmap N Z;
  primarySeedProgress : N
}.

Definition setKeys (w : Wallet) (v : gmap N spendableKey) : Wallet :=
  {| keys := v; unconfirmedProcessedTransactions := unconfirmedProcessedTransactions w;
     dbSiafundOutputs := dbSiafundOutputs w; dbSpentOutputs := dbSpentOutputs w;
     primarySeedProgress := primarySeedProgress w |}.

Definition setSpentOutputs (w : Wallet) (v : gmap N Z) : Wallet :=
  {| keys := keys w; unconfirmedProcessedTransactions := unconfirmedProcessedTransactions w;
     dbSiafundOutputs := dbSiafundOutputs w; dbSpentOutputs := v;
     primarySeedProgress := primarySeedProgress w |}.

Definition setSeedProgress (w : Wallet) (v : N) : Wallet :=
  {| keys := keys w; unconfirmedProcessedTransactions := unconfirmedProcessedTransactions w;
     dbSiafundOutputs := dbSiafundOutputs w; dbSpentOutputs := dbSpentOutputs w;
     primarySeedProgress := v |}.

Record transactionBuilder := {
  parents : list Transaction;
  signed : bool;
  transaction : Transaction;
  newParents : list nat;
  siacoinInputs : list nat;
  siafundInputs : list nat;
  transactionSignatures : list nat
}.

(** The builder that [registerTransaction] returns for an empty transaction
    without parents, and that [Drop] leaves behind. *)
Definition emptyBuilder : transactionBuilder :=
  {| parents := []; signed := false; transaction := zeroTransaction; newParents := [];
     siacoinInputs := []; siafundInputs := []; transactionSignatures := [] |}.

Definition setParents (b : transactionBuilder) (v : list Transaction) (np : list nat)
  : transactionBuilder :=
  {| parents := v; signed := signed b; transaction := transaction b; newParents := np;
     siacoinInputs := siacoinInputs b; siafundInputs := siafundInputs b;
     transactionSignatures := transactionSignatures b |}.

Definition setSigned (b : transactionBuilder) (v : bool) : transactionBuilder :=
  {| parents := parents b; signed := v; transaction := transaction b;
     newParents := newParents b; siacoinInputs := siacoinInputs b;
     siafundInputs := siafundInputs b; transactionSignatures := transactionSignatures b |}.

Definition setTransaction (b : transactionBuilder) (v : Transaction) : transactionBuilder :=
  {| parents := parents b; signed := signed b; transaction := v;
     newParents := newParents b; siacoinInputs := siacoinInputs b;
     siafundInputs := siafundInputs b; transactionSignatures := transactionSignatures b |}.

Definition setSiacoinInputIndices (b : transactionBuilder) (v : list nat) : transactionBuilder :=
  {| parents := parents b; signed := signed b; transaction := transaction b;
     newParents := newParents b; siacoinInputs := v;
     siafundInputs := siafundInputs b; transactionSignatures := transactionSignatures b |}.

Definition setSiafundInputIndices (b : transactionBuilder) (v : list nat) : transactionBuilder :=
  {| parents := parents b; signed := signed b; transaction := transaction b;
     newParents := newParents b; siacoinInputs := siacoinInputs b;
     siafundInputs := v; transactionSignatures := transactionSignatures b |}.

Definition setSignatureIndices (b : transactionBuilder) (v : list nat) : transactionBuilder :=
  {| parents := parents b; signed := signed b; transaction := transaction b;
     newParents := newParents b; siacoinInputs := siacoinInputs b;
     siafundInputs := siafundInputs b; transactionSignatures := v |}.

Inductive error : Set :=
| errBuilderAlreadySigned
| errDustOutput
| errOutputTimelock
| errSpendHeightTooHigh
| errCannotSignInput
| ErrIncompleteTransactions
| ErrLowBalance
| errNoSpentOutput
| errElsewhere (code : N).

#[export] Instance error_eq_dec : EqDecision error.
Proof. solve_decision. Defined.

Abbreviation result := (outcome error) (only parsing).

(** What transactionbuilder.go calls and the repository defines elsewhere:
    hashing, key derivation and signing, output IDs, the respend timeout,
    the constant [types.FullCoveredFields], the dust threshold, the reads of
    the wallet database, the decoding of the entries of the bucket of
    siafund outputs ([encoding.Unmarshal]), the sort of the outputs by value
    (largest first) and the derivation of the key of a seed index.  A callee that fails
    returns an error of its own, a code that the builder passes on as
    [errElsewhere]: none of them returns one of the error values that the
    builder itself produces. *)
Class Primitives := {
  UnlockHash : UnlockConditions -> Hash;
  PublicKey : SecretKey -> list N;
  SigHash : Transaction -> nat -> Hash;
  SignHash : Hash -> SecretKey -> list N;
  SiacoinOutputID : Transaction -> N -> Hash;
  SiafundOutputID : Transaction -> N -> Hash;
  RespendTimeout : BlockHeight;
  FullCoveredFields : CoveredFields;
  DustThreshold : Wallet -> outcome N Currency;
  dbGetConsensusHeight : Wallet -> outcome N BlockHeight;
  dbForEachSiacoinOutput : Wallet -> outcome N (list (Hash * SiacoinOutput));
  getSortedOutputs : Wallet -> outcome N (list (Hash * SiacoinOutput));
  sortReverse : list (Hash * SiacoinOutput) -> list (Hash * SiacoinOutput);
  UnmarshalSiafundOutputID : list N -> outcome N Hash;
  UnmarshalSiafundOutput : list N -> outcome N SiafundOutput;
  generateKey : N -> outcome N spendableKey
}.

(** The builder together with the wallet it points to. *)
Record world := {
  tb : transactionBuilder;
  wallet : Wallet
}.

(** A method of the builder: it returns a value, an error or panics, and
    leaves the builder and the wallet as it changed them in any case. *)
Definition M (A : Type) : Type := world -> outcome error A * world.

#[export] Instance M_ret : MRet M := fun A a σ => (ok a, σ).
#[export] Instance M_bind : MBind M := fun A B k m σ =>
  match m σ with
  | (ok a, σ') => k a σ'
  | (err e, σ') => (err e, σ')
  | (panic, σ') => (panic, σ')
  end.

Definition get : M world := fun σ => (ok σ, σ).
Definition lift {A} (r : outcome error A) : M A := fun σ => (r, σ).

(** The result of a callee outside this file. *)
Definition call {A} (r : outcome N A) : M A := fun σ =>
  match r with
  | ok a => (ok a, σ)
  | err code => (err (errElsewhere code), σ)
  | panic => (panic, σ)
  end.
Definition modifyBuilder (f : transactionBuilder -> transactionBuilder) : M unit :=
  fun σ => (ok tt, {| tb := f (tb σ); wallet := wallet σ |}).
Definition modifyWallet (f : Wallet -> Wallet) : M unit :=
  fun σ => (ok tt, {| tb := tb σ; wallet := f (wallet σ) |}).

(** Modelled from the spec: the helpers of the bucket of spent outputs are
    not in the sources; the bucket maps the ID of an output to the height
    at which the wallet spent it, a read of a missing ID is an error, and
    writes are taken to succeed. *)
Definition dbGetSpentOutput (w : Wallet) (id : Hash) : result BlockHeight :=
  match dbSpentOutputs w !! id with
  | Some h => ok h
  | None => err errNoSpentOutput
  end.

Definition dbPutSpentOutput (id : Hash) (h : BlockHeight) : M unit :=
  modifyWallet (fun w => setSpentOutputs w (<[id := h]> (dbSpentOutputs w))).

Definition dbDeleteSpentOutput (w : Wallet) (id : Hash) : Wallet :=
  setSpentOutputs w (delete id (dbSpentOutputs w)).

(** [w.keys[uh]]: the zero key where the map has none. *)
Definition keyOf (w : Wallet) (uh : Hash) : spendableKey :=
  default zeroSpendableKey (keys w !! uh).

(** What the scan of a Fund call carries from one output to the next: the
    two sums, the IDs to mark as spent, and the transaction (or builder)
    that receives the inputs. *)
Record selection (S : Type) := {
  fund : Currency;
  potentialFund : Currency;
  spentIDs : list Hash;
  target : S
}.
Arguments fund {S} _.
Arguments potentialFund {S} _.
Arguments spentIDs {S} _.
Arguments target {S} _.

Section Builder.
Context `{Primitives}.

(** Modelled from the spec: [nextPrimarySeedAddress] is not in the sources;
    the wallet derives the next address from its primary seed, keeps its key
    and records the derivation index. *)
Definition nextPrimarySeedAddress : M UnlockConditions := fun σ =>
  let w := wallet σ in
  match generateKey (primarySeedProgress w) with
  | ok sk =>
      let uc := sk_UnlockConditions sk in
      let w' := setSeedProgress (setKeys w (<[UnlockHash uc := sk]> (keys w)))
                                (primarySeedProgress w + 1)%N in
      (ok uc, {| tb := tb σ; wallet := w' |})
  | err code => (err (errElsewhere code), σ)
  | panic => (panic, σ)
  end.

(** The inner loop of [addSignatures]: the first secret key whose public
    key is the wanted one. *)
Fixpoint findSecretKey (wanted : list N) (secretKeys : list SecretKey) : option SecretKey :=
  match secretKeys with
  | [] => None
  | sk :: rest =>
      if decide (wanted = PublicKey sk) then Some sk else findSecretKey wanted rest
  end.

(** The signature that the body of the inner loop appends and fills in. *)
Definition appendSignature (txn : Transaction) (cf : CoveredFields) (parentID : Hash)
    (i : nat) (sk : SecretKey) : Transaction :=
  let sig :=
    {| sig_ParentID := parentID; PublicKeyIndex := N.of_nat i; sig_CoveredFields := cf;
       Signature := [] |} in
  let txn1 := setTransactionSignatures txn (TransactionSignatures txn ++ [sig]) in
  let sigIndex := (length (TransactionSignatures txn1) - 1)%nat in
  let sigHash := SigHash txn1 sigIndex in
  let encodedSig := SignHash sigHash sk in
  setTransactionSignatures txn1
    (<[sigIndex := setSignature sig encodedSig]> (TransactionSignatures txn1)).

(** The outer loop of [addSignatures], from public key [i] on. *)
Fixpoint addSignatures_from (i : nat) (publicKeys : list SiaPublicKey) (required : Z)
    (cf : CoveredFields) (parentID : Hash) (spendKey : spendableKey)
    (totalSignatures : Z) (txn : Transaction) (newSigIndices : list nat)
    : Transaction * list nat :=
  match publicKeys with
  | [] => (txn, newSigIndices)
  | siaPubKey :: rest =>
      let '(txn1, indices1, total1) :=
        match findSecretKey (Key siaPubKey) (SecretKeys spendKey) with
        | Some sk =>
            (appendSignature txn cf parentID i sk,
             newSigIndices ++ [length (TransactionSignatures txn)],
             uint64_add totalSignatures 1)
        | None => (txn, newSigIndices, totalSignatures)
        end in
      if decide (total1 = required) then (txn1, indices1)
      else addSignatures_from (S i) rest required cf parentID spendKey total1 txn1 indices1
  end.

Definition addSignatures (txn : Transaction) (cf : CoveredFields) (uc : UnlockConditions)
    (parentID : Hash) (spendKey : spendableKey) : Transaction * list nat :=
  addSignatures_from 0 (PublicKeys uc) (SignaturesRequired uc) cf parentID spendKey 0 txn [].

(** [checkOutput] returns an error value or [nil] ([None]). *)
Definition checkOutput (w : Wallet) (currentHeight : BlockHeight) (id : Hash)
    (output : SiacoinOutput) (dustThreshold : Currency) : option error :=
  if decide (sco_Value output < dustThreshold)%N then Some errDustOutput
  else
    let respent :=
      match dbGetSpentOutput w id with
      | ok spendHeight => bool_decide (uint64_add spendHeight RespendTimeout > currentHeight)
      | _ => false
      end in
    if respent then Some errSpendHeightTooHigh
    else
      let outputUnlockConditions := sk_UnlockConditions (keyOf w (sco_UnlockHash output)) in
      if decide (currentHeight < Timelock outputUnlockConditions) then Some errOutputTimelock
      else None.

Definition calculateAmountFromOutputs (outputs : list SiacoinOutput) (fee : Currency)
  : Currency :=
  let amount := fold_left (fun amount output => (amount + sco_Value output)%N) outputs 0%N in
  if decide (0 < fee)%N then (amount + fee)%N else amount.

(** The scan of [FundSiacoinsForOutputs] and of [FundSiacoins].  The two
    loops are the same code except for where the new input is appended,
    which is [add]; the [if] at the end of an accepted output is the
    [break]. *)
Fixpoint selectOutputs {S} (add : S -> SiacoinInput -> S) (w : Wallet)
    (consensusHeight : BlockHeight) (dustThreshold amount : Currency)
    (so : list (Hash * SiacoinOutput)) (sel : selection S) : selection S :=
  match so with
  | [] => sel
  | (scoid, sco) :: rest =>
      match checkOutput w consensusHeight scoid sco dustThreshold with
      | Some e =>
          let sel1 :=
            if decide (e = errSpendHeightTooHigh)
            then {| fund := fund sel; potentialFund := (potentialFund sel + sco_Value sco)%N;
                    spentIDs := spentIDs sel; target := target sel |}
            else sel in
          selectOutputs add w consensusHeight dustThreshold amount rest sel1
      | None =>
          let sci :=
            {| sci_ParentID := scoid;
               sci_UnlockConditions := sk_UnlockConditions (keyOf w (sco_UnlockHash sco)) |} in
          let sel1 :=
            {| fund := (fund sel + sco_Value sco)%N;
               potentialFund := (potentialFund sel + sco_Value sco)%N;
               spentIDs := spentIDs sel ++ [scoid];
               target := add (target sel) sci |} in
          if decide (amount <= fund sel1)%N then sel1
          else selectOutputs add w consensusHeight dustThreshold amount rest sel1
      end
  end.

(** [tb.siacoinInputs = append(tb.siacoinInputs, len(tb.transaction.SiacoinInputs))]
    and [tb.transaction.SiacoinInputs = append(tb.transaction.SiacoinInputs, sci)]. *)
Definition addInputToBuilder (b : transactionBuilder) (sci : SiacoinInput)
  : transactionBuilder :=
  let b1 := setSiacoinInputIndices b
              (siacoinInputs b ++ [length (SiacoinInputs (transaction b))]) in
  setTransaction b1
    (setSiacoinInputs (transaction b1) (SiacoinInputs (transaction b1) ++ [sci])).

(** [parentTxn.SiacoinInputs = append(parentTxn.SiacoinInputs, sci)]. *)
Definition addInputToParent (parentTxn : Transaction) (sci : SiacoinInput) : Transaction :=
  setSiacoinInputs parentTxn (SiacoinInputs parentTxn ++ [sci]).

Definition startSelection {S} (s : S) : selection S :=
  {| fund := 0%N; potentialFund := 0%N; spentIDs := []; target := s |}.

(** The two tests after the scan. *)
Definition checkFunds {S} (sel : selection S) (amount : Currency) : M unit :=
  if decide ((amount <= potentialFund sel)%N /\ (fund sel < amount)%N)
  then lift (err ErrIncompleteTransactions)
  else if decide (fund sel < amount)%N then lift (err ErrLowBalance)
  else mret tt.

(** [for _, id := range spent { err = dbPutSpentOutput(tx, id, height); ... }] *)
Fixpoint markSpent (spent : list Hash) (consensusHeight : BlockHeight) : M unit :=
  match spent with
  | [] => mret tt
  | id :: rest => dbPutSpentOutput id consensusHeight ;; markSpent rest consensusHeight
  end.

(** [if fee.Cmp64(0) > 0 { tb.transaction.MinerFees = append(..., fee) }] *)
Definition withMinerFee (fee : Currency) (b : transactionBuilder) : transactionBuilder :=
  if decide (0 < fee)%N
  then setTransaction b (setMinerFees (transaction b) (MinerFees (transaction b) ++ [fee]))
  else b.

(** [FundSiacoinsForOutputs] once both tests on the funds have passed: the
    outputs, the refund, and the marks on the spent outputs. *)
Definition placeOutputs (outputs : list SiacoinOutput) (amount : Currency)
    (sel : selection transactionBuilder) (consensusHeight : BlockHeight) : M unit :=
  modifyBuilder (fun b =>
    setTransaction b
      (setSiacoinOutputs (transaction b) (SiacoinOutputs (transaction b) ++ outputs))) ;;
  (if decide (amount <> fund sel)
   then
     refundUnlockConditions ← nextPrimarySeedAddress;
     let refundOutput :=
       {| sco_Value := (fund sel - amount)%N;
          sco_UnlockHash := UnlockHash refundUnlockConditions |} in
     modifyBuilder (fun b =>
       setTransaction b
         (setSiacoinOutputs (transaction b) (SiacoinOutputs (transaction b) ++ [refundOutput])))
   else mret tt) ;;
  markSpent (spentIDs sel) consensusHeight.

Definition FundSiacoinsForOutputs (outputs : list SiacoinOutput) (fee : Currency) : M unit :=
  σ0 ← get;
  dustThreshold ← call (DustThreshold (wallet σ0));
  consensusHeight ← call (dbGetConsensusHeight (wallet σ0));
  let amount := calculateAmountFromOutputs outputs fee in
  modifyBuilder (withMinerFee fee) ;;
  so ← call (getSortedOutputs (wallet σ0));
  σ1 ← get;
  let sel := selectOutputs addInputToBuilder (wallet σ1) consensusHeight dustThreshold amount
               so (startSelection (tb σ1)) in
  modifyBuilder (fun _ => target sel) ;;
  checkFunds sel amount ;;
  placeOutputs outputs amount sel consensusHeight.

(** The outputs of the unconfirmed transactions that belong to the wallet,
    with their IDs. *)
Fixpoint ownedOutputs (w : Wallet) (txn : Transaction) (i : nat) (outputs : list SiacoinOutput)
  : list (Hash * SiacoinOutput) :=
  match outputs with
  | [] => []
  | sco :: rest =>
      match keys w !! sco_UnlockHash sco with
      | None => ownedOutputs w txn (S i) rest
      | Some _ => (SiacoinOutputID txn (N.of_nat i), sco) :: ownedOutputs w txn (S i) rest
      end
  end.

Definition unconfirmedOutputs (w : Wallet) : list (Hash * SiacoinOutput) :=
  mjoin ((fun txn => ownedOutputs w txn 0 (SiacoinOutputs txn))
           <$> unconfirmedProcessedTransactions w).

(** [for _, sci := range parentTxn.SiacoinInputs { addSignatures(&parentTxn, ...) }] *)
Definition signParentSiacoinInputs (w : Wallet) (parentTxn : Transaction) : Transaction :=
  fold_left
    (fun txn sci =>
       (addSignatures txn FullCoveredFields (sci_UnlockConditions sci) (sci_ParentID sci)
          (keyOf w (UnlockHash (sci_UnlockConditions sci)))).1)
    (SiacoinInputs parentTxn) parentTxn.

Definition signParentSiafundInputs (w : Wallet) (parentTxn : Transaction) : Transaction :=
  fold_left
    (fun txn sfi =>
       (addSignatures txn FullCoveredFields (sfi_UnlockConditions sfi) (sfi_ParentID sfi)
          (keyOf w (UnlockHash (sfi_UnlockConditions sfi)))).1)
    (SiafundInputs parentTxn) parentTxn.

(** [FundSiacoins] once both tests on the funds have passed: the parent
    transaction is completed, signed and added with the input that spends
    its first output, and the spent outputs are marked. *)
Definition addParent (amount : Currency) (sel : selection Transaction)
    (consensusHeight : BlockHeight) : M unit :=
  parentUnlockConditions ← nextPrimarySeedAddress;
  let exactOutput :=
    {| sco_Value := amount; sco_UnlockHash := UnlockHash parentUnlockConditions |} in
  let parentTxn :=
    setSiacoinOutputs (target sel) (SiacoinOutputs (target sel) ++ [exactOutput]) in
  parentTxn ←
    (if decide (amount <> fund sel)
     then
       refundUnlockConditions ← nextPrimarySeedAddress;
       let refundOutput :=
         {| sco_Value := (fund sel - amount)%N;
            sco_UnlockHash := UnlockHash refundUnlockConditions |} in
       mret (setSiacoinOutputs parentTxn (SiacoinOutputs parentTxn ++ [refundOutput]))
     else mret parentTxn);
  σ1 ← get;
  let parentTxn := signParentSiacoinInputs (wallet σ1) parentTxn in
  dbPutSpentOutput (SiacoinOutputID parentTxn 0) consensusHeight ;;
  let newInput :=
    {| sci_ParentID := SiacoinOutputID parentTxn 0;
       sci_UnlockConditions := parentUnlockConditions |} in
  modifyBuilder (fun b =>
    addInputToBuilder
      (setParents b (parents b ++ [parentTxn]) (newParents b ++ [length (parents b)]))
      newInput) ;;
  markSpent (spentIDs sel) consensusHeight.

Definition FundSiacoins (amount : Currency) : M unit :=
  σ0 ← get;
  dustThreshold ← call (DustThreshold (wallet σ0));
  consensusHeight ← call (dbGetConsensusHeight (wallet σ0));
  confirmed ← call (dbForEachSiacoinOutput (wallet σ0));
  let so := sortReverse (confirmed ++ unconfirmedOutputs (wallet σ0)) in
  let sel := selectOutputs addInputToParent (wallet σ0) consensusHeight dustThreshold amount
               so (startSelection zeroTransaction) in
  checkFunds sel amount ;;
  addParent amount sel consensusHeight.

(** The scan of [FundSiafunds] over the bucket of siafund outputs: the
    cursor loop, which returns the error of an entry that does not decode. *)
Fixpoint selectSiafunds (consensusHeight : BlockHeight) (amount : Currency)
    (bucket : list (list N * list N)) (sel : selection Transaction)
    : M (selection Transaction) :=
  match bucket with
  | [] => mret sel
  | (idBytes, sfoBytes) :: rest =>
      sfoid ← call (UnmarshalSiafundOutputID idBytes);
      sfo ← call (UnmarshalSiafundOutput sfoBytes);
      σ ← get;
      let spendHeight :=
        match dbGetSpentOutput (wallet σ) sfoid with
        | ok h => h
        | _ => 0
        end in
      let allowedHeight :=
        if decide (consensusHeight < RespendTimeout) then 0
        else uint64_sub consensusHeight RespendTimeout in
      if decide (spendHeight > allowedHeight)
      then
        selectSiafunds consensusHeight amount rest
          {| fund := fund sel; potentialFund := (potentialFund sel + sfo_Value sfo)%N;
             spentIDs := spentIDs sel; target := target sel |}
      else
        let outputUnlockConditions :=
          sk_UnlockConditions (keyOf (wallet σ) (sfo_UnlockHash sfo)) in
        if decide (consensusHeight < Timelock outputUnlockConditions)
        then selectSiafunds consensusHeight amount rest sel
        else
          parentClaimUnlockConditions ← nextPrimarySeedAddress;
          let sfi :=
            {| sfi_ParentID := sfoid; sfi_UnlockConditions := outputUnlockConditions;
               sfi_ClaimUnlockHash := UnlockHash parentClaimUnlockConditions |} in
          let sel1 :=
            {| fund := (fund sel + sfo_Value sfo)%N;
               potentialFund := (potentialFund sel + sfo_Value sfo)%N;
               spentIDs := spentIDs sel ++ [sfoid];
               target := setSiafundInputs (target sel) (SiafundInputs (target sel) ++ [sfi]) |} in
          if decide (amount <= fund sel1)%N then mret sel1
          else selectSiafunds consensusHeight amount rest sel1
  end.

(** [FundSiafunds] once both tests on the funds have passed. *)
Definition addSiafundParent (amount : Currency) (sel : selection Transaction)
    (consensusHeight : BlockHeight) : M unit :=
  parentUnlockConditions ← nextPrimarySeedAddress;
  let exactOutput :=
    {| sfo_Value := amount; sfo_UnlockHash := UnlockHash parentUnlockConditions;
       sfo_ClaimStart := 0%N |} in
  let parentTxn :=
    setSiafundOutputs (target sel) (SiafundOutputs (target sel) ++ [exactOutput]) in
  parentTxn ←
    (if decide (amount <> fund sel)
     then
       refundUnlockConditions ← nextPrimarySeedAddress;
       let refundOutput :=
         {| sfo_Value := (fund sel - amount)%N;
            sfo_UnlockHash := UnlockHash refundUnlockConditions;
            sfo_ClaimStart := 0%N |} in
       mret (setSiafundOutputs parentTxn (SiafundOutputs parentTxn ++ [refundOutput]))
     else mret parentTxn);
  σ1 ← get;
  let parentTxn := signParentSiafundInputs (wallet σ1) parentTxn in
  claimUnlockConditions ← nextPrimarySeedAddress;
  let newInput :=
    {| sfi_ParentID := SiafundOutputID parentTxn 0;
       sfi_UnlockConditions := parentUnlockConditions;
       sfi_ClaimUnlockHash := UnlockHash claimUnlockConditions |} in
  modifyBuilder (fun b =>
    let b1 := setParents b (parents b ++ [parentTxn]) (newParents b ++ [length (parents b)]) in
    let b2 := setSiafundInputIndices b1
                (siafundInputs b1 ++ [length (SiafundInputs (transaction b1))]) in
    setTransaction b2
      (setSiafundInputs (transaction b2) (SiafundInputs (transaction b2) ++ [newInput]))) ;;
  markSpent (spentIDs sel) consensusHeight.

Definition FundSiafunds (amount : Currency) : M unit :=
  σ0 ← get;
  consensusHeight ← call (dbGetConsensusHeight (wallet σ0));
  sel ← selectSiafunds consensusHeight amount (dbSiafundOutputs (wallet σ0))
          (startSelection zeroTransaction);
  checkFunds sel amount ;;
  addSiafundParent amount sel consensusHeight.

(** The wallet after the two loops of [Drop]. *)
Definition restoreOutputs (txns : list Transaction) (w : Wallet) : Wallet :=
  fold_left
    (fun w txn =>
       fold_left (fun w sci => dbDeleteSpentOutput w (sci_ParentID sci)) (SiacoinInputs txn) w)
    txns w.

Definition Drop : M unit :=
  σ ← get;
  let txns := parents (tb σ) ++ [transaction (tb σ)] in
  modifyWallet (restoreOutputs txns) ;;
  modifyBuilder (fun _ => emptyBuilder).

(** [for i := range l { cf.X = append(cf.X, uint64(i)) }] *)
Definition indicesOf {A} (l : list A) : list N := N.of_nat <$> seq 0 (length l).

Definition coveredFieldsOf (wholeTransaction : bool) (t : Transaction) : CoveredFields :=
  let signatures := indicesOf (TransactionSignatures t) in
  if wholeTransaction
  then
    {| WholeTransaction := true; cf_SiacoinInputs := []; cf_SiacoinOutputs := [];
       cf_FileContracts := []; cf_FileContractRevisions := []; cf_StorageProofs := [];
       cf_SiafundInputs := []; cf_SiafundOutputs := []; cf_MinerFees := [];
       cf_ArbitraryData := []; cf_TransactionSignatures := signatures |}
  else
    {| WholeTransaction := false;
       cf_SiacoinInputs := indicesOf (SiacoinInputs t);
       cf_SiacoinOutputs := indicesOf (SiacoinOutputs t);
       cf_FileContracts := indicesOf (FileContracts t);
       cf_FileContractRevisions := indicesOf (FileContractRevisions t);
       cf_StorageProofs := indicesOf (StorageProofs t);
       cf_SiafundInputs := indicesOf (SiafundInputs t);
       cf_SiafundOutputs := indicesOf (SiafundOutputs t);
       cf_MinerFees := indicesOf (MinerFees t);
       cf_ArbitraryData := indicesOf (ArbitraryData t);
       cf_TransactionSignatures := signatures |}.

(** The body that the two loops of [Sign] share once the input is read. *)
Definition signInput (coveredFields : CoveredFields) (parentID : Hash) (uc : UnlockConditions)
  : M unit :=
  σ ← get;
  match keys (wallet σ) !! UnlockHash uc with
  | None => lift (err errCannotSignInput)
  | Some key =>
      let '(txn, newSigIndices) :=
        addSignatures (transaction (tb σ)) coveredFields uc parentID key in
      modifyBuilder (fun b =>
        setSigned
          (setSignatureIndices (setTransaction b txn) (transactionSignatures b ++ newSigIndices))
          true)
  end.

Fixpoint signSiacoinInputs (coveredFields : CoveredFields) (indices : list nat) : M unit :=
  match indices with
  | [] => mret tt
  | inputIndex :: rest =>
      σ ← get;
      match SiacoinInputs (transaction (tb σ)) !! inputIndex with
      | None => lift panic
      | Some input =>
          signInput coveredFields (sci_ParentID input) (sci_UnlockConditions input) ;;
          signSiacoinInputs coveredFields rest
      end
  end.

Fixpoint signSiafundInputs (coveredFields : CoveredFields) (indices : list nat) : M unit :=
  match indices with
  | [] => mret tt
  | inputIndex :: rest =>
      σ ← get;
      match SiafundInputs (transaction (tb σ)) !! inputIndex with
      | None => lift panic
      | Some input =>
          signInput coveredFields (sfi_ParentID input) (sfi_UnlockConditions input) ;;
          signSiafundInputs coveredFields rest
      end
  end.

Definition Sign (wholeTransaction : bool) : M (list Transaction) :=
  σ ← get;
  if signed (tb σ) then lift (err errBuilderAlreadySigned)
  else
    let coveredFields := coveredFieldsOf wholeTransaction (transaction (tb σ)) in
    signSiacoinInputs coveredFields (siacoinInputs (tb σ)) ;;
    signSiafundInputs coveredFields (siafundInputs (tb σ)) ;;
    σ' ← get;
    mret (parents (tb σ') ++ [transaction (tb σ')]).

End Builder.

(** *** The other methods of the builder and of the wallet *)

Definition setFileContracts (t : Transaction) (v : list N) : Transaction :=
  {| SiacoinInputs := SiacoinInputs t; SiacoinOutputs := SiacoinOutputs t; FileContracts := v;
     FileContractRevisions := FileContractRevisions t; StorageProofs := StorageProofs t;
     SiafundInputs := SiafundInputs t; SiafundOutputs := SiafundOutputs t;
     MinerFees := MinerFees t; ArbitraryData := ArbitraryData t;
     TransactionSignatures := TransactionSignatures t |}.

Definition setFileContractRevisions (t : Transaction) (v : list N) : Transaction :=
  {| SiacoinInputs := SiacoinInputs t; SiacoinOutputs := SiacoinOutputs t;
     FileContracts := FileContracts t;
     FileContractRevisions := v; StorageProofs := StorageProofs t;
     SiafundInputs := SiafundInputs t; SiafundOutputs := SiafundOutputs t;
     MinerFees := MinerFees t; ArbitraryData := ArbitraryData t;
     TransactionSignatures := TransactionSignatures t |}.

Definition setStorageProofs (t : Transaction) (v : list N) : Transaction :=
  {| SiacoinInputs := SiacoinInputs t; SiacoinOutputs := SiacoinOutputs t;
     FileContracts := FileContracts t;
     FileContractRevisions := FileContractRevisions t; StorageProofs := v;
     SiafundInputs := SiafundInputs t; SiafundOutputs := SiafundOutputs t;
     MinerFees := MinerFees t; ArbitraryData := ArbitraryData t;
     TransactionSignatures := TransactionSignatures t |}.

Definition setArbitraryData (t : Transaction) (v : list (list N)) : Transaction :=
  {| SiacoinInputs := SiacoinInputs t; SiacoinOutputs := SiacoinOutputs t;
     FileContracts := FileContracts t;
     FileContractRevisions := FileContractRevisions t; StorageProofs := StorageProofs t;
     SiafundInputs := SiafundInputs t; SiafundOutputs := SiafundOutputs t;
     MinerFees := MinerFees t; ArbitraryData := v;
     TransactionSignatures := TransactionSignatures t |}.

(** What the remaining methods call and the repository defines elsewhere:
    the transaction pool's [TransactionSet], the ID of a transaction, and
    [w.tg.Add], which fails once the wallet is shutting down. *)
Class Services := {
  TransactionSet : Hash -> list Transaction;
  TransactionID : Transaction -> Hash;
  tgAdd : Wallet -> outcome N unit
}.

(** The errors of [SignTransaction] and [signTransaction], one constructor
    per error value or message. *)
Inductive signError : Set :=
| ErrLockedWallet
| errSignatureNotPresent
| errIDNotPresent
| errNoSigningKey (id : Hash).

Section Methods.
Context `{Primitives} `{Services}.

(** [uint64(len(l) - 1)], taken after an append. *)
Definition lastIndex {A} (l : list A) : Z := Z.of_nat (length l) - 1.

(** A method that changes the transaction of the builder and returns an
    index computed from the new transaction. *)
Definition appending (f : Transaction -> Transaction) (index : Transaction -> Z) : M Z :=
  modifyBuilder (fun b => setTransaction b (f (transaction b))) ;;
  σ ← get;
  mret (index (transaction (tb σ))).

Definition AddParents (added : list Transaction) : M unit :=
  modifyBuilder (fun b => setParents b (parents b ++ added) (newParents b)).

Definition AddMinerFee (fee : Currency) : M Z :=
  appending (fun t => setMinerFees t (MinerFees t ++ [fee])) (fun t => lastIndex (MinerFees t)).

Definition AddSiacoinInput (input : SiacoinInput) : M Z :=
  appending (fun t => setSiacoinInputs t (SiacoinInputs t ++ [input]))
            (fun t => lastIndex (SiacoinInputs t)).

Definition AddSiacoinOutput (output : SiacoinOutput) : M Z :=
  appending (fun t => setSiacoinOutputs t (SiacoinOutputs t ++ [output]))
            (fun t => lastIndex (SiacoinOutputs t)).

Definition AddFileContract (fc : N) : M Z :=
  appending (fun t => setFileContracts t (FileContracts t ++ [fc]))
            (fun t => lastIndex (FileContracts t)).

Definition AddFileContractRevision (fcr : N) : M Z :=
  appending (fun t => setFileContractRevisions t (FileContractRevisions t ++ [fcr]))
            (fun t => lastIndex (FileContractRevisions t)).

Definition AddStorageProof (sp : N) : M Z :=
  appending (fun t => setStorageProofs t (StorageProofs t ++ [sp]))
            (fun t => lastIndex (StorageProofs t)).

Definition AddSiafundInput (input : SiafundInput) : M Z :=
  appending (fun t => setSiafundInputs t (SiafundInputs t ++ [input]))
            (fun t => lastIndex (SiafundInputs t)).

Definition AddSiafundOutput (output : SiafundOutput) : M Z :=
  appending (fun t => setSiafundOutputs t (SiafundOutputs t ++ [output]))
            (fun t => lastIndex (SiafundOutputs t)).

Definition AddArbitraryData (arb : list N) : M Z :=
  appending (fun t => setArbitraryData t (ArbitraryData t ++ [arb]))
            (fun t => lastIndex (ArbitraryData t)).

Definition AddTransactionSignature (sig : TransactionSignature) : M Z :=
  appending (fun t => setTransactionSignatures t (TransactionSignatures t ++ [sig]))
            (fun t => lastIndex (TransactionSignatures t)).

Definition View : M (Transaction * list Transaction) :=
  σ ← get;
  mret (transaction (tb σ), parents (tb σ)).

Definition ViewAdded : M (list nat * list nat * list nat * list nat) :=
  σ ← get;
  mret (newParents (tb σ), siacoinInputs (tb σ), siafundInputs (tb σ),
        transactionSignatures (tb σ)).

(** The innermost loop of [UnconfirmedParents],
    [for i := range txn.SiacoinOutputs { if txn.SiacoinOutputID(uint64(i)) == sci.ParentID { break } }]:
    the [break] leaves this loop, which assigns nothing. *)
Fixpoint scanOutputs (txn : Transaction) (parentID : Hash) (indices : list nat) : unit :=
  match indices with
  | [] => tt
  | i :: rest =>
      if decide (SiacoinOutputID txn (N.of_nat i) = parentID) then tt
      else scanOutputs txn parentID rest
  end.

(** The loop over one transaction set, threading [addedParents] and
    [parents]. *)
Fixpoint addTransactionSet (sci : SiacoinInput) (tSet : list Transaction)
    (acc : gset N * list Transaction) : gset N * list Transaction :=
  match tSet with
  | [] => acc
  | txn :: rest =>
      let txnID := TransactionID txn in
      if decide (txnID ∈ acc.1) then addTransactionSet sci rest acc
      else
        let acc1 := ({[txnID]} ∪ acc.1, acc.2 ++ [txn]) in
        match scanOutputs txn (sci_ParentID sci) (seq 0 (length (SiacoinOutputs txn))) with
        | tt => addTransactionSet sci rest acc1
        end
  end.

Definition addParentSets (p : Transaction) (acc : gset N * list Transaction)
  : gset N * list Transaction :=
  fold_left (fun acc sci => addTransactionSet sci (TransactionSet (sci_ParentID sci)) acc)
            (SiacoinInputs p) acc.

Definition UnconfirmedParents : M (list Transaction) :=
  σ ← get;
  if signed (tb σ) then lift (err errBuilderAlreadySigned)
  else mret (fold_left (fun acc p => addParentSets p acc) (parents (tb σ)) (∅, [])).2.

(** [registerTransaction].  The builder works on deep copies of the
    transaction and of its parents, made by encoding and decoding them; a
    copy is the same value here. *)
Definition registerTransaction (t : Transaction) (ps : list Transaction)
  : transactionBuilder :=
  {| parents := ps; signed := false; transaction := t; newParents := [];
     siacoinInputs := []; siafundInputs := []; transactionSignatures := [] |}.

Definition RegisterTransaction (w : Wallet) (t : Transaction) (ps : list Transaction)
  : result transactionBuilder :=
  match tgAdd w with
  | ok _ => ok (registerTransaction t ps)
  | err code => err (errElsewhere code)
  | panic => panic
  end.

Definition StartTransaction (w : Wallet) : result transactionBuilder :=
  match tgAdd w with
  | ok _ => RegisterTransaction w zeroTransaction []
  | err code => err (errElsewhere code)
  | panic => panic
  end.

(** [NewTransaction] returns the transaction and leaves the wallet changed.
    The deferred function drops the builder when the error is set; a panic
    of a callee leaves the error unset. *)
Definition NewTransaction (outputs : list SiacoinOutput) (fee : Currency) (w : Wallet)
  : result Transaction * Wallet :=
  match StartTransaction w with
  | err e => (err e, w)
  | panic => (panic, w)
  | ok b =>
      match FundSiacoinsForOutputs outputs fee {| tb := b; wallet := w |} with
      | (err e, σ1) => (err e, wallet (Drop σ1).2)
      | (panic, σ1) => (panic, wallet σ1)
      | (ok _, σ1) =>
          match Sign true σ1 with
          | (err e, σ2) => (err e, wallet (Drop σ2).2)
          | (panic, σ2) => (panic, wallet σ2)
          | (ok txnSet, σ2) =>
              match txnSet with
              | tx :: _ => (ok tx, wallet σ2)
              | [] => (panic, wallet σ2)
              end
          end
      end
  end.

Definition NewTransactionForAddress (dest : Hash) (amount fee : Currency) (w : Wallet)
  : result Transaction * Wallet :=
  let output := {| sco_Value := amount; sco_UnlockHash := dest |} in
  NewTransaction [output] fee w.

(** The two helpers of [signTransaction]. *)
Definition findUnlockConditions (txn : Transaction) (id : Hash) : option UnlockConditions :=
  match list_find (fun sci => sci_ParentID sci = id) (SiacoinInputs txn) with
  | Some (_, sci) => Some (sci_UnlockConditions sci)
  | None =>
      match list_find (fun sfi => sfi_ParentID sfi = id) (SiafundInputs txn) with
      | Some (_, sfi) => Some (sfi_UnlockConditions sfi)
      | None => None
      end
  end.

Definition findSigningKey (keys : gmap N spendableKey) (uc : UnlockConditions)
    (pubkeyIndex : N) : option SecretKey :=
  if decide (N.of_nat (length (PublicKeys uc)) <= pubkeyIndex)%N then None
  else
    match PublicKeys uc !! N.to_nat pubkeyIndex with
    | None => None
    | Some pk =>
        match keys !! UnlockHash uc with
        | None => None
        | Some sk => findSecretKey (Key pk) (SecretKeys sk)
        end
    end.

(** The body of the loop of [signTransaction] for one ID: the first
    signature of that parent ID is looked up, then the input, then the key. *)
Definition signOne (keys : gmap N spendableKey) (txn : Transaction) (id : Hash)
  : outcome signError Transaction :=
  match list_find (fun sig => sig_ParentID sig = id) (TransactionSignatures txn) with
  | None => err errSignatureNotPresent
  | Some (sigIndex, sig) =>
      match findUnlockConditions txn id with
      | None => err errIDNotPresent
      | Some uc =>
          match findSigningKey keys uc (PublicKeyIndex sig) with
          | None => err (errNoSigningKey id)
          | Some sk =>
              let sigHash := SigHash txn sigIndex in
              let encodedSig := SignHash sigHash sk in
              ok (setTransactionSignatures txn
                    (<[sigIndex := setSignature sig encodedSig]> (TransactionSignatures txn)))
          end
      end
  end.

(** [signTransaction] writes through the pointer it is given: the second
    component is the transaction of the caller when the call returns. *)
Fixpoint signTransaction (txn : Transaction) (keys : gmap N spendableKey)
    (toSign : list Hash) : outcome signError unit * Transaction :=
  match toSign with
  | [] => (ok tt, txn)
  | id :: rest =>
      match signOne keys txn id with
      | ok txn1 => signTransaction txn1 keys rest
      | err e => (err e, txn)
      | panic => (panic, txn)
      end
  end.

(** The IDs that the method [SignTransaction] signs when it is given none:
    the inputs whose unlock hash is an address of the wallet, siacoin
    inputs first. *)
Definition ownedInputs (w : Wallet) (txn : Transaction) : list Hash :=
  (sci_ParentID <$>
     filter (fun sci => is_Some (keys w !! UnlockHash (sci_UnlockConditions sci)))
            (SiacoinInputs txn))
  ++ (sfi_ParentID <$>
        filter (fun sfi => is_Some (keys w !! UnlockHash (sfi_UnlockConditions sfi)))
               (SiafundInputs txn)).

(** The method [Wallet.SignTransaction]; [unlocked] is [w.unlocked]. *)
Definition SignTransaction (unlocked : bool) (w : Wallet) (txn : Transaction)
    (toSign : list Hash) : outcome signError unit * Transaction :=
  if negb unlocked then (err ErrLockedWallet, txn)
  else
    let toSign := if decide (length toSign = 0%nat) then ownedInputs w txn else toSign in
    signTransaction txn (keys w) toSign.

End Methods.

(** *** Vocabulary of the statements about the builder *)

Section Vocabulary.
Context `{Primitives}.

(** The three checks on a siacoin output, each on its own. *)
Definition isDust (dustThreshold : Currency) (o : Hash * SiacoinOutput) : bool :=
  bool_decide (sco_Value o.2 < dustThreshold)%N.

Definition tentativelySpent (w : Wallet) (h : BlockHeight) (id : Hash) : bool :=
  match dbSpentOutputs w !! id with
  | Some spendHeight => bool_decide (uint64_add spendHeight RespendTimeout > h)
  | None => false
  end.

Definition timelocked (w : Wallet) (h : BlockHeight) (uh : Hash) : bool :=
  bool_decide (h < Timelock (sk_UnlockConditions (keyOf w uh))).

(** An output that passes the three checks. *)
Definition usable (w : Wallet) (h : BlockHeight) (dustThreshold : Currency)
    (o : Hash * SiacoinOutput) : bool :=
  negb (isDust dustThreshold o) && negb (tentativelySpent w h o.1)
  && negb (timelocked w h (sco_UnlockHash o.2)).

(** An output that is skipped only because it was tentatively spent: it
    passes the other two checks. *)
Definition onlySpent (w : Wallet) (h : BlockHeight) (dustThreshold : Currency)
    (o : Hash * SiacoinOutput) : bool :=
  negb (isDust dustThreshold o) && tentativelySpent w h o.1
  && negb (timelocked w h (sco_UnlockHash o.2)).

(** An output that the respend check rejects: it is no dust and was
    tentatively spent, whatever its timelock. *)
Definition rejectedAsSpent (w : Wallet) (h : BlockHeight) (dustThreshold : Currency)
    (o : Hash * SiacoinOutput) : bool :=
  negb (isDust dustThreshold o) && tentativelySpent w h o.1.

Definition total (l : list (Hash * SiacoinOutput)) : Currency :=
  sumN ((fun o => sco_Value o.2) <$> l).

(** The input that spends an output of the wallet. *)
Definition inputFor (w : Wallet) (o : Hash * SiacoinOutput) : SiacoinInput :=
  {| sci_ParentID := o.1;
     sci_UnlockConditions := sk_UnlockConditions (keyOf w (sco_UnlockHash o.2)) |}.

(** What a scan has done when it stops after the first [n] outputs. *)
Record scannedTo {S} (add : S -> SiacoinInput -> S) (w : Wallet) (h : Z) (dust : N)
    (so : list (N * SiacoinOutput)) (sel sel' : selection S) (n : nat) : Prop := {
  scan_fund :
    fund sel' = (fund sel + total (filter (usable w h dust) (take n so)))%N;
  scan_potential :
    potentialFund sel'
    = (potentialFund sel + total (filter (usable w h dust) (take n so))
       + total (filter (rejectedAsSpent w h dust) (take n so)))%N;
  scan_spent :
    spentIDs sel' = spentIDs sel ++ (filter (usable w h dust) (take n so)).*1;
  scan_target :
    target sel'
    = fold_left add (inputFor w <$> filter (usable w h dust) (take n so)) (target sel)
}.

(** The two checks of [FundSiafunds]. *)
Definition allowedHeight (h : BlockHeight) : BlockHeight :=
  if decide (h < RespendTimeout) then 0 else uint64_sub h RespendTimeout.

Definition spentSiafund (w : Wallet) (h : BlockHeight) (o : Hash * SiafundOutput) : bool :=
  bool_decide (default 0 (dbSpentOutputs w !! o.1) > allowedHeight h).

Definition usableSiafund (w : Wallet) (h : BlockHeight) (o : Hash * SiafundOutput) : bool :=
  negb (spentSiafund w h o) && negb (timelocked w h (sfo_UnlockHash o.2)).

Definition totalSiafunds (l : list (Hash * SiafundOutput)) : Currency :=
  sumN ((fun o => sfo_Value o.2) <$> l).

(** The outputs that [FundSiacoins] scans. *)
Definition scanned (w : Wallet) (confirmed : list (Hash * SiacoinOutput))
  : list (Hash * SiacoinOutput) :=
  sortReverse (confirmed ++ unconfirmedOutputs w).

(** A method whose errors are all errors of callees outside the file. *)
Definition failsElsewhere {A} (m : M A) : Prop :=
  forall σ e σ', m σ = (err e, σ') -> exists code, e = errElsewhere code.

(** How a Fund call for [amount] ends, given the total value of the outputs
    it accepts and of those it counts as tentatively spent. *)
Definition fundsOrFails (r : outcome error unit) (amount accepted spent : Currency) : Prop :=
  (r = err ErrIncompleteTransactions <-> (accepted < amount <= accepted + spent)%N)
  /\ (r = err ErrLowBalance <-> (accepted + spent < amount)%N).

(** How a Fund call ends once its reads have succeeded and no callee has
    failed: with nil or with one of its two own errors. *)
Definition completes (r : outcome error unit) : Prop :=
  r = ok tt \/ r = err ErrIncompleteTransactions \/ r = err ErrLowBalance.

(** The decoded entry of the bucket of siafund outputs. *)
Definition decodeSiafund (entry : list N * list N) : outcome N (Hash * SiafundOutput) :=
  match UnmarshalSiafundOutputID entry.1 with
  | ok sfoid =>
      match UnmarshalSiafundOutput entry.2 with
      | ok sfo => ok (sfoid, sfo)
      | err code => err code
      | panic => panic
      end
  | err code => err code
  | panic => panic
  end.

(** Every entry of [raw] decodes, and [bucket] lists the decoded entries. *)
Definition decodes (raw : list (list N * list N)) (bucket : list (Hash * SiafundOutput))
  : Prop :=
  Forall2 (fun entry o => decodeSiafund entry = ok o) raw bucket.

(** The time lock that a wallet has on file for the address of an output. *)
Definition lockOf (w : Wallet) (o : Hash * SiafundOutput) : BlockHeight :=
  Timelock (sk_UnlockConditions (keyOf w (sfo_UnlockHash o.2))).

(** A key that the seed yields from the progress of [w] on, and whose
    address is the address of an output of [bucket], carries the time lock
    that [w] has on file for that address. *)
Definition locksKept (w : Wallet) (bucket : list (Hash * SiafundOutput)) : Prop :=
  forall n sk o, (primarySeedProgress w <= n)%N -> generateKey n = ok sk -> o ∈ bucket ->
    UnlockHash (sk_UnlockConditions sk) = sfo_UnlockHash o.2 ->
    Timelock (sk_UnlockConditions sk) = lockOf w o.

(** Every seed index from the progress of [w] on yields a key. *)
Definition derivableFrom (w : Wallet) : Prop :=
  forall n, (primarySeedProgress w <= n)%N -> exists sk, generateKey n = ok sk.

(** A wallet later in a call that started with [w0]: it has the spent
    outputs of [w0], a seed progress that is not behind, and the time locks
    of [w0] for the addresses of the outputs of [bucket]. *)
Definition sees (w0 : Wallet) (bucket : list (Hash * SiafundOutput)) (w : Wallet) : Prop :=
  dbSpentOutputs w = dbSpentOutputs w0
  /\ (primarySeedProgress w0 <= primarySeedProgress w)%N
  /\ forall o, o ∈ bucket -> lockOf w o = lockOf w0 o.

(** A result that is the failure of the derivation of a key of a seed
    index from the progress of [w0] on. *)
Definition derivationFails {A} (w0 : Wallet) (r : outcome error A) : Prop :=
  exists n, (primarySeedProgress w0 <= n)%N
    /\ ((exists code, generateKey n = err code /\ r = err (errElsewhere code))
        \/ (generateKey n = panic /\ r = panic)).

(** A method that returns a value from every world whose seed progress is
    not behind that of [w0], and leaves such a world. *)
Definition returnsFrom {A} (w0 : Wallet) (m : M A) : Prop :=
  forall σ, (primarySeedProgress w0 <= primarySeedProgress (wallet σ))%N ->
    exists a σ', m σ = (ok a, σ')
      /\ (primarySeedProgress w0 <= primarySeedProgress (wallet σ'))%N.

(** What a scan of siafund outputs has done when it stops after the first
    [n] outputs. *)
Record siafundsScannedTo (w : Wallet) (h : BlockHeight)
    (bucket : list (Hash * SiafundOutput)) (sel sel' : selection Transaction) (n : nat)
  : Prop := {
  sfscan_fund :
    fund sel' = (fund sel + totalSiafunds (filter (usableSiafund w h) (take n bucket)))%N;
  sfscan_potential :
    potentialFund sel'
    = (potentialFund sel + totalSiafunds (filter (usableSiafund w h) (take n bucket))
       + totalSiafunds (filter (spentSiafund w h) (take n bucket)))%N;
  sfscan_spent :
    spentIDs sel' = spentIDs sel ++ (filter (usableSiafund w h) (take n bucket)).*1
}.

(** An output whose entry in the bucket of spent outputs differs between
    two wallets. *)
Definition remarked (w w' : Wallet) (id : Hash) : Prop :=
  dbSpentOutputs w' !! id <> dbSpentOutputs w !! id.

(** The IDs of the outputs that the siacoin inputs of the parents and of
    the transaction of a builder spend: what [Drop] goes through. *)
Definition spentByBuilder (b : transactionBuilder) : list Hash :=
  mjoin ((fun txn => sci_ParentID <$> SiacoinInputs txn) <$> (parents b ++ [transaction b])).

(** A builder and wallet reached by successful calls of [FundSiacoins] and
    [FundSiacoinsForOutputs], in any number and order. *)
Inductive siacoinFunded : world -> world -> Prop :=
| funded_none (σ : world) : siacoinFunded σ σ
| funded_outputs (σ σ1 σ' : world) (outputs : list SiacoinOutput) (fee : Currency) :
    siacoinFunded σ σ1 ->
    FundSiacoinsForOutputs outputs fee σ1 = (ok tt, σ') ->
    siacoinFunded σ σ'
| funded_coins (σ σ1 σ' : world) (amount : Currency) :
    siacoinFunded σ σ1 ->
    FundSiacoins amount σ1 = (ok tt, σ') ->
    siacoinFunded σ σ'.

End Vocabulary.

(** *** Vocabulary of the statements about the other methods *)

(** The refund of a Fund call: nothing when the chosen outputs are worth
    exactly the amount, and the difference, paid to a new address of the
    wallet, when they are worth more. *)
Definition refundFor (amount funded : Currency) (refund : list SiacoinOutput) : Prop :=
  (amount = funded /\ refund = [])
  \/ (amount <> funded
      /\ exists uh, refund = [ {| sco_Value := (funded - amount)%N; sco_UnlockHash := uh |} ]).

(** A transaction without its signatures. *)
Definition unsigned (t : Transaction) : Transaction := setTransactionSignatures t [].

(** A signature without the bytes of the signature. *)
Definition stub (sig : TransactionSignature) : TransactionSignature := setSignature sig [].

Section MoreVocabulary.
Context `{Primitives} `{Services}.

(** The public keys, from index [i] on, for which the spendable key holds a
    secret key: index and first matching secret key, in the order of the
    public keys. *)
Fixpoint matchingFrom (i : nat) (publicKeys : list SiaPublicKey) (secretKeys : list SecretKey)
  : list (nat * SecretKey) :=
  match publicKeys with
  | [] => []
  | pk :: rest =>
      match findSecretKey (Key pk) secretKeys with
      | Some sk => (i, sk) :: matchingFrom (S i) rest secretKeys
      | None => matchingFrom (S i) rest secretKeys
      end
  end.

(** One signature per listed public key, appended in turn. *)
Definition signWith (cf : CoveredFields) (parentID : Hash) (ms : list (nat * SecretKey))
    (txn : Transaction) : Transaction :=
  fold_left (fun t m => appendSignature t cf parentID m.1 m.2) ms txn.

(** Every index that the builder keeps of an input it added is an index
    of the transaction. *)
Definition wellIndexed (b : transactionBuilder) : Prop :=
  Forall (fun i => (i < length (SiacoinInputs (transaction b)))%nat) (siacoinInputs b)
  /\ Forall (fun i => (i < length (SiafundInputs (transaction b)))%nat) (siafundInputs b).

(** The parent IDs of the inputs that the builder added itself. *)
Definition fundedIDs (b : transactionBuilder) : list Hash :=
  omap (fun i => sci_ParentID <$> SiacoinInputs (transaction b) !! i) (siacoinInputs b)
  ++ omap (fun i => sfi_ParentID <$> SiafundInputs (transaction b) !! i) (siafundInputs b).

(** A call of a method that adds to the builder. *)
Inductive builderCall : Type :=
| callFundSiacoins (amount : Currency)
| callFundSiacoinsForOutputs (outputs : list SiacoinOutput) (fee : Currency)
| callFundSiafunds (amount : Currency)
| callAddParents (added : list Transaction)
| callAddMinerFee (fee : Currency)
| callAddSiacoinInput (input : SiacoinInput)
| callAddSiacoinOutput (output : SiacoinOutput)
| callAddFileContract (fc : N)
| callAddFileContractRevision (fcr : N)
| callAddStorageProof (sp : N)
| callAddSiafundInput (input : SiafundInput)
| callAddSiafundOutput (output : SiafundOutput)
| callAddArbitraryData (arb : list N)
| callAddTransactionSignature (sig : TransactionSignature).

Definition runCall (c : builderCall) : M unit :=
  match c with
  | callFundSiacoins amount => FundSiacoins amount
  | callFundSiacoinsForOutputs outputs fee => FundSiacoinsForOutputs outputs fee
  | callFundSiafunds amount => FundSiafunds amount
  | callAddParents added => AddParents added
  | callAddMinerFee fee => AddMinerFee fee ;; mret tt
  | callAddSiacoinInput input => AddSiacoinInput input ;; mret tt
  | callAddSiacoinOutput output => AddSiacoinOutput output ;; mret tt
  | callAddFileContract fc => AddFileContract fc ;; mret tt
  | callAddFileContractRevision fcr => AddFileContractRevision fcr ;; mret tt
  | callAddStorageProof sp => AddStorageProof sp ;; mret tt
  | callAddSiafundInput input => AddSiafundInput input ;; mret tt
  | callAddSiafundOutput output => AddSiafundOutput output ;; mret tt
  | callAddArbitraryData arb => AddArbitraryData arb ;; mret tt
  | callAddTransactionSignature sig => AddTransactionSignature sig ;; mret tt
  end.

(** The builder and the wallet after a list of calls, whatever each of
    them returned. *)
Definition runCalls (cs : list builderCall) (σ : world) : world :=
  fold_left (fun σ c => (runCall c σ).2) cs σ.

(** The calls that make the builder add inputs of the wallet. *)
Definition funding (c : builderCall) : bool :=
  match c with
  | callFundSiacoins _ | callFundSiacoinsForOutputs _ _ | callFundSiafunds _ => true
  | _ => false
  end.

(** The transactions of a list that are the first of their ID, IDs of
    [added] apart. *)
Fixpoint firstOfID (added : gset N) (txns : list Transaction) : list Transaction :=
  match txns with
  | [] => []
  | txn :: rest =>
      if decide (TransactionID txn ∈ added) then firstOfID added rest
      else txn :: firstOfID ({[TransactionID txn]} ∪ added) rest
  end.

(** The transaction sets of the outputs that the parents of a builder
    spend, one after the other. *)
Definition parentSets (b : transactionBuilder) : list Transaction :=
  mjoin ((fun sci => TransactionSet (sci_ParentID sci))
           <$> mjoin (SiacoinInputs <$> parents b)).

(** An ID that [signTransaction] can sign for: the transaction has a
    signature of that parent ID and an input of that ID, and the keys hold
    the secret key of the public key that the first such signature names. *)
Definition signable (keys : gmap N spendableKey) (txn : Transaction) (id : Hash) : Prop :=
  exists sigIndex sig uc sk,
    list_find (fun sig => sig_ParentID sig = id) (TransactionSignatures txn)
    = Some (sigIndex, sig)
    /\ findUnlockConditions txn id = Some uc
    /\ findSigningKey keys uc (PublicKeyIndex sig) = Some sk.

(** The error of [signTransaction] for an ID that it cannot sign for. *)
Definition signFailure (keys : gmap N spendableKey) (txn : Transaction) (id : Hash)
  : signError :=
  match list_find (fun sig => sig_ParentID sig = id) (TransactionSignatures txn) with
  | None => errSignatureNotPresent
  | Some _ =>
      match findUnlockConditions txn id with
      | None => errIDNotPresent
      | Some _ => errNoSigningKey id
      end
  end.

(** Two transactions that differ at most in the bytes of signatures. *)
Definition sameStubs (t t' : Transaction) : Prop :=
  unsigned t' = unsigned t
  /\ stub <$> TransactionSignatures t' = stub <$> TransactionSignatures t.

(** What signing has done between two states: it has appended signatures,
    each for one of the listed parent IDs and with the given covered fields,
    and recorded their positions; the rest of the transaction, the parents,
    the indices of the added inputs and the wallet are as before. *)
Definition signedMore (cf : CoveredFields) (ids : list Hash) (σ σ' : world) : Prop :=
  exists sigs,
    TransactionSignatures (transaction (tb σ'))
    = TransactionSignatures (transaction (tb σ)) ++ sigs
    /\ Forall (fun sig => sig_ParentID sig ∈ ids /\ sig_CoveredFields sig = cf) sigs
    /\ unsigned (transaction (tb σ')) = unsigned (transaction (tb σ))
    /\ transactionSignatures (tb σ')
       = transactionSignatures (tb σ)
         ++ seq (length (TransactionSignatures (transaction (tb σ)))) (length sigs)
    /\ parents (tb σ') = parents (tb σ) /\ newParents (tb σ') = newParents (tb σ)
    /\ siacoinInputs (tb σ') = siacoinInputs (tb σ)
    /\ siafundInputs (tb σ') = siafundInputs (tb σ)
    /\ wallet σ' = wallet σ.

(** A method that keeps a property of the builder, however it ends. *)
Definition keeps (P : transactionBuilder -> Prop) {A} (m : M A) : Prop :=
  forall σ, P (tb σ) -> P (tb (m σ).2).

(** The index of the first signature of each listed parent ID. *)
Definition firstStubs (txn : Transaction) (ids : list Hash) : list nat :=
  omap (fun id => fst <$> list_find (fun sig => sig_ParentID sig = id)
                            (TransactionSignatures txn)) ids.

End MoreVocabulary.

(** *** A runnable instance of the primitives

    Stand-ins with the interfaces of the real primitives, used to run the
    builder on concrete wallets: the unlock hash adds up the fields of the
    unlock conditions, the public key of the secret key [n] is the byte
    [n], a signature is the pair of hash and key, the respend timeout is 40
    blocks, the database holds the given height and confirmed outputs, an
    ID is encoded as one number and a siafund output as its three fields,
    and other bytes do not decode. *)
Definition byValue (a b : Hash * SiacoinOutput) : Prop := (sco_Value b.2 <= sco_Value a.2)%N.

#[export] Instance byValue_dec a b : Decision (byValue a b).
Proof. unfold byValue. apply _. Defined.

Definition runPrimitives (height : BlockHeight) (dustThreshold : Currency)
    (confirmed : list (Hash * SiacoinOutput)) : Primitives := {|
  UnlockHash uc :=
    (Z.to_N (Timelock uc) + sumN ((fun k => sumN (Key k)) <$> PublicKeys uc)
     + Z.to_N (SignaturesRequired uc))%N;
  PublicKey sk := [sk];
  SigHash t i := (N.of_nat (length (TransactionSignatures t)) + N.of_nat i)%N;
  SignHash h sk := [h; sk];
  SiacoinOutputID t i := (7000 + 10 * N.of_nat (length (TransactionSignatures t)) + i)%N;
  SiafundOutputID t i := (8000 + 10 * N.of_nat (length (TransactionSignatures t)) + i)%N;
  RespendTimeout := 40;
  FullCoveredFields :=
    {| WholeTransaction := true; cf_SiacoinInputs := []; cf_SiacoinOutputs := [];
       cf_FileContracts := []; cf_FileContractRevisions := []; cf_StorageProofs := [];
       cf_SiafundInputs := []; cf_SiafundOutputs := []; cf_MinerFees := [];
       cf_ArbitraryData := []; cf_TransactionSignatures := [] |};
  DustThreshold _ := ok dustThreshold;
  dbGetConsensusHeight _ := ok height;
  dbForEachSiacoinOutput _ := ok confirmed;
  getSortedOutputs _ := ok (merge_sort byValue confirmed);
  sortReverse := merge_sort byValue;
  UnmarshalSiafundOutputID idBytes :=
    match idBytes with
    | [id] => ok id
    | _ => err 1%N
    end;
  UnmarshalSiafundOutput sfoBytes :=
    match sfoBytes with
    | [value; unlockHash; claimStart] =>
        ok {| sfo_Value := value; sfo_UnlockHash := unlockHash; sfo_ClaimStart := claimStart |}
    | _ => err 1%N
    end;
  generateKey n :=
    ok {| sk_UnlockConditions :=
            {| Timelock := 0; PublicKeys := [ {| Algorithm := 0; Key := [(n + 200)%N] |} ];
               SignaturesRequired := 1 |};
          SecretKeys := [(n + 200)%N] |}
|}.

(** *** Concrete wallets and builders *)

(** Unlock conditions with the one key 5; their unlock hash is 6. *)
Definition conditions6 : UnlockConditions :=
  {| Timelock := 0; PublicKeys := [ {| Algorithm := 0; Key := [5%N] |} ];
     SignaturesRequired := 1 |}.

(** The same, locked until height 1000; their unlock hash is 1006. *)
Definition conditions1006 : UnlockConditions :=
  {| Timelock := 1000; PublicKeys := [ {| Algorithm := 0; Key := [5%N] |} ];
     SignaturesRequired := 1 |}.

Definition knownKeys : gmap N spendableKey :=
  <[6%N := {| sk_UnlockConditions := conditions6; SecretKeys := [5%N] |}]>
    (<[1006%N := {| sk_UnlockConditions := conditions1006; SecretKeys := [5%N] |}]> ∅).

(** The entry of the bucket of siafund outputs for an output, in the
    encoding of [runPrimitives]. *)
Definition marshalSiafund (o : N * SiafundOutput) : list N * list N :=
  ([o.1], [sfo_Value o.2; sfo_UnlockHash o.2; sfo_ClaimStart o.2]).

(** A wallet with the two keys, the given siafund outputs and the given
    outputs marked as spent. *)
Definition walletWith (siafunds : list (N * SiafundOutput)) (spent : gmap N Z) : Wallet :=
  {| keys := knownKeys; unconfirmedProcessedTransactions := [];
     dbSiafundOutputs := marshalSiafund <$> siafunds; dbSpentOutputs := spent;
     primarySeedProgress := 0 |}.

Definition fresh (w : Wallet) : world := {| tb := emptyBuilder; wallet := w |}.

(** Output 1: 100 siacoins at address 6. *)
Definition oneOutput : list (N * SiacoinOutput) :=
  [ (1%N, {| sco_Value := 100; sco_UnlockHash := 6 |}) ].

(** Output 1: 100 siacoins at the time-locked address 1006. *)
Definition lockedOutput : list (N * SiacoinOutput) :=
  [ (1%N, {| sco_Value := 100; sco_UnlockHash := 1006 |}) ].

(** Output 3: 5 siafunds at address 6. *)
Definition oneSiafund : list (N * SiafundOutput) :=
  [ (3%N, {| sfo_Value := 5; sfo_UnlockHash := 6; sfo_ClaimStart := 0 |}) ].

(** Output 3: 5 siafunds at address 201, the address of the first key of
    the seed of [runPrimitives]. *)
Definition ownSiafund : list (N * SiafundOutput) :=
  [ (3%N, {| sfo_Value := 5; sfo_UnlockHash := 201; sfo_ClaimStart := 0 |}) ].

Definition payTo9 (amount : N) : list SiacoinOutput :=
  [ {| sco_Value := amount; sco_UnlockHash := 9 |} ].

(** Unlock conditions whose key the wallet has on file without any secret
    key; their unlock hash is 9. *)
Definition conditions9 : UnlockConditions :=
  {| Timelock := 0; PublicKeys := [ {| Algorithm := 0; Key := [8%N] |} ];
     SignaturesRequired := 1 |}.

(** Height 100 and dust threshold 1 with [oneOutput] confirmed, the same
    with [lockedOutput] confirmed, and height 100 and dust threshold 10
    with no confirmed siacoin output. *)
Definition chainOne : Primitives := runPrimitives 100 1 oneOutput.
Definition chainLocked : Primitives := runPrimitives 100 1 lockedOutput.
Definition chainSiafunds : Primitives := runPrimitives 100 10 [].

(** Output 1 was spent at height 90, within the respend timeout of 40. *)
Definition spentAt90 : gmap N Z := <[1%N := 90]> ∅.

(** The same for output 3. *)
Definition siafundSpentAt90 : gmap N Z := <[3%N := 90]> ∅.

(** What a request for 100 with a fee of 10 leaves of a fresh builder over
    [oneOutput]: the fee and the input, and nothing marked as spent. *)
Definition afterLowBalance : world :=
  {| tb :=
       {| parents := []; signed := false;
          transaction :=
            setMinerFees
              (setSiacoinInputs zeroTransaction
                 [ {| sci_ParentID := 1; sci_UnlockConditions := conditions6 |} ])
              [10%N];
          newParents := []; siacoinInputs := [0%nat]; siafundInputs := [];
          transactionSignatures := [] |};
     wallet := walletWith [] ∅ |}.

(** A builder with one funded siacoin input under [conditions9], in a
    wallet that knows the address but holds no secret key for it. *)
Definition keylessWorld : world :=
  {| tb :=
       {| parents := []; signed := false;
          transaction :=
            setSiacoinInputs zeroTransaction
              [ {| sci_ParentID := 1; sci_UnlockConditions := conditions9 |} ];
          newParents := []; siacoinInputs := [0%nat]; siafundInputs := [];
          transactionSignatures := [] |};
     wallet :=
       {| keys := <[9%N := {| sk_UnlockConditions := conditions9; SecretKeys := [] |}]> ∅;
          unconfirmedProcessedTransactions := []; dbSiafundOutputs := [];
          dbSpentOutputs := ∅; primarySeedProgress := 0 |} |}.

(** The builder and the wallet after a fresh builder over [oneOutput] has
    been funded for a payment of 60 with a fee of 10. *)
Definition paid60 : world :=
  (@FundSiacoinsForOutputs chainOne (payTo9 60) 10 (fresh (walletWith [] ∅))).2.

(** An input that spends output 77, which the wallet does not own. *)
Definition input77 : SiacoinInput :=
  {| sci_ParentID := 77; sci_UnlockConditions := conditions6 |}.

(** Stand-ins for the services: an empty transaction pool, the number of
    siacoin inputs as the ID of a transaction, and a thread group that is
    not stopping. *)
Definition runServices : Services := {|
  TransactionSet _ := [];
  TransactionID t := N.of_nat (length (SiacoinInputs t));
  tgAdd _ := ok tt
|}.

End Wallet.

(** * Properties *)

(** ** Outcomes *)

Module GoFacts.

Lemma bind_ok_inv {E A B} (m : outcome E A) (k : A -> outcome E B) (b : B) :
  m ≫= k = ok b -> exists a, m = ok a /\ k a = ok b.
Proof. destruct m as [a| |]; simpl; intros Hk; [eauto | discriminate..]. Qed.

Lemma bind_ok_l {E A B} (m : outcome E A) (k : A -> outcome E B) (a : A) :
  m = ok a -> m ≫= k = k a.
Proof. now intros ->. Qed.

Lemma bind_err_l {E A B} (m : outcome E A) (k : A -> outcome E B) (e : E) :
  m = err e -> m ≫= k = err e.
Proof. now intros ->. Qed.

Lemma unit_ok {E} (m : outcome E unit) (u : unit) : m = ok u -> m = ok tt.
Proof. now destruct u. Qed.

Lemma sumN_app (l k : list N) : sumN (l ++ k) = (sumN l + sumN k)%N.
Proof. induction l as [|x l IH]; simpl; [reflexivity | rewrite IH; lia]. Qed.

End GoFacts.

(** ** The validator *)

Module ConsensusFacts.
Import Consensus GoFacts.

Lemma addAll_sumN {A} (f : A -> N) (xs : list A) (sum : N) :
  addAll f xs sum = (sum + sumN (f <$> xs))%N.
Proof.
  unfold addAll. revert sum.
  induction xs as [|x xs IH]; intros sum; simpl.
  - lia.
  - rewrite IH. symmetry. apply N.add_assoc.
Qed.

Lemma SiacoinOutputSum_total (t : Transaction) : SiacoinOutputSum t = outputTotal t.
Proof.
  unfold SiacoinOutputSum, outputTotal. rewrite !addAll_sumN.
  rewrite list_fmap_id. lia.
Qed.

Section Facts.
Context `{Primitives}.

Lemma validSiacoins_inputs_ok (s : State) (inputs : list SiacoinInput) (acc v : N) :
  validSiacoins_inputs s inputs acc = ok v ->
  exists vals,
    mapM (fun sci => sco_Value <$> siacoinOutputs s !! sci_ParentID sci) inputs = Some vals
    /\ v = (acc + sumN vals)%N.
Proof.
  revert acc. induction inputs as [|sci rest IH]; intros acc; simpl.
  - intros [= <-]. exists []. split; [reflexivity | simpl; lia].
  - destruct (siacoinOutputs s !! sci_ParentID sci) as [sco|] eqn:Hsco; [|discriminate].
    intros Hrun. apply bind_ok_inv in Hrun as (_ & _ & Hrest).
    apply IH in Hrest as (vals & Hvals & ->).
    exists (sco_Value sco :: vals). simpl. rewrite Hvals. simpl.
    split; [reflexivity | lia].
Qed.

Lemma validSiacoins_inputs_no_panic (s : State) (inputs : list SiacoinInput) (acc : N) :
  validSiacoins_inputs s inputs acc <> panic.
Proof.
  revert acc. induction inputs as [|sci rest IH]; intros acc; simpl; [discriminate|].
  destruct (siacoinOutputs s !! sci_ParentID sci); [|discriminate].
  unfold validUnlockConditions. repeat case_decide; simpl; try discriminate. apply IH.
Qed.

Lemma validSiacoins_inputs_sum (s : State) (inputs : list SiacoinInput) (acc v : N) (vals : list N) :
  mapM (fun sci => sco_Value <$> siacoinOutputs s !! sci_ParentID sci) inputs = Some vals ->
  validSiacoins_inputs s inputs acc = ok v -> v = (acc + sumN vals)%N.
Proof.
  intros Hvals Hrun. apply validSiacoins_inputs_ok in Hrun as (vals' & Hvals' & ->).
  congruence.
Qed.

Lemma validSiacoins_ok (s : State) (t : Transaction) :
  validSiacoins s t = ok tt ->
  exists vals, inputValues s t = Some vals /\ sumN vals = outputTotal t.
Proof.
  unfold validSiacoins. intros Hrun.
  apply bind_ok_inv in Hrun as (inputSum & Hin & Hcmp).
  apply validSiacoins_inputs_ok in Hin as (vals & Hvals & ->).
  exists vals. split; [exact Hvals|].
  case_decide as Hne; [discriminate|].
  apply N.compare_eq in Hne.
  rewrite SiacoinOutputSum_total in Hne. lia.
Qed.

Lemma validSiacoins_mismatch (s : State) (t : Transaction) (vals : list N) :
  inputValues s t = Some vals -> sumN vals <> outputTotal t ->
  exists e, validSiacoins s t = err e.
Proof.
  intros Hvals Hne. unfold validSiacoins.
  destruct (validSiacoins_inputs s (SiacoinInputs t) 0%N) as [v|e|] eqn:Hrun; simpl.
  - pose proof (validSiacoins_inputs_sum _ _ _ _ _ Hvals Hrun) as ->.
    case_decide as Hcmp; [eauto|]. exfalso. apply Hne.
    apply N.compare_eq in Hcmp.
    rewrite SiacoinOutputSum_total in Hcmp. lia.
  - eauto.
  - now apply validSiacoins_inputs_no_panic in Hrun.
Qed.

Lemma FollowsStorageProofRules_no_panic (t : Transaction) :
  FollowsStorageProofRules t <> panic.
Proof. unfold FollowsStorageProofRules. repeat case_decide; discriminate. Qed.

(** C1.  Monetary conservation of siacoins.  When the validator accepts a
    transaction, every siacoin input references an output of the state, and
    the values of those outputs sum to the miner fees plus the payouts of
    the new file contracts plus the values of the siacoin outputs (siafund
    outputs and outputs created by storage proofs are no part of the sum).
    When the inputs exist and the two sums differ, validation returns an
    error. *)
Theorem siacoin_conservation (s : State) (t : Transaction) :
  (validTransaction s t = ok tt ->
   exists vals, inputValues s t = Some vals /\
     sumN vals = (sumN (MinerFees t) + sumN (Payout <$> FileContracts t)
                  + sumN (sco_Value <$> SiacoinOutputs t))%N)
  /\ (forall vals, inputValues s t = Some vals ->
      sumN vals <> (sumN (MinerFees t) + sumN (Payout <$> FileContracts t)
                    + sumN (sco_Value <$> SiacoinOutputs t))%N ->
      exists e, validTransaction s t = err e).
Proof.
  split.
  - unfold validTransaction. intros Hrun.
    apply bind_ok_inv in Hrun as (_ & _ & Hrun).
    apply bind_ok_inv in Hrun as (u & Hcoins & _).
    apply unit_ok in Hcoins. now apply validSiacoins_ok.
  - intros vals Hvals Hne.
    destruct (validSiacoins_mismatch s t vals Hvals Hne) as (e & He).
    unfold validTransaction.
    destruct (FollowsStorageProofRules t) as [[]|e'|] eqn:Hrules; simpl.
    + rewrite He. simpl. eauto.
    + eauto.
    + now apply FollowsStorageProofRules_no_panic in Hrules.
Qed.

Lemma storage_proof_rules_ok (t : Transaction) :
  StorageProofs t <> [] -> FollowsStorageProofRules t = ok tt -> noForbiddenFields t.
Proof.
  unfold FollowsStorageProofRules, noForbiddenFields. intros Hsp.
  destruct (StorageProofs t); [congruence|]. simpl.
  destruct (SiacoinOutputs t), (FileContracts t), (FileContractTerminations t),
    (SiafundOutputs t); simpl; intros Hrun; try discriminate Hrun.
  repeat split.
Qed.

Lemma storage_proof_rules_err (t : Transaction) :
  StorageProofs t <> [] -> ~ noForbiddenFields t ->
  exists e, exclusivityError e /\ FollowsStorageProofRules t = err e.
Proof.
  unfold FollowsStorageProofRules, noForbiddenFields, exclusivityError. intros Hsp Hbad.
  destruct (StorageProofs t); [congruence|]. simpl.
  destruct (SiacoinOutputs t); simpl; [|eauto 6].
  destruct (FileContracts t); simpl; [|eauto 6].
  destruct (FileContractTerminations t); simpl; [|eauto 6].
  destruct (SiafundOutputs t); simpl; [|eauto 6].
  exfalso. apply Hbad. repeat split.
Qed.

(** C2.  Storage-proof exclusivity.  For a transaction with at least one
    storage proof, validation succeeds only if it has no siacoin outputs, no
    file contracts, no file-contract terminations and no siafund outputs.
    The check comes first: a transaction that violates it gets the
    exclusivity error whatever the state and whatever the later checks
    (missing outputs, sums, signatures) would have said. *)
Theorem storage_proof_exclusivity (s : State) (t : Transaction) :
  StorageProofs t <> [] ->
  (validTransaction s t = ok tt -> noForbiddenFields t)
  /\ (~ noForbiddenFields t ->
      exists e, exclusivityError e /\ FollowsStorageProofRules t = err e
                /\ validTransaction s t = err e).
Proof.
  intros Hsp. split.
  - unfold validTransaction. intros Hrun.
    apply bind_ok_inv in Hrun as (u & Hrules & _). apply unit_ok in Hrules.
    now apply storage_proof_rules_ok.
  - intros Hbad.
    destruct (storage_proof_rules_err t Hsp Hbad) as (e & Hex & Hrules).
    exists e. repeat split; [exact Hex | exact Hrules |].
    unfold validTransaction. now rewrite Hrules.
Qed.

Lemma compare_sum (f : SiacoinOutput -> N) (xs : list SiacoinOutput) (target : N) :
  (addAll f xs 0 ?= target)%N = Eq <-> sumN (f <$> xs) = target.
Proof. rewrite addAll_sumN, N.add_0_l. apply N.compare_eq_iff. Qed.

Lemma validFileContract_ok (s : State) (fc : FileContract) :
  validFileContract s fc = ok tt <-> lawful s fc.
Proof.
  unfold validFileContract, lawful, Tax. split.
  - intros Hrun.
    case_decide as Hstart; [discriminate|].
    case_decide as Hexp; [discriminate|].
    case_decide as Hvalid; [discriminate|].
    case_decide as Hmissed; [discriminate|].
    intros []; simpl; [lia | lia | now apply compare_sum | now apply compare_sum].
  - intros Hall.
    pose proof (Hall StartsInFuture) as Hstart. pose proof (Hall LastsOneBlock) as Hexp.
    pose proof (Hall ValidProofsSum) as Hvalid. pose proof (Hall MissedProofsSum) as Hmissed.
    simpl in *. apply compare_sum in Hvalid, Hmissed.
    case_decide; [lia|]. case_decide; [lia|].
    case_decide; [congruence|]. case_decide; [congruence|]. reflexivity.
Qed.

Lemma validFileContract_first (s : State) (fc : FileContract) (c : condition) :
  (forall c', (rank c' < rank c)%nat -> holds s fc c') -> ~ holds s fc c ->
  validFileContract s fc = err (errorOf c).
Proof.
  intros Hbefore Hbroken. unfold validFileContract, Tax.
  destruct c; simpl in *.
  - case_decide; [reflexivity | lia].
  - pose proof (Hbefore StartsInFuture ltac:(simpl; lia)) as Hstart. simpl in Hstart.
    case_decide; [lia|]. case_decide; [reflexivity | lia].
  - pose proof (Hbefore StartsInFuture ltac:(simpl; lia)) as Hstart.
    pose proof (Hbefore LastsOneBlock ltac:(simpl; lia)) as Hexp. simpl in *.
    case_decide; [lia|]. case_decide; [lia|].
    case_decide as Hvalid; [reflexivity|]. now apply compare_sum in Hvalid.
  - pose proof (Hbefore StartsInFuture ltac:(simpl; lia)) as Hstart.
    pose proof (Hbefore LastsOneBlock ltac:(simpl; lia)) as Hexp.
    pose proof (Hbefore ValidProofsSum ltac:(simpl; lia)) as Hvalid. simpl in *.
    apply compare_sum in Hvalid.
    case_decide; [lia|]. case_decide; [lia|]. case_decide; [congruence|].
    case_decide as Hmissed; [reflexivity|]. now apply compare_sum in Hmissed.
Qed.

Lemma validFileContracts_loop_ok (s : State) (fcs : list FileContract) :
  validFileContracts_loop s fcs = ok tt <-> Forall (lawful s) fcs.
Proof.
  induction fcs as [|fc rest IH]; simpl.
  - split; [constructor | reflexivity].
  - split.
    + intros Hrun. apply bind_ok_inv in Hrun as (u & Hfc & Hrest).
      apply unit_ok in Hfc. constructor; [now apply validFileContract_ok | now apply IH].
    + intros Hall. inversion Hall as [|? ? Hfc Hrest]; subst.
      apply validFileContract_ok in Hfc. rewrite Hfc. simpl. now apply IH.
Qed.

Lemma validFileContracts_loop_first (s : State) (pre post : list FileContract)
    (fc : FileContract) (c : condition) :
  Forall (lawful s) pre ->
  (forall c', (rank c' < rank c)%nat -> holds s fc c') -> ~ holds s fc c ->
  validFileContracts_loop s (pre ++ fc :: post) = err (errorOf c).
Proof.
  intros Hpre Hbefore Hbroken. induction Hpre as [|fc0 pre Hfc0 _ IH]; simpl.
  - now rewrite (validFileContract_first s fc c).
  - apply validFileContract_ok in Hfc0. rewrite Hfc0. simpl. exact IH.
Qed.

(** C5.  File-contract rules.  The validator accepts a transaction only if
    every new contract starts after the current height, expires after it
    starts, has valid-proof outputs that sum to the payout minus the tax on
    the payout, and has missed-proof outputs that sum to the payout.  With
    the contracts taken in list order and the four conditions in this
    order, the first condition that fails fixes the error that
    [validFileContracts] returns, and with it the error of the whole
    validation once the two earlier steps have passed. *)
Theorem file_contract_rules (s : State) (t : Transaction) :
  (validTransaction s t = ok tt -> Forall (lawful s) (FileContracts t))
  /\ (forall pre fc post c,
        FileContracts t = pre ++ fc :: post ->
        Forall (lawful s) pre ->
        (forall c', (rank c' < rank c)%nat -> holds s fc c') ->
        ~ holds s fc c ->
        validFileContracts s t = err (errorOf c)
        /\ (FollowsStorageProofRules t = ok tt -> validSiacoins s t = ok tt ->
            validTransaction s t = err (errorOf c))).
Proof.
  split.
  - unfold validTransaction. intros Hrun.
    apply bind_ok_inv in Hrun as (_ & _ & Hrun).
    apply bind_ok_inv in Hrun as (_ & _ & Hrun).
    apply bind_ok_inv in Hrun as (u & Hfcs & _). apply unit_ok in Hfcs.
    now apply validFileContracts_loop_ok.
  - intros pre fc post c Hsplit Hpre Hbefore Hbroken.
    assert (validFileContracts s t = err (errorOf c)) as Hfcs.
    { unfold validFileContracts. rewrite Hsplit.
      now apply validFileContracts_loop_first. }
    split; [exact Hfcs|]. intros Hrules Hcoins.
    unfold validTransaction. rewrite Hrules. simpl. rewrite Hcoins. simpl.
    now rewrite Hfcs.
Qed.

Lemma wrapped_trigger_height : uint64_sub 0 1 = 2 ^ 64 - 1.
Proof. reflexivity. Qed.

Lemma validStorageProofs_loop_ok (s : State) (sps : list StorageProof) (sp : StorageProof) :
  validStorageProofs_loop s sps = ok tt -> sp ∈ sps -> validStorageProof s sp = ok tt.
Proof.
  induction sps as [|sp0 rest IH]; simpl; intros Hrun Hin.
  - now apply elem_of_nil in Hin.
  - apply bind_ok_inv in Hrun as (u & Hsp0 & Hrest). apply unit_ok in Hsp0.
    apply elem_of_cons in Hin as [-> | Hin]; [exact Hsp0 | now apply IH].
Qed.

(** C9, as amended.  Let the state hold a contract whose start height is 0
    and let the current height be below the largest 64-bit value.  Then the
    trigger height 0 - 1 wraps to 2^64 - 1, which exceeds the current
    height: [storageProofSegment] returns the error of the missing trigger
    block without reading the current path, every storage proof against the
    contract is refused with that error, and no transaction that carries
    such a proof passes [validStorageProofs]. *)
Theorem start_zero_proof_rejected (s : State) (fcid : N) (fc : FileContract) :
  fileContracts s !! fcid = Some fc ->
  Start fc = 0 ->
  0 <= height s < 2 ^ 64 - 1 ->
  uint64_sub (Start fc) 1 = 2 ^ 64 - 1
  /\ storageProofSegment s fcid = err ErrNoTriggerBlock
  /\ (forall sp, sp_ParentID sp = fcid -> validStorageProof s sp = err ErrNoTriggerBlock)
  /\ (forall t sp, sp ∈ StorageProofs t -> sp_ParentID sp = fcid ->
      validStorageProofs s t <> ok tt).
Proof.
  intros Hfc Hstart Hheight.
  assert (storageProofSegment s fcid = err ErrNoTriggerBlock) as Hseg.
  { unfold storageProofSegment. rewrite Hfc, Hstart, wrapped_trigger_height.
    case_decide; [reflexivity | lia]. }
  assert (forall sp, sp_ParentID sp = fcid ->
                     validStorageProof s sp = err ErrNoTriggerBlock) as Hsp.
  { intros sp Hid. unfold validStorageProof. now rewrite Hid, Hfc, Hseg. }
  repeat split.
  - rewrite Hstart. apply wrapped_trigger_height.
  - exact Hseg.
  - exact Hsp.
  - intros t sp Hin Hid Hrun.
    apply (validStorageProofs_loop_ok _ _ sp) in Hrun; [|exact Hin].
    rewrite (Hsp sp Hid) in Hrun. discriminate.
Qed.

(** *** The checks on inputs, terminations, proofs and siafunds *)

Lemma validUnlockConditions_ok (s : State) (uc : UnlockConditions) (uh : N) :
  validUnlockConditions s uc uh = ok tt <-> unlocks s uc uh.
Proof.
  unfold validUnlockConditions, unlocks.
  destruct (decide (UnlockHash uc = uh)) as [Heq|Hne].
  - rewrite decide_False by (intros Hne; contradiction).
    case_decide; split; try discriminate; try reflexivity.
    + intros [_ ?]. lia.
    + intros _. split; [exact Heq | lia].
  - rewrite decide_True by exact Hne. split; [discriminate | now intros [? _]].
Qed.

Lemma validUnlockConditions_no_panic (s : State) (uc : UnlockConditions) (uh : N) :
  validUnlockConditions s uc uh <> panic.
Proof. unfold validUnlockConditions. repeat case_decide; discriminate. Qed.

Lemma validSiacoins_inputs_spend (s : State) (inputs : list SiacoinInput) (acc : N) :
  (exists v, validSiacoins_inputs s inputs acc = ok v) <-> Forall (spendsSiacoin s) inputs.
Proof.
  revert acc. induction inputs as [|sci rest IH]; intros acc; simpl.
  - split; [constructor | eauto].
  - split.
    + intros (v & Hrun).
      destruct (siacoinOutputs s !! sci_ParentID sci) as [sco|] eqn:Hsco; [|discriminate].
      apply bind_ok_inv in Hrun as (u & Huc & Hrest). apply unit_ok in Huc.
      constructor; [|apply (IH (acc + sco_Value sco)%N); eauto].
      exists sco. split; [exact Hsco | now apply validUnlockConditions_ok].
    + intros Hall. inversion Hall as [|? ? (sco & Hsco & Huc) Hrest]; subst.
      rewrite Hsco. apply validUnlockConditions_ok in Huc. rewrite Huc. simpl.
      now apply IH.
Qed.

Lemma validSiacoins_inputs_missing (s : State) (pre post : list SiacoinInput)
    (sci : SiacoinInput) (acc : N) :
  Forall (spendsSiacoin s) pre -> siacoinOutputs s !! sci_ParentID sci = None ->
  validSiacoins_inputs s (pre ++ sci :: post) acc = err ErrMissingSiacoinOutput.
Proof.
  intros Hpre Hnone. revert acc.
  induction Hpre as [|sci0 pre (sco & Hsco & Huc) _ IH]; intros acc; simpl.
  - now rewrite Hnone.
  - rewrite Hsco. apply validUnlockConditions_ok in Huc. rewrite Huc. simpl. apply IH.
Qed.

Lemma validSiacoins_iff (s : State) (t : Transaction) :
  validSiacoins s t = ok tt
  <-> Forall (spendsSiacoin s) (SiacoinInputs t)
     /\ exists vals, inputValues s t = Some vals /\ sumN vals = outputTotal t.
Proof.
  split.
  - intros Hrun. split; [|now apply validSiacoins_ok].
    unfold validSiacoins in Hrun. apply bind_ok_inv in Hrun as (v & Hin & _).
    apply (validSiacoins_inputs_spend s _ 0%N). eauto.
  - intros (Hall & vals & Hvals & Hsum).
    apply (validSiacoins_inputs_spend s _ 0%N) in Hall as (v & Hrun).
    unfold validSiacoins. rewrite Hrun. simpl.
    pose proof (validSiacoins_inputs_sum _ _ _ _ _ Hvals Hrun) as ->.
    rewrite SiacoinOutputSum_total, N.add_0_l, Hsum, N.compare_refl.
    now rewrite decide_False by (intros Hne; now apply Hne).
Qed.

(** X1.  What [validSiacoins] accepts.  It returns no error exactly when
    every siacoin input references an output of the state under unlock
    conditions that hash to the unlock hash of the output and whose timelock
    is not above the current height, and the values of the referenced
    outputs sum to what the transaction pays out.  The first input that
    references no output of the state, all inputs before it being in order,
    yields [ErrMissingSiacoinOutput]. *)
Theorem siacoin_inputs_spendable (s : State) (t : Transaction) :
  (validSiacoins s t = ok tt
   <-> Forall (spendsSiacoin s) (SiacoinInputs t)
      /\ exists vals, inputValues s t = Some vals /\ sumN vals = outputTotal t)
  /\ (forall pre sci post,
        SiacoinInputs t = pre ++ sci :: post ->
        Forall (spendsSiacoin s) pre ->
        siacoinOutputs s !! sci_ParentID sci = None ->
        validSiacoins s t = err ErrMissingSiacoinOutput).
Proof.
  split; [apply validSiacoins_iff|].
  intros pre sci post Hsplit Hpre Hnone. unfold validSiacoins.
  now rewrite Hsplit, (validSiacoins_inputs_missing s pre post sci 0%N Hpre Hnone).
Qed.

Lemma validSiafunds_inputs_ok (s : State) (inputs : list SiafundInput) (acc v : N) :
  validSiafunds_inputs s inputs acc = ok v
  <-> Forall (spendsSiafund s) inputs
     /\ exists vals,
          mapM (fun sfi => sfo_Value <$> siafundOutputs s !! sfi_ParentID sfi) inputs = Some vals
          /\ v = (acc + sumN vals)%N.
Proof.
  revert acc. induction inputs as [|sfi rest IH]; intros acc; simpl.
  - split.
    + intros [= <-]. split; [constructor|]. exists []. split; [reflexivity | simpl; lia].
    + intros (_ & vals & [= <-] & ->). simpl. f_equal. lia.
  - split.
    + intros Hrun.
      destruct (siafundOutputs s !! sfi_ParentID sfi) as [sfo|] eqn:Hsfo; [|discriminate].
      apply bind_ok_inv in Hrun as (u & Huc & Hrest). apply unit_ok in Huc.
      apply IH in Hrest as (Hall & vals & Hvals & ->).
      split.
      * constructor; [|exact Hall].
        exists sfo. split; [exact Hsfo | now apply validUnlockConditions_ok].
      * exists (sfo_Value sfo :: vals). simpl. rewrite Hvals. simpl.
        split; [reflexivity | lia].
    + intros (Hall & vals & Hvals & ->).
      inversion Hall as [|? ? (sfo & Hsfo & Huc) Hrest]; subst.
      rewrite Hsfo in *. apply validUnlockConditions_ok in Huc. rewrite Huc. simpl.
      simpl in Hvals.
      destruct (mapM (fun sfi => sfo_Value <$> siafundOutputs s !! sfi_ParentID sfi) rest)
        as [vals'|] eqn:Hvals'; [|discriminate].
      simpl in Hvals. injection Hvals as <-.
      apply IH. split; [exact Hrest|]. exists vals'. split; [reflexivity | simpl; lia].
Qed.

Lemma validSiafunds_inputs_missing (s : State) (pre post : list SiafundInput)
    (sfi : SiafundInput) (acc : N) :
  Forall (spendsSiafund s) pre -> siafundOutputs s !! sfi_ParentID sfi = None ->
  validSiafunds_inputs s (pre ++ sfi :: post) acc = err ErrMissingSiafundOutput.
Proof.
  intros Hpre Hnone. revert acc.
  induction Hpre as [|sfi0 pre (sfo & Hsfo & Huc) _ IH]; intros acc; simpl.
  - now rewrite Hnone.
  - rewrite Hsfo. apply validUnlockConditions_ok in Huc. rewrite Huc. simpl. apply IH.
Qed.

Lemma validSiafunds_inputs_no_panic (s : State) (inputs : list SiafundInput) (acc : N) :
  validSiafunds_inputs s inputs acc <> panic.
Proof.
  revert acc. induction inputs as [|sfi rest IH]; intros acc; simpl; [discriminate|].
  destruct (siafundOutputs s !! sfi_ParentID sfi); [|discriminate].
  unfold validUnlockConditions. repeat case_decide; simpl; try discriminate. apply IH.
Qed.

Lemma validSiafunds_outputs_ok (outputs : list SiafundOutput) (acc v : N) :
  validSiafunds_outputs outputs acc = ok v
  <-> Forall (fun sfo => sfo_ClaimStart sfo = 0%N) outputs
     /\ v = (acc + sumN (sfo_Value <$> outputs))%N.
Proof.
  revert acc. induction outputs as [|sfo rest IH]; intros acc;
    cbn [validSiafunds_outputs]; rewrite ?fmap_nil, ?fmap_cons; cbn [sumN].
  - split.
    + intros [= <-]. split; [constructor | lia].
    + intros [_ ->]. f_equal. lia.
  - destruct (decide (sfo_ClaimStart sfo = 0%N)) as [Hzero|Hnonzero].
    + rewrite decide_False
        by (intros Hne; apply Hne; rewrite Hzero; reflexivity).
      rewrite IH. split.
      * intros [Hall ->]. split; [now constructor | lia].
      * intros [Hall ->]. inversion Hall; subst. split; [assumption | lia].
    + rewrite decide_True by (intros Heq; apply N.compare_eq in Heq; contradiction).
      split; [discriminate|]. intros [Hall _]. inversion Hall; subst. contradiction.
Qed.

Lemma validSiafunds_outputs_no_panic (outputs : list SiafundOutput) (acc : N) :
  validSiafunds_outputs outputs acc <> panic.
Proof.
  revert acc. induction outputs as [|sfo rest IH]; intros acc; simpl; [discriminate|].
  case_decide; [discriminate | apply IH].
Qed.

Lemma validSiafunds_iff (s : State) (t : Transaction) :
  validSiafunds s t = ok tt
  <-> Forall (spendsSiafund s) (SiafundInputs t)
     /\ Forall (fun sfo => sfo_ClaimStart sfo = 0%N) (SiafundOutputs t)
     /\ exists vals, siafundInputValues s t = Some vals
          /\ sumN (sfo_Value <$> SiafundOutputs t) = sumN vals.
Proof.
  unfold validSiafunds, siafundInputValues. split.
  - intros Hrun.
    apply bind_ok_inv in Hrun as (vin & Hin & Hrun).
    apply bind_ok_inv in Hrun as (vout & Hout & Hcmp).
    apply validSiafunds_inputs_ok in Hin as (Hins & vals & Hvals & ->).
    apply validSiafunds_outputs_ok in Hout as (Houts & ->).
    split; [exact Hins|]. split; [exact Houts|]. exists vals. split; [exact Hvals|].
    case_decide as Hne; [discriminate|]. apply N.compare_eq in Hne. lia.
  - intros (Hins & Houts & vals & Hvals & Hsum).
    assert (validSiafunds_inputs s (SiafundInputs t) 0 = ok (0 + sumN vals)%N) as ->
      by (apply validSiafunds_inputs_ok; eauto).
    simpl.
    assert (validSiafunds_outputs (SiafundOutputs t) 0
            = ok (0 + sumN (sfo_Value <$> SiafundOutputs t))%N) as ->
      by (apply validSiafunds_outputs_ok; eauto).
    simpl. rewrite Hsum, N.compare_refl.
    now rewrite decide_False by (intros Hne; now apply Hne).
Qed.

(** X2.  Conservation of siafunds.  [validSiafunds] returns no error
    exactly when every siafund input references a siafund output of the
    state under unlock conditions that open it, every siafund output of the
    transaction has a zero claim start, and the values of the siafund
    outputs sum to the values of the referenced outputs.  The inputs are
    checked before the outputs: the first input that references no output
    of the state yields [ErrMissingSiafundOutput], and with all inputs in
    order the first output with a claim start yields
    [ErrInvalidSiafundOutput] whatever the sums. *)
Theorem siafund_conservation (s : State) (t : Transaction) :
  (validSiafunds s t = ok tt
   <-> Forall (spendsSiafund s) (SiafundInputs t)
      /\ Forall (fun sfo => sfo_ClaimStart sfo = 0%N) (SiafundOutputs t)
      /\ exists vals, siafundInputValues s t = Some vals
           /\ sumN (sfo_Value <$> SiafundOutputs t) = sumN vals)
  /\ (forall pre sfi post,
        SiafundInputs t = pre ++ sfi :: post ->
        Forall (spendsSiafund s) pre ->
        siafundOutputs s !! sfi_ParentID sfi = None ->
        validSiafunds s t = err ErrMissingSiafundOutput)
  /\ (Forall (spendsSiafund s) (SiafundInputs t) ->
      ~ Forall (fun sfo => sfo_ClaimStart sfo = 0%N) (SiafundOutputs t) ->
      validSiafunds s t = err ErrInvalidSiafundOutput).
Proof.
  split; [apply validSiafunds_iff|]. split.
  - intros pre sfi post Hsplit Hpre Hnone. unfold validSiafunds.
    now rewrite Hsplit, (validSiafunds_inputs_missing s pre post sfi 0%N Hpre Hnone).
  - intros Hins Hbad. unfold validSiafunds.
    destruct (validSiafunds_inputs s (SiafundInputs t) 0) as [vin|e|] eqn:Hin.
    + simpl.
      destruct (validSiafunds_outputs (SiafundOutputs t) 0) as [vout|e|] eqn:Hout.
      * exfalso. apply Hbad. now apply validSiafunds_outputs_ok in Hout as [? _].
      * simpl. f_equal. clear Hbad Hin.
        revert Hout. generalize 0%N. induction (SiafundOutputs t) as [|sfo rest IH];
          intros acc; simpl; [discriminate|].
        case_decide; [now intros [= <-] | apply IH].
      * now apply validSiafunds_outputs_no_panic in Hout.
    + exfalso.
      assert (exists v, validSiafunds_inputs s (SiafundInputs t) 0 = ok v) as (v & Hv).
      { clear Hin Hbad. revert Hins. generalize 0%N.
        induction (SiafundInputs t) as [|sfi rest IH]; intros acc Hall; simpl; [eauto|].
        inversion Hall as [|? ? (sfo & Hsfo & Huc) Hrest]; subst.
        rewrite Hsfo. apply validUnlockConditions_ok in Huc. rewrite Huc. simpl.
        now apply IH. }
      congruence.
    + now apply validSiafunds_inputs_no_panic in Hin.
Qed.

Lemma validFileContractTermination_ok (s : State) (fct : FileContractTermination) :
  validFileContractTermination s fct = ok tt <-> lawfulTermination s fct.
Proof.
  unfold validFileContractTermination, lawfulTermination.
  destruct (fileContracts s !! fct_ParentID fct) as [fc|] eqn:Hfc.
  - split.
    + intros Hrun. apply bind_ok_inv in Hrun as (u & Huc & Hsum). apply unit_ok in Huc.
      exists fc. split; [reflexivity|]. split; [now apply validUnlockConditions_ok|].
      case_decide as Hne; [discriminate|]. now apply compare_sum.
    + intros (fc' & [= <-] & Huc & Hsum).
      apply validUnlockConditions_ok in Huc. rewrite Huc. simpl.
      apply compare_sum in Hsum. rewrite Hsum.
      now rewrite decide_False by (intros Hne; now apply Hne).
  - split; [discriminate|]. intros (fc & Hfc' & _). discriminate.
Qed.

Lemma validFileContractTermination_no_panic (s : State) (fct : FileContractTermination) :
  validFileContractTermination s fct <> panic.
Proof.
  unfold validFileContractTermination, validUnlockConditions.
  destruct (fileContracts s !! fct_ParentID fct); [|discriminate].
  repeat case_decide; discriminate.
Qed.

Lemma validFileContractTerminations_loop_ok (s : State) (fcts : list FileContractTermination) :
  validFileContractTerminations_loop s fcts = ok tt <-> Forall (lawfulTermination s) fcts.
Proof.
  induction fcts as [|fct rest IH]; simpl.
  - split; [constructor | reflexivity].
  - split.
    + intros Hrun. apply bind_ok_inv in Hrun as (u & Hfct & Hrest). apply unit_ok in Hfct.
      constructor; [now apply validFileContractTermination_ok | now apply IH].
    + intros Hall. inversion Hall as [|? ? Hfct Hrest]; subst.
      apply validFileContractTermination_ok in Hfct. rewrite Hfct. simpl. now apply IH.
Qed.

(** X3.  What [validFileContractTerminations] accepts.  It returns no
    error exactly when every termination names a contract of the state,
    carries conditions that open the termination hash of that contract, and
    has payouts that sum to the payout of the contract.  The first
    termination that names no contract of the state, those before it being
    in order, yields [ErrMissingFileContract]. *)
Theorem terminations_lawful (s : State) (t : Transaction) :
  (validFileContractTerminations s t = ok tt
   <-> Forall (lawfulTermination s) (FileContractTerminations t))
  /\ (forall pre fct post,
        FileContractTerminations t = pre ++ fct :: post ->
        Forall (lawfulTermination s) pre ->
        fileContracts s !! fct_ParentID fct = None ->
        validFileContractTerminations s t = err ErrMissingFileContract).
Proof.
  split; [apply validFileContractTerminations_loop_ok|].
  intros pre fct post Hsplit Hpre Hnone. unfold validFileContractTerminations.
  rewrite Hsplit. clear Hsplit.
  induction Hpre as [|fct0 pre Hfct0 _ IH]; simpl.
  - unfold validFileContractTermination. now rewrite Hnone.
  - apply validFileContractTermination_ok in Hfct0. rewrite Hfct0. simpl. exact IH.
Qed.

Lemma storageProofSegment_panic (s : State) (fcid : N) :
  storageProofSegment s fcid = panic
  <-> exists fc, fileContracts s !! fcid = Some fc
        /\ uint64_sub (Start fc) 1 <= height s
        /\ int64_of_uint64 (CalculateSegments (FileSize fc)) = 0.
Proof.
  unfold storageProofSegment.
  destruct (fileContracts s !! fcid) as [fc|] eqn:Hfc.
  - case_decide as Htrigger.
    + split; [discriminate|]. intros (fc' & [= <-] & Hle & _). lia.
    + case_decide as Hzero.
      * split; [|reflexivity]. intros _. exists fc. split; [reflexivity|]. split; [lia|].
        exact Hzero.
      * split; [discriminate|]. intros (fc' & [= <-] & _ & Hz). contradiction.
  - split; [discriminate|]. intros (fc & Hfc' & _). discriminate.
Qed.

Lemma storageProofSegment_err (s : State) (fcid : N) (fc : FileContract) (e : error) :
  fileContracts s !! fcid = Some fc -> storageProofSegment s fcid = err e ->
  e = ErrNoTriggerBlock.
Proof.
  unfold storageProofSegment. intros ->.
  case_decide; [now intros [= <-]|]. case_decide; discriminate.
Qed.

Lemma validStorageProof_ok (s : State) (sp : StorageProof) :
  validStorageProof s sp = ok tt <-> provenProof s sp.
Proof.
  unfold validStorageProof, provenProof.
  destruct (fileContracts s !! sp_ParentID sp) as [fc|] eqn:Hfc.
  - split.
    + intros Hrun. apply bind_ok_inv in Hrun as (index & Hseg & Hverified).
      exists fc, index. split; [reflexivity|]. split; [exact Hseg|].
      destruct (VerifySegment _ _ _ _ _); [reflexivity | discriminate].
    + intros (fc' & index & [= <-] & Hseg & Hverified).
      rewrite Hseg. simpl. now rewrite Hverified.
  - split; [discriminate|]. intros (fc & index & Hfc' & _). discriminate.
Qed.

Lemma validStorageProof_err (s : State) (sp : StorageProof) (e : error) :
  validStorageProof s sp = err e -> storageProofError e.
Proof.
  unfold validStorageProof, storageProofError.
  destruct (fileContracts s !! sp_ParentID sp) as [fc|] eqn:Hfc; [|intros [= <-]; auto].
  destruct (storageProofSegment s (sp_ParentID sp)) as [index|e'|] eqn:Hseg; simpl.
  - destruct (VerifySegment _ _ _ _ _); simpl; [discriminate | intros [= <-]; auto].
  - intros [= <-]. apply (storageProofSegment_err s _ fc) in Hseg; auto.
  - discriminate.
Qed.

Lemma validStorageProof_panic (s : State) (sp : StorageProof) :
  validStorageProof s sp = panic -> storageProofSegment s (sp_ParentID sp) = panic.
Proof.
  unfold validStorageProof.
  destruct (fileContracts s !! sp_ParentID sp) as [fc|]; [|discriminate].
  destruct (storageProofSegment s (sp_ParentID sp)) as [index|e'|]; simpl;
    [|discriminate | reflexivity].
  destruct (VerifySegment _ _ _ _ _); discriminate.
Qed.

Lemma validStorageProofs_loop_iff (s : State) (sps : list StorageProof) :
  validStorageProofs_loop s sps = ok tt <-> Forall (provenProof s) sps.
Proof.
  induction sps as [|sp rest IH]; simpl.
  - split; [constructor | reflexivity].
  - split.
    + intros Hrun. apply bind_ok_inv in Hrun as (u & Hsp & Hrest). apply unit_ok in Hsp.
      constructor; [now apply validStorageProof_ok | now apply IH].
    + intros Hall. inversion Hall as [|? ? Hsp Hrest]; subst.
      apply validStorageProof_ok in Hsp. rewrite Hsp. simpl. now apply IH.
Qed.

Lemma validStorageProofs_loop_err (s : State) (sps : list StorageProof) (e : error) :
  validStorageProofs_loop s sps = err e -> storageProofError e.
Proof.
  induction sps as [|sp rest IH]; simpl; [discriminate|].
  destruct (validStorageProof s sp) as [[]|e'|] eqn:Hsp; simpl.
  - exact IH.
  - intros [= <-]. now apply validStorageProof_err in Hsp.
  - discriminate.
Qed.

Lemma validStorageProofs_loop_panic (s : State) (sps : list StorageProof) :
  validStorageProofs_loop s sps = panic ->
  exists sp, sp ∈ sps /\ storageProofSegment s (sp_ParentID sp) = panic.
Proof.
  induction sps as [|sp rest IH]; simpl; [discriminate|].
  destruct (validStorageProof s sp) as [[]|e'|] eqn:Hsp; simpl.
  - intros Hrest. destruct (IH Hrest) as (sp' & Hin & Hseg).
    exists sp'. split; [now apply elem_of_cons; right | exact Hseg].
  - discriminate.
  - intros _. exists sp. split; [apply list_elem_of_here | now apply validStorageProof_panic].
Qed.

Lemma validSiacoins_no_panic (s : State) (t : Transaction) : validSiacoins s t <> panic.
Proof.
  unfold validSiacoins.
  destruct (validSiacoins_inputs s (SiacoinInputs t) 0) as [v|e|] eqn:Hin; simpl.
  - case_decide; discriminate.
  - discriminate.
  - now apply validSiacoins_inputs_no_panic in Hin.
Qed.

Lemma validFileContracts_no_panic (s : State) (t : Transaction) :
  validFileContracts s t <> panic.
Proof.
  unfold validFileContracts. induction (FileContracts t) as [|fc rest IH]; simpl;
    [discriminate|].
  unfold validFileContract at 1. repeat case_decide; simpl; try discriminate. exact IH.
Qed.

Lemma validFileContractTerminations_no_panic (s : State) (t : Transaction) :
  validFileContractTerminations s t <> panic.
Proof.
  unfold validFileContractTerminations.
  induction (FileContractTerminations t) as [|fct rest IH]; simpl; [discriminate|].
  destruct (validFileContractTermination s fct) as [[]|e|] eqn:Hfct; simpl;
    [exact IH | discriminate|].
  now apply validFileContractTermination_no_panic in Hfct.
Qed.

Lemma validSiafunds_no_panic (s : State) (t : Transaction) : validSiafunds s t <> panic.
Proof.
  unfold validSiafunds.
  destruct (validSiafunds_inputs s (SiafundInputs t) 0) as [vin|e|] eqn:Hin; simpl.
  - destruct (validSiafunds_outputs (SiafundOutputs t) 0) as [vout|e|] eqn:Hout; simpl.
    + case_decide; discriminate.
    + discriminate.
    + now apply validSiafunds_outputs_no_panic in Hout.
  - discriminate.
  - now apply validSiafunds_inputs_no_panic in Hin.
Qed.

(** X4.  The segment that a storage proof has to prove lies in the file.
    For a contract whose file has between 1 and 2^63 - 1 segments, an index
    that [storageProofSegment] returns is at least 0 and below the number of
    segments. *)
Theorem segment_index_in_range (s : State) (fcid : N) (fc : FileContract) (index : Z) :
  fileContracts s !! fcid = Some fc ->
  0 < CalculateSegments (FileSize fc) < 2 ^ 63 ->
  storageProofSegment s fcid = ok index ->
  0 <= index < CalculateSegments (FileSize fc).
Proof.
  intros Hfc [Hpos Hlt]. unfold storageProofSegment. rewrite Hfc.
  case_decide; [discriminate|].
  assert (int64_of_uint64 (CalculateSegments (FileSize fc)) = CalculateSegments (FileSize fc))
    as -> by (unfold int64_of_uint64; destruct (Z_lt_dec _ _); [reflexivity | contradiction]).
  case_decide; [discriminate|].
  generalize (Z.of_N (be_value (be_bytes 32
    (HashBytes (be_bytes 32 (pathAt s (uint64_sub (Start fc) 1)) ++ be_bytes 32 fcid))))).
  intros seedInt Heq.
  assert (index = wrap 64 (seedInt mod Z.abs (CalculateSegments (FileSize fc)))) as ->
    by congruence.
  clear Heq. rewrite Z.abs_eq by (apply Z.lt_le_incl; exact Hpos). unfold wrap.
  pose proof (Z.mod_pos_bound seedInt (CalculateSegments (FileSize fc)) Hpos) as Hbound.
  assert (2 ^ 63 < 2 ^ 64) as Hpow by reflexivity.
  rewrite Z.mod_small; [exact Hbound|]. split; [apply Hbound|].
  eapply Z.lt_trans; [apply Hbound|]. eapply Z.lt_trans; [exact Hlt | exact Hpow].
Qed.

(** X5.  The one run-time panic of the validator.  [storageProofSegment]
    panics exactly when the contract exists, its trigger block is not above
    the current height, and the number of segments of its file, read as a
    signed 64-bit integer, is zero: the modulus of [big.Int.Mod] is zero
    then.  The validation of a transaction panics only if the signature
    check does or if one of its storage proofs names such a contract. *)
Theorem validation_panics_on_zero_segments (s : State) (t : Transaction) :
  (forall fcid,
     storageProofSegment s fcid = panic
     <-> exists fc, fileContracts s !! fcid = Some fc
           /\ uint64_sub (Start fc) 1 <= height s
           /\ int64_of_uint64 (CalculateSegments (FileSize fc)) = 0)
  /\ (validTransaction s t = panic ->
      validSignatures s t = panic
      \/ exists sp, sp ∈ StorageProofs t /\ storageProofSegment s (sp_ParentID sp) = panic).
Proof.
  split; [apply storageProofSegment_panic|].
  unfold validTransaction.
  destruct (FollowsStorageProofRules t) as [[]|e|] eqn:Hrules; simpl; [|discriminate|];
    [|now apply FollowsStorageProofRules_no_panic in Hrules].
  destruct (validSiacoins s t) as [[]|e|] eqn:Hcoins; simpl; [|discriminate|];
    [|now apply validSiacoins_no_panic in Hcoins].
  destruct (validFileContracts s t) as [[]|e|] eqn:Hfcs; simpl; [|discriminate|];
    [|now apply validFileContracts_no_panic in Hfcs].
  destruct (validFileContractTerminations s t) as [[]|e|] eqn:Hfcts; simpl; [|discriminate|];
    [|now apply validFileContractTerminations_no_panic in Hfcts].
  destruct (validStorageProofs s t) as [[]|e|] eqn:Hsps; simpl; [|discriminate|].
  - destruct (validSiafunds s t) as [[]|e|] eqn:Hfunds; simpl; [|discriminate|];
      [|now apply validSiafunds_no_panic in Hfunds].
    now left.
  - intros _. right. now apply validStorageProofs_loop_panic.
Qed.

(** X6.  The errors of the loop over the storage proofs.  An error of
    [validStorageProofs] is one of three: the proof names no contract of the
    state, the trigger block is above the current height, or the proof does
    not verify.  The error of [storageProofSegment] for an unknown contract
    is never returned: the loop has looked the contract up before it calls
    [storageProofSegment]. *)
Theorem storage_proof_errors (s : State) (t : Transaction) (e : error) :
  validStorageProofs s t = err e ->
  storageProofError e /\ e <> ErrUnrecognizedContractID.
Proof.
  intros Hrun. apply validStorageProofs_loop_err in Hrun.
  split; [exact Hrun|]. destruct Hrun as [->|[->| ->]]; discriminate.
Qed.

Lemma FollowsStorageProofRules_iff (t : Transaction) :
  FollowsStorageProofRules t = ok tt <-> StorageProofs t = [] \/ noForbiddenFields t.
Proof.
  destruct (StorageProofs t) as [|sp sps] eqn:Hsps.
  - unfold FollowsStorageProofRules. rewrite Hsps. simpl. split; [now left | reflexivity].
  - assert (StorageProofs t <> []) as Hsome by (rewrite Hsps; discriminate).
    split.
    + intros Hrun. right. now apply storage_proof_rules_ok.
    + intros [Hnil|Hnone]; [discriminate|].
      destruct (FollowsStorageProofRules t) as [[]|e|] eqn:Hrun; [reflexivity| |].
      * exfalso. unfold FollowsStorageProofRules, noForbiddenFields in *.
        destruct Hnone as (Hscos & Hfcs & Hfcts & Hsfos).
        rewrite Hsps, Hscos, Hfcs, Hfcts, Hsfos in Hrun. simpl in Hrun. discriminate.
      * now apply FollowsStorageProofRules_no_panic in Hrun.
Qed.

(** X7.  What the validator accepts.  [validTransaction] returns no error
    exactly when the transaction has no storage proof or none of the fields
    that exclude one; its siacoin inputs spend outputs of the state under
    conditions that open them and balance what it pays out; its new
    contracts, its terminations and its storage proofs are each in order;
    its siafund inputs spend siafund outputs of the state under conditions
    that open them, its siafund outputs have no claim start and balance the
    inputs; and the signature check passes. *)
Theorem transaction_accepted (s : State) (t : Transaction) :
  validTransaction s t = ok tt
  <-> (StorageProofs t = [] \/ noForbiddenFields t)
     /\ (Forall (spendsSiacoin s) (SiacoinInputs t)
         /\ exists vals, inputValues s t = Some vals /\ sumN vals = outputTotal t)
     /\ Forall (lawful s) (FileContracts t)
     /\ Forall (lawfulTermination s) (FileContractTerminations t)
     /\ Forall (provenProof s) (StorageProofs t)
     /\ (Forall (spendsSiafund s) (SiafundInputs t)
         /\ Forall (fun sfo => sfo_ClaimStart sfo = 0%N) (SiafundOutputs t)
         /\ exists vals, siafundInputValues s t = Some vals
              /\ sumN (sfo_Value <$> SiafundOutputs t) = sumN vals)
     /\ validSignatures s t = ok tt.
Proof.
  rewrite <- FollowsStorageProofRules_iff, <- validSiacoins_iff,
    <- validFileContracts_loop_ok, <- validFileContractTerminations_loop_ok,
    <- validStorageProofs_loop_iff, <- validSiafunds_iff.
  fold (validFileContracts s t) (validFileContractTerminations s t) (validStorageProofs s t).
  unfold validTransaction. split.
  - intros Hrun.
    apply bind_ok_inv in Hrun as ([] & Hrules & Hrun).
    apply bind_ok_inv in Hrun as ([] & Hcoins & Hrun).
    apply bind_ok_inv in Hrun as ([] & Hfcs & Hrun).
    apply bind_ok_inv in Hrun as ([] & Hfcts & Hrun).
    apply bind_ok_inv in Hrun as ([] & Hsps & Hrun).
    apply bind_ok_inv in Hrun as ([] & Hfunds & Hsigs).
    repeat split; assumption.
  - intros (-> & -> & -> & -> & -> & -> & Hsigs). exact Hsigs.
Qed.

Lemma unlocks_later (s : State) (h : Z) (uc : UnlockConditions) (uh : N) :
  height s <= h -> unlocks s uc uh -> unlocks (atHeight s h) uc uh.
Proof. unfold unlocks. simpl. intros Hle [Hhash Hlock]. split; [exact Hhash | lia]. Qed.

(** X8.  Timelocks only run out.  A transaction whose siacoin inputs,
    siafund inputs or terminations pass their check at some height passes
    the same check at every later height of the same state; new contracts go
    the other way, a set of contracts that is accepted at the later height
    is accepted at the earlier one. *)
Theorem spend_stays_valid (s : State) (t : Transaction) (h : Z) :
  height s <= h ->
  (validSiacoins s t = ok tt -> validSiacoins (atHeight s h) t = ok tt)
  /\ (validSiafunds s t = ok tt -> validSiafunds (atHeight s h) t = ok tt)
  /\ (validFileContractTerminations s t = ok tt ->
      validFileContractTerminations (atHeight s h) t = ok tt)
  /\ (validFileContracts (atHeight s h) t = ok tt -> validFileContracts s t = ok tt).
Proof.
  intros Hle. split; [|split; [|split]].
  - rewrite !validSiacoins_iff. intros [Hall Hsum]. split; [|exact Hsum].
    eapply Forall_impl; [exact Hall|]. intros sci (sco & Hsco & Huc).
    exists sco. split; [exact Hsco | now apply unlocks_later].
  - rewrite !validSiafunds_iff. intros (Hall & Hout & Hsum).
    split; [|split; [exact Hout | exact Hsum]].
    eapply Forall_impl; [exact Hall|]. intros sfi (sfo & Hsfo & Huc).
    exists sfo. split; [exact Hsfo | now apply unlocks_later].
  - unfold validFileContractTerminations.
    rewrite !validFileContractTerminations_loop_ok. intros Hall.
    eapply Forall_impl; [exact Hall|]. intros fct (fc & Hfc & Huc & Hsum).
    exists fc. split; [exact Hfc|]. split; [now apply unlocks_later | exact Hsum].
  - unfold validFileContracts. rewrite !validFileContracts_loop_ok. intros Hall.
    eapply Forall_impl; [exact Hall|]. intros fc Hlawful c.
    specialize (Hlawful c). destruct c; simpl in *; [lia | assumption..].
Qed.

End Facts.

(** *** The validator on concrete transactions *)

Section Runs.
#[local] Existing Instance runPrimitives.

Lemma payment_accepted : validTransaction smallState payment = ok tt.
Proof. vm_compute. reflexivity. Qed.

Lemma siacoin_conservation_witness :
  validTransaction smallState payment = ok tt
  /\ exists vals, inputValues smallState payment = Some vals /\
       sumN vals = (sumN (MinerFees payment) + sumN (Payout <$> FileContracts payment)
                    + sumN (sco_Value <$> SiacoinOutputs payment))%N.
Proof.
  split; [vm_compute; reflexivity|].
  apply (proj1 (siacoin_conservation smallState payment)). vm_compute. reflexivity.
Defined.

Lemma storage_proof_exclusivity_witness :
  StorageProofs proofWithOutput <> []
  /\ exists e, exclusivityError e /\ FollowsStorageProofRules proofWithOutput = err e
       /\ validTransaction smallState proofWithOutput = err e.
Proof.
  split; [discriminate|].
  apply (proj2 (storage_proof_exclusivity smallState proofWithOutput ltac:(discriminate))).
  unfold noForbiddenFields. intros [Hout _]. discriminate Hout.
Defined.

Lemma file_contract_rules_witness :
  validTransaction smallState contractCreation = ok tt
  /\ Forall (lawful smallState) (FileContracts contractCreation).
Proof.
  split; [vm_compute; reflexivity|].
  apply (proj1 (file_contract_rules smallState contractCreation)). vm_compute. reflexivity.
Defined.

Lemma contract_payout_mismatch : validTransaction smallState contractShort = err ErrValidProofSum.
Proof. vm_compute. reflexivity. Qed.

Lemma start_zero_proof_rejected_witness :
  height (zeroStartState 100) = 100
  /\ storageProofSegment (zeroStartState 100) 7 = err ErrNoTriggerBlock
  /\ validStorageProofs (zeroStartState 100) proofOnly <> ok tt.
Proof.
  split; [reflexivity|].
  destruct (start_zero_proof_rejected (zeroStartState 100) 7 zeroStartContract)
    as (_ & Hseg & _ & Htxn).
  - vm_compute. reflexivity.
  - reflexivity.
  - simpl. lia.
  - split; [exact Hseg|]. apply (Htxn proofOnly proof7); [|reflexivity].
    simpl. apply list_elem_of_here.
Defined.

(** C9, the claim as stated, fails at the largest height: there the wrapped
    trigger height does not exceed the current height, the current path is
    read, a segment index is returned, and the proof can be accepted. *)
Lemma start_zero_proof_at_max_height :
  fileContracts (zeroStartState (2 ^ 64 - 1)) !! 7%N = Some zeroStartContract
  /\ Start zeroStartContract = 0
  /\ height (zeroStartState (2 ^ 64 - 1)) = uint64_max
  /\ storageProofSegment (zeroStartState (2 ^ 64 - 1)) 7 = ok 0
  /\ validStorageProofs (zeroStartState (2 ^ 64 - 1)) proofOnly = ok tt.
Proof. repeat split; vm_compute; reflexivity. Qed.

(** Contract 7 has ten segments; the segment to prove is segment 7. *)
Lemma segment_index_in_range_witness :
  storageProofSegment provingState 7 = ok 7
  /\ 0 <= 7 < CalculateSegments (FileSize tenSegments).
Proof.
  split; [vm_compute; reflexivity|].
  apply (segment_index_in_range provingState 7 tenSegments 7).
  - vm_compute. reflexivity.
  - split; reflexivity.
  - vm_compute. reflexivity.
Defined.

(** A storage proof for the contract of the empty file, which has no
    segment with these primitives, makes the validator panic. *)
Lemma validation_panics_on_zero_segments_witness :
  validTransaction provingState proofOfEmptyFile = panic
  /\ (validSignatures provingState proofOfEmptyFile = panic
      \/ exists sp, sp ∈ StorageProofs proofOfEmptyFile
           /\ storageProofSegment provingState (sp_ParentID sp) = panic).
Proof.
  split; [vm_compute; reflexivity|].
  apply (proj2 (validation_panics_on_zero_segments provingState proofOfEmptyFile)).
  vm_compute. reflexivity.
Defined.

Lemma storage_proof_errors_witness :
  validStorageProofs (zeroStartState 100) proofOnly = err ErrNoTriggerBlock
  /\ storageProofError ErrNoTriggerBlock /\ ErrNoTriggerBlock <> ErrUnrecognizedContractID.
Proof.
  split; [vm_compute; reflexivity|].
  apply (storage_proof_errors (zeroStartState 100) proofOnly ErrNoTriggerBlock).
  vm_compute. reflexivity.
Defined.

(** The payment that is valid at height 5 is valid at height 9. *)
Lemma spend_stays_valid_witness :
  height smallState <= 9
  /\ validSiacoins smallState payment = ok tt
  /\ validSiacoins (atHeight smallState 9) payment = ok tt.
Proof.
  split; [discriminate|]. split; [vm_compute; reflexivity|].
  apply (proj1 (spend_stays_valid smallState payment 9 ltac:(discriminate))).
  vm_compute. reflexivity.
Defined.

End Runs.

End ConsensusFacts.

(** ** Contract-manager persistence *)

Module ContractManagerFacts.
Import ContractManager.
#[local] Open Scope N_scope.

Lemma insertAll_app m es1 es2 : insertAll m (es1 ++ es2) = insertAll (insertAll m es1) es2.
Proof. unfold insertAll. apply fold_left_app. Qed.

Lemma insertAll_lookup_other m es id :
  id ∉ es.*1 -> insertAll m es !! id = m !! id.
Proof.
  revert m. induction es as [|[id' v] es IH]; intros m Hnot; simpl; [reflexivity|].
  rewrite fmap_cons in Hnot. apply not_elem_of_cons in Hnot as [Hne Hnot].
  rewrite IH by exact Hnot. simpl in *. now rewrite lookup_insert_ne.
Qed.

Lemma insertAll_lookup_unique m es id v :
  (id, v) ∈ es -> (forall v', (id, v') ∈ es -> v' = v) ->
  insertAll m es !! id = Some v.
Proof.
  revert m. induction es as [|[id' v'] es IH]; intros m Hin Huniq; simpl.
  - now apply elem_of_nil in Hin.
  - destruct (decide (id ∈ es.*1)) as [Hlater|Hlater].
    + apply list_elem_of_fmap in Hlater as ([id2 v2] & -> & Hlater). simpl in *.
      assert (v2 = v) as -> by (apply Huniq; now right).
      apply IH; [exact Hlater|]. intros v3 Hv3. apply Huniq. now right.
    + rewrite insertAll_lookup_other by exact Hlater. simpl.
      apply elem_of_cons in Hin as [[= <- <-]|Hin].
      * apply lookup_insert_eq.
      * exfalso. apply Hlater. apply list_elem_of_fmap. now exists (id, v).
Qed.

Lemma usageBit_range (u : list N) (k : N) :
  usageBit u k = true -> k < N.of_nat (length u) * storageFolderGranularity.
Proof.
  unfold usageBit, storageFolderGranularity. intros Hbit.
  destruct (u !! N.to_nat (k / 64)) as [word|] eqn:Hword.
  - apply lookup_lt_Some in Hword.
    assert (k / 64 < N.of_nat (length u)) as Hlt by lia.
    pose proof (N.div_mod k 64 ltac:(lia)) as Hdm.
    pose proof (N.mod_lt k 64 ltac:(lia)) as Hm. nia.
  - simpl in Hbit. rewrite ?N.bits_0 in Hbit. discriminate Hbit.
Qed.

Lemma usageSectors_spec (u : list N) (k : N) :
  k ∈ usageSectors u <-> usageBit u k = true.
Proof.
  unfold usageSectors. rewrite list_elem_of_filter. split; [now intros [? _]|].
  intros Hbit. split; [exact Hbit|].
  apply usageBit_range in Hbit. unfold storageFolderGranularity in *.
  apply list_elem_of_fmap. exists (N.to_nat k). split; [lia|].
  apply elem_of_seq. lia.
Qed.

Lemma readFullMetadata_length (f : option (list N)) (n : N) (bytes : list N) :
  readFullMetadata f n = ok bytes ->
  length bytes = N.to_nat (n * sectorMetadataDiskSize).
Proof.
  unfold readFullMetadata. destruct f as [content|]; [|discriminate].
  case_decide as Hshort; [discriminate|]. intros [= <-].
  rewrite length_take. lia.
Qed.

Lemma slice_in_range (b : list N) (lo hi : N) :
  lo <= hi -> (N.to_nat hi <= length b)%nat ->
  slice b lo hi = Some (take (N.to_nat (hi - lo)) (drop (N.to_nat lo) b)).
Proof. intros Hlo Hhi. unfold slice. case_decide as Hr; [reflexivity | tauto]. Qed.

(** The two slices that the loop takes are the two parts of the record. *)
Lemma loadSector_entry (bytes : list N) (n k : N) locations (sf : storageFolder) :
  length bytes = N.to_nat (n * sectorMetadataDiskSize) -> k < n ->
  exists sf',
    loadSector bytes (locations, sf) k
    = Some (<[(entryOf sf bytes k).1 := (entryOf sf bytes k).2]> locations, sf')
    /\ index sf' = index sf.
Proof.
  unfold sectorMetadataDiskSize. intros Hlen Hk. unfold loadSector, sectorMetadataDiskSize.
  rewrite slice_in_range by lia. simpl.
  rewrite slice_in_range by lia. simpl.
  exists (addSector sf). split; [|reflexivity].
  unfold entryOf, recordAt, sectorMetadataDiskSize. simpl.
  replace (N.to_nat (14 * k + 12 - 14 * k)) with 12%nat by lia.
  replace (N.to_nat (14 * k + 14 - (14 * k + 12))) with 2%nat by lia.
  rewrite take_take. replace (12 `min` 14)%nat with 12%nat by lia.
  replace (N.to_nat (14 * k + 12)) with (N.to_nat (14 * k) + 12)%nat by lia.
  rewrite <- drop_drop.
  rewrite (take_drop_commute (drop (N.to_nat (14 * k)) bytes) 2 12).
  reflexivity.
Qed.

Lemma entryOf_index (sf sf' : storageFolder) (bytes : list N) :
  index sf' = index sf -> entryOf sf' bytes = entryOf sf bytes.
Proof. intros Hidx. unfold entryOf. now rewrite Hidx. Qed.

Lemma loadSectors_spec (bytes : list N) (n : N) (ks : list N) locations (sf : storageFolder) :
  length bytes = N.to_nat (n * sectorMetadataDiskSize) ->
  Forall (fun k => k < n) ks ->
  exists sf',
    loadSectors bytes ks (locations, sf)
    = Some (insertAll locations (entryOf sf bytes <$> ks), sf')
    /\ index sf' = index sf.
Proof.
  intros Hlen Hks. revert locations sf.
  induction Hks as [|k ks Hk _ IH]; intros locations sf.
  - simpl. eauto.
  - destruct (loadSector_entry bytes n k locations sf Hlen Hk) as (sf1 & Hstep & Hidx1).
    destruct (IH (<[(entryOf sf bytes k).1 := (entryOf sf bytes k).2]> locations) sf1)
      as (sf2 & Hrest & Hidx2).
    exists sf2. split; [|congruence].
    change (loadSectors bytes (k :: ks) (locations, sf))
      with (loadSector bytes (locations, sf) k ≫= loadSectors bytes ks).
    rewrite Hstep. etrans; [exact Hrest|].
    now rewrite (entryOf_index sf sf1) by exact Hidx1.
Qed.

Lemma loadFolder_spec (st : gmap N (list N)) locations (sf : storageFolder) :
  exists sf', loadFolder st locations sf = Some (insertAll locations (folderEntries st sf), sf').
Proof.
  unfold loadFolder, folderEntries.
  destruct (readFullMetadata _ _) as [bytes|[]|] eqn:Hread; simpl; [|eauto..].
  apply readFullMetadata_length in Hread.
  match goal with |- context [loadSectors _ _ (_, ?sf1)] =>
    destruct (loadSectors_spec bytes _ (usageSectors (words st (usage sf))) locations sf1 Hread)
      as (sf' & Hrun & _)
  end.
  - apply list.Forall_forall. intros k Hk. apply usageSectors_spec in Hk.
    now apply usageBit_range.
  - exists sf'. rewrite Hrun.
    now rewrite (entryOf_index sf (addSuccessfulRead sf)) by reflexivity.
Qed.

Lemma loadSectors_folder (bytes : list N) (ks : list N) locations locations'
    (sf sf' : storageFolder) :
  loadSectors bytes ks (locations, sf) = Some (locations', sf') ->
  sf' = {| index := index sf; path := path sf; usage := usage sf;
           metadataFile := metadataFile sf; queuedSectors := queuedSectors sf;
           sectors := sectors sf + N.of_nat (length ks);
           atomicFailedReads := atomicFailedReads sf;
           atomicSuccessfulReads := atomicSuccessfulReads sf |}.
Proof.
  revert locations sf sf'. induction ks as [|k ks IH]; intros locations sf sf'.
  - simpl. intros [= _ <-]. destruct sf. simpl. f_equal. lia.
  - change (loadSectors bytes (k :: ks) (locations, sf))
      with (loadSector bytes (locations, sf) k ≫= loadSectors bytes ks).
    destruct (loadSector bytes (locations, sf) k) as [[locations1 sf1]|] eqn:Hstep;
      [|discriminate].
    simpl. intros Hrest. apply IH in Hrest. rewrite Hrest.
    unfold loadSector in Hstep.
    repeat match type of Hstep with
           | context [slice ?b ?lo ?hi] =>
               destruct (slice b lo hi); simpl in Hstep; [|discriminate Hstep]
           end.
    injection Hstep as _ <-. simpl. f_equal. lia.
Qed.

Lemma loadFolder_reloaded (st : gmap N (list N)) locations locations'
    (sf sf' : storageFolder) :
  loadFolder st locations sf = Some (locations', sf') -> sf' = reloaded st sf.
Proof.
  unfold loadFolder, reloaded.
  destruct (readFullMetadata _ _) as [bytes|[]|]; [|now intros [= _ <-]..].
  intros Hrun. apply loadSectors_folder in Hrun as ->. simpl. reflexivity.
Qed.

Lemma folderEntries_reloaded (st : gmap N (list N)) (sf : storageFolder) :
  folderEntries st (reloaded st sf) = folderEntries st sf.
Proof.
  unfold folderEntries, reloaded.
  destruct (readFullMetadata (metadataFile sf) _) as [bytes|[]|] eqn:Hread; simpl;
    rewrite Hread; reflexivity.
Qed.

(** *** The order of a range *)

Lemma insert_alter (f : storageFolder -> storageFolder) (folders : list storageFolder)
    (i : nat) (sf : storageFolder) :
  folders !! i = Some sf -> <[i := f sf]> folders = alter f i folders.
Proof.
  intros Hi. apply list_eq. intros j. destruct (decide (i = j)) as [<-|Hne].
  - rewrite list_lookup_alter_eq, Hi. apply list_lookup_insert_eq.
    eapply lookup_lt_Some. exact Hi.
  - now rewrite list_lookup_insert_ne, list_lookup_alter_ne.
Qed.

Lemma alter_absent (f : storageFolder -> storageFolder) (folders : list storageFolder)
    (i : nat) :
  folders !! i = None -> alter f i folders = folders.
Proof.
  intros Hi. apply list_eq. intros j. destruct (decide (i = j)) as [<-|Hne].
  - now rewrite list_lookup_alter_eq, Hi.
  - now rewrite list_lookup_alter_ne.
Qed.

Lemma visited_cons (i : nat) (ranged : list nat) (folders : list storageFolder) :
  visited (i :: ranged) folders
  = match folders !! i with
    | Some sf => sf :: visited ranged folders
    | None => visited ranged folders
    end.
Proof. reflexivity. Qed.

Lemma entries_alter (st : gmap N (list N)) (ranged : list nat) (i : nat)
    (folders : list storageFolder) :
  folderEntries st <$> visited ranged (alter (reloaded st) i folders)
  = folderEntries st <$> visited ranged folders.
Proof.
  induction ranged as [|j rest IH]; [reflexivity|].
  rewrite !visited_cons. destruct (decide (i = j)) as [<-|Hne].
  - rewrite list_lookup_alter_eq. destruct (folders !! i) as [sf|]; [|exact IH].
    cbn [fmap option_fmap option_map]. rewrite !fmap_cons, folderEntries_reloaded.
    f_equal. exact IH.
  - rewrite list_lookup_alter_ne by exact Hne. destruct (folders !! j) as [sf|]; [|exact IH].
    rewrite !fmap_cons. f_equal. exact IH.
Qed.

(** The loop of [loadSectorLocations] in any order: it enters the entries
    of the folders in the order of the range and reloads each folder that
    the range yields. *)
Lemma loadFolders_spec (st : gmap N (list N)) (ranged : list nat)
    (folders : list storageFolder) locations :
  loadFolders st ranged folders locations
  = Some (insertAll locations (mjoin (folderEntries st <$> visited ranged folders)),
          fold_left (fun fs i => alter (reloaded st) i fs) ranged folders).
Proof.
  revert folders locations. induction ranged as [|i rest IH]; intros folders locations.
  - reflexivity.
  - cbn [loadFolders fold_left]. rewrite visited_cons.
    destruct (folders !! i) as [sf|] eqn:Hi.
    + destruct (loadFolder_spec st locations sf) as (sf' & Hrun). rewrite Hrun.
      cbn [mbind option_bind]. apply loadFolder_reloaded in Hrun as ->.
      rewrite (insert_alter (reloaded st) folders i sf Hi), IH, entries_alter.
      rewrite fmap_cons. cbn [mjoin list_join]. now rewrite insertAll_app.
    + rewrite IH. now rewrite (alter_absent (reloaded st) folders i Hi).
Qed.

Lemma reloadAll_lookup (st : gmap N (list N)) (ranged : list nat)
    (folders : list storageFolder) (j : nat) :
  NoDup ranged ->
  fold_left (fun fs i => alter (reloaded st) i fs) ranged folders !! j
  = if decide (j ∈ ranged) then reloaded st <$> folders !! j else folders !! j.
Proof.
  intros Hnodup. revert folders.
  induction Hnodup as [|i rest Hnot _ IH]; intros folders.
  - cbn [fold_left]. now rewrite decide_False by apply not_elem_of_nil.
  - cbn [fold_left]. rewrite IH. destruct (decide (j = i)) as [->|Hne].
    + rewrite decide_False by exact Hnot.
      rewrite decide_True by apply list_elem_of_here. apply list_lookup_alter_eq.
    + rewrite list_lookup_alter_ne by congruence.
      destruct (decide (j ∈ rest)) as [Hin|Hout].
      * rewrite decide_True by (apply elem_of_cons; now right). reflexivity.
      * rewrite decide_False; [reflexivity|].
        intros Hin. apply elem_of_cons in Hin as [?|?]; contradiction.
Qed.

Lemma rangesOver_NoDup (ranged : list nat) (folders : list storageFolder) :
  rangesOver ranged folders -> NoDup ranged.
Proof. unfold rangesOver. intros ->. apply NoDup_seq. Qed.

Lemma rangesOver_elem (ranged : list nat) (folders : list storageFolder) (j : nat) :
  rangesOver ranged folders -> j ∈ ranged <-> (j < length folders)%nat.
Proof. unfold rangesOver. intros ->. rewrite elem_of_seq. lia. Qed.

(** A range that yields every entry once reloads every folder once. *)
Lemma reloadAll_fmap (st : gmap N (list N)) (ranged : list nat)
    (folders : list storageFolder) :
  rangesOver ranged folders ->
  fold_left (fun fs i => alter (reloaded st) i fs) ranged folders = reloaded st <$> folders.
Proof.
  intros Hranged. apply list_eq. intros j.
  rewrite (reloadAll_lookup st ranged folders j (rangesOver_NoDup _ _ Hranged)).
  rewrite list_lookup_fmap. destruct (decide (j ∈ ranged)) as [Hin|Hout]; [reflexivity|].
  rewrite (rangesOver_elem _ _ j Hranged) in Hout.
  now rewrite (lookup_ge_None_2 folders j) by lia.
Qed.

Lemma visited_from (pre l : list storageFolder) :
  visited (seq (length pre) (length l)) (pre ++ l) = l.
Proof.
  revert pre. induction l as [|sf l IH]; intros pre; [reflexivity|].
  cbn [length seq]. rewrite visited_cons, list_lookup_middle by reflexivity.
  f_equal. specialize (IH (pre ++ [sf])).
  rewrite length_app, Nat.add_1_r, <- app_assoc in IH. exact IH.
Qed.

Lemma visited_perm (ranged : list nat) (folders : list storageFolder) :
  rangesOver ranged folders -> visited ranged folders ≡ₚ folders.
Proof.
  unfold rangesOver, visited. intros ->. exact (eq_ind _ (fun l => l ≡ₚ folders)
    (reflexivity folders) _ (eq_sym (visited_from [] folders))).
Qed.

Lemma elem_of_visited (ranged : list nat) (folders : list storageFolder)
    (sf : storageFolder) :
  rangesOver ranged folders -> sf ∈ visited ranged folders <-> sf ∈ folders.
Proof. intros Hranged. now rewrite (visited_perm _ _ Hranged). Qed.

Lemma loadSectorLocations_run (ranged : list nat) (cm : ContractManager) :
  rangesOver ranged (storageFolders cm) ->
  loadSectorLocations ranged cm
  = Some {| sectorSalt := sectorSalt cm;
            storageFolders := reloaded (store cm) <$> storageFolders cm;
            sectorLocations := insertAll (sectorLocations cm) (allEntries ranged cm);
            store := store cm |}.
Proof.
  intros Hranged. unfold loadSectorLocations. rewrite loadFolders_spec. simpl.
  now rewrite (reloadAll_fmap _ _ _ Hranged).
Qed.



(** *** The folders after a reload, and reloading twice *)

Lemma insertAll_lookup m es id :
  insertAll m es !! id = if decide (id ∈ es.*1) then insertAll ∅ es !! id else m !! id.
Proof.
  revert m. induction es as [|[id' v] es IH]; intros m.
  - unfold insertAll. simpl. now destruct (decide (id ∈ [])) as [Hin%elem_of_nil|].
  - change (insertAll m ((id', v) :: es)) with (insertAll (<[id' := v]> m) es).
    change (insertAll ∅ ((id', v) :: es)) with (insertAll (<[id' := v]> ∅) es).
    rewrite (IH (<[id' := v]> m)), (IH (<[id' := v]> ∅)), fmap_cons. simpl.
    destruct (decide (id ∈ es.*1)) as [Hin|Hout].
    + rewrite decide_True by (apply elem_of_cons; now right). reflexivity.
    + destruct (decide (id = id')) as [->|Hne].
      * rewrite decide_True by apply list_elem_of_here. now rewrite !lookup_insert_eq.
      * rewrite decide_False by (intros Hin; apply elem_of_cons in Hin as [?|?]; contradiction).
        now rewrite lookup_insert_ne by congruence.
Qed.

Lemma insertAll_twice m es : insertAll (insertAll m es) es = insertAll m es.
Proof.
  apply map_eq. intros id.
  rewrite (insertAll_lookup (insertAll m es)), (insertAll_lookup m es).
  now destruct (decide (id ∈ es.*1)).
Qed.

Lemma insertAll_keeps m es id : is_Some (m !! id) -> is_Some (insertAll m es !! id).
Proof.
  revert m. induction es as [|[id' v] es IH]; intros m Hsome; [exact Hsome|].
  change (insertAll m ((id', v) :: es)) with (insertAll (<[id' := v]> m) es).
  apply IH. destruct (decide (id = id')) as [->|Hne].
  - rewrite lookup_insert_eq. eauto.
  - now rewrite lookup_insert_ne by congruence.
Qed.

Lemma insertAll_enters m es id : id ∈ es.*1 -> is_Some (insertAll m es !! id).
Proof.
  revert m. induction es as [|[id' v] es IH]; intros m Hin;
    [now apply elem_of_nil in Hin|].
  change (insertAll m ((id', v) :: es)) with (insertAll (<[id' := v]> m) es).
  rewrite fmap_cons in Hin. destruct (decide (id ∈ es.*1)) as [Hlater|Hnot].
  - now apply IH.
  - apply elem_of_cons in Hin as [->|Hin]; [|contradiction].
    apply insertAll_keeps. simpl. rewrite lookup_insert_eq. eauto.
Qed.

Lemma insertAll_from m es id :
  is_Some (insertAll m es !! id) -> id ∈ es.*1 \/ is_Some (m !! id).
Proof.
  rewrite insertAll_lookup. destruct (decide (id ∈ es.*1)); [now left | now right].
Qed.

(** The entries of all folders are the same in every order of the range,
    up to their order. *)
Lemma allEntries_order (r1 r2 : list nat) (cm : ContractManager) (e : list N * sectorLocation) :
  rangesOver r1 (storageFolders cm) -> rangesOver r2 (storageFolders cm) ->
  e ∈ allEntries r1 cm -> e ∈ allEntries r2 cm.
Proof.
  intros H1 H2. unfold allEntries. rewrite !list_elem_of_join.
  intros (l & He & Hl). exists l. split; [exact He|].
  apply list_elem_of_fmap in Hl as (sf & -> & Hsf). apply list_elem_of_fmap.
  exists sf. split; [reflexivity|].
  apply (elem_of_visited r2 _ sf H2). now apply (elem_of_visited r1 _ sf H1).
Qed.

Lemma allEntries_reloaded (ranged : list nat) (cm : ContractManager) folders locations :
  folders = reloaded (store cm) <$> storageFolders cm ->
  allEntries ranged {| sectorSalt := sectorSalt cm; storageFolders := folders;
                       sectorLocations := locations; store := store cm |}
  = allEntries ranged cm.
Proof.
  intros ->. unfold allEntries. cbn [storageFolders store]. f_equal.
  induction ranged as [|i rest IH]; [reflexivity|].
  rewrite !visited_cons, list_lookup_fmap.
  destruct (storageFolders cm !! i) as [sf|]; [|exact IH].
  cbn [fmap option_fmap option_map]. rewrite !fmap_cons, folderEntries_reloaded.
  f_equal. exact IH.
Qed.

(** X9.  The folders after [loadSectorLocations].  The call returns,
    whatever the order of its range, and every folder keeps its place in
    the map.  A folder whose metadata was read has one more successful read
    and as many more sectors as its usage bitmap has set bits; a folder
    whose metadata could not be read has one more failed read and is
    otherwise as before.  The counters of reads are counted modulo 2^64, as
    [atomic.AddUint64] counts: a counter at 2^64 - 1 is 0 afterwards.  Index,
    path, usage, file and queued sectors of a folder, the store and the salt
    are not changed. *)
Theorem folders_reloaded (ranged : list nat) (cm : ContractManager) :
  rangesOver ranged (storageFolders cm) ->
  exists cm',
    loadSectorLocations ranged cm = Some cm'
    /\ storageFolders cm' = reloaded (store cm) <$> storageFolders cm
    /\ store cm' = store cm /\ sectorSalt cm' = sectorSalt cm
    /\ forall sf, sf ∈ storageFolders cm ->
         let u := words (store cm) (usage sf) in
         let sf' := reloaded (store cm) sf in
         index sf' = index sf /\ path sf' = path sf /\ usage sf' = usage sf
         /\ metadataFile sf' = metadataFile sf /\ queuedSectors sf' = queuedSectors sf
         /\ match readFullMetadata (metadataFile sf)
                    (N.of_nat (length u) * storageFolderGranularity) with
            | ok _ =>
                sectors sf' = sectors sf + N.of_nat (length (usageSectors u))
                /\ atomicSuccessfulReads sf' = (atomicSuccessfulReads sf + 1) mod 2 ^ 64
                /\ (atomicSuccessfulReads sf < 2 ^ 64 - 1 ->
                    atomicSuccessfulReads sf' = atomicSuccessfulReads sf + 1)
                /\ (atomicSuccessfulReads sf = 2 ^ 64 - 1 -> atomicSuccessfulReads sf' = 0)
                /\ atomicFailedReads sf' = atomicFailedReads sf
            | _ =>
                sectors sf' = sectors sf
                /\ atomicSuccessfulReads sf' = atomicSuccessfulReads sf
                /\ atomicFailedReads sf' = (atomicFailedReads sf + 1) mod 2 ^ 64
                /\ (atomicFailedReads sf < 2 ^ 64 - 1 ->
                    atomicFailedReads sf' = atomicFailedReads sf + 1)
                /\ (atomicFailedReads sf = 2 ^ 64 - 1 -> atomicFailedReads sf' = 0)
            end.
Proof.
  intros Hranged. rewrite (loadSectorLocations_run ranged cm Hranged).
  eexists. split; [reflexivity|]. simpl.
  split; [reflexivity|]. split; [reflexivity|]. split; [reflexivity|].
  intros sf _. unfold reloaded.
  destruct (readFullMetadata _ _) as [bytes|[]|]; simpl;
    (split; [reflexivity|]); (split; [reflexivity|]); (split; [reflexivity|]);
    (split; [reflexivity|]); (split; [reflexivity|]);
    repeat split; try reflexivity;
    try (intros Hlt; apply N.mod_small; lia);
    try (intros ->; reflexivity).
Qed.

(** X10.  Reloading twice.  A second [loadSectorLocations] right after the
    first may range over the folders in another order.  In the same order
    it leaves the map of sector locations as the first left it.  In any
    order it leaves the same sector IDs in the map, and the same location
    for every ID to which the folders give one location only; an ID that is
    in used slots of two folders, or of one folder with two counts, may end
    with the location of either.  A reload removes nothing: an ID that was
    in the map before the call is in it afterwards, whether or not a folder
    still holds it. *)
Theorem reload_twice (r1 r2 : list nat) (cm : ContractManager) :
  rangesOver r1 (storageFolders cm) -> rangesOver r2 (storageFolders cm) ->
  exists cm1 cm2,
    loadSectorLocations r1 cm = Some cm1
    /\ loadSectorLocations r2 cm1 = Some cm2
    /\ (r2 = r1 -> sectorLocations cm2 = sectorLocations cm1)
    /\ (forall id, is_Some (sectorLocations cm2 !! id) <-> is_Some (sectorLocations cm1 !! id))
    /\ (forall id,
          (forall loc loc', (id, loc) ∈ allEntries r1 cm -> (id, loc') ∈ allEntries r1 cm ->
                            loc = loc') ->
          sectorLocations cm2 !! id = sectorLocations cm1 !! id)
    /\ forall id, is_Some (sectorLocations cm !! id) -> is_Some (sectorLocations cm1 !! id).
Proof.
  intros H1 H2. rewrite (loadSectorLocations_run r1 cm H1).
  set (cm1 := {| sectorSalt := sectorSalt cm;
                 storageFolders := reloaded (store cm) <$> storageFolders cm;
                 sectorLocations := insertAll (sectorLocations cm) (allEntries r1 cm);
                 store := store cm |}).
  assert (rangesOver r2 (storageFolders cm1)) as H2'
    by (unfold rangesOver; simpl; now rewrite length_fmap).
  exists cm1. eexists. split; [reflexivity|].
  rewrite (loadSectorLocations_run r2 cm1 H2'). split; [reflexivity|].
  cbn [sectorLocations].
  replace (allEntries r2 cm1) with (allEntries r2 cm)
    by (symmetry; apply (allEntries_reloaded r2 cm); reflexivity).
  cbn [cm1 sectorLocations].
  split; [|split; [|split]].
  - intros ->. apply insertAll_twice.
  - intros id. split; [|apply insertAll_keeps].
    intros Hsome. apply insertAll_from in Hsome as [Hin|Hsome]; [|exact Hsome].
    apply insertAll_enters. apply list_elem_of_fmap in Hin as ([id' loc] & -> & Hin).
    apply list_elem_of_fmap. exists (id', loc). split; [reflexivity|].
    exact (allEntries_order r2 r1 cm _ H2 H1 Hin).
  - intros id Huniq.
    destruct (decide (id ∈ (allEntries r2 cm).*1)) as [Hin|Hout].
    + apply list_elem_of_fmap in Hin as ([id' loc] & -> & Hin). simpl in *.
      pose proof (allEntries_order r2 r1 cm _ H2 H1 Hin) as Hin1.
      rewrite (insertAll_lookup_unique _ (allEntries r2 cm) id' loc Hin).
      * symmetry. apply (insertAll_lookup_unique _ (allEntries r1 cm) id' loc Hin1).
        intros loc' Hloc'. now apply Huniq.
      * intros loc' Hloc'. apply Huniq; [|exact Hin1].
        exact (allEntries_order r2 r1 cm _ H2 H1 Hloc').
    + now rewrite insertAll_lookup_other.
  - intros id. apply insertAll_keeps.
Qed.

(** The order matters where two folders hold the same sector ID: with
    folder 5 before folder 6 the ID ends in folder 6, and a second reload in
    the other order moves it to folder 5. *)
Lemma reload_order_matters :
  (sectorLocations <$> loadSectorLocations [0; 1]%nat twoFolders)
  = Some {[ [1; 2; 3; 4; 5; 6; 7; 8; 9; 10; 11; 12]
            := {| sl_index := 42; sl_storageFolder := 6; sl_count := 3 |} ]}
  /\ (sectorLocations <$> (loadSectorLocations [0; 1]%nat twoFolders
                            ≫= loadSectorLocations [1; 0]%nat))
     = Some {[ [1; 2; 3; 4; 5; 6; 7; 8; 9; 10; 11; 12]
               := {| sl_index := 42; sl_storageFolder := 5; sl_count := 3 |} ]}.
Proof. split; vm_compute; reflexivity. Qed.

(** *** Loading the settings *)

Lemma folderAt_putFolder (sf : storageFolder) (folders : list storageFolder) (i : N) :
  folderAt (putFolder sf folders) i
  = if decide (index sf = i) then Some sf else folderAt folders i.
Proof.
  induction folders as [|sf0 rest IH]; simpl; [reflexivity|].
  destruct (decide (index sf0 = index sf)) as [Hsame|Hother]; simpl.
  - destruct (decide (index sf = i)) as [Hi|Hi]; [reflexivity|].
    now rewrite decide_False by congruence.
  - rewrite IH. destruct (decide (index sf0 = i)) as [Hi0|Hi0]; [|reflexivity].
    now rewrite decide_False by congruence.
Qed.

Lemma elem_of_putFolder (sf sf' : storageFolder) (folders : list storageFolder) :
  sf' ∈ putFolder sf folders -> sf' = sf \/ sf' ∈ folders.
Proof.
  induction folders as [|sf0 rest IH]; simpl.
  - intros Hin. apply list_elem_of_singleton in Hin. now left.
  - case_decide.
    + intros Hin. apply elem_of_cons in Hin as [->|Hin]; [now left|].
      right. now apply elem_of_cons; right.
    + intros Hin. apply elem_of_cons in Hin as [->|Hin].
      * right. apply list_elem_of_here.
      * destruct (IH Hin) as [->|Hrest]; [now left|]. right. now apply elem_of_cons; right.
Qed.

Section Settings.
Context `{Primitives}.

Lemma loadSettings_folders_ok (deps : dependencies) (saved : list savedStorageFolder)
    (cm : ContractManager) :
  Forall (opens deps) saved ->
  exists cm',
    loadSettings_folders deps saved cm = (ok tt, cm')
    /\ sectorSalt cm' = sectorSalt cm /\ store cm' = store cm
    /\ sectorLocations cm' = sectorLocations cm
    /\ (forall i, folderAt (storageFolders cm') i
                  = match lastLoaded deps saved i with
                    | Some sf => Some sf
                    | None => folderAt (storageFolders cm) i
                    end)
    /\ (forall sf, sf ∈ storageFolders cm' ->
          sf ∈ storageFolders cm
          \/ exists ssf handle, ssf ∈ saved
               /\ openFile deps (Path ssf) metadataFileName = ok handle
               /\ sf = loadedFolder ssf handle).
Proof.
  intros Hall. revert cm.
  induction Hall as [|ssf rest (handle & h & Hmeta & Hsector) _ IH]; intros cm.
  - exists cm. simpl. repeat split; try reflexivity. now left.
  - simpl. rewrite Hmeta, Hsector.
    destruct (IH (setStorageFolders cm
                    (putFolder (loadedFolder ssf handle) (storageFolders cm))))
      as (cm' & Hrun & Hsalt & Hstore & Hlocations & Hat & Hfrom).
    exists cm'. split; [exact Hrun|]. split; [exact Hsalt|]. split; [exact Hstore|].
    split; [exact Hlocations|]. split.
    + intros i. rewrite Hat. simpl. rewrite folderAt_putFolder. simpl.
      destruct (lastLoaded deps rest i); [reflexivity|].
      now destruct (decide (Index ssf = i)).
    + intros sf Hin. destruct (Hfrom sf Hin) as [Hold|(ssf' & handle' & Hin' & Hopen & ->)].
      * simpl in Hold. apply elem_of_putFolder in Hold as [->|Hold]; [|now left].
        right. exists ssf, handle. split; [apply list_elem_of_here | now split].
      * right. exists ssf', handle'. split; [now apply elem_of_cons; right | now split].
Qed.

Lemma loadSettings_folders_opens (deps : dependencies) (saved : list savedStorageFolder)
    (cm cm' : ContractManager) :
  loadSettings_folders deps saved cm = (ok tt, cm') -> Forall (opens deps) saved.
Proof.
  revert cm. induction saved as [|ssf rest IH]; intros cm; simpl; [constructor|].
  destruct (openFile deps (Path ssf) metadataFileName) as [handle| |] eqn:Hmeta;
    [|discriminate..].
  destruct (openFile deps (Path ssf) sectorFileName) as [h| |] eqn:Hsector;
    [|discriminate..].
  intros Hrun. constructor; [now exists handle, h | now apply IH in Hrun].
Qed.

Lemma loadSettings_folders_app (deps : dependencies) (pre post : list savedStorageFolder)
    (cm cm1 : ContractManager) :
  loadSettings_folders deps pre cm = (ok tt, cm1) ->
  loadSettings_folders deps (pre ++ post) cm = loadSettings_folders deps post cm1.
Proof.
  revert cm. induction pre as [|ssf rest IH]; intros cm; simpl.
  - now intros [= <-].
  - destruct (openFile deps (Path ssf) metadataFileName) as [handle| |]; [|discriminate..].
    destruct (openFile deps (Path ssf) sectorFileName) as [h| |]; [|discriminate..].
    apply IH.
Qed.

Lemma lastLoaded_none (deps : dependencies) (saved : list savedStorageFolder) (i : N) :
  i ∉ Index <$> saved -> lastLoaded deps saved i = None.
Proof.
  induction saved as [|ssf rest IH]; [reflexivity|].
  rewrite fmap_cons. intros Hnot. apply not_elem_of_cons in Hnot as [Hne Hnot].
  simpl. rewrite (IH Hnot). now rewrite decide_False by congruence.
Qed.

Lemma lastLoaded_last (deps : dependencies) (pre post : list savedStorageFolder)
    (ssf : savedStorageFolder) (handle : option (list N)) :
  openFile deps (Path ssf) metadataFileName = ok handle ->
  Index ssf ∉ Index <$> post ->
  lastLoaded deps (pre ++ ssf :: post) (Index ssf) = Some (loadedFolder ssf handle).
Proof.
  intros Hmeta Hnot. induction pre as [|ssf0 pre IH]; simpl.
  - rewrite (lastLoaded_none deps post _ Hnot).
    rewrite decide_True by reflexivity. now rewrite Hmeta.
  - now rewrite IH.
Qed.

Lemma lastLoaded_some (deps : dependencies) (saved : list savedStorageFolder)
    (ssf : savedStorageFolder) :
  Forall (opens deps) saved -> ssf ∈ saved ->
  exists sf, lastLoaded deps saved (Index ssf) = Some sf.
Proof.
  intros Hall. induction Hall as [|ssf0 rest (handle & h & Hmeta & _) _ IH]; intros Hin.
  - now apply elem_of_nil in Hin.
  - simpl. destruct (lastLoaded deps rest (Index ssf)) as [sf|] eqn:Hrest; [now exists sf|].
    apply elem_of_cons in Hin as [->|Hin].
    + rewrite decide_True by reflexivity. rewrite Hmeta. eauto.
    + destruct (IH Hin) as (sf & Hsf). discriminate.
Qed.

(** X11.  What a successful [loadSettings] has loaded.  When the settings
    file is read and [loadSettings] returns no error, both files of every
    saved folder were opened, the salt is the saved salt, and the map of
    folders holds, under the index of each saved folder, a new folder with
    the index, path and usage slice of the last saved folder of that index,
    its open metadata file, no queued sector and counters at zero.  Folders
    under other indices, the store and the sector locations are as before. *)
Theorem settings_loaded (ranged : list nat) (deps : dependencies)
    (cm cm' : ContractManager) (ss : savedSettings) :
  loadFile deps = loadedSettings ss ->
  loadSettings ranged deps cm = (ok tt, cm') ->
  Forall (opens deps) (StorageFolders ss)
  /\ sectorSalt cm' = SectorSalt ss
  /\ store cm' = store cm /\ sectorLocations cm' = sectorLocations cm
  /\ (forall pre ssf post,
        StorageFolders ss = pre ++ ssf :: post ->
        Index ssf ∉ Index <$> post ->
        exists handle,
          openFile deps (Path ssf) metadataFileName = ok handle
          /\ folderAt (storageFolders cm') (Index ssf)
             = Some {| index := Index ssf; path := Path ssf; usage := Usage ssf;
                       metadataFile := handle; queuedSectors := []; sectors := 0;
                       atomicFailedReads := 0; atomicSuccessfulReads := 0 |})
  /\ (forall i, i ∉ Index <$> StorageFolders ss ->
        folderAt (storageFolders cm') i = folderAt (storageFolders cm) i).
Proof.
  intros Hload. unfold loadSettings. rewrite Hload. intros Hrun.
  pose proof (loadSettings_folders_opens _ _ _ _ Hrun) as Hopens.
  destruct (loadSettings_folders_ok deps (StorageFolders ss)
              (setSectorSalt cm (SectorSalt ss)) Hopens)
    as (cm'' & Hrun' & Hsalt & Hstore & Hlocations & Hat & _).
  rewrite Hrun in Hrun'. injection Hrun' as <-.
  split; [exact Hopens|]. split; [exact Hsalt|]. split; [exact Hstore|].
  split; [exact Hlocations|]. split.
  - intros pre ssf post Hsplit Hnot.
    assert (opens deps ssf) as (handle & h & Hmeta & _).
    { eapply list.Forall_forall; [exact Hopens|]. rewrite Hsplit.
      apply elem_of_app. right. apply list_elem_of_here. }
    exists handle. split; [exact Hmeta|].
    rewrite Hat, Hsplit, (lastLoaded_last deps pre post ssf handle Hmeta Hnot).
    reflexivity.
  - intros i Hnot. rewrite Hat, (lastLoaded_none deps _ i Hnot). reflexivity.
Qed.

(** X12.  [loadSettings] is not undone when it fails.  Let the files of
    the saved folders [pre] open and let a file of the next folder fail to
    open.  Then [loadSettings] returns an error, and leaves the contract
    manager as a successful load of the folders [pre] alone leaves it: the
    salt is the saved salt and every folder of [pre] is in the map of
    folders.  The error for the metadata file is the one with the message
    about the sector file, and the other way round. *)
Theorem settings_load_not_undone (ranged : list nat) (deps : dependencies)
    (cm : ContractManager) (ss : savedSettings) (pre post : list savedStorageFolder)
    (ssf : savedStorageFolder) (e : settingsError) :
  loadFile deps = loadedSettings ss ->
  StorageFolders ss = pre ++ ssf :: post ->
  Forall (opens deps) pre ->
  (exists code, openFile deps (Path ssf) metadataFileName = err code
                /\ e = errSectorFileHandle code)
  \/ (exists handle code,
        openFile deps (Path ssf) metadataFileName = ok handle
        /\ openFile deps (Path ssf) sectorFileName = err code
        /\ e = errSectorMetadataFileHandle code) ->
  exists cm',
    loadSettings ranged deps cm = (err e, cm')
    /\ loadSettings_folders deps pre (setSectorSalt cm (SectorSalt ss)) = (ok tt, cm')
    /\ sectorSalt cm' = SectorSalt ss
    /\ forall ssf0, ssf0 ∈ pre -> is_Some (folderAt (storageFolders cm') (Index ssf0)).
Proof.
  intros Hload Hsplit Hpre Hfail. unfold loadSettings. rewrite Hload, Hsplit.
  destruct (loadSettings_folders_ok deps pre (setSectorSalt cm (SectorSalt ss)) Hpre)
    as (cm' & Hrun & Hsalt & _ & _ & Hat & _).
  exists cm'. rewrite (loadSettings_folders_app deps pre (ssf :: post) _ cm' Hrun).
  split; [|split; [exact Hrun|split; [exact Hsalt|]]].
  - simpl. destruct Hfail as [(code & Hmeta & ->)|(handle & code & Hmeta & Hsector & ->)].
    + now rewrite Hmeta.
    + now rewrite Hmeta, Hsector.
  - intros ssf0 Hin. rewrite Hat.
    destruct (lastLoaded_some deps pre ssf0 Hpre Hin) as (sf & Hsf).
    rewrite Hsf. now exists sf.
Qed.

(** X13.  The sector counts after a restart.  Starting without folders,
    a successful [loadSettings] followed by [loadSectorLocations], in
    whatever order it ranges over the folders, leaves every folder with no
    queued sector and exactly one read counted: a successful one, with as
    many sectors as its usage bitmap has set bits, when its metadata was
    read, and a failed one, with no sector, when it was not. *)
Theorem sector_counts_after_restart (ranged0 ranged : list nat) (deps : dependencies)
    (cm cm1 cm2 : ContractManager) (ss : savedSettings) :
  storageFolders cm = [] ->
  loadFile deps = loadedSettings ss ->
  loadSettings ranged0 deps cm = (ok tt, cm1) ->
  rangesOver ranged (storageFolders cm1) ->
  loadSectorLocations ranged cm1 = Some cm2 ->
  forall sf, sf ∈ storageFolders cm2 ->
    queuedSectors sf = []
    /\ match readFullMetadata (metadataFile sf)
               (N.of_nat (length (words (store cm) (usage sf))) * storageFolderGranularity) with
       | ok _ =>
           sectors sf = N.of_nat (length (usageSectors (words (store cm) (usage sf))))
           /\ atomicSuccessfulReads sf = 1 /\ atomicFailedReads sf = 0
       | _ => sectors sf = 0 /\ atomicSuccessfulReads sf = 0 /\ atomicFailedReads sf = 1
       end.
Proof.
  intros Hempty Hload Hrun Hranged Hreload. unfold loadSettings in Hrun.
  rewrite Hload in Hrun.
  pose proof (loadSettings_folders_opens _ _ _ _ Hrun) as Hopens.
  destruct (loadSettings_folders_ok deps (StorageFolders ss)
              (setSectorSalt cm (SectorSalt ss)) Hopens)
    as (cm' & Hrun' & _ & Hstore & _ & _ & Hfrom).
  rewrite Hrun in Hrun'. injection Hrun' as <-. simpl in Hstore, Hfrom.
  rewrite (loadSectorLocations_run ranged cm1 Hranged) in Hreload.
  injection Hreload as <-. simpl.
  intros sf Hin. apply list_elem_of_fmap in Hin as (sf1 & -> & Hin1).
  destruct (Hfrom sf1 Hin1) as [Hold|(ssf & handle & _ & _ & ->)].
  { rewrite Hempty in Hold. now apply elem_of_nil in Hold. }
  rewrite Hstore. unfold reloaded. simpl.
  destruct (readFullMetadata handle _) as [bytes|[]|] eqn:Hread; simpl; rewrite Hread;
    repeat split; reflexivity.
Qed.

End Settings.

(** The saved folders carry the slices of the folders themselves: the
    arrays are shared, not copied. *)
Lemma savedSettings_folders_alias (folders : list storageFolder) st saved saved' st' :
  savedSettings_folders folders st saved = Some (saved', st') ->
  saved' = saved ++ (savedStorageFolderOf <$> folders).
Proof.
  revert st saved. induction folders as [|sf rest IH]; intros st saved; simpl.
  - intros [= <- <-]. now rewrite app_nil_r.
  - destruct (forQueued clearUsage sf (queuedSectors sf) st) as [st1|]; [|discriminate].
    simpl. destruct (forQueued setUsage sf (queuedSectors sf) st1) as [st2|]; [|discriminate].
    simpl. intros Hrest. apply IH in Hrest as ->. now rewrite <- app_assoc.
Qed.

Lemma savedSettings_alias (ranged : list nat) (cm : ContractManager) ss st :
  savedSettingsOf ranged cm = Some (ss, st) ->
  savedUsages (ss, st)
  = (fun sf => words st (usage sf)) <$> visited ranged (storageFolders cm).
Proof.
  unfold savedSettingsOf, savedUsages.
  destruct (savedSettings_folders _ _ _) as [[saved st']|] eqn:Hrun; [|discriminate].
  simpl. intros [= <- <-]. simpl.
  apply savedSettings_folders_alias in Hrun as ->. simpl.
  rewrite <- list_fmap_compose. reflexivity.
Qed.

(** The usage bits after one [setUsage] or [clearUsage] that returns. *)
Lemma updateUsage_bit (f : N -> N -> N) (g : bool -> bool -> bool) st sf k st' :
  (forall w b j, N.testbit (f w b) j = g (N.testbit w j) (b =? j)) ->
  (forall x, g x false = x) ->
  updateUsage f st sf k = Some st' ->
  forall a j,
    usageBit (words st' a) j
    = if decide (a = usage sf /\ j = k)
      then g (usageBit (words st a) j) true
      else usageBit (words st a) j.
Proof.
  intros Hf Hg. unfold updateUsage. cbv zeta.
  destruct (words st (usage sf) !! N.to_nat (k / storageFolderGranularity))
    as [word|] eqn:Hword; [|discriminate].
  simpl. intros [= <-] a j. unfold words at 1.
  destruct (decide (a = usage sf)) as [->|Ha].
  - rewrite lookup_insert_eq. simpl. unfold usageBit.
    assert (N.to_nat (k / storageFolderGranularity) < length (words st (usage sf)))%nat
      as Hlen by (eapply lookup_lt_Some; exact Hword).
    destruct (decide (j = k)) as [->|Hj].
    + rewrite decide_True by (split; reflexivity).
      rewrite list_lookup_insert_eq by exact Hlen. simpl.
      rewrite Hf, N.eqb_refl, Hword. reflexivity.
    + rewrite decide_False by (intros [_ ?]; contradiction).
      destruct (decide (N.to_nat (k / storageFolderGranularity)
                        = N.to_nat (j / storageFolderGranularity))) as [Hsame|Hother].
      * rewrite <- Hsame, list_lookup_insert_eq by exact Hlen. simpl.
        rewrite Hf, Hword. simpl.
        assert ((k mod storageFolderGranularity =? j mod storageFolderGranularity) = false)
          as ->; [|apply Hg].
        apply N.eqb_neq. intros Hmod. apply Hj.
        unfold storageFolderGranularity in *.
        pose proof (N.div_mod k 64 ltac:(lia)). pose proof (N.div_mod j 64 ltac:(lia)). lia.
      * rewrite list_lookup_insert_ne by exact Hother. reflexivity.
  - rewrite lookup_insert_ne by congruence.
    rewrite decide_False by (intros [? _]; contradiction). reflexivity.
Qed.

Lemma setUsage_bit st sf k st' :
  setUsage st sf k = Some st' ->
  forall a j,
    usageBit (words st' a) j = true
    <-> usageBit (words st a) j = true \/ (a = usage sf /\ j = k).
Proof.
  intros Hrun a j.
  rewrite (updateUsage_bit N.setbit (fun x y => y || x) st sf k st'); [| | |exact Hrun].
  - case_decide as Hd; simpl; [tauto|].
    split; [now left | intros [Hbit|Hk]; [exact Hbit | contradiction]].
  - intros w b i. apply N.setbit_eqb.
  - reflexivity.
Qed.

Lemma clearUsage_bit st sf k st' :
  clearUsage st sf k = Some st' ->
  forall a j,
    usageBit (words st' a) j = true
    <-> usageBit (words st a) j = true /\ ~ (a = usage sf /\ j = k).
Proof.
  intros Hrun a j.
  rewrite (updateUsage_bit N.clearbit (fun x y => x && negb y) st sf k st'); [| | |exact Hrun].
  - case_decide as Hd; simpl.
    + rewrite andb_false_r. split; [discriminate | tauto].
    + tauto.
  - intros w b i. apply N.clearbit_eqb.
  - intros x. apply andb_true_r.
Qed.

(** The two loops over the queued sectors of a folder. *)
Lemma forQueued_setUsage_bit sf queued st st' :
  forQueued setUsage sf queued st = Some st' ->
  forall a j,
    usageBit (words st' a) j = true
    <-> usageBit (words st a) j = true \/ (a = usage sf /\ j ∈ queued.*2).
Proof.
  revert st. induction queued as [|[id k] rest IH]; intros st; simpl.
  - intros [= <-] a j. rewrite elem_of_nil. tauto.
  - destruct (setUsage st sf k) as [st1|] eqn:Hset; [|discriminate].
    simpl. intros Hrest a j.
    rewrite (IH _ Hrest), (setUsage_bit _ _ _ _ Hset), elem_of_cons. tauto.
Qed.

Lemma forQueued_clearUsage_bit sf queued st st' :
  forQueued clearUsage sf queued st = Some st' ->
  forall a j,
    usageBit (words st' a) j = true
    <-> usageBit (words st a) j = true /\ ~ (a = usage sf /\ j ∈ queued.*2).
Proof.
  revert st. induction queued as [|[id k] rest IH]; intros st; simpl.
  - intros [= <-] a j. rewrite elem_of_nil. tauto.
  - destruct (clearUsage st sf k) as [st1|] eqn:Hclear; [|discriminate].
    simpl. intros Hrest a j.
    rewrite (IH _ Hrest), (clearUsage_bit _ _ _ _ Hclear), elem_of_cons. tauto.
Qed.

(** The usage bits when the loop of [savedSettings] is over: the bits that
    were set before, and the bit of every queued sector of every folder. *)
Lemma savedSettings_folders_bit folders st saved saved' st' :
  savedSettings_folders folders st saved = Some (saved', st') ->
  forall a j,
    usageBit (words st' a) j = true
    <-> usageBit (words st a) j = true
       \/ exists sf, sf ∈ folders /\ usage sf = a /\ j ∈ (queuedSectors sf).*2.
Proof.
  revert st saved. induction folders as [|sf rest IH]; intros st saved; simpl.
  - intros [= _ <-] a j. split; [now left|].
    intros [Hbit|(sf & Hin & _)]; [exact Hbit|]. now apply elem_of_nil in Hin.
  - destruct (forQueued clearUsage sf (queuedSectors sf) st) as [st1|] eqn:Hclear;
      [|discriminate].
    simpl. destruct (forQueued setUsage sf (queuedSectors sf) st1) as [st2|] eqn:Hset;
      [|discriminate].
    simpl. intros Hrest a j.
    rewrite (IH _ _ Hrest), (forQueued_setUsage_bit _ _ _ _ Hset),
      (forQueued_clearUsage_bit _ _ _ _ Hclear).
    destruct (decide (a = usage sf /\ j ∈ (queuedSectors sf).*2)) as [Hq|Hq].
    + split; [|tauto]. intros _. right. exists sf.
      split; [apply list_elem_of_here|]. destruct Hq as [-> Hj]. now split.
    + split.
      * intros [[[Hbit _]|Hq']|(sf' & Hin & Ha & Hj)]; [now left | contradiction |].
        right. exists sf'. split; [now apply elem_of_cons; right | now split].
      * intros [Hbit|(sf' & Hin & Ha & Hj)]; [now left; left|].
        apply elem_of_cons in Hin as [->|Hin].
        -- exfalso. apply Hq. now split.
        -- right. exists sf'. now split.
Qed.

(** X14.  What [savedSettings] does in general.  Whenever it returns,
    whatever the order of its range, the usage bitmap that the settings
    show for a folder is the bitmap of the folder in memory at that moment,
    and in it the bit of every queued sector of the folder is set; a bit in
    memory is set after the call exactly when it was set before or belongs
    to a queued sector of a folder on that array.  The settings list the
    folders in the order of the range. *)
Lemma savedSettings_bits (ranged : list nat) (cm : ContractManager) ss st' :
  rangesOver ranged (storageFolders cm) ->
  savedSettingsOf ranged cm = Some (ss, st') ->
  savedUsages (ss, st')
  = (fun sf => words st' (usage sf)) <$> visited ranged (storageFolders cm)
  /\ (forall sf k, sf ∈ storageFolders cm -> k ∈ (queuedSectors sf).*2 ->
      usageBit (savedUsage st' (savedStorageFolderOf sf)) k = true)
  /\ (forall a j,
      usageBit (words st' a) j = true
      <-> usageBit (words (store cm) a) j = true
         \/ exists sf, sf ∈ storageFolders cm /\ usage sf = a /\ j ∈ (queuedSectors sf).*2).
Proof.
  intros Hranged Hrun. split; [exact (savedSettings_alias _ _ _ _ Hrun)|].
  unfold savedSettingsOf in Hrun.
  destruct (savedSettings_folders _ _ _) as [[saved st'']|] eqn:Hloop; [|discriminate].
  simpl in Hrun. injection Hrun as <- <-.
  pose proof (savedSettings_folders_bit _ _ _ _ _ Hloop) as Hbits.
  assert (forall a j,
            usageBit (words st'' a) j = true
            <-> usageBit (words (store cm) a) j = true
               \/ exists sf, sf ∈ storageFolders cm /\ usage sf = a
                             /\ j ∈ (queuedSectors sf).*2) as Hbits'.
  { intros a j. rewrite Hbits. split; (intros [Hbit|(sf & Hin & Hrest)]; [now left|]);
      right; exists sf; (split; [|exact Hrest]);
      now apply (elem_of_visited ranged (storageFolders cm) sf Hranged). }
  split; [|exact Hbits'].
  intros sf k Hsf Hk. unfold savedUsage. simpl. apply Hbits'. right. exists sf. now split.
Qed.

(** C4 at a concrete state.  The folder has slots 0 and 1 in use (usage
    word 3) and slot 0 is a queued sector.  While the folder is copied the
    word is 2, but the copy shares the array: when [savedSettings] has
    returned, the settings show the word 3, with the bit of the queued
    sector set. *)
Theorem saved_settings_show_queued_sector :
  queuedSectors folderQueued = [([9], 0)]
  /\ words (store writing) (usage folderQueued) = [3]
  /\ (fun st => words st (usage folderQueued))
       <$> forQueued clearUsage folderQueued (queuedSectors folderQueued) (store writing)
     = Some [2]
  /\ savedUsages <$> savedSettingsOf [0%nat] writing = Some [[3]]
  /\ usageBit [3] 0 = true.
Proof. repeat split; vm_compute; reflexivity. Qed.

(** The folders of a contract manager after a reload. *)
Lemma folders_reloaded_run (ranged : list nat) (cm : ContractManager) :
  rangesOver ranged (storageFolders cm) ->
  exists cm',
    loadSectorLocations ranged cm = Some cm'
    /\ forall sf, sf ∈ storageFolders cm -> reloaded (store cm) sf ∈ storageFolders cm'.
Proof.
  intros Hranged. rewrite (loadSectorLocations_run ranged cm Hranged).
  eexists. split; [reflexivity|]. simpl.
  intros sf Hin. apply list_elem_of_fmap. now exists sf.
Qed.

(** *** Runs of the contract manager *)

Section Runs.
#[local] Existing Instance runPrimitives.

(** The one folder of [restarted] after a reload: one successful read and
    one sector. *)
Lemma folders_reloaded_witness :
  rangesOver [0%nat] (storageFolders restarted)
  /\ exists cm',
       loadSectorLocations [0%nat] restarted = Some cm'
       /\ storageFolders cm' = [reloaded (store restarted) folder42].
Proof.
  assert (rangesOver [0%nat] (storageFolders restarted)) as Hranged
    by exact (Permutation_refl [0%nat]).
  split; [exact Hranged|].
  destruct (folders_reloaded [0%nat] restarted Hranged) as (cm' & Hrun & Hfolders & _).
  exists cm'. split; [exact Hrun | exact Hfolders].
Defined.

(** Two reloads of [twoFolders] in opposite orders leave the same sector
    ID in the map. *)
Lemma reload_twice_witness :
  rangesOver [0; 1]%nat (storageFolders twoFolders)
  /\ rangesOver [1; 0]%nat (storageFolders twoFolders)
  /\ exists cm1 cm2,
       loadSectorLocations [0; 1]%nat twoFolders = Some cm1
       /\ loadSectorLocations [1; 0]%nat cm1 = Some cm2
       /\ forall id, is_Some (sectorLocations cm2 !! id) <-> is_Some (sectorLocations cm1 !! id).
Proof.
  assert (rangesOver [0; 1]%nat (storageFolders twoFolders)) as H1
    by exact (Permutation_refl [0; 1]%nat).
  assert (rangesOver [1; 0]%nat (storageFolders twoFolders)) as H2
    by exact (perm_swap 0%nat 1%nat []).
  split; [exact H1|]. split; [exact H2|].
  destruct (reload_twice [0; 1]%nat [1; 0]%nat twoFolders H1 H2)
    as (cm1 & cm2 & Hrun1 & Hrun2 & _ & Hsame & _).
  exists cm1, cm2. split; [exact Hrun1|]. split; [exact Hrun2 | exact Hsame].
Defined.

(** With [settings42] and every file opening, folder 6 is loaded with the
    saved salt. *)
Lemma settings_loaded_witness :
  loadFile allPaths = loadedSettings settings42
  /\ loadSettings [] allPaths created = (ok tt, (loadSettings [] allPaths created).2)
  /\ sectorSalt (loadSettings [] allPaths created).2 = 9
  /\ folderAt (storageFolders (loadSettings [] allPaths created).2) 6
     = Some (loadedFolder saved43 (Some metadata42)).
Proof.
  split; [reflexivity|]. split; [vm_compute; reflexivity|].
  destruct (settings_loaded [] allPaths created (loadSettings [] allPaths created).2
              settings42)
    as (_ & Hsalt & _ & _ & Hlast & _); [reflexivity | vm_compute; reflexivity|].
  split; [exact Hsalt|].
  destruct (Hlast [saved42] saved43 []) as (handle & Hopen & Hat);
    [reflexivity | apply not_elem_of_nil|].
  injection Hopen as <-. exact Hat.
Defined.

(** With only the first folder opening, the load fails at the second and
    keeps the salt and the first folder. *)
Lemma settings_load_not_undone_witness :
  exists cm',
    loadSettings [] onlyPath1 created = (err (errSectorFileHandle 13), cm')
    /\ loadSettings_folders onlyPath1 [saved42] (setSectorSalt created 9) = (ok tt, cm')
    /\ sectorSalt cm' = 9
    /\ forall ssf0, ssf0 ∈ [saved42] -> is_Some (folderAt (storageFolders cm') (Index ssf0)).
Proof.
  apply (settings_load_not_undone [] onlyPath1 created settings42 [saved42] [] saved43).
  - reflexivity.
  - reflexivity.
  - constructor; [|constructor]. exists (Some metadata42), (Some metadata42).
    split; reflexivity.
  - left. exists 13%N. split; reflexivity.
Defined.

(** After the restart the folder counts its one used slot, here with the
    second folder reloaded first. *)
Lemma sector_counts_after_restart_witness :
  exists cm2 sf,
    loadSectorLocations [1; 0]%nat (loadSettings [] allPaths created).2 = Some cm2
    /\ sf ∈ storageFolders cm2
    /\ queuedSectors sf = []
    /\ match readFullMetadata (metadataFile sf)
               (N.of_nat (length (words (store created) (usage sf)))
                * storageFolderGranularity) with
       | ok _ =>
           sectors sf = N.of_nat (length (usageSectors (words (store created) (usage sf))))
           /\ atomicSuccessfulReads sf = 1 /\ atomicFailedReads sf = 0
       | _ => sectors sf = 0 /\ atomicSuccessfulReads sf = 0 /\ atomicFailedReads sf = 1
       end.
Proof.
  assert (storageFolders (loadSettings [] allPaths created).2
          = [loadedFolder saved42 (Some metadata42); loadedFolder saved43 (Some metadata42)])
    as Hfolders by (vm_compute; reflexivity).
  assert (rangesOver [1; 0]%nat (storageFolders (loadSettings [] allPaths created).2))
    as Hranged.
  { unfold rangesOver. rewrite Hfolders. exact (perm_swap 0%nat 1%nat []). }
  destruct (folders_reloaded_run [1; 0]%nat (loadSettings [] allPaths created).2 Hranged)
    as (cm2 & Hreload & Hin).
  assert (loadedFolder saved42 (Some metadata42)
          ∈ storageFolders (loadSettings [] allPaths created).2) as Hmem.
  { rewrite Hfolders. apply list_elem_of_here. }
  exists cm2, (reloaded (store (loadSettings [] allPaths created).2)
                 (loadedFolder saved42 (Some metadata42))).
  split; [exact Hreload|]. split; [exact (Hin _ Hmem)|].
  apply (sector_counts_after_restart [] [1; 0]%nat allPaths created
           (loadSettings [] allPaths created).2 cm2 settings42);
    [reflexivity | reflexivity | vm_compute; reflexivity | exact Hranged
     | exact Hreload | exact (Hin _ Hmem)].
Defined.

(** The settings of [writing] show the bit of the queued slot 0. *)
Lemma savedSettings_bits_witness :
  rangesOver [0%nat] (storageFolders writing)
  /\ savedSettingsOf [0%nat] writing
     = Some ({| SectorSalt := 0; StorageFolders := [savedStorageFolderOf folderQueued] |},
             store writing)
  /\ usageBit (savedUsage (store writing) (savedStorageFolderOf folderQueued)) 0 = true.
Proof.
  assert (rangesOver [0%nat] (storageFolders writing)) as Hranged
    by exact (Permutation_refl [0%nat]).
  split; [exact Hranged|]. split; [vm_compute; reflexivity|].
  apply (proj1 (proj2 (savedSettings_bits [0%nat] writing
                         {| SectorSalt := 0;
                            StorageFolders := [savedStorageFolderOf folderQueued] |}
                         (store writing) Hranged ltac:(vm_compute; reflexivity)))
           folderQueued 0).
  - apply list_elem_of_here.
  - apply list_elem_of_here.
Defined.

End Runs.

End ContractManagerFacts.

(** ** The transaction builder *)

Module WalletFacts.
Import Wallet GoFacts.

Lemma sumN_snoc (l : list N) (x : N) : sumN (l ++ [x]) = (sumN l + x)%N.
Proof. induction l as [|y l IH]; simpl; [lia | rewrite IH; lia]. Qed.

Lemma total_nil : total [] = 0%N.
Proof. reflexivity. Qed.

Lemma total_cons (o : N * SiacoinOutput) (l : list (N * SiacoinOutput)) :
  total (o :: l) = (sco_Value o.2 + total l)%N.
Proof. reflexivity. Qed.

Section Scan.
Context `{Primitives}.

(** [checkOutput] against the three checks taken one by one. *)
Lemma checkOutput_usable (w : Wallet) (h : Z) (dust : N) (id : N) (sco : SiacoinOutput) :
  checkOutput w h id sco dust = None <-> usable w h dust (id, sco) = true.
Proof.
  unfold checkOutput, usable, isDust, tentativelySpent, timelocked, dbGetSpentOutput. simpl.
  case_decide as Hdust.
  - rewrite bool_decide_eq_true_2 by exact Hdust. simpl. split; discriminate.
  - rewrite bool_decide_eq_false_2 by exact Hdust. simpl.
    destruct (dbSpentOutputs w !! id) as [spendHeight|]; simpl.
    + destruct (bool_decide (uint64_add spendHeight RespendTimeout > h)); simpl;
        [split; discriminate|].
      case_decide as Hlock.
      * rewrite bool_decide_eq_true_2 by exact Hlock. split; discriminate.
      * rewrite bool_decide_eq_false_2 by exact Hlock. split; reflexivity.
    + case_decide as Hlock.
      * rewrite bool_decide_eq_true_2 by exact Hlock. split; discriminate.
      * rewrite bool_decide_eq_false_2 by exact Hlock. split; reflexivity.
Qed.

Lemma checkOutput_rejectedAsSpent (w : Wallet) (h : Z) (dust : N) (id : N) (sco : SiacoinOutput) :
  checkOutput w h id sco dust = Some errSpendHeightTooHigh
  <-> rejectedAsSpent w h dust (id, sco) = true.
Proof.
  unfold checkOutput, rejectedAsSpent, isDust, tentativelySpent, dbGetSpentOutput. simpl.
  case_decide as Hdust.
  - rewrite bool_decide_eq_true_2 by exact Hdust. simpl. split; discriminate.
  - rewrite bool_decide_eq_false_2 by exact Hdust. simpl.
    destruct (dbSpentOutputs w !! id) as [spendHeight|]; simpl.
    + destruct (bool_decide (uint64_add spendHeight RespendTimeout > h)); simpl;
        [split; reflexivity|].
      case_decide; split; discriminate.
    + case_decide; split; discriminate.
Qed.

Lemma selectOutputs_scan {T} (add : T -> SiacoinInput -> T) (w : Wallet) (h : Z)
    (dust amount : N) (so : list (N * SiacoinOutput)) (sel : selection T) :
  exists n,
    scannedTo add w h dust so sel (selectOutputs add w h dust amount so sel) n
    /\ ((fund (selectOutputs add w h dust amount so sel) < amount)%N -> take n so = so).
Proof.
  revert sel. induction so as [|[scoid sco] rest IH]; intros sel.
  - exists 0%nat. split; [|reflexivity].
    split; simpl; rewrite ?filter_nil, ?app_nil_r, ?total_nil; try reflexivity; lia.
  - simpl.
    destruct (checkOutput w h scoid sco dust) as [e|] eqn:Hcheck.
    + (* the output is skipped *)
      assert (usable w h dust (scoid, sco) = false) as Hunusable.
      { destruct (usable w h dust (scoid, sco)) eqn:Hu; [|reflexivity].
        apply checkOutput_usable in Hu. congruence. }
      match goal with |- context [selectOutputs _ _ _ _ _ rest ?s1] => set (sel1 := s1) end.
      destruct (IH sel1) as (n & [Hf Hp Hs Ht] & Hall).
      exists (S n). split; [|intros Hlow; simpl; f_equal; auto].
      assert (filter (usable w h dust) ((scoid, sco) :: take n rest)
              = filter (usable w h dust) (take n rest)) as Hfilter.
      { rewrite filter_cons_False; [reflexivity|]. rewrite Hunusable. simpl. tauto. }
      split; simpl take; rewrite Hfilter.
      * rewrite Hf. subst sel1. now case_decide.
      * rewrite Hp. subst sel1. case_decide as He; simpl.
        -- subst e. apply checkOutput_rejectedAsSpent in Hcheck.
           rewrite filter_cons_True by (rewrite Hcheck; exact I).
           rewrite total_cons. simpl. lia.
        -- rewrite filter_cons_False; [reflexivity|].
           intros Hrej. apply Is_true_eq_true, checkOutput_rejectedAsSpent in Hrej.
           congruence.
      * rewrite Hs. subst sel1. now case_decide.
      * rewrite Ht. subst sel1. now case_decide.
    + (* the output is accepted *)
      pose proof (proj1 (checkOutput_usable _ _ _ _ _) Hcheck) as Husable.
      assert (rejectedAsSpent w h dust (scoid, sco) = false) as Hnot.
      { destruct (rejectedAsSpent w h dust (scoid, sco)) eqn:Hr; [|reflexivity].
        apply checkOutput_rejectedAsSpent in Hr. congruence. }
      match goal with |- context [selectOutputs _ _ _ _ _ rest ?s1] => set (sel1 := s1) end.
      assert (forall n,
        filter (usable w h dust) ((scoid, sco) :: take n rest)
        = (scoid, sco) :: filter (usable w h dust) (take n rest)) as Hfilter.
      { intros n. apply filter_cons_True. rewrite Husable. exact I. }
      assert (forall n,
        filter (rejectedAsSpent w h dust) ((scoid, sco) :: take n rest)
        = filter (rejectedAsSpent w h dust) (take n rest)) as Hfilter'.
      { intros n. apply filter_cons_False. rewrite Hnot. simpl. tauto. }
      case_decide as Henough.
      * (* break *)
        exists 1%nat. split; [|intros Hlow; simpl in Hlow; lia].
        assert (filter (usable w h dust) (take 1 ((scoid, sco) :: rest)) = [(scoid, sco)])
          as Hone by (specialize (Hfilter 0%nat); now rewrite take_0, filter_nil in Hfilter).
        assert (filter (rejectedAsSpent w h dust) (take 1 ((scoid, sco) :: rest)) = [])
          as Hnone by (specialize (Hfilter' 0%nat); now rewrite take_0, filter_nil in Hfilter').
        split; rewrite Hone, ?Hnone; subst sel1; rewrite ?total_cons, ?total_nil; simpl;
          try reflexivity; lia.
      * destruct (IH sel1) as (n & [Hf Hp Hs Ht] & Hall).
        exists (S n). split; [|intros Hlow; simpl; f_equal; auto].
        split; simpl take; rewrite ?Hfilter, ?Hfilter'.
        -- rewrite Hf. subst sel1. rewrite total_cons. simpl. lia.
        -- rewrite Hp. subst sel1. rewrite total_cons. simpl. lia.
        -- rewrite Hs. subst sel1. simpl. now rewrite <- app_assoc.
        -- rewrite Ht. subst sel1. reflexivity.
Qed.

End Scan.

(** *** Running a method step by step *)

Lemma run_bind {A B} (m : M A) (k : A -> M B) (σ : world) :
  (m ≫= k) σ
  = match m σ with
    | (ok a, σ') => k a σ'
    | (err e, σ') => (err e, σ')
    | (panic, σ') => (panic, σ')
    end.
Proof. reflexivity. Qed.

Lemma run_get {B} (k : world -> M B) (σ : world) : (get ≫= k) σ = k σ σ.
Proof. reflexivity. Qed.

Lemma run_mret {A B} (a : A) (k : A -> M B) (σ : world) : (mret a ≫= k) σ = k a σ.
Proof. reflexivity. Qed.

Lemma run_call_ok {A B} (r : outcome N A) (a : A) (k : A -> M B) (σ : world) :
  r = ok a -> (call r ≫= k) σ = k a σ.
Proof. now intros ->. Qed.

Lemma run_modifyBuilder {B} (f : transactionBuilder -> transactionBuilder)
    (k : unit -> M B) (σ : world) :
  (modifyBuilder f ≫= k) σ = k tt {| tb := f (tb σ); wallet := wallet σ |}.
Proof. reflexivity. Qed.

Lemma run_modifyWallet {B} (f : Wallet -> Wallet) (k : unit -> M B) (σ : world) :
  (modifyWallet f ≫= k) σ = k tt {| tb := tb σ; wallet := f (wallet σ) |}.
Proof. reflexivity. Qed.

Lemma world_eta (σ : world) : {| tb := tb σ; wallet := wallet σ |} = σ.
Proof. now destruct σ. Qed.

Lemma bind_err_inv {A B} (m : M A) (k : A -> M B) (σ σ' : world) (e : error) :
  (m ≫= k) σ = (err e, σ') ->
  m σ = (err e, σ') \/ exists a σ1, m σ = (ok a, σ1) /\ k a σ1 = (err e, σ').
Proof.
  rewrite run_bind. destruct (m σ) as [[a|e1|] σ1]; intros Hrun.
  - right. eauto.
  - left. injection Hrun as -> ->. reflexivity.
  - discriminate Hrun.
Qed.

Lemma call_err_inv {A} (r : outcome N A) (σ σ' : world) (e : error) :
  call r σ = (err e, σ') -> exists code, e = errElsewhere code.
Proof. unfold call. destruct r; intros [= <- _]; eauto. Qed.

Section Elsewhere.
Context `{Primitives}.

Lemma elsewhere_bind {A B} (m : M A) (k : A -> M B) :
  failsElsewhere m -> (forall a, failsElsewhere (k a)) -> failsElsewhere (m ≫= k).
Proof.
  intros Hm Hk σ e σ' Hrun.
  apply bind_err_inv in Hrun as [Hrun | (a & σ1 & _ & Hrun)].
  - exact (Hm _ _ _ Hrun).
  - exact (Hk _ _ _ _ Hrun).
Qed.

Lemma elsewhere_mret {A} (a : A) : failsElsewhere (mret a : M A).
Proof. intros σ e σ' [=]. Qed.

Lemma elsewhere_get : failsElsewhere get.
Proof. intros σ e σ' [=]. Qed.

Lemma elsewhere_modifyBuilder f : failsElsewhere (modifyBuilder f).
Proof. intros σ e σ' [=]. Qed.

Lemma elsewhere_modifyWallet f : failsElsewhere (modifyWallet f).
Proof. intros σ e σ' [=]. Qed.

Lemma elsewhere_call {A} (r : outcome N A) : failsElsewhere (call r).
Proof. intros σ e σ'. apply call_err_inv. Qed.

Lemma elsewhere_nextPrimarySeedAddress : failsElsewhere nextPrimarySeedAddress.
Proof.
  intros σ e σ'. unfold nextPrimarySeedAddress.
  destruct (generateKey _); intros [= <- _]; eauto.
Qed.

Lemma elsewhere_markSpent (ids : list N) (h : Z) : failsElsewhere (markSpent ids h).
Proof.
  induction ids as [|id rest IH]; simpl.
  - apply elsewhere_mret.
  - apply elsewhere_bind; [apply elsewhere_modifyWallet | intros _; exact IH].
Qed.

Create HintDb elsewhere.
#[local] Hint Resolve elsewhere_mret elsewhere_get elsewhere_modifyBuilder
  elsewhere_modifyWallet elsewhere_call elsewhere_nextPrimarySeedAddress
  elsewhere_markSpent : elsewhere.

Ltac elsewhere :=
  repeat first
    [ apply elsewhere_bind; [|intros ?]
    | case_decide
    | apply elsewhere_modifyWallet
    | solve [auto with elsewhere] ].

Lemma elsewhere_placeOutputs outputs amount sel h :
  failsElsewhere (placeOutputs outputs amount sel h).
Proof. unfold placeOutputs. elsewhere. Qed.

Lemma elsewhere_addParent amount sel h : failsElsewhere (addParent amount sel h).
Proof. unfold addParent, dbPutSpentOutput. elsewhere. Qed.

Lemma elsewhere_addSiafundParent amount sel h :
  failsElsewhere (addSiafundParent amount sel h).
Proof. unfold addSiafundParent. elsewhere. Qed.

End Elsewhere.

(** *** The scans of the siacoin Fund calls *)

Lemma total_app (l k : list (N * SiacoinOutput)) : total (l ++ k) = (total l + total k)%N.
Proof. unfold total. now rewrite fmap_app, sumN_app. Qed.

Lemma total_filter_take (P : N * SiacoinOutput -> Prop) `{!forall o, Decision (P o)}
    (n : nat) (so : list (N * SiacoinOutput)) :
  (total (filter P (take n so)) <= total (filter P so))%N.
Proof.
  rewrite <- (take_drop n so) at 2. rewrite filter_app, total_app. lia.
Qed.

Section Funding.
Context `{Primitives}.

Lemma checkFunds_run {T} (sel : selection T) (amount : N) (σ : world) :
  checkFunds sel amount σ
  = (if decide ((amount <= potentialFund sel)%N /\ (fund sel < amount)%N)
     then err ErrIncompleteTransactions
     else if decide (fund sel < amount)%N then err ErrLowBalance else ok tt, σ).
Proof. unfold checkFunds. repeat case_decide; reflexivity. Qed.

(** The two tests followed by a part that fails elsewhere only. *)
Lemma checked_then {T} (sel : selection T) (amount : N) (k : M unit) (σ : world) :
  failsElsewhere k ->
  (((checkFunds sel amount ;; k) σ).1 = err ErrIncompleteTransactions
   <-> (amount <= potentialFund sel)%N /\ (fund sel < amount)%N)
  /\ (((checkFunds sel amount ;; k) σ).1 = err ErrLowBalance
      <-> (potentialFund sel < amount)%N /\ (fund sel < amount)%N)
  /\ ((fund sel < amount)%N -> ((checkFunds sel amount ;; k) σ).2 = σ).
Proof.
  intros Hk. rewrite run_bind, checkFunds_run.
  destruct (decide ((amount <= potentialFund sel)%N /\ (fund sel < amount)%N)) as [Hinc|Hinc];
    [|destruct (decide (fund sel < amount)%N) as [Hlow|Hlow]]; simpl.
  - split; [|split].
    + split; [intros _; exact Hinc | reflexivity].
    + split; [discriminate | intros [Hpot _]; lia].
    + reflexivity.
  - split; [|split].
    + split; [discriminate | intros Hboth; contradiction].
    + split; [intros _; split; [lia | exact Hlow] | reflexivity].
    + reflexivity.
  - assert (forall e, (k σ).1 = err e -> exists code, e = errElsewhere code) as Hother.
    { intros e He. destruct (k σ) as [r σ'] eqn:Hrun. simpl in He. subst r.
      exact (Hk _ _ _ Hrun). }
    split; [|split].
    + split; [intros He; apply Hother in He as (code & [=]) | intros [_ Hf]; contradiction].
    + split; [intros He; apply Hother in He as (code & [=]) | intros [_ Hf]; contradiction].
    + intros Hf. contradiction.
Qed.

(** The sums of a scan that starts from nothing. *)
Lemma selectOutputs_totals {T} (add : T -> SiacoinInput -> T) (w : Wallet) (h : Z)
    (dust amount : N) (so : list (N * SiacoinOutput)) (s : T) :
  let sel := selectOutputs add w h dust amount so (startSelection s) in
  ((fund sel < amount)%N <-> (total (filter (usable w h dust) so) < amount)%N)
  /\ ((fund sel < amount)%N ->
      fund sel = total (filter (usable w h dust) so)
      /\ potentialFund sel
         = (total (filter (usable w h dust) so)
            + total (filter (rejectedAsSpent w h dust) so))%N
      /\ spentIDs sel = (filter (usable w h dust) so).*1
      /\ target sel = fold_left add (inputFor w <$> filter (usable w h dust) so) s).
Proof.
  intros sel.
  destruct (selectOutputs_scan add w h dust amount so (startSelection s))
    as (n & [Hf Hp Hs Ht] & Hall). fold sel in Hf, Hp, Hs, Ht, Hall. simpl in *.
  assert ((fund sel < amount)%N ->
          fund sel = total (filter (usable w h dust) so)) as Hfull.
  { intros Hlow. rewrite Hf, (Hall Hlow). lia. }
  split; [split|].
  - intros Hlow. now rewrite <- Hfull.
  - intros Hlow. rewrite Hf.
    pose proof (total_filter_take (usable w h dust) n so). lia.
  - intros Hlow. specialize (Hall Hlow). rewrite Hall in *.
    repeat split; [lia | lia | exact Hs | exact Ht].
Qed.

(** A scan ends a Fund call as the totals of the scanned outputs say. *)
Lemma scan_fundsOrFails {T} (add : T -> SiacoinInput -> T) (w : Wallet) (h : Z)
    (dust amount : N) (so : list (N * SiacoinOutput)) (s : T) (k : M unit) (σ : world) :
  failsElsewhere k ->
  fundsOrFails
    ((checkFunds (selectOutputs add w h dust amount so (startSelection s)) amount ;; k) σ).1
    amount
    (total (filter (usable w h dust) so))
    (total (filter (rejectedAsSpent w h dust) so)).
Proof.
  intros Hk.
  destruct (checked_then (selectOutputs add w h dust amount so (startSelection s)) amount k σ Hk)
    as (Hinc & Hlow & _).
  destruct (selectOutputs_totals add w h dust amount so s) as (Hiff & Hfull).
  simpl in Hiff, Hfull. unfold fundsOrFails. rewrite Hinc, Hlow. split; split.
  - intros [Hpot Hfund]. destruct (Hfull Hfund) as (Hf & Hp & _). lia.
  - intros [Hacc Hcov]. apply Hiff in Hacc as Hfund.
    destruct (Hfull Hfund) as (Hf & Hp & _). lia.
  - intros [Hpot Hfund]. destruct (Hfull Hfund) as (Hf & Hp & _). lia.
  - intros Hshort.
    assert (fund (selectOutputs add w h dust amount so (startSelection s)) < amount)%N
      as Hfund by (apply Hiff; lia).
    destruct (Hfull Hfund) as (Hf & Hp & _). lia.
Qed.

(** [FundSiacoinsForOutputs] up to the two tests, when its three reads
    succeed. *)
Lemma FundSiacoinsForOutputs_steps (outputs : list SiacoinOutput) (fee : N) (σ : world)
    (dust : N) (h : Z) (so : list (N * SiacoinOutput)) :
  DustThreshold (wallet σ) = ok dust ->
  dbGetConsensusHeight (wallet σ) = ok h ->
  getSortedOutputs (wallet σ) = ok so ->
  let amount := calculateAmountFromOutputs outputs fee in
  let sel := selectOutputs addInputToBuilder (wallet σ) h dust amount so
               (startSelection (withMinerFee fee (tb σ))) in
  FundSiacoinsForOutputs outputs fee σ
  = (checkFunds sel amount ;; placeOutputs outputs amount sel h)
      {| tb := target sel; wallet := wallet σ |}.
Proof.
  intros Hdust Hheight Hso amount sel. unfold FundSiacoinsForOutputs.
  rewrite run_get. cbv beta.
  rewrite (run_call_ok _ _ _ _ Hdust). cbv beta.
  rewrite (run_call_ok _ _ _ _ Hheight). cbv beta zeta.
  rewrite run_modifyBuilder. cbv beta.
  rewrite (run_call_ok _ _ _ _ Hso). cbv beta.
  rewrite run_get. cbv beta zeta.
  rewrite run_modifyBuilder. reflexivity.
Qed.

(** Without its three reads [FundSiacoinsForOutputs] fails elsewhere. *)
Lemma FundSiacoinsForOutputs_reads (outputs : list SiacoinOutput) (fee : N) (σ σ' : world)
    (e : error) :
  FundSiacoinsForOutputs outputs fee σ = (err e, σ') ->
  (forall code, e <> errElsewhere code) ->
  exists dust h so,
    DustThreshold (wallet σ) = ok dust /\ dbGetConsensusHeight (wallet σ) = ok h
    /\ getSortedOutputs (wallet σ) = ok so.
Proof.
  intros Hrun Hown. unfold FundSiacoinsForOutputs in Hrun.
  rewrite run_get in Hrun. cbv beta in Hrun.
  destruct (DustThreshold (wallet σ)) as [dust|code|] eqn:Hdust;
    [|injection Hrun as <- _; now destruct (Hown code) | discriminate Hrun].
  rewrite (run_call_ok _ dust) in Hrun by reflexivity. cbv beta in Hrun.
  destruct (dbGetConsensusHeight (wallet σ)) as [h|code|] eqn:Hheight;
    [|injection Hrun as <- _; now destruct (Hown code) | discriminate Hrun].
  rewrite (run_call_ok _ h) in Hrun by reflexivity. cbv beta zeta in Hrun.
  rewrite run_modifyBuilder in Hrun. cbv beta in Hrun.
  destruct (getSortedOutputs (wallet σ)) as [so|code|] eqn:Hso;
    [|injection Hrun as <- _; now destruct (Hown code) | discriminate Hrun].
  eauto 7.
Qed.

(** The builder after a run of appended inputs. *)
Lemma fold_addInputToBuilder (inputs : list SiacoinInput) (b : transactionBuilder) :
  let b' := fold_left addInputToBuilder inputs b in
  SiacoinInputs (transaction b') = SiacoinInputs (transaction b) ++ inputs
  /\ siacoinInputs b'
     = siacoinInputs b ++ seq (length (SiacoinInputs (transaction b))) (length inputs)
  /\ MinerFees (transaction b') = MinerFees (transaction b)
  /\ SiacoinOutputs (transaction b') = SiacoinOutputs (transaction b)
  /\ parents b' = parents b /\ signed b' = signed b.
Proof.
  revert b. induction inputs as [|sci rest IH]; intros b; simpl.
  - rewrite !app_nil_r. repeat split.
  - destruct (IH (addInputToBuilder b sci)) as (Hin & Hidx & Hfee & Hout & Hpar & Hsig).
    simpl in *. rewrite Hin, Hidx, Hfee, Hout, Hpar, Hsig.
    rewrite length_app. simpl. rewrite Nat.add_1_r, <- !app_assoc. repeat split.
Qed.

(** C10.  [FundSiacoinsForOutputs] does not roll back.  If a call with a
    fee above zero returns [ErrLowBalance] or [ErrIncompleteTransactions],
    its three reads have succeeded and the builder is left with the fee
    appended to the miner fees and with one input appended for every output
    of the sorted list that passed [checkOutput] (the scan went through the
    whole list), each with its index in [siacoinInputs]; the wallet is
    unchanged, so none of these outputs is marked as spent. *)
Theorem fund_for_outputs_not_rolled_back (outputs : list SiacoinOutput) (fee : N)
    (σ σ' : world) (e : error) :
  FundSiacoinsForOutputs outputs fee σ = (err e, σ') ->
  e = ErrLowBalance \/ e = ErrIncompleteTransactions ->
  (0 < fee)%N ->
  exists dust h so,
    DustThreshold (wallet σ) = ok dust /\ dbGetConsensusHeight (wallet σ) = ok h
    /\ getSortedOutputs (wallet σ) = ok so
    /\ MinerFees (transaction (tb σ')) = MinerFees (transaction (tb σ)) ++ [fee]
    /\ SiacoinInputs (transaction (tb σ'))
       = SiacoinInputs (transaction (tb σ))
         ++ (inputFor (wallet σ) <$> filter (usable (wallet σ) h dust) so)
    /\ siacoinInputs (tb σ')
       = siacoinInputs (tb σ)
         ++ seq (length (SiacoinInputs (transaction (tb σ))))
                (length (filter (usable (wallet σ) h dust) so))
    /\ wallet σ' = wallet σ.
Proof.
  intros Hrun He Hfee.
  destruct (FundSiacoinsForOutputs_reads outputs fee σ σ' e Hrun)
    as (dust & h & so & Hdust & Hheight & Hso).
  { intros code ->. destruct He; discriminate. }
  exists dust, h, so.
  rewrite (FundSiacoinsForOutputs_steps outputs fee σ dust h so Hdust Hheight Hso) in Hrun.
  set (amount := calculateAmountFromOutputs outputs fee) in *.
  set (sel := selectOutputs addInputToBuilder (wallet σ) h dust amount so
                (startSelection (withMinerFee fee (tb σ)))) in *.
  assert ((fund sel < amount)%N /\ σ' = {| tb := target sel; wallet := wallet σ |})
    as [Hlow ->].
  { apply bind_err_inv in Hrun as [Hrun | (a & σ1 & _ & Hrun)].
    - rewrite checkFunds_run in Hrun. injection Hrun as Hr <-.
      split; [|reflexivity]. repeat case_decide; try discriminate Hr; tauto.
    - apply elsewhere_placeOutputs in Hrun as (code & ->). destruct He; discriminate. }
  destruct (selectOutputs_totals addInputToBuilder (wallet σ) h dust amount so
              (withMinerFee fee (tb σ))) as (_ & Hfull).
  destruct (Hfull Hlow) as (_ & _ & _ & Htarget). fold sel in Htarget.
  destruct (fold_addInputToBuilder
              (inputFor (wallet σ) <$> filter (usable (wallet σ) h dust) so)
              (withMinerFee fee (tb σ))) as (Hin & Hidx & Hmf & _).
  simpl in Hin, Hidx, Hmf. rewrite <- Htarget in Hin, Hidx, Hmf.
  assert (withMinerFee fee (tb σ)
          = setTransaction (tb σ)
              (setMinerFees (transaction (tb σ)) (MinerFees (transaction (tb σ)) ++ [fee])))
    as Hwith by (unfold withMinerFee; now rewrite decide_True by exact Hfee).
  rewrite Hwith in Hin, Hidx, Hmf. simpl in Hin, Hidx, Hmf.
  rewrite length_fmap in Hidx.
  split; [exact Hdust|]. split; [exact Hheight|]. split; [exact Hso|].
  split; [exact Hmf|]. split; [exact Hin|]. split; [exact Hidx | reflexivity].
Qed.

(** [FundSiacoins] up to the two tests, when its three reads succeed. *)
Lemma FundSiacoins_steps (amount : N) (σ : world) (dust : N) (h : Z)
    (confirmed : list (N * SiacoinOutput)) :
  DustThreshold (wallet σ) = ok dust ->
  dbGetConsensusHeight (wallet σ) = ok h ->
  dbForEachSiacoinOutput (wallet σ) = ok confirmed ->
  let sel := selectOutputs addInputToParent (wallet σ) h dust amount
               (scanned (wallet σ) confirmed) (startSelection zeroTransaction) in
  FundSiacoins amount σ = (checkFunds sel amount ;; addParent amount sel h) σ.
Proof.
  intros Hdust Hheight Hconfirmed sel. unfold FundSiacoins.
  rewrite run_get. cbv beta.
  rewrite (run_call_ok _ _ _ _ Hdust). cbv beta.
  rewrite (run_call_ok _ _ _ _ Hheight). cbv beta.
  rewrite (run_call_ok _ _ _ _ Hconfirmed). reflexivity.
Qed.

Lemma totalSiafunds_nil : totalSiafunds [] = 0%N.
Proof. reflexivity. Qed.

Lemma totalSiafunds_cons (o : N * SiafundOutput) (l : list (N * SiafundOutput)) :
  totalSiafunds (o :: l) = (sfo_Value o.2 + totalSiafunds l)%N.
Proof. reflexivity. Qed.

Lemma totalSiafunds_app (l k : list (N * SiafundOutput)) :
  totalSiafunds (l ++ k) = (totalSiafunds l + totalSiafunds k)%N.
Proof. unfold totalSiafunds. now rewrite fmap_app, sumN_app. Qed.

Lemma totalSiafunds_filter_take (P : N * SiafundOutput -> Prop) `{!forall o, Decision (P o)}
    (n : nat) (l : list (N * SiafundOutput)) :
  (totalSiafunds (filter P (take n l)) <= totalSiafunds (filter P l))%N.
Proof.
  rewrite <- (take_drop n l) at 2. rewrite filter_app, totalSiafunds_app. lia.
Qed.

Lemma sees_refl (w : Wallet) (all : list (N * SiafundOutput)) : sees w all w.
Proof. split; [reflexivity | split; [lia | intros; reflexivity]]. Qed.

(** Deriving an address keeps the builder and the spent outputs, and the
    time locks on file for the siafund outputs when the derived keys carry
    them; it fails only where the derivation of the key fails. *)
Lemma nextPrimarySeedAddress_sees (w0 : Wallet) (all : list (N * SiafundOutput)) (σ : world) :
  locksKept w0 all -> sees w0 all (wallet σ) ->
  (exists uc σ',
     nextPrimarySeedAddress σ = (ok uc, σ') /\ sees w0 all (wallet σ') /\ tb σ' = tb σ)
  \/ (exists code,
        generateKey (primarySeedProgress (wallet σ)) = err code
        /\ nextPrimarySeedAddress σ = (err (errElsewhere code), σ))
  \/ (generateKey (primarySeedProgress (wallet σ)) = panic
      /\ nextPrimarySeedAddress σ = (panic, σ)).
Proof.
  intros Hkept (Hspent & Hprogress & Hlocks). unfold nextPrimarySeedAddress.
  destruct (generateKey (primarySeedProgress (wallet σ))) as [sk|code|] eqn:Hgen.
  - left. eexists _, _. split; [reflexivity|]. simpl. split; [|reflexivity].
    split; [exact Hspent|]. split; [simpl; lia|].
    intros o Ho. unfold lockOf, keyOf. simpl.
    destruct (decide (UnlockHash (sk_UnlockConditions sk) = sfo_UnlockHash o.2)) as [Heq|Hne].
    + rewrite Heq, lookup_insert_eq. simpl.
      exact (Hkept _ sk o Hprogress Hgen Ho Heq).
    + rewrite lookup_insert_ne by exact Hne. exact (Hlocks o Ho).
  - right. left. eauto.
  - right. right. eauto.
Qed.

(** The scan of [FundSiafunds] over entries that decode: it runs to its end
    or to its [break] and accepts the outputs that are neither tentatively
    spent nor time-locked, or it stops where the derivation of a key
    fails. *)
Lemma selectSiafunds_scan (w0 : Wallet) (all : list (N * SiafundOutput)) (h : Z) (amount : N)
    (raw : list (list N * list N)) (bucket : list (N * SiafundOutput))
    (sel : selection Transaction) (σ : world) :
  locksKept w0 all -> decodes raw bucket ->
  (forall o, o ∈ bucket -> o ∈ all) ->
  sees w0 all (wallet σ) ->
  (exists sel' σ' n,
     selectSiafunds h amount raw sel σ = (ok sel', σ')
     /\ sees w0 all (wallet σ') /\ tb σ' = tb σ
     /\ siafundsScannedTo w0 h bucket sel sel' n
     /\ ((fund sel' < amount)%N -> take n bucket = bucket))
  \/ derivationFails w0 (selectSiafunds h amount raw sel σ).1.
Proof.
  intros Hkept Hdec. revert sel σ. unfold decodes in Hdec.
  induction Hdec as [|[idBytes sfoBytes] [sfoid sfo] raw bucket Hentry _ IH];
    intros sel σ Hin Hsees.
  - left. exists sel, σ, 0%nat. simpl. split; [reflexivity|]. split; [exact Hsees|].
    split; [reflexivity|]. split; [|reflexivity].
    split; simpl; rewrite ?filter_nil, ?totalSiafunds_nil, ?app_nil_r; try reflexivity; lia.
  - assert (forall o, o ∈ bucket -> o ∈ all) as Hin' by (intros o Ho; apply Hin; now right).
    assert ((sfoid, sfo) ∈ all) as Hhere by (apply Hin; now left).
    unfold decodeSiafund in Hentry. simpl in Hentry.
    destruct (UnmarshalSiafundOutputID idBytes) as [sfoid'| |] eqn:Hid; try discriminate.
    destruct (UnmarshalSiafundOutput sfoBytes) as [sfo'| |] eqn:Hsfo; try discriminate.
    injection Hentry as -> ->.
    pose proof Hsees as (Hspent & Hprogress & Hlocks).
    cbn [selectSiafunds].
    rewrite !(run_call_ok _ _ _ _ Hid). cbv beta.
    rewrite !(run_call_ok _ _ _ _ Hsfo). cbv beta.
    rewrite !run_get. cbv beta zeta.
    assert (match dbGetSpentOutput (wallet σ) sfoid with ok h0 => h0 | _ => 0%Z end
            = default 0%Z (dbSpentOutputs w0 !! sfoid)) as ->.
    { unfold dbGetSpentOutput. rewrite Hspent. now destruct (dbSpentOutputs w0 !! sfoid). }
    fold (allowedHeight h).
    pose proof (Hlocks _ Hhere) as Hlock0. unfold lockOf in Hlock0. simpl in Hlock0.
    rewrite Hlock0.
    destruct (decide (default 0%Z (dbSpentOutputs w0 !! sfoid) > allowedHeight h)%Z)
      as [Hsp|Hsp].
    + (* tentatively spent *)
      assert (spentSiafund w0 h (sfoid, sfo) = true) as Hspent'
        by (unfold spentSiafund; simpl; now apply bool_decide_eq_true_2).
      assert (usableSiafund w0 h (sfoid, sfo) = false) as Hunusable
        by (unfold usableSiafund; now rewrite Hspent').
      match goal with |- context [selectSiafunds _ _ raw ?s1 _] => set (sel1 := s1) end.
      destruct (IH sel1 σ Hin' Hsees)
        as [(sel' & σ' & n & Hrun & Hsees' & Htb & [Hf Hp Hs] & Hall) | Hfails];
        [left | right; exact Hfails].
      exists sel', σ', (S n). split; [exact Hrun|]. split; [exact Hsees'|].
      split; [exact Htb|]. split; [|intros Hlow; simpl; f_equal; auto].
      split; simpl take.
      * rewrite filter_cons_False by (rewrite Hunusable; simpl; tauto). exact Hf.
      * rewrite filter_cons_False by (rewrite Hunusable; simpl; tauto).
        rewrite filter_cons_True by (rewrite Hspent'; exact I).
        rewrite Hp, totalSiafunds_cons. subst sel1. simpl. lia.
      * rewrite filter_cons_False by (rewrite Hunusable; simpl; tauto). exact Hs.
    + assert (spentSiafund w0 h (sfoid, sfo) = false) as Hspent'
        by (unfold spentSiafund; simpl; now apply bool_decide_eq_false_2).
      destruct (decide (h < Timelock (sk_UnlockConditions (keyOf w0 (sfo_UnlockHash sfo))))%Z)
        as [Hlock|Hlock].
      * (* time-locked *)
        assert (usableSiafund w0 h (sfoid, sfo) = false) as Hunusable.
        { unfold usableSiafund, timelocked. simpl.
          rewrite (bool_decide_eq_true_2 _ Hlock). now rewrite andb_false_r. }
        destruct (IH sel σ Hin' Hsees)
          as [(sel' & σ' & n & Hrun & Hsees' & Htb & [Hf Hp Hs] & Hall) | Hfails];
          [left | right; exact Hfails].
        exists sel', σ', (S n). split; [exact Hrun|]. split; [exact Hsees'|].
        split; [exact Htb|]. split; [|intros Hlow; simpl; f_equal; auto].
        split; simpl take;
          rewrite !filter_cons_False
            by (rewrite ?Hunusable, ?Hspent'; simpl; tauto); assumption.
      * (* accepted *)
        assert (usableSiafund w0 h (sfoid, sfo) = true) as Husable.
        { unfold usableSiafund, timelocked. simpl. rewrite Hspent'.
          now rewrite (bool_decide_eq_false_2 _ Hlock). }
        rewrite !run_bind.
        destruct (nextPrimarySeedAddress_sees w0 all σ Hkept Hsees)
          as [(uc & σ1 & Hnext & Hsees1 & Htb1) | [(code & Hgen & Hnext) | [Hgen Hnext]]];
          rewrite Hnext.
        -- cbv zeta.
           match goal with |- context [decide (amount <= fund ?s1)%N] => set (sel1 := s1) end.
           destruct (decide (amount <= fund sel1)%N) as [Henough|Hmore].
           ++ left. exists sel1, σ1, 1%nat. split; [reflexivity|]. split; [exact Hsees1|].
              split; [exact Htb1|]. split; [|intros Hlow; lia].
              assert (filter (usableSiafund w0 h) (take 1 ((sfoid, sfo) :: bucket))
                      = [(sfoid, sfo)]) as Hone.
              { change (take 1 ((sfoid, sfo) :: bucket)) with ((sfoid, sfo) :: take 0 bucket).
                rewrite take_0. now rewrite filter_cons_True by (rewrite Husable; exact I). }
              assert (filter (spentSiafund w0 h) (take 1 ((sfoid, sfo) :: bucket)) = [])
                as Hnone.
              { change (take 1 ((sfoid, sfo) :: bucket)) with ((sfoid, sfo) :: take 0 bucket).
                rewrite take_0.
                now rewrite filter_cons_False by (rewrite Hspent'; simpl; tauto). }
              split; rewrite Hone, ?Hnone, ?totalSiafunds_cons, ?totalSiafunds_nil;
                subst sel1; simpl; try reflexivity; lia.
           ++ destruct (IH sel1 σ1 Hin' Hsees1)
                as [(sel' & σ' & n & Hrun & Hsees' & Htb & [Hf Hp Hs] & Hall) | Hfails];
                [left | right; exact Hfails].
              exists sel', σ', (S n). split; [exact Hrun|]. split; [exact Hsees'|].
              split; [congruence|]. split; [|intros Hlow; simpl; f_equal; auto].
              split; simpl take; rewrite filter_cons_True by (rewrite Husable; exact I);
                rewrite ?(filter_cons_False (spentSiafund w0 h))
                  by (rewrite Hspent'; simpl; tauto).
              ** rewrite Hf, totalSiafunds_cons. subst sel1. simpl. lia.
              ** rewrite Hp, totalSiafunds_cons. subst sel1. simpl. lia.
              ** rewrite Hs. subst sel1. simpl. now rewrite <- app_assoc.
        -- right. exists (primarySeedProgress (wallet σ)). split; [exact Hprogress|].
           left. exists code. split; [exact Hgen | reflexivity].
        -- right. exists (primarySeedProgress (wallet σ)). split; [exact Hprogress|].
           right. split; [exact Hgen | reflexivity].
Qed.

Lemma derivationFails_incomplete (w0 : Wallet) (r : outcome error unit) :
  derivationFails w0 r -> ~ completes r.
Proof.
  intros (n & _ & [(code & _ & ->) | [_ ->]]) [Hr | [Hr | Hr]]; discriminate Hr.
Qed.

Lemma derivationFails_bind {A B} (w0 : Wallet) (m : M A) (k : A -> M B) (σ : world) :
  derivationFails w0 (m σ).1 -> derivationFails w0 ((m ≫= k) σ).1.
Proof.
  intros (n & Hn & Hcase). exists n. split; [exact Hn|]. rewrite run_bind.
  destruct (m σ) as [[a|e|] σ1]; simpl in *.
  - destruct Hcase as [(code & _ & Hr) | [_ Hr]]; discriminate Hr.
  - destruct Hcase as [(code & Hgen & [= ->]) | [_ Hr]]; [|discriminate Hr].
    left. eauto.
  - destruct Hcase as [(code & _ & Hr) | [Hgen _]]; [discriminate Hr|].
    right. eauto.
Qed.

Lemma derivable_not_fails {A} (w0 : Wallet) (r : outcome error A) :
  derivableFrom w0 -> ~ derivationFails w0 r.
Proof.
  intros Hderive (n & Hn & Hcase). destruct (Hderive n Hn) as (sk & Hgen).
  destruct Hcase as [(code & Hgen' & _) | [Hgen' _]]; congruence.
Qed.

(** *** Methods that return once the seed yields keys *)

Lemma returnsFrom_bind {A B} (w0 : Wallet) (m : M A) (k : A -> M B) :
  returnsFrom w0 m -> (forall a, returnsFrom w0 (k a)) -> returnsFrom w0 (m ≫= k).
Proof.
  intros Hm Hk σ Hσ. destruct (Hm σ Hσ) as (a & σ1 & Hrun & Hσ1).
  rewrite run_bind, Hrun. exact (Hk a σ1 Hσ1).
Qed.

Lemma returnsFrom_mret {A} (w0 : Wallet) (a : A) : returnsFrom w0 (mret a : M A).
Proof. intros σ Hσ. exists a, σ. split; [reflexivity | exact Hσ]. Qed.

Lemma returnsFrom_get (w0 : Wallet) : returnsFrom w0 get.
Proof. intros σ Hσ. exists σ, σ. split; [reflexivity | exact Hσ]. Qed.

Lemma returnsFrom_modifyBuilder (w0 : Wallet) f : returnsFrom w0 (modifyBuilder f).
Proof. intros σ Hσ. eexists tt, _. split; [reflexivity | exact Hσ]. Qed.

Lemma returnsFrom_nextPrimarySeedAddress (w0 : Wallet) :
  derivableFrom w0 -> returnsFrom w0 nextPrimarySeedAddress.
Proof.
  intros Hderive σ Hσ. unfold nextPrimarySeedAddress.
  destruct (Hderive _ Hσ) as (sk & ->).
  eexists _, _. split; [reflexivity|]. simpl. lia.
Qed.

Lemma returnsFrom_markSpent (w0 : Wallet) (ids : list N) (h : Z) :
  returnsFrom w0 (markSpent ids h).
Proof.
  induction ids as [|id rest IH]; simpl.
  - apply returnsFrom_mret.
  - apply returnsFrom_bind; [|intros _; exact IH].
    intros σ Hσ. eexists tt, _. split; [reflexivity | exact Hσ].
Qed.

Lemma returnsFrom_addSiafundParent (w0 : Wallet) amount sel h :
  derivableFrom w0 -> returnsFrom w0 (addSiafundParent amount sel h).
Proof.
  intros Hderive. unfold addSiafundParent.
  apply returnsFrom_bind; [now apply returnsFrom_nextPrimarySeedAddress|]. intros uc.
  cbv zeta. apply returnsFrom_bind.
  { case_decide; [|apply returnsFrom_mret].
    apply returnsFrom_bind; [now apply returnsFrom_nextPrimarySeedAddress|].
    intros uc'. apply returnsFrom_mret. }
  intros parentTxn. apply returnsFrom_bind; [apply returnsFrom_get|]. intros σ1.
  cbv zeta. apply returnsFrom_bind; [now apply returnsFrom_nextPrimarySeedAddress|].
  intros uc'. apply returnsFrom_bind; [apply returnsFrom_modifyBuilder|].
  intros _. apply returnsFrom_markSpent.
Qed.

Lemma fundsOrFails_of_sums (r : outcome error unit)
    (amount fund0 potential accepted acceptedAll spent spentAll : N) :
  (r = err ErrIncompleteTransactions <-> (amount <= potential)%N /\ (fund0 < amount)%N) ->
  (r = err ErrLowBalance <-> (potential < amount)%N /\ (fund0 < amount)%N) ->
  fund0 = accepted -> potential = (accepted + spent)%N ->
  (accepted <= acceptedAll)%N ->
  ((fund0 < amount)%N -> accepted = acceptedAll /\ spent = spentAll) ->
  fundsOrFails r amount acceptedAll spentAll.
Proof.
  intros Hinc Hlow -> -> Hle Hfull. unfold fundsOrFails. rewrite Hinc, Hlow.
  split; split.
  - intros [Hpot Hfund]. destruct (Hfull Hfund) as [<- <-]. lia.
  - intros [Hacc Hcov].
    assert (accepted < amount)%N as Hfund by lia.
    destruct (Hfull Hfund) as [-> ->]. lia.
  - intros [Hpot Hfund]. destruct (Hfull Hfund) as [<- <-]. lia.
  - intros Hshort.
    assert (accepted < amount)%N as Hfund by lia.
    destruct (Hfull Hfund) as [-> ->]. lia.
Qed.

(** [FundSiafunds] over entries that decode: a call that ends with nil or
    with one of the two errors of the builder fails as the sums say, and a
    call ends so when the seed yields keys. *)
Lemma FundSiafunds_outcome (amount : N) (σ : world) (h : Z)
    (bucket : list (N * SiafundOutput)) :
  dbGetConsensusHeight (wallet σ) = ok h ->
  decodes (dbSiafundOutputs (wallet σ)) bucket ->
  locksKept (wallet σ) bucket ->
  (completes (FundSiafunds amount σ).1 ->
   fundsOrFails (FundSiafunds amount σ).1 amount
     (totalSiafunds (filter (usableSiafund (wallet σ) h) bucket))
     (totalSiafunds (filter (spentSiafund (wallet σ) h) bucket)))
  /\ (derivableFrom (wallet σ) -> completes (FundSiafunds amount σ).1).
Proof.
  intros Hheight Hdec Hkept. unfold FundSiafunds.
  rewrite !run_get. cbv beta.
  rewrite !(run_call_ok _ _ _ _ Hheight). cbv beta.
  destruct (selectSiafunds_scan (wallet σ) bucket h amount (dbSiafundOutputs (wallet σ))
              bucket (startSelection zeroTransaction) σ Hkept Hdec
              ltac:(auto) (sees_refl _ _))
    as [(sel & σ1 & n & Hrun & (_ & Hprogress & _) & _ & [Hf Hp _] & Hall) | Hfails].
  - rewrite !run_bind, Hrun.
    destruct (checked_then sel amount (addSiafundParent amount sel h) σ1
                (elsewhere_addSiafundParent _ _ _)) as (Hinc & Hlow & _).
    split.
    + intros _. simpl in Hf, Hp. rewrite N.add_0_l in Hf, Hp.
      apply (fundsOrFails_of_sums _ amount (fund sel) (potentialFund sel) _ _
               (totalSiafunds (filter (spentSiafund (wallet σ) h) (take n bucket)))
               _ Hinc Hlow Hf Hp).
      * apply totalSiafunds_filter_take.
      * intros Hshort. now rewrite (Hall Hshort).
    + intros Hderive.
      destruct (decide ((amount <= potentialFund sel)%N /\ (fund sel < amount)%N))
        as [Hincomplete|Hnot];
        [right; left; now apply Hinc|].
      destruct (decide (fund sel < amount)%N) as [Hshort|Hfunded];
        [right; right; apply Hlow; lia|].
      left. rewrite run_bind, checkFunds_run.
      rewrite (decide_False (P := _ /\ _)) by exact Hnot.
      rewrite (decide_False (P := (fund sel < amount)%N)) by exact Hfunded.
      destruct (returnsFrom_addSiafundParent (wallet σ) amount sel h Hderive σ1 Hprogress)
        as ([] & σ2 & -> & _).
      reflexivity.
  - pose proof (derivationFails_bind _ _
                  (fun sel => checkFunds sel amount ;; addSiafundParent amount sel h)
                  σ Hfails) as Hfails'.
    split.
    + intros Hcompletes. now destruct (derivationFails_incomplete _ _ Hfails').
    + intros Hderive. now destruct (derivable_not_fails _ _ Hderive Hfails').
Qed.

(** C6, as amended.  A scan of siacoin outputs, as [FundSiacoins] and
    [FundSiacoinsForOutputs] make it, takes the outputs that pass the dust,
    respend and timelock checks and skips the others; the scan of
    [FundSiafunds] makes no dust check and takes the outputs that are
    neither tentatively spent nor time-locked.  When its reads succeed, a
    Fund call for an amount fails with [ErrIncompleteTransactions] exactly
    when the accepted outputs sum to less than the amount and the outputs
    that the respend check rejected cover the shortfall, and with
    [ErrLowBalance] exactly when they do not cover it.  The respend check
    comes before the timelock check, so it rejects, and the call counts,
    also a tentatively spent output that is time-locked; for siafunds it
    comes first, with the test [spendHeight > allowedHeight].
    [FundSiafunds] derives an address for each output it accepts, before
    it tests the sums: for it the entries of the bucket are taken to
    decode, a key derived during the call to carry the time lock that the
    wallet has on file for the address of an output of the bucket, and the
    call to end with nil or one of the two errors, which it does when the
    seed yields keys; its scan then returns as well. *)
Theorem fund_failures :
  (forall T (add : T -> SiacoinInput -> T) w h dust amount so (s : T), exists n,
     scannedTo add w h dust so (startSelection s)
       (selectOutputs add w h dust amount so (startSelection s)) n)
  /\ (forall outputs fee σ dust h so,
      DustThreshold (wallet σ) = ok dust ->
      dbGetConsensusHeight (wallet σ) = ok h ->
      getSortedOutputs (wallet σ) = ok so ->
      fundsOrFails (FundSiacoinsForOutputs outputs fee σ).1
        (calculateAmountFromOutputs outputs fee)
        (total (filter (usable (wallet σ) h dust) so))
        (total (filter (rejectedAsSpent (wallet σ) h dust) so)))
  /\ (forall amount σ dust h confirmed,
      DustThreshold (wallet σ) = ok dust ->
      dbGetConsensusHeight (wallet σ) = ok h ->
      dbForEachSiacoinOutput (wallet σ) = ok confirmed ->
      fundsOrFails (FundSiacoins amount σ).1 amount
        (total (filter (usable (wallet σ) h dust) (scanned (wallet σ) confirmed)))
        (total (filter (rejectedAsSpent (wallet σ) h dust) (scanned (wallet σ) confirmed))))
  /\ (forall amount σ h bucket,
      dbGetConsensusHeight (wallet σ) = ok h ->
      decodes (dbSiafundOutputs (wallet σ)) bucket ->
      locksKept (wallet σ) bucket ->
      (forall sel sel' σ',
         selectSiafunds h amount (dbSiafundOutputs (wallet σ)) sel σ = (ok sel', σ') ->
         exists n, siafundsScannedTo (wallet σ) h bucket sel sel' n)
      /\ (completes (FundSiafunds amount σ).1 ->
          fundsOrFails (FundSiafunds amount σ).1 amount
            (totalSiafunds (filter (usableSiafund (wallet σ) h) bucket))
            (totalSiafunds (filter (spentSiafund (wallet σ) h) bucket)))
      /\ (derivableFrom (wallet σ) ->
          completes (FundSiafunds amount σ).1
          /\ forall sel, exists sel' σ',
               selectSiafunds h amount (dbSiafundOutputs (wallet σ)) sel σ = (ok sel', σ'))).
Proof.
  split; [|split; [|split]].
  - intros T add w h dust amount so s.
    destruct (selectOutputs_scan add w h dust amount so (startSelection s)) as (n & Hn & _).
    eauto.
  - intros outputs fee σ dust h so Hdust Hheight Hso.
    rewrite (FundSiacoinsForOutputs_steps outputs fee σ dust h so Hdust Hheight Hso).
    apply scan_fundsOrFails, elsewhere_placeOutputs.
  - intros amount σ dust h confirmed Hdust Hheight Hconfirmed.
    rewrite (FundSiacoins_steps amount σ dust h confirmed Hdust Hheight Hconfirmed).
    apply scan_fundsOrFails, elsewhere_addParent.
  - intros amount σ h bucket Hheight Hdec Hkept.
    destruct (FundSiafunds_outcome amount σ h bucket Hheight Hdec Hkept) as [Hfails Hends].
    split; [|split; [exact Hfails|]].
    + intros sel sel' σ' Hrun.
      destruct (selectSiafunds_scan (wallet σ) bucket h amount (dbSiafundOutputs (wallet σ))
                  bucket sel σ Hkept Hdec ltac:(auto) (sees_refl _ _))
        as [(sel1 & σ1 & n & Hrun1 & _ & _ & Hscan & _) | (n & _ & Hcase)].
      * rewrite Hrun in Hrun1. injection Hrun1 as <- <-. eauto.
      * rewrite Hrun in Hcase. simpl in Hcase.
        destruct Hcase as [(code & _ & Hr) | [_ Hr]]; discriminate Hr.
    + intros Hderive. split; [exact (Hends Hderive)|].
      intros sel.
      destruct (selectSiafunds_scan (wallet σ) bucket h amount (dbSiafundOutputs (wallet σ))
                  bucket sel σ Hkept Hdec ltac:(auto) (sees_refl _ _))
        as [(sel1 & σ1 & n & Hrun1 & _) | Hfails'].
      * eauto.
      * now destruct (derivable_not_fails _ _ Hderive Hfails').
Qed.

End Funding.

(** *** Reservations and [Drop] *)

Lemma elem_of_spentByBuilder (b : transactionBuilder) (id : N) :
  id ∈ spentByBuilder b
  <-> (exists p, p ∈ parents b /\ id ∈ sci_ParentID <$> SiacoinInputs p)
     \/ id ∈ sci_ParentID <$> SiacoinInputs (transaction b).
Proof.
  unfold spentByBuilder. rewrite list_elem_of_join. split.
  - intros (l & Hid & Hl). apply list_elem_of_fmap in Hl as (txn & -> & Htxn).
    apply elem_of_app in Htxn as [Hp|Ht].
    + left. eauto.
    + apply list_elem_of_singleton in Ht as ->. now right.
  - intros [(p & Hp & Hid)|Hid].
    + exists (sci_ParentID <$> SiacoinInputs p). split; [exact Hid|].
      apply list_elem_of_fmap. exists p. split; [reflexivity|].
      apply elem_of_app. now left.
    + exists (sci_ParentID <$> SiacoinInputs (transaction b)). split; [exact Hid|].
      apply list_elem_of_fmap. exists (transaction b). split; [reflexivity|].
      apply elem_of_app. right. apply list_elem_of_here.
Qed.

Lemma restoreInputs_lookup (inputs : list SiacoinInput) (w : Wallet) (id : N) :
  dbSpentOutputs
    (fold_left (fun w sci => dbDeleteSpentOutput w (sci_ParentID sci)) inputs w) !! id
  = if decide (id ∈ sci_ParentID <$> inputs) then None else dbSpentOutputs w !! id.
Proof.
  revert w. induction inputs as [|sci rest IH]; intros w.
  - case_decide as Hin; [now apply elem_of_nil in Hin | reflexivity].
  - change (fold_left _ (sci :: rest) w) with
      (fold_left (fun w sci => dbDeleteSpentOutput w (sci_ParentID sci)) rest
         (dbDeleteSpentOutput w (sci_ParentID sci))).
    rewrite IH, fmap_cons.
    destruct (decide (id ∈ sci_ParentID <$> rest)) as [Hin|Hout].
    + rewrite decide_True; [reflexivity | now right].
    + unfold dbDeleteSpentOutput. simpl.
      destruct (decide (id = sci_ParentID sci)) as [->|Hne].
      * rewrite decide_True by (now left). apply lookup_delete_eq.
      * rewrite decide_False by (intros [?|?]%elem_of_cons; contradiction).
        now apply lookup_delete_ne.
Qed.

Lemma restoreOutputs_lookup (txns : list Transaction) (w : Wallet) (id : N) :
  dbSpentOutputs (restoreOutputs txns w) !! id
  = if decide (id ∈ mjoin ((fun txn => sci_ParentID <$> SiacoinInputs txn) <$> txns))
    then None else dbSpentOutputs w !! id.
Proof.
  unfold restoreOutputs. revert w. induction txns as [|txn rest IH]; intros w.
  - case_decide as Hin; [now apply elem_of_nil in Hin | reflexivity].
  - change (fold_left _ (txn :: rest) w) with
      (fold_left
         (fun w txn =>
            fold_left (fun w sci => dbDeleteSpentOutput w (sci_ParentID sci))
              (SiacoinInputs txn) w)
         rest
         (fold_left (fun w sci => dbDeleteSpentOutput w (sci_ParentID sci))
            (SiacoinInputs txn) w)).
    rewrite IH, restoreInputs_lookup, fmap_cons.
    change (mjoin ((sci_ParentID <$> SiacoinInputs txn) :: ?l))
      with ((sci_ParentID <$> SiacoinInputs txn) ++ mjoin l).
    destruct (decide (id ∈ mjoin ((fun txn => sci_ParentID <$> SiacoinInputs txn) <$> rest)))
      as [Hin|Hout].
    + rewrite decide_True; [reflexivity|]. apply elem_of_app. now right.
    + destruct (decide (id ∈ sci_ParentID <$> SiacoinInputs txn)) as [Hhere|Hnot].
      * rewrite decide_True; [reflexivity|]. apply elem_of_app. now left.
      * rewrite decide_False; [reflexivity|].
        intros [?|?]%elem_of_app; contradiction.
Qed.

(** [Drop] always succeeds; it empties the builder and deletes from the
    bucket of spent outputs the IDs that the siacoin inputs of the parents
    and of the transaction name, and no other. *)
Lemma Drop_run (σ : world) :
  exists σ',
    Drop σ = (ok tt, σ') /\ tb σ' = emptyBuilder
    /\ (forall id, id ∈ spentByBuilder (tb σ) -> dbSpentOutputs (wallet σ') !! id = None)
    /\ (forall id, id ∉ spentByBuilder (tb σ) ->
        dbSpentOutputs (wallet σ') !! id = dbSpentOutputs (wallet σ) !! id).
Proof.
  exists {| tb := emptyBuilder;
            wallet := restoreOutputs (parents (tb σ) ++ [transaction (tb σ)]) (wallet σ) |}.
  split; [reflexivity|]. simpl. split; [reflexivity|].
  split; intros id Hid; rewrite restoreOutputs_lookup; fold (spentByBuilder (tb σ)).
  - now rewrite decide_True.
  - now rewrite decide_False.
Qed.

Section Reservations.
Context `{Primitives}.

Lemma nextPrimarySeedAddress_ok (σ σ' : world) (uc : UnlockConditions) :
  nextPrimarySeedAddress σ = (ok uc, σ') ->
  tb σ' = tb σ /\ dbSpentOutputs (wallet σ') = dbSpentOutputs (wallet σ).
Proof.
  unfold nextPrimarySeedAddress.
  destruct (generateKey _); [|discriminate..]. intros [= _ <-]. split; reflexivity.
Qed.

Lemma markSpent_ok (ids : list N) (h : Z) (σ : world) :
  exists σ',
    markSpent ids h σ = (ok tt, σ') /\ tb σ' = tb σ
    /\ forall id, id ∉ ids ->
         dbSpentOutputs (wallet σ') !! id = dbSpentOutputs (wallet σ) !! id.
Proof.
  revert σ. induction ids as [|id0 rest IH]; intros σ.
  - exists σ. split; [reflexivity|]. split; [reflexivity|]. reflexivity.
  - change (markSpent (id0 :: rest) h σ) with
      ((dbPutSpentOutput id0 h ;; markSpent rest h) σ).
    unfold dbPutSpentOutput. rewrite run_modifyWallet.
    destruct (IH {| tb := tb σ;
                    wallet := setSpentOutputs (wallet σ)
                                (<[id0 := h]> (dbSpentOutputs (wallet σ))) |})
      as (σ' & Hrun & Htb & Hother).
    exists σ'. split; [exact Hrun|]. split; [exact Htb|].
    intros id Hid. apply not_elem_of_cons in Hid as [Hne Hid].
    rewrite (Hother id Hid). simpl. now apply lookup_insert_ne.
Qed.

Lemma appendSignature_inputs txn cf parentID i sk :
  SiacoinInputs (appendSignature txn cf parentID i sk) = SiacoinInputs txn.
Proof. reflexivity. Qed.

Lemma addSignatures_from_inputs i publicKeys required cf parentID spendKey total0 txn indices :
  SiacoinInputs
    (addSignatures_from i publicKeys required cf parentID spendKey total0 txn indices).1
  = SiacoinInputs txn.
Proof.
  revert i total0 txn indices.
  induction publicKeys as [|pk rest IH]; intros i total0 txn indices; simpl; [reflexivity|].
  destruct (findSecretKey (Key pk) (SecretKeys spendKey)); case_decide;
    rewrite ?IH; reflexivity.
Qed.

Lemma signParentSiacoinInputs_inputs (w : Wallet) (parentTxn : Transaction) :
  SiacoinInputs (signParentSiacoinInputs w parentTxn) = SiacoinInputs parentTxn.
Proof.
  unfold signParentSiacoinInputs.
  generalize (SiacoinInputs parentTxn) at 1 as inputs. intros inputs.
  revert parentTxn. induction inputs as [|sci rest IH]; intros parentTxn; simpl;
    [reflexivity|].
  rewrite IH. unfold addSignatures. apply addSignatures_from_inputs.
Qed.

Lemma fold_addInputToParent (inputs : list SiacoinInput) (t : Transaction) :
  SiacoinInputs (fold_left addInputToParent inputs t) = SiacoinInputs t ++ inputs.
Proof.
  revert t. induction inputs as [|sci rest IH]; intros t; simpl.
  - now rewrite app_nil_r.
  - rewrite IH. simpl. now rewrite <- app_assoc.
Qed.

Lemma inputFor_ids (w : Wallet) (l : list (N * SiacoinOutput)) :
  sci_ParentID <$> (inputFor w <$> l) = l.*1.
Proof. rewrite <- list_fmap_compose. reflexivity. Qed.

(** What [placeOutputs] does to the builder and to the spent outputs. *)
Lemma placeOutputs_ok outputs amount (sel : selection transactionBuilder) h (σ σ' : world) :
  placeOutputs outputs amount sel h σ = (ok tt, σ') ->
  parents (tb σ') = parents (tb σ)
  /\ SiacoinInputs (transaction (tb σ')) = SiacoinInputs (transaction (tb σ))
  /\ forall id, remarked (wallet σ) (wallet σ') id -> id ∈ spentIDs sel.
Proof.
  unfold placeOutputs. rewrite run_modifyBuilder. cbv beta. rewrite run_bind.
  destruct (decide (amount <> fund sel)) as [Hrefund|Hexact].
  - rewrite run_bind.
    match goal with |- context [nextPrimarySeedAddress ?s] => set (σ1 := s) end.
    destruct (nextPrimarySeedAddress σ1) as [[uc| |] σ2] eqn:Hnext; try discriminate.
    apply nextPrimarySeedAddress_ok in Hnext as [Htb Hspent].
    cbv zeta. cbn [modifyBuilder].
    match goal with |- markSpent _ _ ?s = _ -> _ => set (σ3 := s) end.
    destruct (markSpent_ok (spentIDs sel) h σ3) as (σ4 & Hrun & Htb4 & Hother).
    rewrite Hrun. intros [= <-]. rewrite Htb4. subst σ3. simpl. rewrite Htb. subst σ1. simpl.
    split; [reflexivity|]. split; [reflexivity|].
    intros id Hre. destruct (decide (id ∈ spentIDs sel)) as [Hin|Hout]; [exact Hin|].
    exfalso. apply Hre. rewrite (Hother id Hout). simpl. now rewrite Hspent.
  - cbn [mret M_ret].
    match goal with |- markSpent _ _ ?s = _ -> _ => set (σ3 := s) end.
    destruct (markSpent_ok (spentIDs sel) h σ3) as (σ4 & Hrun & Htb4 & Hother).
    rewrite Hrun. intros [= <-]. rewrite Htb4. subst σ3. simpl.
    split; [reflexivity|]. split; [reflexivity|].
    intros id Hre. destruct (decide (id ∈ spentIDs sel)) as [Hin|Hout]; [exact Hin|].
    exfalso. apply Hre. now rewrite (Hother id Hout).
Qed.

(** After a successful [FundSiacoinsForOutputs] the builder spends what
    it spent before, and every output whose mark changed. *)
Lemma FundSiacoinsForOutputs_covered outputs fee (σ σ' : world) :
  FundSiacoinsForOutputs outputs fee σ = (ok tt, σ') ->
  (forall id, id ∈ spentByBuilder (tb σ) -> id ∈ spentByBuilder (tb σ'))
  /\ (forall id, remarked (wallet σ) (wallet σ') id -> id ∈ spentByBuilder (tb σ')).
Proof.
  intros Hrun.
  assert (exists dust h so,
            DustThreshold (wallet σ) = ok dust /\ dbGetConsensusHeight (wallet σ) = ok h
            /\ getSortedOutputs (wallet σ) = ok so) as (dust & h & so & Hdust & Hheight & Hso).
  { unfold FundSiacoinsForOutputs in Hrun. rewrite run_get in Hrun. cbv beta in Hrun.
    destruct (DustThreshold (wallet σ)) as [dust| |] eqn:Hdust; try discriminate Hrun.
    rewrite (run_call_ok _ dust) in Hrun by reflexivity. cbv beta in Hrun.
    destruct (dbGetConsensusHeight (wallet σ)) as [h| |] eqn:Hheight; try discriminate Hrun.
    rewrite (run_call_ok _ h) in Hrun by reflexivity. cbv beta zeta in Hrun.
    rewrite run_modifyBuilder in Hrun. cbv beta in Hrun.
    destruct (getSortedOutputs (wallet σ)) as [so| |] eqn:Hso; try discriminate Hrun.
    eauto 7. }
  rewrite (FundSiacoinsForOutputs_steps outputs fee σ dust h so Hdust Hheight Hso) in Hrun.
  set (amount := calculateAmountFromOutputs outputs fee) in *.
  set (sel := selectOutputs addInputToBuilder (wallet σ) h dust amount so
                (startSelection (withMinerFee fee (tb σ)))) in *.
  rewrite run_bind, checkFunds_run in Hrun.
  repeat case_decide; try discriminate Hrun.
  apply placeOutputs_ok in Hrun as (Hparents & Hinputs & Hmarks). simpl in *.
  destruct (selectOutputs_scan addInputToBuilder (wallet σ) h dust amount so
              (startSelection (withMinerFee fee (tb σ)))) as (n & [_ _ Hs Ht] & _).
  fold sel in Hs, Ht. simpl in Hs, Ht.
  destruct (fold_addInputToBuilder
              (inputFor (wallet σ) <$> filter (usable (wallet σ) h dust) (take n so))
              (withMinerFee fee (tb σ))) as (Hin & _ & _ & _ & Hpar & _).
  simpl in Hin, Hpar. rewrite <- Ht in Hin, Hpar.
  assert (SiacoinInputs (transaction (withMinerFee fee (tb σ)))
          = SiacoinInputs (transaction (tb σ))
          /\ parents (withMinerFee fee (tb σ)) = parents (tb σ)) as [Hfee1 Hfee2]
    by (unfold withMinerFee; case_decide; split; reflexivity).
  rewrite Hfee1 in Hin. rewrite Hfee2 in Hpar.
  split.
  - intros id Hid. apply elem_of_spentByBuilder in Hid. apply elem_of_spentByBuilder.
    rewrite Hparents, Hpar, Hinputs, Hin, fmap_app.
    destruct Hid as [Hp|Ht']; [now left|]. right. apply elem_of_app. now left.
  - intros id Hre. apply Hmarks in Hre. apply elem_of_spentByBuilder. right.
    rewrite Hinputs, Hin, fmap_app, inputFor_ids. apply elem_of_app. right.
    now rewrite <- Hs.
Qed.

(** What [addParent] does to the builder and to the spent outputs. *)
Lemma addParent_ok amount (sel : selection Transaction) h (σ σ' : world) :
  addParent amount sel h σ = (ok tt, σ') ->
  exists parentTxn newInput,
    SiacoinInputs parentTxn = SiacoinInputs (target sel)
    /\ parents (tb σ') = parents (tb σ) ++ [parentTxn]
    /\ SiacoinInputs (transaction (tb σ')) = SiacoinInputs (transaction (tb σ)) ++ [newInput]
    /\ forall id, remarked (wallet σ) (wallet σ') id ->
         id = sci_ParentID newInput \/ id ∈ spentIDs sel.
Proof.
  unfold addParent. rewrite run_bind.
  destruct (nextPrimarySeedAddress σ) as [[parentUC| |] σ1] eqn:Hnext1; try discriminate.
  apply nextPrimarySeedAddress_ok in Hnext1 as [Htb1 Hspent1].
  cbv zeta. rewrite run_bind.
  set (exact0 := setSiacoinOutputs (target sel) _).
  assert (forall parent0 (σ2 : world),
            SiacoinInputs parent0 = SiacoinInputs (target sel) ->
            tb σ2 = tb σ -> dbSpentOutputs (wallet σ2) = dbSpentOutputs (wallet σ) ->
            forall σ3,
              markSpent (spentIDs sel) h
                {| tb := addInputToBuilder
                           (setParents (tb σ2)
                              (parents (tb σ2) ++ [signParentSiacoinInputs (wallet σ2) parent0])
                              (newParents (tb σ2) ++ [length (parents (tb σ2))]))
                           {| sci_ParentID :=
                                SiacoinOutputID (signParentSiacoinInputs (wallet σ2) parent0) 0;
                              sci_UnlockConditions := parentUC |};
                   wallet := setSpentOutputs (wallet σ2)
                               (<[SiacoinOutputID (signParentSiacoinInputs (wallet σ2) parent0) 0
                                  := h]> (dbSpentOutputs (wallet σ2))) |} = (ok tt, σ3) ->
              exists parentTxn newInput,
                SiacoinInputs parentTxn = SiacoinInputs (target sel)
                /\ parents (tb σ3) = parents (tb σ) ++ [parentTxn]
                /\ SiacoinInputs (transaction (tb σ3))
                   = SiacoinInputs (transaction (tb σ)) ++ [newInput]
                /\ forall id, remarked (wallet σ) (wallet σ3) id ->
                     id = sci_ParentID newInput \/ id ∈ spentIDs sel) as Hrest.
  { intros parent0 σ2 Hinputs0 Htb2 Hspent2 σ3.
    set (parentTxn := signParentSiacoinInputs (wallet σ2) parent0).
    match goal with |- markSpent _ _ ?s = _ -> _ => set (σm := s) end.
    destruct (markSpent_ok (spentIDs sel) h σm) as (σ4 & Hrun & Htb4 & Hother).
    rewrite Hrun. intros [= <-].
    exists parentTxn,
      {| sci_ParentID := SiacoinOutputID parentTxn 0; sci_UnlockConditions := parentUC |}.
    split; [subst parentTxn; now rewrite signParentSiacoinInputs_inputs|].
    rewrite Htb4. subst σm. simpl. rewrite Htb2.
    split; [reflexivity|]. split; [reflexivity|].
    intros id Hre.
    destruct (decide (id = SiacoinOutputID parentTxn 0)) as [->|Hne]; [now left|]. right.
    destruct (decide (id ∈ spentIDs sel)) as [Hin|Hout]; [exact Hin|].
    exfalso. apply Hre. rewrite (Hother id Hout). simpl.
    rewrite lookup_insert_ne by congruence. now rewrite Hspent2. }
  destruct (decide (amount <> fund sel)) as [Hrefund|Hexact].
  - rewrite run_bind.
    destruct (nextPrimarySeedAddress σ1) as [[refundUC| |] σ2] eqn:Hnext2; try discriminate.
    apply nextPrimarySeedAddress_ok in Hnext2 as [Htb2 Hspent2].
    cbv zeta. cbn [mret M_ret]. cbv beta iota. rewrite run_get. cbv beta zeta.
    unfold dbPutSpentOutput. rewrite run_modifyWallet. cbv beta. rewrite run_modifyBuilder.
    cbv beta. cbn [tb wallet]. apply Hrest; [reflexivity | congruence | congruence].
  - cbn [mret M_ret]. cbv beta iota. rewrite run_get. cbv beta zeta.
    unfold dbPutSpentOutput. rewrite run_modifyWallet. cbv beta. rewrite run_modifyBuilder.
    cbv beta. cbn [tb wallet]. apply Hrest; [reflexivity | congruence | congruence].
Qed.

(** After a successful [FundSiacoins] the builder spends what it spent
    before, and every output whose mark changed: the outputs gathered in
    the parent through the inputs of the parent, and the output of the
    parent through the new input of the transaction. *)
Lemma FundSiacoins_covered amount (σ σ' : world) :
  FundSiacoins amount σ = (ok tt, σ') ->
  (forall id, id ∈ spentByBuilder (tb σ) -> id ∈ spentByBuilder (tb σ'))
  /\ (forall id, remarked (wallet σ) (wallet σ') id -> id ∈ spentByBuilder (tb σ')).
Proof.
  intros Hrun.
  assert (exists dust h confirmed,
            DustThreshold (wallet σ) = ok dust /\ dbGetConsensusHeight (wallet σ) = ok h
            /\ dbForEachSiacoinOutput (wallet σ) = ok confirmed)
    as (dust & h & confirmed & Hdust & Hheight & Hconfirmed).
  { unfold FundSiacoins in Hrun. rewrite run_get in Hrun. cbv beta in Hrun.
    destruct (DustThreshold (wallet σ)) as [dust| |] eqn:Hdust; try discriminate Hrun.
    rewrite (run_call_ok _ dust) in Hrun by reflexivity. cbv beta in Hrun.
    destruct (dbGetConsensusHeight (wallet σ)) as [h| |] eqn:Hheight; try discriminate Hrun.
    rewrite (run_call_ok _ h) in Hrun by reflexivity. cbv beta in Hrun.
    destruct (dbForEachSiacoinOutput (wallet σ)) as [confirmed| |] eqn:Hconfirmed;
      try discriminate Hrun.
    eauto 7. }
  rewrite (FundSiacoins_steps amount σ dust h confirmed Hdust Hheight Hconfirmed) in Hrun.
  set (so := scanned (wallet σ) confirmed) in *.
  set (sel := selectOutputs addInputToParent (wallet σ) h dust amount so
                (startSelection zeroTransaction)) in *.
  rewrite run_bind, checkFunds_run in Hrun.
  repeat case_decide; try discriminate Hrun.
  apply addParent_ok in Hrun as (parentTxn & newInput & Hpin & Hparents & Hinputs & Hmarks).
  destruct (selectOutputs_scan addInputToParent (wallet σ) h dust amount so
              (startSelection zeroTransaction)) as (n & [_ _ Hs Ht] & _).
  fold sel in Hs, Ht. simpl in Hs, Ht.
  rewrite Ht, fold_addInputToParent in Hpin. simpl in Hpin.
  split.
  - intros id Hid. apply elem_of_spentByBuilder in Hid. apply elem_of_spentByBuilder.
    rewrite Hparents, Hinputs, fmap_app.
    destruct Hid as [(p & Hp & Hid)|Hid].
    + left. exists p. split; [apply elem_of_app; now left | exact Hid].
    + right. apply elem_of_app. now left.
  - intros id Hre. apply elem_of_spentByBuilder.
    rewrite Hparents, Hinputs, fmap_app.
    destruct (Hmarks id Hre) as [->|Hin].
    + right. apply elem_of_app. right. apply list_elem_of_here.
    + left. exists parentTxn. split; [apply elem_of_app; right; apply list_elem_of_here|].
      rewrite Hpin, inputFor_ids. now rewrite <- Hs.
Qed.

Lemma siacoinFunded_covered (σ σ' : world) :
  siacoinFunded σ σ' ->
  (forall id, id ∈ spentByBuilder (tb σ) -> id ∈ spentByBuilder (tb σ'))
  /\ (forall id, remarked (wallet σ) (wallet σ') id -> id ∈ spentByBuilder (tb σ')).
Proof.
  induction 1 as [σ|σ σ1 σ' outputs fee _ [IHkeep IHmarks] Hrun
                   |σ σ1 σ' amount _ [IHkeep IHmarks] Hrun].
  - split; [auto|]. intros id Hre. now destruct Hre.
  - destruct (FundSiacoinsForOutputs_covered _ _ _ _ Hrun) as [Hkeep Hmarks].
    split; [auto|]. intros id Hre.
    destruct (decide (dbSpentOutputs (wallet σ1) !! id = dbSpentOutputs (wallet σ) !! id))
      as [Hsame|Hdiff].
    + apply Hmarks. unfold remarked in *. congruence.
    + apply Hkeep, IHmarks. exact Hdiff.
  - destruct (FundSiacoins_covered _ _ _ Hrun) as [Hkeep Hmarks].
    split; [auto|]. intros id Hre.
    destruct (decide (dbSpentOutputs (wallet σ1) !! id = dbSpentOutputs (wallet σ) !! id))
      as [Hsame|Hdiff].
    + apply Hmarks. unfold remarked in *. congruence.
    + apply Hkeep, IHmarks. exact Hdiff.
Qed.

(** X15.  [Drop] releases what the siacoin funding reserved.  After any
    number of successful [FundSiacoins] and [FundSiacoinsForOutputs] calls,
    in any order, one [Drop] empties the builder and leaves no entry in the
    bucket of spent outputs for any output that these calls marked, the
    output of every parent transaction included. *)
Lemma Drop_erases_siacoin_reservations (σ σ' : world) :
  siacoinFunded σ σ' ->
  exists σ'',
    Drop σ' = (ok tt, σ'') /\ tb σ'' = emptyBuilder
    /\ forall id, remarked (wallet σ) (wallet σ') id ->
         dbSpentOutputs (wallet σ'') !! id = None.
Proof.
  intros Hfunded. destruct (siacoinFunded_covered σ σ' Hfunded) as [_ Hmarks].
  destruct (Drop_run σ') as (σ'' & Hrun & Htb & Hgone & _).
  exists σ''. split; [exact Hrun|]. split; [exact Htb|].
  intros id Hre. apply Hgone, Hmarks, Hre.
Qed.

End Reservations.

(** *** What a successful Fund call has built *)

Section Funded.
Context `{Primitives}.

Lemma markSpent_run (ids : list N) (h : Z) (σ : world) :
  exists spent',
    markSpent ids h σ
    = (ok tt, {| tb := tb σ; wallet := setSpentOutputs (wallet σ) spent' |})
    /\ forall id, spent' !! id
                  = if decide (id ∈ ids) then Some h else dbSpentOutputs (wallet σ) !! id.
Proof.
  revert σ. induction ids as [|id0 rest IH]; intros σ.
  - exists (dbSpentOutputs (wallet σ)). split.
    + simpl. unfold mret, M_ret. destruct σ as [b w]. destruct w. reflexivity.
    + intros id. now rewrite decide_False by apply not_elem_of_nil.
  - change (markSpent (id0 :: rest) h σ) with
      ((dbPutSpentOutput id0 h ;; markSpent rest h) σ).
    unfold dbPutSpentOutput. rewrite run_modifyWallet.
    destruct (IH {| tb := tb σ;
                    wallet := setSpentOutputs (wallet σ)
                                (<[id0 := h]> (dbSpentOutputs (wallet σ))) |})
      as (spent' & Hrun & Hlook).
    exists spent'. split; [exact Hrun|].
    intros id. rewrite Hlook. simpl.
    destruct (decide (id ∈ rest)) as [Hin|Hout].
    + now rewrite decide_True by (apply elem_of_cons; now right).
    + destruct (decide (id = id0)) as [->|Hne].
      * rewrite decide_True by apply list_elem_of_here. apply lookup_insert_eq.
      * rewrite decide_False by (intros Hin; apply elem_of_cons in Hin as [?|?]; contradiction).
        now apply lookup_insert_ne.
Qed.

Lemma calculateAmountFromOutputs_sum (outputs : list SiacoinOutput) (fee : N) :
  calculateAmountFromOutputs outputs fee = (sumN (sco_Value <$> outputs) + fee)%N.
Proof.
  unfold calculateAmountFromOutputs.
  assert (forall acc, fold_left (fun amount output => (amount + sco_Value output)%N) outputs acc
                      = (acc + sumN (sco_Value <$> outputs))%N) as Hfold.
  { induction outputs as [|o rest IH]; intros acc.
    - simpl. lia.
    - rewrite fmap_cons. cbn [fold_left sumN]. rewrite IH. lia. }
  rewrite Hfold. case_decide; lia.
Qed.

Lemma refundFor_balance (amount funded : N) (refund : list SiacoinOutput) :
  (amount <= funded)%N -> refundFor amount funded refund ->
  funded = (amount + sumN (sco_Value <$> refund))%N
  /\ (length refund <= 1)%nat /\ Forall (fun o => (0 < sco_Value o)%N) refund.
Proof.
  intros Hle [[-> ->]|(Hne & uh & ->)]; simpl.
  - repeat split; [lia | lia | constructor].
  - repeat split; [lia | lia |]. constructor; [simpl; lia | constructor].
Qed.

Lemma placeOutputs_result outputs amount (sel : selection transactionBuilder) h
    (σ σ' : world) :
  placeOutputs outputs amount sel h σ = (ok tt, σ') ->
  exists refund,
    refundFor amount (fund sel) refund
    /\ tb σ' = setTransaction (tb σ)
                 (setSiacoinOutputs (transaction (tb σ))
                    (SiacoinOutputs (transaction (tb σ)) ++ outputs ++ refund))
    /\ forall id, dbSpentOutputs (wallet σ') !! id
                  = if decide (id ∈ spentIDs sel) then Some h
                    else dbSpentOutputs (wallet σ) !! id.
Proof.
  unfold placeOutputs. rewrite run_modifyBuilder. cbv beta. rewrite run_bind.
  destruct (decide (amount <> fund sel)) as [Hrefund|Hexact].
  - rewrite run_bind.
    match goal with |- context [nextPrimarySeedAddress ?s] => set (σ1 := s) end.
    destruct (nextPrimarySeedAddress σ1) as [[uc| |] σ2] eqn:Hnext; try discriminate.
    apply nextPrimarySeedAddress_ok in Hnext as [Htb Hspent].
    cbv zeta. cbn [modifyBuilder].
    match goal with |- markSpent _ _ ?s = _ -> _ => set (σ3 := s) end.
    destruct (markSpent_run (spentIDs sel) h σ3) as (spent' & Hrun & Hlook).
    rewrite Hrun. intros [= <-].
    exists [ {| sco_Value := (fund sel - amount)%N; sco_UnlockHash := UnlockHash uc |} ].
    split; [right; split; [exact Hrefund | eauto]|].
    subst σ3. simpl. rewrite Htb. subst σ1. simpl. split.
    + unfold setTransaction, setSiacoinOutputs. simpl. now rewrite <- app_assoc.
    + intros id. rewrite Hlook. simpl. now rewrite Hspent.
  - cbn [mret M_ret].
    match goal with |- markSpent _ _ ?s = _ -> _ => set (σ3 := s) end.
    destruct (markSpent_run (spentIDs sel) h σ3) as (spent' & Hrun & Hlook).
    rewrite Hrun. intros [= <-]. exists [].
    split; [left; split; [|reflexivity]|].
    { destruct (decide (amount = fund sel)) as [Heq|Hne]; [exact Heq | contradiction]. }
    subst σ3. simpl. split.
    + now rewrite app_nil_r.
    + intros id. now rewrite Hlook.
Qed.

(** The builder and the wallet after a successful [FundSiacoinsForOutputs]. *)
Lemma FundSiacoinsForOutputs_built (outputs : list SiacoinOutput) (fee : N) (σ σ' : world) :
  FundSiacoinsForOutputs outputs fee σ = (ok tt, σ') ->
  exists dust h so n refund,
    let chosen := filter (usable (wallet σ) h dust) (take n so) in
    DustThreshold (wallet σ) = ok dust /\ dbGetConsensusHeight (wallet σ) = ok h
    /\ getSortedOutputs (wallet σ) = ok so
    /\ SiacoinInputs (transaction (tb σ'))
       = SiacoinInputs (transaction (tb σ)) ++ (inputFor (wallet σ) <$> chosen)
    /\ MinerFees (transaction (tb σ'))
       = MinerFees (transaction (tb σ)) ++ (if decide (0 < fee)%N then [fee] else [])
    /\ SiacoinOutputs (transaction (tb σ'))
       = SiacoinOutputs (transaction (tb σ)) ++ outputs ++ refund
    /\ (length refund <= 1)%nat /\ Forall (fun o => (0 < sco_Value o)%N) refund
    /\ total chosen
       = (sumN (sco_Value <$> outputs) + fee + sumN (sco_Value <$> refund))%N
    /\ (forall id, id ∈ chosen.*1 -> dbSpentOutputs (wallet σ') !! id = Some h)
    /\ (forall id, id ∉ chosen.*1 ->
          dbSpentOutputs (wallet σ') !! id = dbSpentOutputs (wallet σ) !! id)
    /\ parents (tb σ') = parents (tb σ).
Proof.
  intros Hrun.
  assert (exists dust h so,
            DustThreshold (wallet σ) = ok dust /\ dbGetConsensusHeight (wallet σ) = ok h
            /\ getSortedOutputs (wallet σ) = ok so) as (dust & h & so & Hdust & Hheight & Hso).
  { unfold FundSiacoinsForOutputs in Hrun. rewrite run_get in Hrun. cbv beta in Hrun.
    destruct (DustThreshold (wallet σ)) as [dust| |] eqn:Hdust; try discriminate Hrun.
    rewrite (run_call_ok _ dust) in Hrun by reflexivity. cbv beta in Hrun.
    destruct (dbGetConsensusHeight (wallet σ)) as [h| |] eqn:Hheight; try discriminate Hrun.
    rewrite (run_call_ok _ h) in Hrun by reflexivity. cbv beta zeta in Hrun.
    rewrite run_modifyBuilder in Hrun. cbv beta in Hrun.
    destruct (getSortedOutputs (wallet σ)) as [so| |] eqn:Hso; try discriminate Hrun.
    eauto 7. }
  rewrite (FundSiacoinsForOutputs_steps outputs fee σ dust h so Hdust Hheight Hso) in Hrun.
  set (amount := calculateAmountFromOutputs outputs fee) in *.
  set (sel := selectOutputs addInputToBuilder (wallet σ) h dust amount so
                (startSelection (withMinerFee fee (tb σ)))) in *.
  rewrite run_bind, checkFunds_run in Hrun.
  destruct (decide ((amount <= potentialFund sel)%N /\ (fund sel < amount)%N))
    as [Hincomplete|_]; [discriminate Hrun|].
  destruct (decide (fund sel < amount)%N) as [Hlow|Henough]; [discriminate Hrun|].
  apply placeOutputs_result in Hrun as (refund & Hrefund & Htb & Hmarks). simpl in Htb, Hmarks.
  destruct (selectOutputs_scan addInputToBuilder (wallet σ) h dust amount so
              (startSelection (withMinerFee fee (tb σ)))) as (n & [Hf _ Hs Ht] & _).
  fold sel in Hf, Hs, Ht. simpl in Hf, Hs, Ht.
  destruct (fold_addInputToBuilder
              (inputFor (wallet σ) <$> filter (usable (wallet σ) h dust) (take n so))
              (withMinerFee fee (tb σ))) as (Hin & _ & Hfee & Hout & Hpar & _).
  simpl in Hin, Hfee, Hout, Hpar. rewrite <- Ht in Hin, Hfee, Hout, Hpar.
  assert (SiacoinInputs (transaction (withMinerFee fee (tb σ)))
          = SiacoinInputs (transaction (tb σ))
          /\ parents (withMinerFee fee (tb σ)) = parents (tb σ)
          /\ SiacoinOutputs (transaction (withMinerFee fee (tb σ)))
             = SiacoinOutputs (transaction (tb σ))
          /\ MinerFees (transaction (withMinerFee fee (tb σ)))
             = MinerFees (transaction (tb σ)) ++ (if decide (0 < fee)%N then [fee] else []))
    as (Hfee1 & Hfee2 & Hfee3 & Hfee4).
  { unfold withMinerFee. case_decide; simpl; rewrite ?app_nil_r; repeat split. }
  rewrite Hfee1 in Hin. rewrite Hfee2 in Hpar. rewrite Hfee3 in Hout. rewrite Hfee4 in Hfee.
  assert (amount <= fund sel)%N as Hle by lia.
  destruct (refundFor_balance amount (fund sel) refund Hle Hrefund) as (Hbal & Hlen & Hpos).
  exists dust, h, so, n, refund. cbv zeta.
  split; [exact Hdust|]. split; [exact Hheight|]. split; [exact Hso|].
  rewrite Htb. simpl. rewrite Hin, Hfee, Hout, Hpar.
  split; [reflexivity|]. split; [reflexivity|]. split; [reflexivity|].
  split; [exact Hlen|]. split; [exact Hpos|]. split.
  - rewrite N.add_0_l in Hf. rewrite <- Hf, Hbal. unfold amount.
    now rewrite calculateAmountFromOutputs_sum.
  - split; [|split; [|reflexivity]].
    + intros id Hid. rewrite Hmarks, Hs. now rewrite decide_True.
    + intros id Hid. rewrite Hmarks, Hs. now rewrite decide_False.
Qed.

(** X16.  What a successful [FundSiacoinsForOutputs] has built.  The
    outputs that it spends are the usable ones among the first outputs of
    the sorted list, as far as the scan went.  It has appended an input for
    each of them, the fee when it is above zero, the requested outputs, and
    at most one refund output of a positive value; the builder's parents are
    as before.  The spent outputs are worth exactly the requested outputs
    plus the fee plus the refund, and each of them is marked as spent at the
    current height. *)
Theorem outputs_funded (outputs : list SiacoinOutput) (fee : N) (σ σ' : world) :
  FundSiacoinsForOutputs outputs fee σ = (ok tt, σ') ->
  exists dust h so n refund,
    let chosen := filter (usable (wallet σ) h dust) (take n so) in
    DustThreshold (wallet σ) = ok dust /\ dbGetConsensusHeight (wallet σ) = ok h
    /\ getSortedOutputs (wallet σ) = ok so
    /\ SiacoinInputs (transaction (tb σ'))
       = SiacoinInputs (transaction (tb σ)) ++ (inputFor (wallet σ) <$> chosen)
    /\ MinerFees (transaction (tb σ'))
       = MinerFees (transaction (tb σ)) ++ (if decide (0 < fee)%N then [fee] else [])
    /\ SiacoinOutputs (transaction (tb σ'))
       = SiacoinOutputs (transaction (tb σ)) ++ outputs ++ refund
    /\ (length refund <= 1)%nat /\ Forall (fun o => (0 < sco_Value o)%N) refund
    /\ total chosen
       = (sumN (sco_Value <$> outputs) + fee + sumN (sco_Value <$> refund))%N
    /\ (forall id, id ∈ chosen.*1 -> dbSpentOutputs (wallet σ') !! id = Some h)
    /\ (forall id, id ∉ chosen.*1 ->
          dbSpentOutputs (wallet σ') !! id = dbSpentOutputs (wallet σ) !! id)
    /\ parents (tb σ') = parents (tb σ).
Proof. exact (FundSiacoinsForOutputs_built outputs fee σ σ'). Qed.

Lemma addSignatures_from_unsigned i publicKeys required cf parentID spendKey total0 txn
    indices :
  unsigned (addSignatures_from i publicKeys required cf parentID spendKey total0 txn indices).1
  = unsigned txn.
Proof.
  revert i total0 txn indices.
  induction publicKeys as [|pk rest IH]; intros i total0 txn indices; simpl; [reflexivity|].
  destruct (findSecretKey (Key pk) (SecretKeys spendKey)) as [sk|].
  - case_decide; [reflexivity|]. now rewrite IH.
  - case_decide; [reflexivity|]. apply IH.
Qed.

Lemma signParentSiacoinInputs_unsigned (w : Wallet) (parentTxn : Transaction) :
  unsigned (signParentSiacoinInputs w parentTxn) = unsigned parentTxn.
Proof.
  unfold signParentSiacoinInputs.
  generalize (SiacoinInputs parentTxn) at 1 as inputs. intros inputs.
  revert parentTxn. induction inputs as [|sci rest IH]; intros parentTxn; simpl;
    [reflexivity|].
  rewrite IH. unfold addSignatures. apply addSignatures_from_unsigned.
Qed.

Lemma fold_addInputToParent_eq (inputs : list SiacoinInput) (t : Transaction) :
  fold_left addInputToParent inputs t = setSiacoinInputs t (SiacoinInputs t ++ inputs).
Proof.
  revert t. induction inputs as [|sci rest IH]; intros t; simpl.
  - rewrite app_nil_r. now destruct t.
  - rewrite IH. unfold addInputToParent, setSiacoinInputs. simpl. now rewrite <- app_assoc.
Qed.

Lemma addParent_result amount (sel : selection Transaction) h (σ σ' : world) :
  addParent amount sel h σ = (ok tt, σ') ->
  exists parentUC refund parentTxn,
    refundFor amount (fund sel) refund
    /\ unsigned parentTxn
       = unsigned (setSiacoinOutputs (target sel)
                     (SiacoinOutputs (target sel)
                      ++ {| sco_Value := amount; sco_UnlockHash := UnlockHash parentUC |}
                         :: refund))
    /\ tb σ'
       = addInputToBuilder
           (setParents (tb σ) (parents (tb σ) ++ [parentTxn])
              (newParents (tb σ) ++ [length (parents (tb σ))]))
           {| sci_ParentID := SiacoinOutputID parentTxn 0; sci_UnlockConditions := parentUC |}
    /\ forall id, dbSpentOutputs (wallet σ') !! id
                  = if decide (id ∈ SiacoinOutputID parentTxn 0 :: spentIDs sel) then Some h
                    else dbSpentOutputs (wallet σ) !! id.
Proof.
  unfold addParent. rewrite run_bind.
  destruct (nextPrimarySeedAddress σ) as [[parentUC| |] σ1] eqn:Hnext1; try discriminate.
  apply nextPrimarySeedAddress_ok in Hnext1 as [Htb1 Hspent1].
  cbv zeta. rewrite run_bind.
  set (exact0 := setSiacoinOutputs (target sel) _).
  assert (forall parent0 refund (σ2 : world),
            refundFor amount (fund sel) refund ->
            unsigned parent0
            = unsigned (setSiacoinOutputs (target sel)
                          (SiacoinOutputs (target sel)
                           ++ {| sco_Value := amount;
                                 sco_UnlockHash := UnlockHash parentUC |} :: refund)) ->
            tb σ2 = tb σ -> dbSpentOutputs (wallet σ2) = dbSpentOutputs (wallet σ) ->
            forall σ3,
              markSpent (spentIDs sel) h
                {| tb := addInputToBuilder
                           (setParents (tb σ2)
                              (parents (tb σ2) ++ [signParentSiacoinInputs (wallet σ2) parent0])
                              (newParents (tb σ2) ++ [length (parents (tb σ2))]))
                           {| sci_ParentID :=
                                SiacoinOutputID (signParentSiacoinInputs (wallet σ2) parent0) 0;
                              sci_UnlockConditions := parentUC |};
                   wallet := setSpentOutputs (wallet σ2)
                               (<[SiacoinOutputID (signParentSiacoinInputs (wallet σ2) parent0) 0
                                  := h]> (dbSpentOutputs (wallet σ2))) |} = (ok tt, σ3) ->
              exists parentUC refund parentTxn,
                refundFor amount (fund sel) refund
                /\ unsigned parentTxn
                   = unsigned (setSiacoinOutputs (target sel)
                                 (SiacoinOutputs (target sel)
                                  ++ {| sco_Value := amount;
                                        sco_UnlockHash := UnlockHash parentUC |} :: refund))
                /\ tb σ3
                   = addInputToBuilder
                       (setParents (tb σ) (parents (tb σ) ++ [parentTxn])
                          (newParents (tb σ) ++ [length (parents (tb σ))]))
                       {| sci_ParentID := SiacoinOutputID parentTxn 0;
                          sci_UnlockConditions := parentUC |}
                /\ forall id, dbSpentOutputs (wallet σ3) !! id
                              = if decide (id ∈ SiacoinOutputID parentTxn 0 :: spentIDs sel)
                                then Some h else dbSpentOutputs (wallet σ) !! id) as Hrest.
  { intros parent0 refund σ2 Hrefund Hparent Htb2 Hspent2 σ3.
    set (parentTxn := signParentSiacoinInputs (wallet σ2) parent0).
    match goal with |- markSpent _ _ ?s = _ -> _ => set (σm := s) end.
    destruct (markSpent_run (spentIDs sel) h σm) as (spent' & Hrun & Hlook).
    rewrite Hrun. intros [= <-].
    exists parentUC, refund, parentTxn.
    split; [exact Hrefund|]. split.
    { subst parentTxn. now rewrite signParentSiacoinInputs_unsigned. }
    subst σm. simpl. rewrite Htb2. split; [reflexivity|].
    intros id. rewrite Hlook. simpl.
    destruct (decide (id ∈ spentIDs sel)) as [Hin|Hout].
    - now rewrite decide_True by (apply elem_of_cons; now right).
    - destruct (decide (id = SiacoinOutputID parentTxn 0)) as [->|Hne].
      + rewrite decide_True by apply list_elem_of_here. apply lookup_insert_eq.
      + rewrite decide_False
          by (intros Hin; apply elem_of_cons in Hin as [?|?]; contradiction).
        rewrite lookup_insert_ne by congruence. now rewrite Hspent2. }
  destruct (decide (amount <> fund sel)) as [Hrefund|Hexact].
  - rewrite run_bind.
    destruct (nextPrimarySeedAddress σ1) as [[refundUC| |] σ2] eqn:Hnext2; try discriminate.
    apply nextPrimarySeedAddress_ok in Hnext2 as [Htb2 Hspent2].
    cbv zeta. cbn [mret M_ret]. cbv beta iota. rewrite run_get. cbv beta zeta.
    unfold dbPutSpentOutput. rewrite run_modifyWallet. cbv beta. rewrite run_modifyBuilder.
    cbv beta. cbn [tb wallet].
    apply (Hrest _ [ {| sco_Value := (fund sel - amount)%N;
                        sco_UnlockHash := UnlockHash refundUC |} ]);
      [right; split; [exact Hrefund | eauto] | | congruence | congruence].
    subst exact0. unfold unsigned, setTransactionSignatures, setSiacoinOutputs. simpl.
    now rewrite <- app_assoc.
  - cbn [mret M_ret]. cbv beta iota. rewrite run_get. cbv beta zeta.
    unfold dbPutSpentOutput. rewrite run_modifyWallet. cbv beta. rewrite run_modifyBuilder.
    cbv beta. cbn [tb wallet].
    apply (Hrest _ []); [left; split; [|reflexivity] | reflexivity | congruence | congruence].
    destruct (decide (amount = fund sel)) as [Heq|Hne]; [exact Heq | contradiction].
Qed.

(** X17.  What a successful [FundSiacoins] has built.  It has appended
    one parent transaction and one input that spends the first output of
    that parent.  The parent spends the usable outputs among the first
    outputs of the scanned list, as far as the scan went; it pays exactly
    the amount to a new address of the wallet and at most one refund of a
    positive value, and carries no miner fee: the outputs that it spends are
    worth the amount plus the refund.  The first output of the parent and
    the outputs that the parent spends are marked as spent at the current
    height. *)
Theorem coins_funded (amount : N) (σ σ' : world) :
  FundSiacoins amount σ = (ok tt, σ') ->
  exists dust h confirmed n parentUC refund parentTxn,
    let chosen :=
      filter (usable (wallet σ) h dust) (take n (scanned (wallet σ) confirmed)) in
    DustThreshold (wallet σ) = ok dust /\ dbGetConsensusHeight (wallet σ) = ok h
    /\ dbForEachSiacoinOutput (wallet σ) = ok confirmed
    /\ parents (tb σ') = parents (tb σ) ++ [parentTxn]
    /\ newParents (tb σ') = newParents (tb σ) ++ [length (parents (tb σ))]
    /\ SiacoinInputs parentTxn = inputFor (wallet σ) <$> chosen
    /\ SiacoinOutputs parentTxn
       = {| sco_Value := amount; sco_UnlockHash := UnlockHash parentUC |} :: refund
    /\ MinerFees parentTxn = []
    /\ (length refund <= 1)%nat /\ Forall (fun o => (0 < sco_Value o)%N) refund
    /\ total chosen = (amount + sumN (sco_Value <$> refund))%N
    /\ SiacoinInputs (transaction (tb σ'))
       = SiacoinInputs (transaction (tb σ))
         ++ [ {| sci_ParentID := SiacoinOutputID parentTxn 0;
                 sci_UnlockConditions := parentUC |} ]
    /\ siacoinInputs (tb σ')
       = siacoinInputs (tb σ) ++ [length (SiacoinInputs (transaction (tb σ)))]
    /\ (forall id, id ∈ SiacoinOutputID parentTxn 0 :: chosen.*1 ->
          dbSpentOutputs (wallet σ') !! id = Some h)
    /\ (forall id, id ∉ SiacoinOutputID parentTxn 0 :: chosen.*1 ->
          dbSpentOutputs (wallet σ') !! id = dbSpentOutputs (wallet σ) !! id).
Proof.
  intros Hrun.
  assert (exists dust h confirmed,
            DustThreshold (wallet σ) = ok dust /\ dbGetConsensusHeight (wallet σ) = ok h
            /\ dbForEachSiacoinOutput (wallet σ) = ok confirmed)
    as (dust & h & confirmed & Hdust & Hheight & Hconfirmed).
  { unfold FundSiacoins in Hrun. rewrite run_get in Hrun. cbv beta in Hrun.
    destruct (DustThreshold (wallet σ)) as [dust| |] eqn:Hdust; try discriminate Hrun.
    rewrite (run_call_ok _ dust) in Hrun by reflexivity. cbv beta in Hrun.
    destruct (dbGetConsensusHeight (wallet σ)) as [h| |] eqn:Hheight; try discriminate Hrun.
    rewrite (run_call_ok _ h) in Hrun by reflexivity. cbv beta in Hrun.
    destruct (dbForEachSiacoinOutput (wallet σ)) as [confirmed| |] eqn:Hconfirmed;
      try discriminate Hrun.
    eauto 7. }
  rewrite (FundSiacoins_steps amount σ dust h confirmed Hdust Hheight Hconfirmed) in Hrun.
  set (so := scanned (wallet σ) confirmed) in *.
  set (sel := selectOutputs addInputToParent (wallet σ) h dust amount so
                (startSelection zeroTransaction)) in *.
  rewrite run_bind, checkFunds_run in Hrun.
  destruct (decide ((amount <= potentialFund sel)%N /\ (fund sel < amount)%N))
    as [Hincomplete|_]; [discriminate Hrun|].
  destruct (decide (fund sel < amount)%N) as [Hlow|Henough]; [discriminate Hrun|].
  apply addParent_result in Hrun
    as (parentUC & refund & parentTxn & Hrefund & Hparent & Htb & Hmarks).
  destruct (selectOutputs_scan addInputToParent (wallet σ) h dust amount so
              (startSelection zeroTransaction)) as (n & [Hf _ Hs Ht] & _).
  fold sel in Hf, Hs, Ht. simpl in Hf, Hs, Ht.
  rewrite fold_addInputToParent_eq in Ht. simpl in Ht.
  assert (amount <= fund sel)%N as Hle by lia.
  destruct (refundFor_balance amount (fund sel) refund Hle Hrefund) as (Hbal & Hlen & Hpos).
  subst so.
  exists dust, h, confirmed, n, parentUC, refund, parentTxn. cbv zeta.
  split; [exact Hdust|]. split; [exact Hheight|]. split; [exact Hconfirmed|].
  rewrite Htb. simpl.
  split; [reflexivity|]. split; [reflexivity|].
  rewrite Ht in Hparent.
  split; [exact (f_equal SiacoinInputs Hparent)|].
  split; [exact (f_equal SiacoinOutputs Hparent)|].
  split; [exact (f_equal MinerFees Hparent)|].
  split; [exact Hlen|]. split; [exact Hpos|].
  split; [rewrite N.add_0_l in Hf; now rewrite <- Hf|].
  split; [reflexivity|]. split; [reflexivity|].
  split.
  - intros id Hid. rewrite Hmarks, Hs. now rewrite decide_True.
  - intros id Hid. rewrite Hmarks, Hs. now rewrite decide_False.
Qed.

End Funded.

(** *** The signatures of one input *)

Section Threshold.
Context `{Primitives}.

Lemma insert_last {A} (l : list A) (x y : A) :
  <[(length (l ++ [y]) - 1)%nat := x]> (l ++ [y]) = l ++ [x].
Proof.
  rewrite length_app. simpl.
  replace (length l + 1 - 1)%nat with (length l + 0)%nat by lia.
  now rewrite insert_app_r.
Qed.

Lemma appendSignature_sigs txn cf parentID i sk :
  exists bytes,
    TransactionSignatures (appendSignature txn cf parentID i sk)
    = TransactionSignatures txn
      ++ [ {| sig_ParentID := parentID; PublicKeyIndex := N.of_nat i;
              sig_CoveredFields := cf; Signature := bytes |} ].
Proof.
  unfold appendSignature. cbv zeta. cbn [TransactionSignatures setTransactionSignatures].
  eexists. rewrite insert_last. reflexivity.
Qed.

Lemma signWith_unsigned cf parentID ms txn : unsigned (signWith cf parentID ms txn) = unsigned txn.
Proof.
  revert txn. induction ms as [|m ms IH]; intros txn; [reflexivity|].
  change (signWith cf parentID (m :: ms) txn)
    with (signWith cf parentID ms (appendSignature txn cf parentID m.1 m.2)).
  now rewrite IH.
Qed.

Lemma signWith_stubs cf parentID ms txn :
  stub <$> TransactionSignatures (signWith cf parentID ms txn)
  = (stub <$> TransactionSignatures txn)
    ++ ((fun m => {| sig_ParentID := parentID; PublicKeyIndex := N.of_nat m.1;
                     sig_CoveredFields := cf; Signature := [] |}) <$> ms).
Proof.
  revert txn. induction ms as [|m ms IH]; intros txn.
  - simpl. now rewrite app_nil_r.
  - change (signWith cf parentID (m :: ms) txn)
      with (signWith cf parentID ms (appendSignature txn cf parentID m.1 m.2)).
    rewrite IH. destruct (appendSignature_sigs txn cf parentID m.1 m.2) as (bytes & ->).
    rewrite fmap_app, fmap_cons, <- app_assoc. reflexivity.
Qed.

Lemma signWith_length cf parentID ms txn :
  length (TransactionSignatures (signWith cf parentID ms txn))
  = (length (TransactionSignatures txn) + length ms)%nat.
Proof.
  pose proof (f_equal length (signWith_stubs cf parentID ms txn)) as Hlen.
  rewrite length_app, !length_fmap in Hlen. exact Hlen.
Qed.

Lemma addSignatures_from_threshold i publicKeys required cf parentID spendKey total0 txn
    indices :
  0 <= total0 < required ->
  total0 + Z.of_nat (length publicKeys) < 2 ^ 64 ->
  addSignatures_from i publicKeys required cf parentID spendKey total0 txn indices
  = (signWith cf parentID
       (take (Z.to_nat (required - total0))
             (matchingFrom i publicKeys (SecretKeys spendKey))) txn,
     indices
     ++ seq (length (TransactionSignatures txn))
            (length (take (Z.to_nat (required - total0))
                          (matchingFrom i publicKeys (SecretKeys spendKey))))).
Proof.
  revert i total0 txn indices.
  induction publicKeys as [|pk rest IH]; intros i total0 txn indices Htotal Hbound.
  - simpl. rewrite take_nil. simpl. now rewrite app_nil_r.
  - cbn [addSignatures_from matchingFrom].
    change (length (pk :: rest)) with (S (length rest)) in Hbound.
    destruct (findSecretKey (Key pk) (SecretKeys spendKey)) as [sk|] eqn:Hfind.
    + assert (uint64_add total0 1 = total0 + 1) as ->
        by (unfold uint64_add, wrap; apply Z.mod_small; lia).
      replace (Z.to_nat (required - total0)) with (S (Z.to_nat (required - (total0 + 1))))
        by lia.
      rewrite firstn_cons. cbn [length seq].
      change (signWith cf parentID ((i, sk) :: ?ms) txn)
        with (signWith cf parentID ms (appendSignature txn cf parentID i sk)).
      case_decide as Hreached.
      * replace (Z.to_nat (required - (total0 + 1))) with 0%nat by lia.
        rewrite take_0. reflexivity.
      * rewrite IH by lia.
        destruct (appendSignature_sigs txn cf parentID i sk) as (bytes & Hsigs).
        rewrite Hsigs, length_app, <- app_assoc. simpl.
        now rewrite Nat.add_1_r.
    + rewrite decide_False by lia. apply IH; lia.
Qed.

(** X18.  The signatures that [addSignatures] adds.  When the unlock
    conditions require at least one signature, [addSignatures] goes through
    the public keys in order and signs for those of which the spendable key
    holds a secret key, until as many signatures as are required are added
    or the public keys are used up; the new signatures are appended to the
    transaction, carry the parent ID, the covered fields and the index of
    their public key, and their positions are what is returned.  Nothing
    else in the transaction changes.  When no signature is required and the
    spendable key has no secret key for the first public key, nothing is
    signed. *)
Theorem signatures_up_to_threshold (txn : Transaction) (cf : CoveredFields)
    (uc : UnlockConditions) (parentID : N) (spendKey : spendableKey) :
  (1 <= SignaturesRequired uc ->
   Z.of_nat (length (PublicKeys uc)) < 2 ^ 64 ->
   let ms := take (Z.to_nat (SignaturesRequired uc))
                  (matchingFrom 0 (PublicKeys uc) (SecretKeys spendKey)) in
   let txn' := (addSignatures txn cf uc parentID spendKey).1 in
   (addSignatures txn cf uc parentID spendKey).2
   = seq (length (TransactionSignatures txn)) (length ms)
   /\ txn' = signWith cf parentID ms txn
   /\ unsigned txn' = unsigned txn
   /\ stub <$> TransactionSignatures txn'
      = (stub <$> TransactionSignatures txn)
        ++ ((fun m => {| sig_ParentID := parentID; PublicKeyIndex := N.of_nat m.1;
                         sig_CoveredFields := cf; Signature := [] |}) <$> ms)
   /\ (Z.of_nat (length ms) <= SignaturesRequired uc))
  /\ (SignaturesRequired uc = 0 ->
      (forall pk rest, PublicKeys uc = pk :: rest ->
                       findSecretKey (Key pk) (SecretKeys spendKey) = None) ->
      addSignatures txn cf uc parentID spendKey = (txn, [])).
Proof.
  split.
  - intros Hrequired Hbound. cbv zeta. unfold addSignatures.
    rewrite (addSignatures_from_threshold 0 (PublicKeys uc) (SignaturesRequired uc) cf
               parentID spendKey 0 txn []) by lia.
    rewrite Z.sub_0_r. cbn [fst snd]. rewrite app_nil_l.
    split; [reflexivity|]. split; [reflexivity|].
    split; [apply signWith_unsigned|]. split; [apply signWith_stubs|].
    rewrite length_take. lia.
  - intros Hzero Hfirst. unfold addSignatures. rewrite Hzero.
    destruct (PublicKeys uc) as [|pk rest]; [reflexivity|]. simpl.
    rewrite (Hfirst pk rest eq_refl). now rewrite decide_True by reflexivity.
Qed.

End Threshold.

(** *** Signing *)

Section Signing.
Context `{Primitives}.

(** Once [signed] is set, [Sign] fails and changes nothing, so every later
    call fails as well. *)
Lemma Sign_after_signed (wholeTransaction : bool) (σ : world) :
  signed (tb σ) = true ->
  Sign wholeTransaction σ = (err errBuilderAlreadySigned, σ).
Proof. intros Hsigned. unfold Sign. rewrite run_get. cbv beta. now rewrite Hsigned. Qed.

Lemma signInput_sets_signed (cf : CoveredFields) (parentID : N) (uc : UnlockConditions)
    (σ σ' : world) :
  signInput cf parentID uc σ = (ok tt, σ') -> signed (tb σ') = true.
Proof.
  unfold signInput. rewrite run_get. cbv beta.
  destruct (keys (wallet σ) !! UnlockHash uc) as [key|]; [|discriminate].
  destruct (addSignatures _ _ _ _ _) as [txn newSigIndices].
  intros [= <-]. reflexivity.
Qed.

Lemma signSiacoinInputs_sets_signed (cf : CoveredFields) (indices : list nat)
    (σ σ' : world) :
  signSiacoinInputs cf indices σ = (ok tt, σ') ->
  (indices = [] -> σ' = σ)
  /\ (indices <> [] \/ signed (tb σ) = true -> signed (tb σ') = true).
Proof.
  revert σ. induction indices as [|i rest IH]; intros σ.
  - simpl. intros [= <-]. split; [reflexivity|]. intros [Hne|Hs]; [contradiction | exact Hs].
  - change (signSiacoinInputs cf (i :: rest) σ) with
      ((σ0 ← get;
        match SiacoinInputs (transaction (tb σ0)) !! i with
        | None => lift panic
        | Some input =>
            signInput cf (sci_ParentID input) (sci_UnlockConditions input) ;;
            signSiacoinInputs cf rest
        end) σ).
    rewrite run_get. cbv beta.
    destruct (SiacoinInputs (transaction (tb σ)) !! i) as [input|]; [|discriminate].
    rewrite run_bind.
    destruct (signInput cf (sci_ParentID input) (sci_UnlockConditions input) σ)
      as [[[]| |] σ1] eqn:Hstep; try discriminate.
    intros Hrest. apply IH in Hrest as [_ Hkeep].
    split; [discriminate|]. intros _. apply Hkeep. right.
    exact (signInput_sets_signed _ _ _ _ _ Hstep).
Qed.

Lemma signSiafundInputs_sets_signed (cf : CoveredFields) (indices : list nat)
    (σ σ' : world) :
  signSiafundInputs cf indices σ = (ok tt, σ') ->
  (indices = [] -> σ' = σ)
  /\ (indices <> [] \/ signed (tb σ) = true -> signed (tb σ') = true).
Proof.
  revert σ. induction indices as [|i rest IH]; intros σ.
  - simpl. intros [= <-]. split; [reflexivity|]. intros [Hne|Hs]; [contradiction | exact Hs].
  - change (signSiafundInputs cf (i :: rest) σ) with
      ((σ0 ← get;
        match SiafundInputs (transaction (tb σ0)) !! i with
        | None => lift panic
        | Some input =>
            signInput cf (sfi_ParentID input) (sfi_UnlockConditions input) ;;
            signSiafundInputs cf rest
        end) σ).
    rewrite run_get. cbv beta.
    destruct (SiafundInputs (transaction (tb σ)) !! i) as [input|]; [|discriminate].
    rewrite run_bind.
    destruct (signInput cf (sfi_ParentID input) (sfi_UnlockConditions input) σ)
      as [[[]| |] σ1] eqn:Hstep; try discriminate.
    intros Hrest. apply IH in Hrest as [_ Hkeep].
    split; [discriminate|]. intros _. apply Hkeep. right.
    exact (signInput_sets_signed _ _ _ _ _ Hstep).
Qed.

(** X19.  A builder signs once.  A [Sign] that succeeds on a builder
    with a funded input sets [signed], and with it makes every later [Sign]
    fail; in particular a [Sign] that has added a signature has done so.  A
    [Sign] on an unsigned builder without funded inputs returns the
    transactions as they are and changes nothing. *)
Lemma Sign_poisons (wholeTransaction : bool) (σ σ' : world) (txns : list Transaction) :
  Sign wholeTransaction σ = (ok txns, σ') ->
  (siacoinInputs (tb σ) <> [] \/ siafundInputs (tb σ) <> [] ->
   signed (tb σ') = true
   /\ forall whole, Sign whole σ' = (err errBuilderAlreadySigned, σ'))
  /\ (siacoinInputs (tb σ) = [] -> siafundInputs (tb σ) = [] ->
      σ' = σ /\ signed (tb σ') = false
      /\ txns = parents (tb σ) ++ [transaction (tb σ)])
  /\ (TransactionSignatures (transaction (tb σ'))
      <> TransactionSignatures (transaction (tb σ)) ->
      forall whole, Sign whole σ' = (err errBuilderAlreadySigned, σ')).
Proof.
  unfold Sign. rewrite run_get. cbv beta.
  destruct (signed (tb σ)) eqn:Hunsigned; [discriminate|].
  cbv zeta. rewrite run_bind.
  destruct (signSiacoinInputs _ (siacoinInputs (tb σ)) σ) as [[[]| |] σ1] eqn:Hcoins;
    try discriminate.
  rewrite run_bind.
  destruct (signSiafundInputs _ (siafundInputs (tb σ)) σ1) as [[[]| |] σ2] eqn:Hfunds;
    try discriminate.
  rewrite run_get. intros [= <- <-].
  apply signSiacoinInputs_sets_signed in Hcoins as [Hcoins0 Hcoins1].
  apply signSiafundInputs_sets_signed in Hfunds as [Hfunds0 Hfunds1].
  assert (siacoinInputs (tb σ) <> [] \/ siafundInputs (tb σ) <> [] -> signed (tb σ2) = true)
    as Hset.
  { intros [Hne|Hne]; apply Hfunds1; [right; apply Hcoins1; now left | now left]. }
  assert (siacoinInputs (tb σ) = [] -> siafundInputs (tb σ) = [] -> σ2 = σ) as Hsame.
  { intros Hc Hf. now rewrite (Hfunds0 Hf), (Hcoins0 Hc). }
  split; [|split].
  - intros Hfunded. split; [now apply Hset|].
    intros whole. apply Sign_after_signed. now apply Hset.
  - intros Hc Hf. rewrite (Hsame Hc Hf). auto.
  - intros Hchanged whole. apply Sign_after_signed, Hset.
    destruct (siacoinInputs (tb σ)) as [|i l] eqn:Hc; [|left; discriminate].
    destruct (siafundInputs (tb σ)) as [|j k] eqn:Hf; [|right; discriminate].
    exfalso. apply Hchanged. now rewrite (Hsame eq_refl eq_refl).
Qed.

End Signing.

(** *** What [Sign] signs *)

Section SignedInputs.
Context `{Primitives}.

Lemma signWith_sigs cf parentID ms txn :
  exists sigs,
    TransactionSignatures (signWith cf parentID ms txn) = TransactionSignatures txn ++ sigs
    /\ length sigs = length ms
    /\ Forall (fun sig => sig_ParentID sig = parentID /\ sig_CoveredFields sig = cf) sigs.
Proof.
  revert txn. induction ms as [|m ms IH]; intros txn.
  - exists []. simpl. rewrite app_nil_r. repeat split. constructor.
  - change (signWith cf parentID (m :: ms) txn)
      with (signWith cf parentID ms (appendSignature txn cf parentID m.1 m.2)).
    destruct (IH (appendSignature txn cf parentID m.1 m.2)) as (sigs & Hsigs & Hlen & Hall).
    destruct (appendSignature_sigs txn cf parentID m.1 m.2) as (bytes & Happ).
    rewrite Happ, <- app_assoc in Hsigs. eexists. split; [exact Hsigs|].
    split; [simpl; now rewrite Hlen|].
    constructor; [split; reflexivity | exact Hall].
Qed.

Lemma addSignatures_from_signWith i publicKeys required cf parentID spendKey total0 txn
    indices :
  exists ms,
    addSignatures_from i publicKeys required cf parentID spendKey total0 txn indices
    = (signWith cf parentID ms txn,
       indices ++ seq (length (TransactionSignatures txn)) (length ms)).
Proof.
  revert i total0 txn indices.
  induction publicKeys as [|pk rest IH]; intros i total0 txn indices.
  - exists []. simpl. now rewrite app_nil_r.
  - cbn [addSignatures_from].
    destruct (findSecretKey (Key pk) (SecretKeys spendKey)) as [sk|].
    + case_decide.
      * exists [(i, sk)]. reflexivity.
      * destruct (IH (S i) (uint64_add total0 1) (appendSignature txn cf parentID i sk)
                    (indices ++ [length (TransactionSignatures txn)])) as (ms & ->).
        exists ((i, sk) :: ms).
        destruct (appendSignature_sigs txn cf parentID i sk) as (bytes & Hsigs).
        rewrite Hsigs, length_app, <- app_assoc. simpl. now rewrite Nat.add_1_r.
    + case_decide.
      * exists []. simpl. now rewrite app_nil_r.
      * apply IH.
Qed.

Lemma signedMore_refl cf (σ : world) : signedMore cf [] σ σ.
Proof.
  exists []. simpl. rewrite !app_nil_r. repeat split. constructor.
Qed.

Lemma signedMore_trans cf ids1 ids2 (σ σ1 σ2 : world) :
  signedMore cf ids1 σ σ1 -> signedMore cf ids2 σ1 σ2 -> signedMore cf (ids1 ++ ids2) σ σ2.
Proof.
  intros (sigs1 & Hs1 & Hall1 & Hu1 & Hi1 & Hp1 & Hn1 & Hc1 & Hf1 & Hw1)
         (sigs2 & Hs2 & Hall2 & Hu2 & Hi2 & Hp2 & Hn2 & Hc2 & Hf2 & Hw2).
  exists (sigs1 ++ sigs2).
  split; [now rewrite Hs2, Hs1, <- app_assoc|]. split.
  { apply Forall_app. split.
    - eapply Forall_impl; [exact Hall1|]. intros sig [Hin Hcf].
      split; [apply elem_of_app; now left | exact Hcf].
    - eapply Forall_impl; [exact Hall2|]. intros sig [Hin Hcf].
      split; [apply elem_of_app; now right | exact Hcf]. }
  split; [congruence|]. split.
  { rewrite Hi2, Hi1, Hs1, !length_app, <- app_assoc. f_equal.
    now rewrite seq_app. }
  repeat split; congruence.
Qed.

Lemma signInput_run cf parentID uc (σ : world) :
  (exists σ', signInput cf parentID uc σ = (ok tt, σ')
              /\ signedMore cf [parentID] σ σ' /\ signed (tb σ') = true)
  \/ signInput cf parentID uc σ = (err errCannotSignInput, σ).
Proof.
  unfold signInput. rewrite run_get. cbv beta.
  destruct (keys (wallet σ) !! UnlockHash uc) as [key|]; [|now right].
  left. unfold addSignatures.
  destruct (addSignatures_from_signWith 0 (PublicKeys uc) (SignaturesRequired uc) cf parentID
              key 0 (transaction (tb σ)) []) as (ms & ->).
  eexists. split; [reflexivity|]. split; [|reflexivity].
  destruct (signWith_sigs cf parentID ms (transaction (tb σ))) as (sigs & Hsigs & Hlen & Hall).
  exists sigs. simpl. rewrite Hlen.
  split; [exact Hsigs|]. split.
  { eapply Forall_impl; [exact Hall|]. intros sig [-> Hcf].
    split; [apply list_elem_of_here | exact Hcf]. }
  split; [apply signWith_unsigned|]. repeat split.
Qed.

Lemma unsigned_inputs (t t' : Transaction) :
  unsigned t' = unsigned t ->
  SiacoinInputs t' = SiacoinInputs t /\ SiafundInputs t' = SiafundInputs t.
Proof.
  intros Heq. split;
    [exact (f_equal SiacoinInputs Heq) | exact (f_equal SiafundInputs Heq)].
Qed.

Lemma signSiacoinInputs_outcome cf indices (σ σ' : world) r :
  signSiacoinInputs cf indices σ = (r, σ') ->
  match r with
  | ok _ =>
      signedMore cf
        (omap (fun i => sci_ParentID <$> SiacoinInputs (transaction (tb σ)) !! i) indices)
        σ σ'
  | err _ => exists ids, signedMore cf ids σ σ'
  | panic =>
      exists i, i ∈ indices /\ (length (SiacoinInputs (transaction (tb σ))) <= i)%nat
  end.
Proof.
  revert σ. induction indices as [|i rest IH]; intros σ.
  - simpl. intros [= <- <-]. apply signedMore_refl.
  - cbn [signSiacoinInputs]. rewrite run_get. cbv beta.
    destruct (SiacoinInputs (transaction (tb σ)) !! i) as [input|] eqn:Hinput.
    + rewrite run_bind.
      destruct (signInput_run cf (sci_ParentID input) (sci_UnlockConditions input) σ)
        as [(σ1 & -> & Hmore & _)| ->].
      * intros Hrest. specialize (IH σ1 Hrest).
        pose proof Hmore as (_ & _ & _ & Hu & _).
        apply unsigned_inputs in Hu as [Hu _]. rewrite Hu in IH.
        destruct r as [[]| |].
        -- cbn [omap list_omap]. rewrite Hinput. simpl.
           apply (signedMore_trans cf [sci_ParentID input] _ σ σ1 σ' Hmore IH).
        -- destruct IH as (ids & Hrest'). exists (sci_ParentID input :: ids).
           exact (signedMore_trans cf [sci_ParentID input] ids σ σ1 σ' Hmore Hrest').
        -- destruct IH as (j & Hin & Hlen). exists j.
           split; [apply elem_of_cons; now right | exact Hlen].
      * intros [= <- <-]. exists []. apply signedMore_refl.
    + intros [= <- <-]. exists i. split; [apply list_elem_of_here|].
      now apply lookup_ge_None.
Qed.

Lemma signSiafundInputs_outcome cf indices (σ σ' : world) r :
  signSiafundInputs cf indices σ = (r, σ') ->
  match r with
  | ok _ =>
      signedMore cf
        (omap (fun i => sfi_ParentID <$> SiafundInputs (transaction (tb σ)) !! i) indices)
        σ σ'
  | err _ => exists ids, signedMore cf ids σ σ'
  | panic =>
      exists i, i ∈ indices /\ (length (SiafundInputs (transaction (tb σ))) <= i)%nat
  end.
Proof.
  revert σ. induction indices as [|i rest IH]; intros σ.
  - simpl. intros [= <- <-]. apply signedMore_refl.
  - cbn [signSiafundInputs]. rewrite run_get. cbv beta.
    destruct (SiafundInputs (transaction (tb σ)) !! i) as [input|] eqn:Hinput.
    + rewrite run_bind.
      destruct (signInput_run cf (sfi_ParentID input) (sfi_UnlockConditions input) σ)
        as [(σ1 & -> & Hmore & _)| ->].
      * intros Hrest. specialize (IH σ1 Hrest).
        pose proof Hmore as (_ & _ & _ & Hu & _).
        apply unsigned_inputs in Hu as [_ Hu]. rewrite Hu in IH.
        destruct r as [[]| |].
        -- cbn [omap list_omap]. rewrite Hinput. simpl.
           apply (signedMore_trans cf [sfi_ParentID input] _ σ σ1 σ' Hmore IH).
        -- destruct IH as (ids & Hrest'). exists (sfi_ParentID input :: ids).
           exact (signedMore_trans cf [sfi_ParentID input] ids σ σ1 σ' Hmore Hrest').
        -- destruct IH as (j & Hin & Hlen). exists j.
           split; [apply elem_of_cons; now right | exact Hlen].
      * intros [= <- <-]. exists []. apply signedMore_refl.
    + intros [= <- <-]. exists i. split; [apply list_elem_of_here|].
      now apply lookup_ge_None.
Qed.

(** The builder after a successful [Sign]. *)
Lemma Sign_built (wholeTransaction : bool) (σ σ' : world)
    (txns : list Transaction) :
  Sign wholeTransaction σ = (ok txns, σ') ->
  signedMore (coveredFieldsOf wholeTransaction (transaction (tb σ))) (fundedIDs (tb σ)) σ σ'
  /\ txns = parents (tb σ) ++ [transaction (tb σ')].
Proof.
  unfold Sign. rewrite run_get. cbv beta.
  destruct (signed (tb σ)) eqn:Hunsigned; [discriminate|].
  cbv zeta. rewrite run_bind.
  destruct (signSiacoinInputs _ (siacoinInputs (tb σ)) σ) as [[[]| |] σ1] eqn:Hcoins;
    try discriminate.
  rewrite run_bind.
  destruct (signSiafundInputs _ (siafundInputs (tb σ)) σ1) as [[[]| |] σ2] eqn:Hfunds;
    try discriminate.
  rewrite run_get. intros [= <- <-].
  apply signSiacoinInputs_outcome in Hcoins. apply signSiafundInputs_outcome in Hfunds.
  pose proof Hcoins as (_ & _ & _ & Hu & _ & Hp & _).
  apply unsigned_inputs in Hu as [_ Hu]. rewrite Hu in Hfunds.
  split; [exact (signedMore_trans _ _ _ σ σ1 σ2 Hcoins Hfunds)|].
  destruct Hfunds as (_ & _ & _ & _ & _ & Hp2 & _). now rewrite Hp2, Hp.
Qed.

(** X20.  What [Sign] signs.  A successful [Sign] appends signatures to
    the transaction and changes nothing else of it.  Each new signature is
    for an input that the builder added itself with a Fund call, and all of
    them carry the covered fields computed from the transaction as it was
    when [Sign] was called, so that they cover the signatures that were
    there before and none of the new ones.  The positions of the new
    signatures are recorded, the parents and the wallet are untouched, and
    the set returned is the parents followed by the signed transaction. *)
Theorem Sign_signs_funded_inputs (wholeTransaction : bool) (σ σ' : world)
    (txns : list Transaction) :
  Sign wholeTransaction σ = (ok txns, σ') ->
  signedMore (coveredFieldsOf wholeTransaction (transaction (tb σ))) (fundedIDs (tb σ)) σ σ'
  /\ txns = parents (tb σ) ++ [transaction (tb σ')].
Proof. exact (Sign_built wholeTransaction σ σ' txns). Qed.

(** When every index that the builder keeps of an added input is an index
    of the transaction, [Sign] returns a transaction set or an error. *)
Lemma Sign_in_range (wholeTransaction : bool) (σ : world) :
  wellIndexed (tb σ) ->
  (exists txns σ', Sign wholeTransaction σ = (ok txns, σ'))
  \/ (exists e σ', Sign wholeTransaction σ = (err e, σ')).
Proof.
  intros [Hcoins Hfunds]. unfold Sign. rewrite run_get. cbv beta.
  destruct (signed (tb σ)) eqn:Hunsigned; [right; eexists _, _; reflexivity|].
  cbv zeta. rewrite run_bind.
  destruct (signSiacoinInputs _ (siacoinInputs (tb σ)) σ) as [[[]| |] σ1] eqn:Hrun1.
  - rewrite run_bind. apply signSiacoinInputs_outcome in Hrun1.
    destruct Hrun1 as (_ & _ & _ & Hu & _).
    apply unsigned_inputs in Hu as [_ Hu].
    destruct (signSiafundInputs _ (siafundInputs (tb σ)) σ1) as [[[]| |] σ2] eqn:Hrun2.
    + left. rewrite run_get. eexists _, _. reflexivity.
    + right. eexists _, _. reflexivity.
    + exfalso. apply signSiafundInputs_outcome in Hrun2 as (i & Hin & Hlen).
      rewrite Hu in Hlen.
      pose proof (proj1 (list.Forall_forall _ _) Hfunds i Hin) as Hlt. cbv beta in Hlt. lia.
  - right. eexists _, _. reflexivity.
  - exfalso. apply signSiacoinInputs_outcome in Hrun1 as (i & Hin & Hlen).
    pose proof (proj1 (list.Forall_forall _ _) Hcoins i Hin) as Hlt. cbv beta in Hlt. lia.
Qed.

End SignedInputs.

(** *** The indices that the builder keeps *)

Section Indices.
Context `{Primitives}.

Lemma keeps_bind P {A B} (m : M A) (k : A -> M B) :
  keeps P m -> (forall a, keeps P (k a)) -> keeps P (m ≫= k).
Proof.
  intros Hm Hk σ HP. rewrite run_bind. specialize (Hm σ HP).
  destruct (m σ) as [[a|e|] σ1]; simpl in *; [now apply Hk | exact Hm | exact Hm].
Qed.

Lemma keeps_get_bind P {B} (k : world -> M B) :
  (forall σ0, P (tb σ0) -> keeps P (k σ0)) -> keeps P (get ≫= k).
Proof. intros Hk σ HP. rewrite run_get. now apply Hk. Qed.

Lemma keeps_mret P {A} (a : A) : keeps P (mret a : M A).
Proof. intros σ HP. exact HP. Qed.

Lemma keeps_lift P {A} (r : outcome error A) : keeps P (lift r).
Proof. intros σ HP. exact HP. Qed.

Lemma keeps_call P {A} (r : outcome N A) : keeps P (call r).
Proof. intros σ HP. unfold call. now destruct r. Qed.

Lemma keeps_modifyWallet P f : keeps P (modifyWallet f).
Proof. intros σ HP. exact HP. Qed.

Lemma keeps_modifyBuilder (P : transactionBuilder -> Prop) f :
  (forall b, P b -> P (f b)) -> keeps P (modifyBuilder f).
Proof. intros Hf σ HP. simpl. now apply Hf. Qed.

Lemma keeps_nextPrimarySeedAddress P : keeps P nextPrimarySeedAddress.
Proof.
  intros σ HP. unfold nextPrimarySeedAddress. now destruct (generateKey _).
Qed.

Lemma keeps_markSpent P ids h : keeps P (markSpent ids h).
Proof.
  induction ids as [|id rest IH]; [apply keeps_mret|].
  apply keeps_bind; [apply keeps_modifyWallet | intros _; exact IH].
Qed.

Lemma keeps_checkFunds P {T} (sel : selection T) amount : keeps P (checkFunds sel amount).
Proof. unfold checkFunds. repeat case_decide; first [apply keeps_lift | apply keeps_mret]. Qed.

Lemma wellIndexed_longer (b b' : transactionBuilder) :
  siacoinInputs b' = siacoinInputs b -> siafundInputs b' = siafundInputs b ->
  (length (SiacoinInputs (transaction b)) <= length (SiacoinInputs (transaction b')))%nat ->
  (length (SiafundInputs (transaction b)) <= length (SiafundInputs (transaction b')))%nat ->
  wellIndexed b -> wellIndexed b'.
Proof.
  intros Hc Hf Hlc Hlf [Hwc Hwf]. unfold wellIndexed. rewrite Hc, Hf. split.
  - eapply Forall_impl; [exact Hwc|]. intros i Hi. simpl in *. lia.
  - eapply Forall_impl; [exact Hwf|]. intros i Hi. simpl in *. lia.
Qed.

Lemma wellIndexed_addInputToBuilder (b : transactionBuilder) (sci : SiacoinInput) :
  wellIndexed b -> wellIndexed (addInputToBuilder b sci).
Proof.
  intros [Hwc Hwf]. unfold wellIndexed, addInputToBuilder. simpl. split; [|exact Hwf].
  rewrite length_app. simpl. apply Forall_app. split.
  - eapply Forall_impl; [exact Hwc|]. intros i Hi. simpl in *. lia.
  - constructor; [lia | constructor].
Qed.

Lemma wellIndexed_fold (inputs : list SiacoinInput) (b : transactionBuilder) :
  wellIndexed b -> wellIndexed (fold_left addInputToBuilder inputs b).
Proof.
  revert b. induction inputs as [|sci rest IH]; intros b Hb; [exact Hb|].
  simpl. apply IH. now apply wellIndexed_addInputToBuilder.
Qed.

(** [FundSiacoinsForOutputs] keeps what appending a fee, an input or
    outputs keeps. *)
Lemma keeps_FundSiacoinsForOutputs_when (P : transactionBuilder -> Prop) outputs fee :
  (forall b, P b -> P (withMinerFee fee b)) ->
  (forall b sci, P b -> P (addInputToBuilder b sci)) ->
  (forall b outs, P b -> P (setTransaction b (setSiacoinOutputs (transaction b) outs))) ->
  keeps P (FundSiacoinsForOutputs outputs fee).
Proof.
  intros Hfee Hin Hout. unfold FundSiacoinsForOutputs.
  apply keeps_get_bind. intros σ0 _.
  apply keeps_bind; [apply keeps_call|]. intros dust.
  apply keeps_bind; [apply keeps_call|]. intros h. cbv zeta.
  apply keeps_bind; [apply keeps_modifyBuilder, Hfee|].
  intros _. apply keeps_bind; [apply keeps_call|]. intros so.
  apply keeps_get_bind. intros σ1 Hσ1. cbv zeta.
  apply keeps_bind.
  { apply keeps_modifyBuilder. intros b _.
    destruct (selectOutputs_scan addInputToBuilder (wallet σ1) h dust
                (calculateAmountFromOutputs outputs fee) so (startSelection (tb σ1)))
      as (n & [_ _ _ Ht] & _).
    rewrite Ht. simpl.
    generalize (inputFor (wallet σ1) <$> filter (usable (wallet σ1) h dust) (take n so)).
    intros inputs. revert Hσ1. generalize (tb σ1).
    induction inputs as [|sci rest IH]; intros b0 Hb0; [exact Hb0|].
    simpl. apply IH. now apply Hin. }
  intros _. apply keeps_bind; [apply keeps_checkFunds|]. intros _.
  unfold placeOutputs.
  apply keeps_bind; [apply keeps_modifyBuilder; intros b; apply Hout|].
  intros _. apply keeps_bind; [|intros _; apply keeps_markSpent].
  case_decide; [|apply keeps_mret].
  apply keeps_bind; [apply keeps_nextPrimarySeedAddress|]. intros uc. cbv zeta.
  apply keeps_modifyBuilder. intros b. apply Hout.
Qed.

Lemma keeps_FundSiacoinsForOutputs outputs fee :
  keeps wellIndexed (FundSiacoinsForOutputs outputs fee).
Proof.
  apply keeps_FundSiacoinsForOutputs_when.
  - intros b. unfold withMinerFee. case_decide; [|auto].
    apply wellIndexed_longer; reflexivity.
  - intros b sci. apply wellIndexed_addInputToBuilder.
  - intros b outs. apply wellIndexed_longer; reflexivity.
Qed.

Lemma keeps_addParent amount sel h : keeps wellIndexed (addParent amount sel h).
Proof.
  unfold addParent.
  apply keeps_bind; [apply keeps_nextPrimarySeedAddress|]. intros parentUC. cbv zeta.
  apply keeps_bind.
  { case_decide; [|apply keeps_mret].
    apply keeps_bind; [apply keeps_nextPrimarySeedAddress|]. intros uc. apply keeps_mret. }
  intros parent0. apply keeps_get_bind. intros σ1 _. cbv zeta.
  apply keeps_bind; [apply keeps_modifyWallet|]. intros _.
  apply keeps_bind; [|intros _; apply keeps_markSpent].
  apply keeps_modifyBuilder. intros b Hb.
  apply wellIndexed_addInputToBuilder. revert Hb. apply wellIndexed_longer; reflexivity.
Qed.

Lemma keeps_FundSiacoins amount : keeps wellIndexed (FundSiacoins amount).
Proof.
  unfold FundSiacoins.
  apply keeps_get_bind. intros σ0 _.
  apply keeps_bind; [apply keeps_call|]. intros dust.
  apply keeps_bind; [apply keeps_call|]. intros h.
  apply keeps_bind; [apply keeps_call|]. intros confirmed. cbv zeta.
  apply keeps_bind; [apply keeps_checkFunds|]. intros _. apply keeps_addParent.
Qed.

Lemma keeps_selectSiafunds h amount bucket sel :
  keeps wellIndexed (selectSiafunds h amount bucket sel).
Proof.
  revert sel. induction bucket as [|[idBytes sfoBytes] rest IH]; intros sel;
    [apply keeps_mret|].
  cbn [selectSiafunds].
  apply keeps_bind; [apply keeps_call|]. intros sfoid.
  apply keeps_bind; [apply keeps_call|]. intros sfo.
  apply keeps_get_bind. intros σ _. cbv zeta.
  repeat case_decide; try apply IH;
    (apply keeps_bind; [apply keeps_nextPrimarySeedAddress|]; intros uc;
     case_decide; [apply keeps_mret | apply IH]).
Qed.

Lemma keeps_addSiafundParent amount sel h :
  keeps wellIndexed (addSiafundParent amount sel h).
Proof.
  unfold addSiafundParent.
  apply keeps_bind; [apply keeps_nextPrimarySeedAddress|]. intros parentUC. cbv zeta.
  apply keeps_bind.
  { case_decide; [|apply keeps_mret].
    apply keeps_bind; [apply keeps_nextPrimarySeedAddress|]. intros uc. apply keeps_mret. }
  intros parent0. apply keeps_get_bind. intros σ1 _. cbv zeta.
  apply keeps_bind; [apply keeps_nextPrimarySeedAddress|]. intros claimUC.
  apply keeps_bind; [|intros _; apply keeps_markSpent].
  apply keeps_modifyBuilder. intros b [Hwc Hwf]. unfold wellIndexed. simpl.
  split; [exact Hwc|]. rewrite length_app. simpl. apply Forall_app. split.
  - eapply Forall_impl; [exact Hwf|]. intros i Hi. simpl in *. lia.
  - constructor; [lia | constructor].
Qed.

Lemma keeps_FundSiafunds amount : keeps wellIndexed (FundSiafunds amount).
Proof.
  unfold FundSiafunds.
  apply keeps_get_bind. intros σ0 _.
  apply keeps_bind; [apply keeps_call|]. intros h.
  apply keeps_bind; [apply keeps_selectSiafunds|]. intros sel.
  apply keeps_bind; [apply keeps_checkFunds|]. intros _. apply keeps_addSiafundParent.
Qed.

Lemma keeps_appending (f : Transaction -> Transaction) (index : Transaction -> Z) :
  (forall t, (length (SiacoinInputs t) <= length (SiacoinInputs (f t)))%nat
             /\ (length (SiafundInputs t) <= length (SiafundInputs (f t)))%nat) ->
  keeps wellIndexed (appending f index ;; mret tt).
Proof.
  intros Hf. apply keeps_bind; [|intros _; apply keeps_mret].
  unfold appending. apply keeps_bind; [|intros _; apply keeps_get_bind; intros σ _;
                                        apply keeps_mret].
  apply keeps_modifyBuilder. intros b. apply wellIndexed_longer; try reflexivity;
    simpl; apply Hf.
Qed.

Lemma keeps_runCall (c : builderCall) : keeps wellIndexed (runCall c).
Proof.
  destruct c; cbn [runCall].
  - apply keeps_FundSiacoins.
  - apply keeps_FundSiacoinsForOutputs.
  - apply keeps_FundSiafunds.
  - apply keeps_modifyBuilder. intros b. apply wellIndexed_longer; reflexivity.
  - apply keeps_appending. intros t. simpl. lia.
  - apply keeps_appending. intros t. simpl. rewrite length_app. lia.
  - apply keeps_appending. intros t. simpl. lia.
  - apply keeps_appending. intros t. simpl. lia.
  - apply keeps_appending. intros t. simpl. lia.
  - apply keeps_appending. intros t. simpl. lia.
  - apply keeps_appending. intros t. simpl. rewrite length_app. lia.
  - apply keeps_appending. intros t. simpl. lia.
  - apply keeps_appending. intros t. simpl. lia.
  - apply keeps_appending. intros t. simpl. lia.
Qed.

(** X21.  The builder never loses track of its inputs.  Take a builder
    as [registerTransaction] makes it and call the Fund and Add methods on
    it, any of them, any number of times and whatever each call returns,
    errors included.  Then every index that the builder keeps of an input
    it added is an index of the transaction, and a [Sign] that follows
    returns a transaction set or an error: it does not panic on an index
    out of range. *)
Theorem builder_calls_keep_indices (t : Transaction) (ps : list Transaction) (w : Wallet)
    (cs : list builderCall) (wholeTransaction : bool) :
  let σ := runCalls cs {| tb := registerTransaction t ps; wallet := w |} in
  wellIndexed (tb σ)
  /\ ((exists txns σ', Sign wholeTransaction σ = (ok txns, σ'))
      \/ (exists e σ', Sign wholeTransaction σ = (err e, σ'))).
Proof.
  cbv zeta.
  assert (forall σ, wellIndexed (tb σ) -> wellIndexed (tb (runCalls cs σ))) as Hkeeps.
  { induction cs as [|c cs IH]; intros σ Hσ; [exact Hσ|].
    unfold runCalls. simpl. apply IH. now apply keeps_runCall. }
  assert (wellIndexed (tb (runCalls cs {| tb := registerTransaction t ps; wallet := w |})))
    as Hwell.
  { apply Hkeeps. split; constructor. }
  split; [exact Hwell|]. now apply Sign_in_range.
Qed.

End Indices.

(** *** [signTransaction] and the method [SignTransaction] *)

Section Signatures.
Context `{Primitives}.

Lemma sameStubs_refl (t : Transaction) : sameStubs t t.
Proof. split; reflexivity. Qed.

Lemma sameStubs_trans (t1 t2 t3 : Transaction) :
  sameStubs t2 t1 -> sameStubs t3 t2 -> sameStubs t3 t1.
Proof. intros [Hu1 Hs1] [Hu2 Hs2]. split; congruence. Qed.

Lemma sameStubs_sym (t t' : Transaction) : sameStubs t' t -> sameStubs t t'.
Proof. intros [Hu Hs]. split; congruence. Qed.

(** The first signature of a parent ID is found at the same index, and
    names the same public key, in two lists with the same stubs. *)
Lemma list_find_stubs (id : Hash) (l l' : list TransactionSignature) :
  stub <$> l' = stub <$> l ->
  match list_find (fun sig => sig_ParentID sig = id) l with
  | Some (i, sig) =>
      exists sig', list_find (fun sig => sig_ParentID sig = id) l' = Some (i, sig')
                   /\ PublicKeyIndex sig' = PublicKeyIndex sig
  | None => list_find (fun sig => sig_ParentID sig = id) l' = None
  end.
Proof.
  revert l'. induction l as [|s l IH]; intros [|s' l'] Hst; try discriminate Hst.
  - reflexivity.
  - rewrite !fmap_cons in Hst. injection Hst as Hp Hk _ Hl.
    specialize (IH l' Hl). cbn [list_find]. rewrite Hp.
    destruct (decide (sig_ParentID s = id)) as [Hid|Hid].
    + exists s'. split; [reflexivity | exact Hk].
    + destruct (list_find (fun sig => sig_ParentID sig = id) l) as [[i sig]|].
      * destruct IH as (sig' & -> & Hk'). exists sig'. split; [reflexivity | exact Hk'].
      * now rewrite IH.
Qed.

Lemma findUnlockConditions_stubs (t t' : Transaction) (id : Hash) :
  sameStubs t' t -> findUnlockConditions t' id = findUnlockConditions t id.
Proof.
  intros [Hu _]. apply unsigned_inputs in Hu as [Hc Hf].
  unfold findUnlockConditions. now rewrite Hc, Hf.
Qed.

Lemma signable_stubs (keys : gmap N spendableKey) (t t' : Transaction) (id : Hash) :
  sameStubs t' t -> signable keys t id -> signable keys t' id.
Proof.
  intros Hsame (i & sig & uc & sk & Hfind & Huc & Hkey).
  pose proof (list_find_stubs id _ _ (eq_sym (proj2 Hsame))) as Hstub. rewrite Hfind in Hstub.
  cbv beta iota in Hstub. destruct Hstub as (sig' & Hfind' & Hk).
  unfold signable. exists i, sig', uc, sk. split; [exact Hfind'|]. split.
  - now rewrite (findUnlockConditions_stubs t t' id Hsame).
  - now rewrite Hk.
Qed.

Lemma signFailure_stubs (keys : gmap N spendableKey) (t t' : Transaction) (id : Hash) :
  sameStubs t' t -> signFailure keys t' id = signFailure keys t id.
Proof.
  intros Hsame. unfold signFailure.
  pose proof (list_find_stubs id _ _ (eq_sym (proj2 Hsame))) as Hstub.
  rewrite (findUnlockConditions_stubs t t' id Hsame).
  destruct (list_find _ (TransactionSignatures t)) as [[i sig]|].
  - destruct Hstub as (sig' & -> & _). reflexivity.
  - now rewrite Hstub.
Qed.

Lemma firstStubs_stubs (t t' : Transaction) (ids : list Hash) :
  sameStubs t' t -> firstStubs t' ids = firstStubs t ids.
Proof.
  intros Hsame. unfold firstStubs. induction ids as [|id ids IH]; [reflexivity|].
  cbn [omap list_omap]. rewrite <- IH.
  pose proof (list_find_stubs id _ _ (eq_sym (proj2 Hsame))) as Hstub.
  destruct (list_find _ (TransactionSignatures t)) as [[i sig]|].
  - destruct Hstub as (sig' & -> & _). reflexivity.
  - now rewrite Hstub.
Qed.

(** One turn of the loop that succeeds has written the bytes of one
    signature, the first of the parent ID. *)
Lemma signOne_ok (keys : gmap N spendableKey) (txn txn1 : Transaction) (id : Hash) :
  signOne keys txn id = ok txn1 ->
  signable keys txn id
  /\ sameStubs txn1 txn
  /\ exists i sig bytes,
       list_find (fun sig => sig_ParentID sig = id) (TransactionSignatures txn) = Some (i, sig)
       /\ TransactionSignatures txn1
          = <[i := setSignature sig bytes]> (TransactionSignatures txn).
Proof.
  unfold signOne.
  destruct (list_find _ (TransactionSignatures txn)) as [[i sig]|] eqn:Hfind; [|discriminate].
  destruct (findUnlockConditions txn id) as [uc|] eqn:Huc; [|discriminate].
  destruct (findSigningKey keys uc (PublicKeyIndex sig)) as [sk|] eqn:Hkey; [|discriminate].
  cbv zeta. intros [= <-]. split; [unfold signable; now exists i, sig, uc, sk|]. split.
  - apply sameStubs_sym. split; [reflexivity|]. simpl. rewrite list_fmap_insert.
    apply list_insert_id. rewrite list_lookup_fmap.
    apply list_find_Some in Hfind as (Hlook & _). now rewrite Hlook.
  - now exists i, sig, (SignHash (SigHash txn i) sk).
Qed.

Lemma signOne_signable (keys : gmap N spendableKey) (txn : Transaction) (id : Hash) :
  signable keys txn id -> exists txn1, signOne keys txn id = ok txn1.
Proof.
  intros (i & sig & uc & sk & Hfind & Huc & Hkey). unfold signOne.
  rewrite Hfind, Huc, Hkey. eexists. reflexivity.
Qed.

Lemma signOne_failure (keys : gmap N spendableKey) (txn : Transaction) (id : Hash) :
  ~ signable keys txn id -> signOne keys txn id = err (signFailure keys txn id).
Proof.
  intros Hnot. unfold signOne, signFailure.
  destruct (list_find _ (TransactionSignatures txn)) as [[i sig]|] eqn:Hfind; [|reflexivity].
  destruct (findUnlockConditions txn id) as [uc|] eqn:Huc; [|reflexivity].
  destruct (findSigningKey keys uc (PublicKeyIndex sig)) as [sk|] eqn:Hkey; [|reflexivity].
  exfalso. apply Hnot. unfold signable. now exists i, sig, uc, sk.
Qed.

Lemma signTransaction_sameStubs (keys : gmap N spendableKey) (toSign : list Hash)
    (txn : Transaction) :
  sameStubs (signTransaction txn keys toSign).2 txn.
Proof.
  revert txn. induction toSign as [|id rest IH]; intros txn; [apply sameStubs_refl|].
  cbn [signTransaction].
  destruct (signOne keys txn id) as [txn1| |] eqn:Hone; try apply sameStubs_refl.
  apply signOne_ok in Hone as (_ & Hsame & _).
  exact (sameStubs_trans _ _ _ Hsame (IH txn1)).
Qed.

Lemma signTransaction_all (keys : gmap N spendableKey) (toSign : list Hash)
    (txn : Transaction) :
  Forall (signable keys txn) toSign -> (signTransaction txn keys toSign).1 = ok tt.
Proof.
  revert txn. induction toSign as [|id rest IH]; intros txn Hall; [reflexivity|].
  apply Forall_cons in Hall as [Hid Hrest]. cbn [signTransaction].
  destruct (signOne_signable keys txn id Hid) as (txn1 & Hone). rewrite Hone.
  apply IH. apply signOne_ok in Hone as (_ & Hsame & _).
  eapply Forall_impl; [exact Hrest|]. intros id'. now apply signable_stubs.
Qed.

Lemma signTransaction_ok (keys : gmap N spendableKey) (toSign : list Hash)
    (txn : Transaction) :
  (signTransaction txn keys toSign).1 = ok tt -> Forall (signable keys txn) toSign.
Proof.
  revert txn. induction toSign as [|id rest IH]; intros txn Hok; [constructor|].
  cbn [signTransaction] in Hok.
  destruct (signOne keys txn id) as [txn1| |] eqn:Hone; try discriminate Hok.
  apply signOne_ok in Hone as (Hid & Hsame & _). constructor; [exact Hid|].
  eapply Forall_impl; [exact (IH txn1 Hok)|]. intros id'.
  apply signable_stubs, sameStubs_sym, Hsame.
Qed.

Lemma signTransaction_first_failure (keys : gmap N spendableKey) (ids : list Hash)
    (id : Hash) (rest : list Hash) (txn : Transaction) :
  Forall (signable keys txn) ids -> ~ signable keys txn id ->
  signTransaction txn keys (ids ++ id :: rest)
  = (err (signFailure keys txn id), (signTransaction txn keys ids).2).
Proof.
  revert txn. induction ids as [|id0 ids IH]; intros txn Hall Hnot.
  - cbn [app signTransaction]. now rewrite (signOne_failure keys txn id Hnot).
  - apply Forall_cons in Hall as [Hid0 Hall].
    change ((id0 :: ids) ++ id :: rest) with (id0 :: (ids ++ id :: rest)).
    cbn [signTransaction].
    destruct (signOne_signable keys txn id0 Hid0) as (txn1 & Hone). rewrite Hone.
    apply signOne_ok in Hone as (_ & Hsame & _).
    rewrite IH.
    + now rewrite (signFailure_stubs keys txn txn1 id Hsame).
    + eapply Forall_impl; [exact Hall|]. intros id'. now apply signable_stubs.
    + intros Hs. apply Hnot. revert Hs. apply signable_stubs, sameStubs_sym, Hsame.
Qed.

(** X22.  When [signTransaction] succeeds and how it fails.  It returns no
    error exactly when every listed ID can be signed for: the transaction
    has a signature of that parent ID and an input of that ID, and the keys
    hold the secret key of the public key that the first such signature
    names.  Otherwise it returns the error of the first listed ID that
    cannot be signed for, and the signatures written for the IDs before it
    stay in the caller's transaction. *)
Theorem signTransaction_outcome (txn : Transaction) (keys : gmap N spendableKey)
    (toSign : list Hash) :
  ((signTransaction txn keys toSign).1 = ok tt <-> Forall (signable keys txn) toSign)
  /\ (forall ids id rest,
        toSign = ids ++ id :: rest ->
        Forall (signable keys txn) ids -> ~ signable keys txn id ->
        signTransaction txn keys toSign
        = (err (signFailure keys txn id), (signTransaction txn keys ids).2)).
Proof.
  split; [split; [apply signTransaction_ok | apply signTransaction_all]|].
  intros ids id rest -> Hall Hnot. now apply signTransaction_first_failure.
Qed.

(** X23.  What [signTransaction] writes.  Whether it succeeds or fails,
    it changes nothing of the transaction but bytes of signatures, and only
    of the first signature of each listed parent ID: every other signature,
    a second signature of a listed parent ID included, is as it was. *)
Theorem signTransaction_writes_first_stubs (txn : Transaction) (keys : gmap N spendableKey)
    (toSign : list Hash) :
  sameStubs (signTransaction txn keys toSign).2 txn
  /\ forall i, i ∉ firstStubs txn toSign ->
       TransactionSignatures (signTransaction txn keys toSign).2 !! i
       = TransactionSignatures txn !! i.
Proof.
  split; [apply signTransaction_sameStubs|].
  revert txn. induction toSign as [|id rest IH]; intros txn i Hi; [reflexivity|].
  cbn [signTransaction].
  destruct (signOne keys txn id) as [txn1| |] eqn:Hone; try reflexivity.
  apply signOne_ok in Hone as (_ & Hsame & j & sig & bytes & Hfind & Hsigs).
  unfold firstStubs in Hi. cbn [omap list_omap] in Hi. rewrite Hfind in Hi. simpl in Hi.
  apply not_elem_of_cons in Hi as [Hij Hi].
  rewrite IH.
  - rewrite Hsigs. now apply list_lookup_insert_ne.
  - now rewrite (firstStubs_stubs txn txn1 rest Hsame).
Qed.

Lemma owned_found (w : Wallet) (txn : Transaction) (id : Hash) :
  id ∈ ownedInputs w txn -> is_Some (findUnlockConditions txn id).
Proof.
  intros Hin. unfold findUnlockConditions.
  destruct (list_find (fun sci => sci_ParentID sci = id) (SiacoinInputs txn))
    as [[i sci]|] eqn:Hcoin; [eauto|].
  destruct (list_find (fun sfi => sfi_ParentID sfi = id) (SiafundInputs txn))
    as [[i sfi]|] eqn:Hfund; [eauto|].
  exfalso. apply elem_of_app in Hin as [Hin|Hin];
    apply list_elem_of_fmap in Hin as (x & -> & Hx); apply list_elem_of_filter in Hx as [_ Hx].
  - apply list_find_None in Hcoin. rewrite Forall_forall in Hcoin. now apply (Hcoin x).
  - apply list_find_None in Hfund. rewrite Forall_forall in Hfund. now apply (Hfund x).
Qed.

Lemma signTransaction_found (keys : gmap N spendableKey) (toSign : list Hash)
    (txn : Transaction) :
  Forall (fun id => is_Some (findUnlockConditions txn id)) toSign ->
  (signTransaction txn keys toSign).1 = ok tt
  \/ (signTransaction txn keys toSign).1 = err errSignatureNotPresent
  \/ exists id, id ∈ toSign /\ (signTransaction txn keys toSign).1 = err (errNoSigningKey id).
Proof.
  revert txn. induction toSign as [|id rest IH]; intros txn Hall; [now left|].
  apply Forall_cons in Hall as [[uc Hid] Hrest]. cbn [signTransaction].
  destruct (signOne keys txn id) as [txn1| |] eqn:Hone.
  - apply signOne_ok in Hone as (_ & Hsame & _).
    destruct (IH txn1) as [Hok|[Hmissing|(id' & Hin & Hkey)]].
    + eapply Forall_impl; [exact Hrest|]. intros id' Hfound. cbv beta in *.
      now rewrite (findUnlockConditions_stubs txn txn1 id' Hsame).
    + now left.
    + right. now left.
    + right. right. exists id'. split; [apply elem_of_cons; now right | exact Hkey].
  - unfold signOne in Hone. rewrite Hid in Hone.
    destruct (list_find _ (TransactionSignatures txn)) as [[i sig]|].
    + destruct (findSigningKey keys uc (PublicKeyIndex sig)); [discriminate|].
      injection Hone as <-. right. right. exists id. split; [apply list_elem_of_here|].
      reflexivity.
    + injection Hone as <-. right. now left.
  - unfold signOne in Hone. rewrite Hid in Hone.
    destruct (list_find _ (TransactionSignatures txn)) as [[i sig]|]; [|discriminate].
    destruct (findSigningKey keys uc (PublicKeyIndex sig)); discriminate.
Qed.

(** X24.  The method [SignTransaction].  On a locked wallet it returns
    [ErrLockedWallet] and leaves the transaction as it is.  On an unlocked
    wallet without a list of IDs it signs for the inputs whose address the
    wallet holds, and this fails as soon as one of them has no signature
    in the transaction, or a signature that names a public key whose secret
    key the wallet does not hold; it never fails for an ID that is not in
    the transaction. *)
Theorem SignTransaction_signs_owned (w : Wallet) (txn : Transaction) (toSign : list Hash) :
  SignTransaction false w txn toSign = (err ErrLockedWallet, txn)
  /\ SignTransaction true w txn [] = signTransaction txn (keys w) (ownedInputs w txn)
  /\ ((SignTransaction true w txn []).1 = ok tt
      \/ (SignTransaction true w txn []).1 = err errSignatureNotPresent
      \/ exists id, id ∈ ownedInputs w txn
                    /\ (SignTransaction true w txn []).1 = err (errNoSigningKey id)).
Proof.
  split; [reflexivity|]. split; [reflexivity|].
  change (SignTransaction true w txn []) with
    (signTransaction txn (keys w) (ownedInputs w txn)).
  apply signTransaction_found. apply Forall_forall. intros id. apply owned_found.
Qed.

End Signatures.

(** *** [UnconfirmedParents] *)

Section Parents.
Context `{Primitives} `{Services}.

Ltac same_set :=
  apply set_eq; intros ?; rewrite ?elem_of_union, ?elem_of_singleton;
  intuition (subst; auto).

Lemma firstOfID_app (added : gset N) (l1 l2 : list Transaction) :
  firstOfID added (l1 ++ l2)
  = firstOfID added l1 ++ firstOfID (added ∪ list_to_set (TransactionID <$> l1)) l2.
Proof.
  revert added. induction l1 as [|txn l1 IH]; intros added.
  - simpl. now rewrite (right_id_L ∅ (∪)).
  - cbn [app firstOfID]. rewrite fmap_cons. cbn [list_to_set].
    destruct (decide (TransactionID txn ∈ added)) as [Hin|Hout].
    + rewrite IH. f_equal. f_equal. same_set.
    + rewrite IH. cbn [app]. f_equal. f_equal. f_equal. same_set.
Qed.

Lemma addTransactionSet_result (sci : SiacoinInput) (tSet : list Transaction)
    (acc : gset N * list Transaction) :
  addTransactionSet sci tSet acc
  = (acc.1 ∪ list_to_set (TransactionID <$> tSet), acc.2 ++ firstOfID acc.1 tSet).
Proof.
  revert acc. induction tSet as [|txn rest IH]; intros [added ps].
  - simpl. now rewrite (right_id_L ∅ (∪)), app_nil_r.
  - cbn [addTransactionSet firstOfID fst snd]. rewrite fmap_cons. cbn [list_to_set].
    destruct (decide (TransactionID txn ∈ added)) as [Hin|Hout].
    + rewrite IH. cbn [fst snd]. f_equal. same_set.
    + destruct (scanOutputs txn (sci_ParentID sci) (seq 0 (length (SiacoinOutputs txn)))).
      rewrite IH. cbn [fst snd]. rewrite <- app_assoc. f_equal. same_set.
Qed.

Lemma addSets_result (inputs : list SiacoinInput) (acc : gset N * list Transaction) :
  fold_left (fun acc sci => addTransactionSet sci (TransactionSet (sci_ParentID sci)) acc)
            inputs acc
  = (acc.1 ∪ list_to_set
               (TransactionID
                  <$> mjoin ((fun sci => TransactionSet (sci_ParentID sci)) <$> inputs)),
     acc.2 ++ firstOfID acc.1
                (mjoin ((fun sci => TransactionSet (sci_ParentID sci)) <$> inputs))).
Proof.
  revert acc. induction inputs as [|sci rest IH]; intros [added ps].
  - simpl. now rewrite (right_id_L ∅ (∪)), app_nil_r.
  - cbn [fold_left]. rewrite IH, addTransactionSet_result. cbn [fst snd].
    rewrite fmap_cons. cbn [mjoin list_join]. rewrite firstOfID_app, fmap_app, <- app_assoc.
    f_equal. rewrite list_to_set_app_L. same_set.
Qed.

Lemma addParents_result (ps : list Transaction) (acc : gset N * list Transaction) :
  fold_left (fun acc p => addParentSets p acc) ps acc
  = (acc.1 ∪ list_to_set
               (TransactionID
                  <$> mjoin ((fun sci => TransactionSet (sci_ParentID sci))
                               <$> mjoin (SiacoinInputs <$> ps))),
     acc.2 ++ firstOfID acc.1
                (mjoin ((fun sci => TransactionSet (sci_ParentID sci))
                          <$> mjoin (SiacoinInputs <$> ps)))).
Proof.
  revert acc. induction ps as [|p rest IH]; intros [added res].
  - simpl. now rewrite (right_id_L ∅ (∪)), app_nil_r.
  - cbn [fold_left]. rewrite IH. unfold addParentSets. rewrite addSets_result. cbn [fst snd].
    rewrite fmap_cons. cbn [mjoin list_join]. rewrite fmap_app, join_app.
    rewrite firstOfID_app, fmap_app, <- app_assoc.
    f_equal. rewrite list_to_set_app_L. same_set.
Qed.

Lemma firstOfID_fresh (added : gset N) (l : list Transaction) (txn : Transaction) :
  txn ∈ firstOfID added l -> txn ∈ l /\ TransactionID txn ∉ added.
Proof.
  revert added. induction l as [|x l IH]; intros added Hin; [now apply elem_of_nil in Hin|].
  cbn [firstOfID] in Hin. destruct (decide (TransactionID x ∈ added)) as [Hx|Hx].
  - apply IH in Hin as [Hl Hout]. split; [apply elem_of_cons; now right | exact Hout].
  - apply elem_of_cons in Hin as [->|Hin]; [split; [apply list_elem_of_here | exact Hx]|].
    apply IH in Hin as [Hl Hout]. split; [apply elem_of_cons; now right|].
    intros Hc. apply Hout, elem_of_union. now right.
Qed.

Lemma firstOfID_NoDup (added : gset N) (l : list Transaction) :
  NoDup (TransactionID <$> firstOfID added l).
Proof.
  revert added. induction l as [|x l IH]; intros added; [constructor|].
  cbn [firstOfID]. destruct (decide (TransactionID x ∈ added)) as [Hx|Hx]; [apply IH|].
  rewrite fmap_cons. constructor; [|apply IH].
  intros Hin. apply list_elem_of_fmap in Hin as (y & Hid & Hy).
  apply firstOfID_fresh in Hy as [_ Hout].
  apply Hout, elem_of_union. left. apply elem_of_singleton. congruence.
Qed.

Lemma firstOfID_covers (added : gset N) (l : list Transaction) (txn : Transaction) :
  txn ∈ l ->
  TransactionID txn ∈ added \/ TransactionID txn ∈ TransactionID <$> firstOfID added l.
Proof.
  revert added. induction l as [|x l IH]; intros added Hin; [now apply elem_of_nil in Hin|].
  cbn [firstOfID]. destruct (decide (TransactionID x ∈ added)) as [Hx|Hx].
  - apply elem_of_cons in Hin as [->|Hin]; [now left | now apply IH].
  - rewrite fmap_cons. apply elem_of_cons in Hin as [->|Hin].
    + right. apply list_elem_of_here.
    + destruct (IH ({[TransactionID x]} ∪ added) Hin) as [Hadded|Hfound].
      * apply elem_of_union in Hadded as [Hsame|Hadded]; [|now left].
        apply elem_of_singleton in Hsame. right. rewrite Hsame. apply list_elem_of_here.
      * right. apply elem_of_cons. now right.
Qed.

(** X25.  What [UnconfirmedParents] returns.  On a signed builder it fails
    with [errBuilderAlreadySigned].  Otherwise it returns, for the outputs
    that the siacoin inputs of the builder's parents spend, the
    transactions of their transaction sets in order, each ID once: the
    inner loop that looks for the spent output stops nothing, so the
    transactions after the one that holds the spent output are returned as
    well.  No ID is returned twice, every transaction of every set has its
    ID in the result, and the builder and the wallet are left as they
    are. *)
Theorem UnconfirmedParents_returns_sets (σ : world) :
  (signed (tb σ) = true -> UnconfirmedParents σ = (err errBuilderAlreadySigned, σ))
  /\ (signed (tb σ) = false ->
      exists ps,
        UnconfirmedParents σ = (ok ps, σ)
        /\ ps = firstOfID ∅ (parentSets (tb σ))
        /\ NoDup (TransactionID <$> ps)
        /\ (forall txn, txn ∈ ps -> txn ∈ parentSets (tb σ))
        /\ (forall txn, txn ∈ parentSets (tb σ) ->
              TransactionID txn ∈ TransactionID <$> ps)).
Proof.
  unfold UnconfirmedParents. rewrite run_get. cbv beta.
  split; intros Hsigned; rewrite Hsigned; [reflexivity|].
  eexists. split; [reflexivity|].
  rewrite addParents_result. cbn [fst snd app]. fold (parentSets (tb σ)).
  split; [reflexivity|]. split; [apply firstOfID_NoDup|]. split.
  - intros txn Hin. now apply firstOfID_fresh in Hin as [Hin _].
  - intros txn Hin. destruct (firstOfID_covers ∅ _ txn Hin) as [Hempty|Hfound];
      [now apply elem_of_empty in Hempty | exact Hfound].
Qed.

End Parents.

(** *** [NewTransaction] and inputs added by hand *)

Section Payments.
Context `{Primitives} `{Services}.

Lemma signedMore_frame cf ids (σ σ' : world) :
  signedMore cf ids σ σ' ->
  wallet σ' = wallet σ /\ spentByBuilder (tb σ') = spentByBuilder (tb σ).
Proof.
  intros (sigs & _ & _ & Hu & _ & Hp & _ & _ & _ & Hw). split; [exact Hw|].
  apply unsigned_inputs in Hu as [Hc _]. unfold spentByBuilder.
  rewrite !fmap_app, Hp. simpl. now rewrite Hc.
Qed.

Lemma Sign_err_frame whole (σ σ' : world) e :
  Sign whole σ = (err e, σ') ->
  wallet σ' = wallet σ /\ spentByBuilder (tb σ') = spentByBuilder (tb σ).
Proof.
  unfold Sign. rewrite run_get. cbv beta.
  destruct (signed (tb σ)); [now intros [= _ <-]|].
  cbv zeta. rewrite run_bind.
  destruct (signSiacoinInputs _ (siacoinInputs (tb σ)) σ) as [[[]| |] σ1] eqn:Hcoins;
    try discriminate.
  - apply signSiacoinInputs_outcome in Hcoins. apply signedMore_frame in Hcoins as [Hw1 Hs1].
    rewrite run_bind.
    destruct (signSiafundInputs _ (siafundInputs (tb σ)) σ1) as [[[]| |] σ2] eqn:Hfunds;
      try discriminate.
    intros [= _ <-]. apply signSiafundInputs_outcome in Hfunds as (ids & Hmore).
    apply signedMore_frame in Hmore as [Hw2 Hs2]. split; congruence.
  - intros [= _ <-]. apply signSiacoinInputs_outcome in Hcoins as (ids & Hmore).
    now apply signedMore_frame in Hmore.
Qed.

(** A [placeOutputs] that fails has marked nothing. *)
Lemma placeOutputs_err_marks outputs amount (sel : selection transactionBuilder) h
    (σ σ' : world) e :
  placeOutputs outputs amount sel h σ = (err e, σ') ->
  dbSpentOutputs (wallet σ') = dbSpentOutputs (wallet σ).
Proof.
  unfold placeOutputs. rewrite run_modifyBuilder. cbv beta. rewrite run_bind.
  destruct (decide (amount <> fund sel)) as [Hrefund|Hexact].
  - rewrite run_bind.
    match goal with |- context [nextPrimarySeedAddress ?s] => set (σ1 := s) end.
    destruct (nextPrimarySeedAddress σ1) as [[uc|code|] σ2] eqn:Hnext; try discriminate.
    + cbv zeta. cbn [modifyBuilder].
      match goal with |- markSpent _ _ ?s = _ -> _ => set (σ3 := s) end.
      destruct (markSpent_run (spentIDs sel) h σ3) as (spent' & Hrun & _).
      rewrite Hrun. discriminate.
    + intros [= _ <-]. unfold nextPrimarySeedAddress in Hnext.
      destruct (generateKey _); try discriminate Hnext. now injection Hnext as _ <-.
  - cbn [mret M_ret].
    match goal with |- markSpent _ _ ?s = _ -> _ => set (σ3 := s) end.
    destruct (markSpent_run (spentIDs sel) h σ3) as (spent' & Hrun & _).
    rewrite Hrun. discriminate.
Qed.

(** A [FundSiacoinsForOutputs] that fails has marked nothing. *)
Lemma FundSiacoinsForOutputs_err_marks outputs fee (σ σ' : world) e :
  FundSiacoinsForOutputs outputs fee σ = (err e, σ') ->
  dbSpentOutputs (wallet σ') = dbSpentOutputs (wallet σ).
Proof.
  intros Hrun. unfold FundSiacoinsForOutputs in Hrun.
  rewrite run_get in Hrun. cbv beta in Hrun.
  destruct (DustThreshold (wallet σ)) as [dust|code|] eqn:Hdust;
    [|now injection Hrun as _ <- | discriminate Hrun].
  rewrite (run_call_ok _ dust) in Hrun by reflexivity. cbv beta in Hrun.
  destruct (dbGetConsensusHeight (wallet σ)) as [h|code|] eqn:Hheight;
    [|now injection Hrun as _ <- | discriminate Hrun].
  rewrite (run_call_ok _ h) in Hrun by reflexivity. cbv beta zeta in Hrun.
  rewrite run_modifyBuilder in Hrun. cbv beta in Hrun.
  destruct (getSortedOutputs (wallet σ)) as [so|code|] eqn:Hso;
    [|now injection Hrun as _ <- | discriminate Hrun].
  rewrite (run_call_ok _ so) in Hrun by reflexivity. cbv beta in Hrun.
  rewrite run_get in Hrun. cbv beta zeta in Hrun.
  rewrite run_modifyBuilder in Hrun. cbv beta in Hrun.
  rewrite run_bind, checkFunds_run in Hrun.
  repeat case_decide; try (now injection Hrun as _ <-).
  now apply placeOutputs_err_marks in Hrun.
Qed.

(** X26.  A [NewTransaction] that fails holds nothing back.  When the
    call returns an error, every output that the wallet then has on record
    as spent was on record before the call, at the same height: the
    outputs that the call chose are released again by the deferred [Drop],
    whether the funding or the signing failed. *)
Theorem NewTransaction_releases_on_error (outputs : list SiacoinOutput) (fee : Currency)
    (w w' : Wallet) (e : error) :
  NewTransaction outputs fee w = (err e, w') ->
  forall id h, dbSpentOutputs w' !! id = Some h -> dbSpentOutputs w !! id = Some h.
Proof.
  unfold NewTransaction.
  destruct (StartTransaction w) as [b|code|]; [|now intros [= _ <-] | discriminate].
  destruct (FundSiacoinsForOutputs outputs fee {| tb := b; wallet := w |})
    as [[[]|e1|] σ1] eqn:Hfund; [| |discriminate].
  - destruct (Sign true σ1) as [[txns|e2|] σ2] eqn:Hsign;
      [destruct txns; discriminate| |discriminate].
    destruct (Drop_run σ2) as (σ3 & Hdrop & _ & Hgone & Hkept). rewrite Hdrop.
    cbn [snd]. intros [= _ <-] id h Hid.
    destruct (decide (id ∈ spentByBuilder (tb σ2))) as [Hin|Hout];
      [rewrite (Hgone id Hin) in Hid; discriminate Hid|].
    rewrite (Hkept id Hout) in Hid.
    apply Sign_err_frame in Hsign as [Hw Hs]. rewrite Hw in Hid. rewrite Hs in Hout.
    destruct (FundSiacoinsForOutputs_covered _ _ _ _ Hfund) as [_ Hmarks].
    destruct (decide (dbSpentOutputs (wallet σ1) !! id = dbSpentOutputs w !! id))
      as [Hsame|Hdiff]; [now rewrite <- Hsame|].
    exfalso. apply Hout, Hmarks. exact Hdiff.
  - destruct (Drop_run σ1) as (σ3 & Hdrop & _ & Hgone & Hkept). rewrite Hdrop.
    cbn [snd]. intros [= _ <-] id h Hid.
    destruct (decide (id ∈ spentByBuilder (tb σ1))) as [Hin|Hout];
      [rewrite (Hgone id Hin) in Hid; discriminate Hid|].
    rewrite (Hkept id Hout) in Hid.
    now rewrite (FundSiacoinsForOutputs_err_marks _ _ _ _ _ Hfund) in Hid.
Qed.

Lemma elem_of_fundedIDs (b : transactionBuilder) (id : Hash) :
  id ∈ fundedIDs b ->
  id ∈ sci_ParentID <$> SiacoinInputs (transaction b)
  \/ id ∈ sfi_ParentID <$> SiafundInputs (transaction b).
Proof.
  unfold fundedIDs. intros Hin. apply elem_of_app in Hin as [Hin|Hin];
    apply list_elem_of_omap in Hin as (i & _ & Hi);
    apply fmap_Some in Hi as (x & Hx & ->); [left|right];
    apply list_elem_of_fmap; exists x; (split; [reflexivity|]);
    apply (list_elem_of_lookup_2 _ i); exact Hx.
Qed.

(** X27.  What [NewTransaction] returns.  The transaction spends the
    usable outputs among the first outputs of the sorted list, as far as the
    scan went, and nothing else; it pays the requested outputs, the fee when
    it is above zero and at most one refund, and the outputs that it spends
    are worth exactly that much.  Every signature of it is for one of these
    inputs and covers the whole transaction.  The spent outputs are marked
    as spent at the current height in the wallet that the call leaves. *)
Theorem NewTransaction_built (outputs : list SiacoinOutput) (fee : Currency)
    (w w' : Wallet) (tx : Transaction) :
  NewTransaction outputs fee w = (ok tx, w') ->
  exists dust h so n refund,
    let chosen := filter (usable w h dust) (take n so) in
    DustThreshold w = ok dust /\ dbGetConsensusHeight w = ok h
    /\ getSortedOutputs w = ok so
    /\ SiacoinInputs tx = inputFor w <$> chosen
    /\ SiafundInputs tx = []
    /\ MinerFees tx = (if decide (0 < fee)%N then [fee] else [])
    /\ SiacoinOutputs tx = outputs ++ refund
    /\ (length refund <= 1)%nat
    /\ total chosen = (sumN (sco_Value <$> outputs) + fee + sumN (sco_Value <$> refund))%N
    /\ Forall (fun sig => sig_ParentID sig ∈ chosen.*1
                          /\ WholeTransaction (sig_CoveredFields sig) = true)
              (TransactionSignatures tx)
    /\ (forall id, id ∈ chosen.*1 -> dbSpentOutputs w' !! id = Some h)
    /\ (forall id, id ∉ chosen.*1 -> dbSpentOutputs w' !! id = dbSpentOutputs w !! id).
Proof.
  unfold NewTransaction, StartTransaction, RegisterTransaction.
  destruct (tgAdd w) as [[]|code|]; try discriminate.
  set (σ0 := {| tb := registerTransaction zeroTransaction []; wallet := w |}).
  destruct (FundSiacoinsForOutputs outputs fee σ0) as [[[]|e1|] σ1] eqn:Hfund;
    try discriminate.
  destruct (Sign true σ1) as [[txns|e2|] σ2] eqn:Hsign; try discriminate.
  destruct txns as [|tx0 rest]; [discriminate|]. intros [= -> <-].
  pose proof (keeps_FundSiacoinsForOutputs_when
                (fun b => SiafundInputs (transaction b) = []
                          /\ TransactionSignatures (transaction b) = []
                          /\ siafundInputs b = []) outputs fee) as Hkeeps.
  specialize (Hkeeps
                ltac:(intros b Hb; unfold withMinerFee; case_decide; [exact Hb | exact Hb])
                ltac:(intros b sci Hb; exact Hb)
                ltac:(intros b outs Hb; exact Hb)
                σ0 ltac:(repeat split)).
  rewrite Hfund in Hkeeps. cbn [snd] in Hkeeps. destruct Hkeeps as (Hsf & Hts & Hsfi).
  apply FundSiacoinsForOutputs_built in Hfund
    as (dust & h & so & n & refund & Hdust & Hheight & Hso & Hin & Hfee & Hout & Hlen
        & _ & Hbal & Hmarked & Hrest & Hpar).
  apply Sign_built in Hsign as [Hmore Hset].
  rewrite Hpar in Hset. cbn [σ0 tb parents registerTransaction app] in Hset.
  injection Hset as -> _.
  destruct Hmore as (sigs & Hsigs & Hall & Hu & _ & _ & _ & _ & _ & Hw).
  rewrite Hts in Hsigs. cbn [app] in Hsigs.
  exists dust, h, so, n, refund. cbv zeta.
  cbn [σ0 wallet tb transaction registerTransaction] in *.
  cbn [zeroTransaction SiacoinInputs MinerFees SiacoinOutputs app] in Hin, Hfee, Hout.
  split; [exact Hdust|]. split; [exact Hheight|]. split; [exact Hso|].
  split; [now rewrite <- Hin; exact (f_equal SiacoinInputs Hu)|].
  split; [now rewrite <- Hsf; exact (f_equal SiafundInputs Hu)|].
  split; [now rewrite <- Hfee; exact (f_equal MinerFees Hu)|].
  split; [now rewrite <- Hout; exact (f_equal SiacoinOutputs Hu)|].
  split; [exact Hlen|]. split; [exact Hbal|]. split.
  - rewrite Hsigs. eapply Forall_impl; [exact Hall|]. intros sig [Hid Hcf]. split.
    + apply elem_of_fundedIDs in Hid as [Hid|Hid].
      * now rewrite Hin, inputFor_ids in Hid.
      * rewrite Hsf in Hid. now apply elem_of_nil in Hid.
    + now rewrite Hcf.
  - rewrite Hw. split; [exact Hmarked | exact Hrest].
Qed.

Lemma omap_in_range {A B} (f : A -> B) (l l' : list A) (indices : list nat) :
  Forall (fun i => (i < length l)%nat) indices ->
  omap (fun i => f <$> (l ++ l') !! i) indices = omap (fun i => f <$> l !! i) indices.
Proof.
  induction 1 as [|i rest Hi _ IH]; [reflexivity|].
  cbn [omap list_omap]. rewrite IH. now rewrite (lookup_app_l l l' i Hi).
Qed.

Lemma fundedIDs_longer (b b' : transactionBuilder) :
  wellIndexed b ->
  siacoinInputs b' = siacoinInputs b -> siafundInputs b' = siafundInputs b ->
  (exists l, SiacoinInputs (transaction b') = SiacoinInputs (transaction b) ++ l) ->
  (exists l, SiafundInputs (transaction b') = SiafundInputs (transaction b) ++ l) ->
  fundedIDs b' = fundedIDs b.
Proof.
  intros [Hwc Hwf] Hc Hf (lc & Hlc) (lf & Hlf). unfold fundedIDs.
  rewrite Hc, Hf, Hlc, Hlf. now rewrite !omap_in_range.
Qed.

Lemma fundedIDs_appending (f : Transaction -> Transaction) (index : Transaction -> Z)
    (σ : world) :
  wellIndexed (tb σ) ->
  (forall t, (exists l, SiacoinInputs (f t) = SiacoinInputs t ++ l)
             /\ (exists l, SiafundInputs (f t) = SiafundInputs t ++ l)) ->
  fundedIDs (tb ((appending f index ;; mret tt) σ).2) = fundedIDs (tb σ).
Proof.
  intros Hwell Hf. apply fundedIDs_longer; try reflexivity; try exact Hwell; apply Hf.
Qed.

Lemma fundedIDs_runCall (c : builderCall) (σ : world) :
  funding c = false -> wellIndexed (tb σ) ->
  fundedIDs (tb (runCall c σ).2) = fundedIDs (tb σ).
Proof.
  intros Hc Hwell. destruct c; try discriminate Hc; cbn [runCall].
  - apply fundedIDs_longer; try reflexivity; try exact Hwell;
      exists []; now rewrite app_nil_r.
  - apply fundedIDs_appending; [exact Hwell|].
    intros t; split; exists []; now rewrite app_nil_r.
  - apply fundedIDs_appending; [exact Hwell|].
    intros t; split; [now exists [input] | exists []; now rewrite app_nil_r].
  - apply fundedIDs_appending; [exact Hwell|].
    intros t; split; exists []; now rewrite app_nil_r.
  - apply fundedIDs_appending; [exact Hwell|].
    intros t; split; exists []; now rewrite app_nil_r.
  - apply fundedIDs_appending; [exact Hwell|].
    intros t; split; exists []; now rewrite app_nil_r.
  - apply fundedIDs_appending; [exact Hwell|].
    intros t; split; exists []; now rewrite app_nil_r.
  - apply fundedIDs_appending; [exact Hwell|].
    intros t; split; [exists []; now rewrite app_nil_r | now exists [input]].
  - apply fundedIDs_appending; [exact Hwell|].
    intros t; split; exists []; now rewrite app_nil_r.
  - apply fundedIDs_appending; [exact Hwell|].
    intros t; split; exists []; now rewrite app_nil_r.
  - apply fundedIDs_appending; [exact Hwell|].
    intros t; split; exists []; now rewrite app_nil_r.
Qed.

(** X28.  What is added by hand is left unsigned.  Take a builder whose
    indices of added inputs are indices of the transaction, as after any
    calls on a registered builder, and call Add methods on it, any of them
    and any number of times.  A [Sign] that then succeeds appends
    signatures only for the inputs that the Fund calls had added before:
    an input added with [AddSiacoinInput] or [AddSiafundInput] gets no
    signature, unless it spends the very output of such an input. *)
Theorem added_inputs_left_unsigned (cs : list builderCall) (σ σ' : world)
    (wholeTransaction : bool) (txns : list Transaction) :
  wellIndexed (tb σ) ->
  Forall (fun c => funding c = false) cs ->
  Sign wholeTransaction (runCalls cs σ) = (ok txns, σ') ->
  exists sigs,
    TransactionSignatures (transaction (tb σ'))
    = TransactionSignatures (transaction (tb (runCalls cs σ))) ++ sigs
    /\ Forall (fun sig => sig_ParentID sig ∈ fundedIDs (tb σ)) sigs.
Proof.
  intros Hwell Hcs Hsign.
  assert (fundedIDs (tb (runCalls cs σ)) = fundedIDs (tb σ)) as Hsame.
  { clear Hsign. revert σ Hwell. induction Hcs as [|c cs Hc _ IH]; intros σ Hwell;
      [reflexivity|].
    unfold runCalls. cbn [fold_left]. fold (runCalls cs (runCall c σ).2).
    rewrite IH by now apply keeps_runCall. now apply fundedIDs_runCall. }
  apply Sign_built in Hsign as [(sigs & Hsigs & Hall & _) _].
  exists sigs. split; [exact Hsigs|]. rewrite <- Hsame.
  eapply Forall_impl; [exact Hall|]. now intros sig [Hid _].
Qed.

End Payments.

(** *** The builder on concrete wallets *)

(** A request for 100 with a fee of 10 against a single output of 100 fails
    with [ErrLowBalance] and leaves the fee and the input in the builder. *)
Lemma fund_for_outputs_not_rolled_back_witness :
  @FundSiacoinsForOutputs chainOne (payTo9 100) 10 (fresh (walletWith [] ∅))
  = (err ErrLowBalance, afterLowBalance)
  /\ (0 < 10)%N
  /\ exists dust h so,
      @DustThreshold chainOne (wallet (fresh (walletWith [] ∅))) = ok dust
      /\ @dbGetConsensusHeight chainOne (wallet (fresh (walletWith [] ∅))) = ok h
      /\ @getSortedOutputs chainOne (wallet (fresh (walletWith [] ∅))) = ok so
      /\ MinerFees (transaction (tb afterLowBalance))
         = MinerFees (transaction (tb (fresh (walletWith [] ∅)))) ++ [10%N]
      /\ SiacoinInputs (transaction (tb afterLowBalance))
         = SiacoinInputs (transaction (tb (fresh (walletWith [] ∅))))
           ++ (inputFor (wallet (fresh (walletWith [] ∅)))
                 <$> filter (@usable chainOne (wallet (fresh (walletWith [] ∅))) h dust) so)
      /\ siacoinInputs (tb afterLowBalance)
         = siacoinInputs (tb (fresh (walletWith [] ∅)))
           ++ seq (length (SiacoinInputs (transaction (tb (fresh (walletWith [] ∅))))))
                  (length
                     (filter (@usable chainOne (wallet (fresh (walletWith [] ∅))) h dust) so))
      /\ wallet afterLowBalance = wallet (fresh (walletWith [] ∅)).
Proof.
  split; [vm_compute; reflexivity|]. split; [lia|].
  apply (@fund_for_outputs_not_rolled_back chainOne (payTo9 100) 10
           (fresh (walletWith [] ∅)) afterLowBalance ErrLowBalance).
  - vm_compute. reflexivity.
  - left. reflexivity.
  - lia.
Defined.

(** The keys of the seed of [runPrimitives] have no time lock: they carry
    the time lock that a wallet has on file wherever that is 0. *)
Lemma runPrimitives_locksKept (height : Z) (dust : N) (confirmed : list (N * SiacoinOutput))
    (w : Wallet) (bucket : list (N * SiafundOutput)) :
  (forall o, o ∈ bucket -> lockOf w o = 0%Z) ->
  @locksKept (runPrimitives height dust confirmed) w bucket.
Proof.
  intros Hzero n sk o _ Hgen Ho _. simpl in Hgen. injection Hgen as <-. simpl.
  symmetry. exact (Hzero o Ho).
Qed.

Lemma ownSiafund_decodes (spent : gmap N Z) :
  @decodes chainSiafunds (dbSiafundOutputs (wallet (fresh (walletWith ownSiafund spent))))
    ownSiafund.
Proof. repeat constructor. Qed.

Lemma ownSiafund_locksKept (spent : gmap N Z) :
  @locksKept chainSiafunds (wallet (fresh (walletWith ownSiafund spent))) ownSiafund.
Proof.
  apply runPrimitives_locksKept. intros o Ho.
  apply list_elem_of_singleton in Ho as ->. reflexivity.
Qed.

(** A request for 50 against a single output of 100 that is tentatively
    spent fails with [ErrIncompleteTransactions]; with 150 requested it
    fails with [ErrLowBalance].  A request for 7 siafunds against a single
    output of 5 at an address of the seed of the wallet fails with
    [ErrLowBalance]; a request for 5 while that output is tentatively spent
    fails with [ErrIncompleteTransactions]. *)
Lemma fund_failures_witness :
  (@FundSiacoinsForOutputs chainOne (payTo9 50) 0 (fresh (walletWith [] spentAt90))).1
  = err ErrIncompleteTransactions
  /\ (@FundSiacoinsForOutputs chainOne (payTo9 150) 0 (fresh (walletWith [] spentAt90))).1
     = err ErrLowBalance
  /\ (@FundSiafunds chainSiafunds 7 (fresh (walletWith ownSiafund ∅))).1 = err ErrLowBalance
  /\ (@FundSiafunds chainSiafunds 5 (fresh (walletWith ownSiafund siafundSpentAt90))).1
     = err ErrIncompleteTransactions.
Proof.
  split; [|split; [|split]].
  - apply (proj1 (proj1 (proj2 (@fund_failures chainOne)) (payTo9 50) 0%N
                    (fresh (walletWith [] spentAt90)) 1%N 100%Z oneOutput
                    eq_refl eq_refl eq_refl)).
    vm_compute. split; [reflexivity | discriminate].
  - apply (proj2 (proj1 (proj2 (@fund_failures chainOne)) (payTo9 150) 0%N
                    (fresh (walletWith [] spentAt90)) 1%N 100%Z oneOutput
                    eq_refl eq_refl eq_refl)).
    vm_compute. reflexivity.
  - apply (proj2 (proj1 (proj2 (proj2 (proj2 (proj2 (@fund_failures chainSiafunds)))
                                  7%N (fresh (walletWith ownSiafund ∅)) 100%Z ownSiafund
                                  eq_refl (ownSiafund_decodes ∅) (ownSiafund_locksKept ∅)))
                    ltac:(right; right; vm_compute; reflexivity))).
    vm_compute. reflexivity.
  - apply (proj1 (proj1 (proj2 (proj2 (proj2 (proj2 (@fund_failures chainSiafunds)))
                                  5%N (fresh (walletWith ownSiafund siafundSpentAt90)) 100%Z
                                  ownSiafund eq_refl (ownSiafund_decodes siafundSpentAt90)
                                  (ownSiafund_locksKept siafundSpentAt90)))
                    ltac:(right; left; vm_compute; reflexivity))).
    vm_compute. split; [reflexivity | discriminate].
Defined.

(** A payment of 60 with a fee of 10 from the single output of 100 pays
    the request and one refund. *)
Lemma outputs_funded_witness :
  @FundSiacoinsForOutputs chainOne (payTo9 60) 10 (fresh (walletWith [] ∅)) = (ok tt, paid60)
  /\ exists refund,
       SiacoinOutputs (transaction (tb paid60)) = payTo9 60 ++ refund
       /\ (length refund <= 1)%nat.
Proof.
  split; [vm_compute; reflexivity|].
  destruct (@outputs_funded chainOne (payTo9 60) 10 (fresh (walletWith [] ∅)) paid60)
    as (dust & h & so & n & refund & _ & _ & _ & _ & _ & Hout & Hlen & _);
    [vm_compute; reflexivity|].
  exists refund. split; [exact Hout | exact Hlen].
Defined.

(** [FundSiacoins] for 50 from the single output of 100 adds one parent
    without a miner fee. *)
Lemma coins_funded_witness :
  @FundSiacoins chainOne 50 (fresh (walletWith [] ∅))
  = (ok tt, (@FundSiacoins chainOne 50 (fresh (walletWith [] ∅))).2)
  /\ exists parentTxn,
       parents (tb (@FundSiacoins chainOne 50 (fresh (walletWith [] ∅))).2) = [parentTxn]
       /\ MinerFees parentTxn = [].
Proof.
  split; [vm_compute; reflexivity|].
  destruct (@coins_funded chainOne 50 (fresh (walletWith [] ∅))
              (@FundSiacoins chainOne 50 (fresh (walletWith [] ∅))).2)
    as (dust & h & confirmed & n & parentUC & refund & parentTxn
        & _ & _ & _ & Hparents & _ & _ & _ & Hfees & _);
    [vm_compute; reflexivity|].
  exists parentTxn. split; [exact Hparents | exact Hfees].
Defined.

(** [Sign] on the funded payment returns the signed transaction alone. *)
Lemma Sign_signs_funded_inputs_witness :
  @Sign chainOne true paid60
  = (ok [transaction (tb (@Sign chainOne true paid60).2)], (@Sign chainOne true paid60).2)
  /\ [transaction (tb (@Sign chainOne true paid60).2)]
     = parents (tb paid60) ++ [transaction (tb (@Sign chainOne true paid60).2)].
Proof.
  split; [vm_compute; reflexivity|].
  refine (proj2 (@Sign_signs_funded_inputs chainOne true paid60
                   (@Sign chainOne true paid60).2 _ _)).
  vm_compute. reflexivity.
Defined.

(** The same [Sign] sets [signed]. *)
Lemma Sign_poisons_witness :
  @Sign chainOne true paid60
  = (ok [transaction (tb (@Sign chainOne true paid60).2)], (@Sign chainOne true paid60).2)
  /\ signed (tb (@Sign chainOne true paid60).2) = true.
Proof.
  split; [vm_compute; reflexivity|].
  refine (proj1 (proj1 (@Sign_poisons chainOne true paid60 (@Sign chainOne true paid60).2
                          [transaction (tb (@Sign chainOne true paid60).2)] _) _)).
  - vm_compute. reflexivity.
  - left. vm_compute. discriminate.
Defined.

(** [Drop] after the funded payment leaves no mark on output 1. *)
Lemma Drop_erases_siacoin_reservations_witness :
  @siacoinFunded chainOne (fresh (walletWith [] ∅)) paid60
  /\ exists σ'',
       Drop paid60 = (ok tt, σ'') /\ tb σ'' = emptyBuilder
       /\ forall id, remarked (wallet (fresh (walletWith [] ∅))) (wallet paid60) id ->
            dbSpentOutputs (wallet σ'') !! id = None.
Proof.
  assert (@siacoinFunded chainOne (fresh (walletWith [] ∅)) paid60) as Hfunded.
  { apply (@funded_outputs chainOne (fresh (walletWith [] ∅)) (fresh (walletWith [] ∅))
             paid60 (payTo9 60) 10).
    - apply funded_none.
    - vm_compute. reflexivity. }
  split; [exact Hfunded|].
  exact (@Drop_erases_siacoin_reservations chainOne (fresh (walletWith [] ∅)) paid60 Hfunded).
Defined.

(** A payment of 100 with a fee of 10 from the single output of 100 fails
    with [ErrLowBalance] and leaves nothing marked. *)
Lemma NewTransaction_releases_on_error_witness :
  @NewTransaction chainOne runServices (payTo9 100) 10 (walletWith [] ∅)
  = (err ErrLowBalance,
     (@NewTransaction chainOne runServices (payTo9 100) 10 (walletWith [] ∅)).2)
  /\ forall id h,
       dbSpentOutputs
         (@NewTransaction chainOne runServices (payTo9 100) 10 (walletWith [] ∅)).2 !! id
       = Some h ->
       dbSpentOutputs (walletWith [] ∅) !! id = Some h.
Proof.
  split; [vm_compute; reflexivity|].
  apply (@NewTransaction_releases_on_error chainOne runServices (payTo9 100) 10
           (walletWith [] ∅) _ ErrLowBalance).
  vm_compute. reflexivity.
Defined.

(** A payment of 60 with a fee of 10 returns the signed transaction with
    the fee. *)
Lemma NewTransaction_built_witness :
  @NewTransaction chainOne runServices (payTo9 60) 10 (walletWith [] ∅)
  = (ok (transaction (tb (@Sign chainOne true paid60).2)),
     (@NewTransaction chainOne runServices (payTo9 60) 10 (walletWith [] ∅)).2)
  /\ MinerFees (transaction (tb (@Sign chainOne true paid60).2)) = [10%N]
  /\ exists refund,
       SiacoinOutputs (transaction (tb (@Sign chainOne true paid60).2)) = payTo9 60 ++ refund.
Proof.
  split; [vm_compute; reflexivity|].
  destruct (@NewTransaction_built chainOne runServices (payTo9 60) 10 (walletWith [] ∅)
              (@NewTransaction chainOne runServices (payTo9 60) 10 (walletWith [] ∅)).2
              (transaction (tb (@Sign chainOne true paid60).2)))
    as (dust & h & so & n & refund & _ & _ & _ & _ & _ & Hfee & Hout & _);
    [vm_compute; reflexivity|].
  split; [exact Hfee|]. exists refund. exact Hout.
Defined.

(** An input for output 77 added by hand to the funded payment gets no
    signature: the signatures that [Sign] appends are for output 1. *)
Lemma added_inputs_left_unsigned_witness :
  wellIndexed (tb paid60)
  /\ funding (callAddSiacoinInput input77) = false
  /\ @Sign chainOne true (@runCalls chainOne [callAddSiacoinInput input77] paid60)
     = (ok [transaction
              (tb (@Sign chainOne true
                     (@runCalls chainOne [callAddSiacoinInput input77] paid60)).2)],
        (@Sign chainOne true (@runCalls chainOne [callAddSiacoinInput input77] paid60)).2)
  /\ exists sigs,
       TransactionSignatures
         (transaction
            (tb (@Sign chainOne true
                   (@runCalls chainOne [callAddSiacoinInput input77] paid60)).2))
       = TransactionSignatures
           (transaction (tb (@runCalls chainOne [callAddSiacoinInput input77] paid60)))
         ++ sigs
       /\ Forall (fun sig => sig_ParentID sig ∈ fundedIDs (tb paid60)) sigs.
Proof.
  assert (wellIndexed (tb paid60)) as Hwell.
  { split; vm_compute; repeat constructor. }
  split; [exact Hwell|]. split; [reflexivity|]. split; [vm_compute; reflexivity|].
  apply (@added_inputs_left_unsigned chainOne [callAddSiacoinInput input77] paid60
           (@Sign chainOne true (@runCalls chainOne [callAddSiacoinInput input77] paid60)).2
           true
           [transaction
              (tb (@Sign chainOne true
                     (@runCalls chainOne [callAddSiacoinInput input77] paid60)).2)]).
  - exact Hwell.
  - repeat constructor.
  - vm_compute. reflexivity.
Defined.

(** C6, the claim as stated, fails in two places.  [FundSiafunds] makes no
    dust check: with a dust threshold of 10 it takes a siafund output of
    value 5 and marks it as spent.  And a siacoin output that is tentatively
    spent and also time-locked is not skipped only because it was spent,
    yet it makes the call fail with [ErrIncompleteTransactions]: no output
    is usable, none is skipped for the respend timeout alone, and 50 are
    requested. *)
Lemma fund_failures_not_as_claimed :
  (@DustThreshold chainSiafunds (walletWith oneSiafund ∅) = ok 10%N
   /\ (sfo_Value <$> (oneSiafund.*2)) = [5%N]
   /\ (@FundSiafunds chainSiafunds 5 (fresh (walletWith oneSiafund ∅))).1 = ok tt
   /\ dbSpentOutputs
        (wallet (@FundSiafunds chainSiafunds 5 (fresh (walletWith oneSiafund ∅))).2) !! 3%N
      = Some 100%Z)
  /\ (@getSortedOutputs chainLocked (walletWith [] spentAt90) = ok lockedOutput
      /\ filter (@usable chainLocked (walletWith [] spentAt90) 100 1) lockedOutput = []
      /\ filter (@onlySpent chainLocked (walletWith [] spentAt90) 100 1) lockedOutput = []
      /\ @calculateAmountFromOutputs (payTo9 50) 0 = 50%N
      /\ (@FundSiacoinsForOutputs chainLocked (payTo9 50) 0
            (fresh (walletWith [] spentAt90))).1
         = err ErrIncompleteTransactions).
Proof. repeat split; vm_compute; reflexivity. Qed.

(** C3 at a concrete wallet.  [FundSiafunds] marks siafund output 3 as
    spent at height 100; [Drop] empties the builder and leaves the mark. *)
Theorem drop_keeps_siafund_reservation :
  (@FundSiafunds chainSiafunds 5 (fresh (walletWith oneSiafund ∅))).1 = ok tt
  /\ dbSpentOutputs
       (wallet (@FundSiafunds chainSiafunds 5 (fresh (walletWith oneSiafund ∅))).2) !! 3%N
     = Some 100%Z
  /\ ((@FundSiafunds chainSiafunds 5 ;; Drop) (fresh (walletWith oneSiafund ∅))).1 = ok tt
  /\ tb ((@FundSiafunds chainSiafunds 5 ;; Drop) (fresh (walletWith oneSiafund ∅))).2
     = emptyBuilder
  /\ dbSpentOutputs
       (wallet ((@FundSiafunds chainSiafunds 5 ;; Drop) (fresh (walletWith oneSiafund ∅))).2)
       !! 3%N
     = Some 100%Z.
Proof. repeat split; vm_compute; reflexivity. Qed.

(** The same with siacoins: [Drop] removes the marks of [FundSiacoins] and
    of [FundSiacoinsForOutputs]. *)
Lemma drop_restores_siacoin_reservations :
  dbSpentOutputs (wallet (@FundSiacoins chainOne 50 (fresh (walletWith [] ∅))).2) !! 1%N
  = Some 100%Z
  /\ dbSpentOutputs
       (wallet ((@FundSiacoins chainOne 50 ;; Drop) (fresh (walletWith [] ∅))).2)
     = ∅
  /\ dbSpentOutputs
       (wallet ((@FundSiacoinsForOutputs chainOne (payTo9 60) 10 ;; Drop)
                  (fresh (walletWith [] ∅))).2)
     = ∅.
Proof. repeat split; vm_compute; reflexivity. Qed.

(** C7 at a concrete builder.  The builder has one funded input whose
    address the wallet knows without holding a secret key for it.  [Sign]
    returns the transaction without any signature and without error, and
    sets [signed] all the same: the next [Sign] fails with
    [errBuilderAlreadySigned]. *)
Theorem sign_without_signature_poisons :
  signed (tb keylessWorld) = false
  /\ (@Sign chainOne true keylessWorld).1 = ok [transaction (tb keylessWorld)]
  /\ TransactionSignatures (transaction (tb (@Sign chainOne true keylessWorld).2)) = []
  /\ signed (tb (@Sign chainOne true keylessWorld).2) = true
  /\ (@Sign chainOne true (@Sign chainOne true keylessWorld).2).1
     = err errBuilderAlreadySigned.
Proof. repeat split; vm_compute; reflexivity. Qed.

End WalletFacts.
